(** * Skip lists of snll1/skiplist: a shallow embedding and its properties

    The repository has two implementations of the interface [SkipList<K, V>]:
    [FatSkipList] (skiplist.h, one mutex around a classical skip list) and
    [LockedSkipList] (locked_skiplist.h, a mutex and two flags per node).
    Both are embedded here as programs over an explicit memory: a finite map
    from addresses to nodes, the null pointer being address 0.  Keys are
    [int] as in the tests (modelled as [Z], only compared), values are any
    type [V] with a default [V0] standing for [V{}]. *)

From Stdlib Require Import ZArith QArith Lia Sorted.
From stdpp Require Import base gmap sets list strings pretty.
Local Open Scope Z_scope.

(** ** Memory, errors and the state-and-error monad *)

Abbreviation addr := nat (only parsing).
Abbreviation null := 0%nat (only parsing).

(** What can go wrong in a run: a pointer that is null or dangling is
    dereferenced, a vector is indexed out of range, a mutex is locked that
    is already held (the run cannot proceed), a mutex is unlocked that is not
    held, or a loop needed more iterations than the fuel given. *)
Inductive error := BadPointer | OutOfRange | Blocked | UnlockNotHeld | OutOfFuel.

Inductive result (S A : Type) :=
| Ok (a : A) (s : S)
| Err (e : error) (s : S).
Arguments Ok {S A} a s.
Arguments Err {S A} e s.

Definition M (S A : Type) : Type := S → result S A.

Definition ret {S A} (a : A) : M S A := λ s, Ok a s.
Definition fail {S A} (e : error) : M S A := λ s, Err e s.
Definition bind {S A B} (m : M S A) (k : A → M S B) : M S B :=
  λ s, match m s with
       | Ok a s' => k a s'
       | Err e s' => Err e s'
       end.
Definition lift_opt {S A} (e : error) (o : option A) : M S A :=
  match o with Some a => ret a | None => fail e end.

Notation "'let*' x ':=' m 'in' k" := (bind m (λ x, k))
  (at level 10, x name, m at level 100, k at level 200, only parsing).
Notation "'let*' ' p ':=' m 'in' k" := (bind m (λ p, k))
  (at level 10, p pattern, m at level 100, k at level 200, only parsing).
Notation "m ';;' k" := (bind m (λ _, k))
  (at level 100, k at level 200, right associativity, only parsing).

(** What a run returned, whether it failed, and the state it ended in. *)
Definition value_of {S A} (r : result S A) : option A :=
  match r with Ok a _ => Some a | Err _ _ => None end.
Definition error_of {S A} (r : result S A) : option error :=
  match r with Ok _ _ => None | Err e _ => Some e end.
Definition state_of {S A} (r : result S A) : S :=
  match r with Ok _ s => s | Err _ s => s end.

(** [std::vector] indexed by an [int]: reading or writing outside
    [0 .. size-1] is an error. *)
Definition vget {A} (l : list A) (i : Z) : option A :=
  if decide (0 ≤ i) then l !! Z.to_nat i else None.
Definition vset {A} (l : list A) (i : Z) (x : A) : option (list A) :=
  if decide (0 ≤ i < Z.of_nat (length l)) then Some (<[Z.to_nat i := x]> l) else None.

(** [dist(gen_) < probability_] on the reals the doubles stand for. *)
Definition Qltb (a b : Q) : bool := negb (Qle_bool b a).

(** The level generator in the words of the specification: the number of
    leading draws below [p], counting at most [cap] of them.  [drop_draws n g]
    is the generator [g] after [n] draws. *)
Fixpoint count_successes (cap : nat) (p : Q) (g : nat → Q) : nat :=
  match cap with
  | O => O
  | S c => if Qltb (g O) p then S (count_successes c p (λ i, g (S i))) else O
  end.

Fixpoint drop_draws (n : nat) (g : nat → Q) : nat → Q :=
  match n with
  | O => g
  | S m => drop_draws m (λ i, g (S i))
  end.

(** What [dump] sends to [std::cout], one item for each [<<]: a string
    literal, an [int] (a level or a key), a value, or [std::endl]. *)
Inductive printed (V : Type) :=
| PStr (s : string)
| PInt (z : Z)
| PVal (v : V)
| PEndl.
Arguments PStr {V} s.
Arguments PInt {V} z.
Arguments PVal {V} v.
Arguments PEndl {V}.

(** [std::cout << "(" << node->key << "," << node->value << ") "] *)
Definition dump_entry {V} (p : Z * V) : list (printed V) :=
  [PStr "("; PInt p.1; PStr ","; PVal p.2; PStr ") "].

(** The line that [dump] prints for a level that has the pairs [ps]. *)
Definition dump_line {V} (level : Z) (ps : list (Z * V)) : list (printed V) :=
  [PStr "Level: "; PInt level; PStr " Keys: "] ++ concat (dump_entry <$> ps) ++ [PEndl].

(** ** The abstract view of a skip list: a sorted list of towers

    A well-formed skip list is described by the list of its nodes in key
    order, each with its address, key, value and top level.  The forward
    pointer of a node at level [L] is then the address of the next node of
    level at least [L], or the end marker ([tail_] or the null pointer). *)

Section Towers.
Context {V : Type}.

Record tower := mkTower {
  t_addr : addr;
  t_key : Z;
  t_val : V;
  t_lvl : Z;
}.

(** The first tower of [ts] that reaches level [L], or [e]. *)
Fixpoint next_at (e : addr) (L : Z) (ts : list tower) : addr :=
  match ts with
  | [] => e
  | t :: r => if decide (L ≤ t_lvl t) then t_addr t else next_at e L r
  end.

(** The last tower of [ts] that reaches level [L], or [d]. *)
Fixpoint last_at (d : addr) (L : Z) (ts : list tower) : addr :=
  match ts with
  | [] => d
  | t :: r => last_at (if decide (L ≤ t_lvl t) then t_addr t else d) L r
  end.

Definition below (k : Z) (ts : list tower) : list tower := filter (λ t, t_key t < k) ts.
Definition from (k : Z) (ts : list tower) : list tower := filter (λ t, k ≤ t_key t) ts.

Fixpoint sorted (ts : list tower) : Prop :=
  match ts with
  | [] => True
  | t :: r => Forall (λ u, t_key t < t_key u) r ∧ sorted r
  end.

(** The forward pointers, seen as a partial function [F] of an address and
    a level, are those of the towers [ts] ending in [e]. *)
Fixpoint chain_links (F : addr → Z → option addr) (e : addr) (ts : list tower) : Prop :=
  match ts with
  | [] => True
  | t :: r => (∀ L, 0 ≤ L ≤ t_lvl t → F (t_addr t) L = Some (next_at e L r)) ∧ chain_links F e r
  end.

(** The map from keys to values that the towers stand for, and the three
    operations on towers that the code implements. *)
Definition model (ts : list tower) : gmap Z V :=
  list_to_map ((λ t, (t_key t, t_val t)) <$> ts).

Definition t_insert (t : tower) (ts : list tower) : list tower :=
  below (t_key t) ts ++ t :: from (t_key t) ts.
Definition t_remove (k : Z) (ts : list tower) : list tower :=
  filter (λ t, t_key t ≠ k) ts.
Definition t_update (k : Z) (v : V) (ts : list tower) : list tower :=
  (λ t, if decide (t_key t = k) then mkTower (t_addr t) (t_key t) v (t_lvl t) else t) <$> ts.

(** The result of [find] in the concurrent variant: the top level of the
    tower with key [k], or -1. *)
Definition found_of (k : Z) (ts : list tower) : Z :=
  match from k ts with
  | t :: _ => if decide (t_key t = k) then t_lvl t else -1
  | [] => -1
  end.

End Towers.
Arguments tower V : clear implicits.

(** ** LockedSkipList (locked_skiplist.h) *)

Module LockedSkipList.
Section WithValue.
Context {V : Type}.
Variable V0 : V.

Record Node := mkNode {
  key : Z;
  value : V;
  forward : list addr;
  marked : bool;
  fully_linked : bool;
  node_level : Z;
}.

Definition with_forward (n : Node) (f : list addr) : Node :=
  mkNode (key n) (value n) f (marked n) (fully_linked n) (node_level n).
Definition with_marked (n : Node) (b : bool) : Node :=
  mkNode (key n) (value n) (forward n) b (fully_linked n) (node_level n).
Definition with_fully_linked (n : Node) (b : bool) : Node :=
  mkNode (key n) (value n) (forward n) (marked n) b (node_level n).

(** The object: its fields, the nodes it has allocated ([heap]) and the set
    of nodes whose [mtx] is locked ([held]).  [gen_] is the sequence of
    numbers that [dist(gen_)] will still return. *)
Record t := mkList {
  max_level_ : Z;
  probability_ : Q;
  header_ : addr;
  tail_ : addr;
  gen_ : nat → Q;
  heap : gmap nat Node;
  held : gset nat;
}.

Definition with_heap (s : t) (h : gmap nat Node) : t :=
  mkList (max_level_ s) (probability_ s) (header_ s) (tail_ s) (gen_ s) h (held s).
Definition with_held (s : t) (l : gset nat) : t :=
  mkList (max_level_ s) (probability_ s) (header_ s) (tail_ s) (gen_ s) (heap s) l.
Definition with_gen (s : t) (g : nat → Q) : t :=
  mkList (max_level_ s) (probability_ s) (header_ s) (tail_ s) g (heap s) (held s).

Definition deref (p : addr) : M t Node :=
  λ s, match heap s !! p with Some n => Ok n s | None => Err BadPointer s end.
Definition store (p : addr) (n : Node) : M t unit :=
  λ s, Ok tt (with_heap s (<[p := n]> (heap s))).
Definition get_forward (p : addr) (level : Z) : M t addr :=
  let* n := deref p in lift_opt OutOfRange (vget (forward n) level).
Definition set_forward (p : addr) (level : Z) (q : addr) : M t unit :=
  let* n := deref p in
  let* f := lift_opt OutOfRange (vset (forward n) level q) in
  store p (with_forward n f).
Definition set_marked (p : addr) (b : bool) : M t unit :=
  let* n := deref p in store p (with_marked n b).
Definition set_fully_linked (p : addr) (b : bool) : M t unit :=
  let* n := deref p in store p (with_fully_linked n b).

(** [new Node(k, v, level)]: an address that is neither null nor in use. *)
Definition new_node (k : Z) (v : V) (level : Z) : M t addr :=
  λ s, let p := fresh ({[null]} ∪ dom (heap s)) in
       Ok p (with_heap s (<[p := mkNode k v (replicate (Z.to_nat (level + 1)) null)
                                        false false level]> (heap s))).
Definition delete_node (p : addr) : M t unit :=
  deref p ;; λ s, Ok tt (with_heap s (delete p (heap s))).

Definition lock (p : addr) : M t unit :=
  deref p ;;
  λ s, if decide (p ∈ held s) then Err Blocked s else Ok tt (with_held s ({[p]} ∪ held s)).
Definition unlock (p : addr) : M t unit :=
  deref p ;;
  λ s, if decide (p ∈ held s) then Ok tt (with_held s (held s ∖ {[p]})) else Err UnlockNotHeld s.

Fixpoint unlock_list (l : list addr) : M t unit :=
  match l with
  | [] => ret tt
  | p :: r => unlock p ;; unlock_list r
  end.
(** [for (auto& node : locked_nodes) node->unlock();] *)
Definition unlock_all (locked_nodes : gset nat) : M t unit :=
  unlock_list (elements locked_nodes).

(** The constructor: header of height [max_level] at address 1, tail of
    height 0 at address 2, every forward pointer of the header set to the
    tail. *)
Definition create (max_level : Z) (prob : Q) (gen : nat → Q) : t :=
  let hd := 1%nat in
  let tl := 2%nat in
  mkList max_level prob hd tl gen
    (<[hd := mkNode 0 V0 (replicate (Z.to_nat (max_level + 1)) tl) false false max_level]>
       (<[tl := mkNode 0 V0 [null] false false 0]> ∅))
    ∅.

(** [get_rand_level]: every evaluation of the loop condition takes one
    number from the generator. *)
Definition draw : M t Q :=
  λ s, Ok (gen_ s O) (with_gen s (λ i, gen_ s (S i))).

Fixpoint rand_level_loop (fuel : nat) (level : Z) : M t Z :=
  match fuel with
  | O => fail OutOfFuel
  | S f =>
      let* d := draw in
      λ s, if Qltb d (probability_ s) && (level <? max_level_ s)
           then rand_level_loop f (level + 1) s
           else Ok level s
  end.
Definition get_rand_level (fuel : nat) : M t Z := rand_level_loop fuel 0.

(** [find]: the inner [while] of one level. *)
Fixpoint find_walk (fuel : nat) (k : Z) (level : Z) (pred curr : addr) : M t (addr * addr) :=
  match fuel with
  | O => fail OutOfFuel
  | S f =>
      λ s, if decide (curr = tail_ s) then Ok (pred, curr) s
           else (let* n := deref curr in
                 if key n <? k
                 then let* nxt := get_forward curr level in find_walk f k level curr nxt
                 else ret (pred, curr)) s
  end.

Fixpoint find_levels (fuel : nat) (k : Z) (levels : list Z) (pred : addr) (found : Z)
    (preds succs : list addr) : M t (Z * list addr * list addr) :=
  match levels with
  | [] => ret (found, preds, succs)
  | level :: rest =>
      let* curr0 := get_forward pred level in
      let* '(pred', curr) := find_walk fuel k level pred curr0 in
      let* found' :=
        (λ s, if (found =? -1) && negb (bool_decide (curr = tail_ s))
              then (let* n := deref curr in
                    ret (if k =? key n then level else found)) s
              else Ok found s) in
      let* preds' := lift_opt OutOfRange (vset preds level pred') in
      let* succs' := lift_opt OutOfRange (vset succs level curr) in
      find_levels fuel k rest pred' found' preds' succs'
  end.

(** The levels [max_level_, ..., 0] that [find] goes through. *)
Definition levels_down (top : Z) : list Z := reverse (seqZ 0 (top + 1)).

Definition find (fuel : nat) (k : Z) (preds succs : list addr) : M t (Z * list addr * list addr) :=
  λ s, find_levels fuel k (levels_down (max_level_ s)) (header_ s) (-1) preds succs s.

(** [std::vector<Node*> preds(max_level_ + 1)]: all null. *)
Definition new_vector : M t (list addr) :=
  λ s, Ok (replicate (Z.to_nat (max_level_ s + 1)) null) s.

Definition search (fuel : nat) (k : Z) : M t (bool * V) :=
  let* preds := new_vector in
  let* succs := new_vector in
  let* '(found_level, preds, succs) := find fuel k preds succs in
  if found_level =? -1 then ret (false, V0)
  else
    let* node := lift_opt OutOfRange (vget succs found_level) in
    λ s, if decide (node = tail_ s) then Ok (false, V0) s
         else (let* n := deref node in
               if (key n =? k) && fully_linked n && negb (marked n)
               then ret (true, value n)
               else ret (false, V0)) s.

(** [insert]: the busy wait on [fully_linked]. *)
Fixpoint wait_fully_linked (fuel : nat) (p : addr) : M t unit :=
  match fuel with
  | O => fail OutOfFuel
  | S f => let* n := deref p in
           if fully_linked n then ret tt else wait_fully_linked f p
  end.

(** [if (!locked_nodes.count(pred)) { pred->lock(); locked_nodes.insert(pred); }] *)
Definition lock_once (pred : addr) (locked_nodes : gset nat) : M t (gset nat) :=
  if decide (pred ∈ locked_nodes) then ret locked_nodes
  else lock pred ;; ret ({[pred]} ∪ locked_nodes).

(** [insert]: the loop that locks and validates the predecessors; the
    result is [valid] and [locked_nodes]. *)
Fixpoint insert_validate (levels : list Z) (preds succs : list addr) (locked_nodes : gset nat)
    : M t (bool * gset nat) :=
  match levels with
  | [] => ret (true, locked_nodes)
  | level :: rest =>
      let* pred := lift_opt OutOfRange (vget preds level) in
      let* succ := lift_opt OutOfRange (vget succs level) in
      let* locked_nodes := lock_once pred locked_nodes in
      let* pn := deref pred in
      if marked pn then ret (false, locked_nodes)
      else
        let* sn := deref succ in
        if marked sn then ret (false, locked_nodes)
        else
          let* f := get_forward pred level in
          if decide (f = succ) then insert_validate rest preds succs locked_nodes
          else ret (false, locked_nodes)
  end.

(** [insert]: linking the new node at the levels [0 .. node_level]. *)
Fixpoint insert_link (levels : list Z) (preds succs : list addr) (new_node : addr) : M t unit :=
  match levels with
  | [] => ret tt
  | level :: rest =>
      let* succ := lift_opt OutOfRange (vget succs level) in
      set_forward new_node level succ ;;
      let* pred := lift_opt OutOfRange (vget preds level) in
      set_forward pred level new_node ;;
      insert_link rest preds succs new_node
  end.

(** [insert]: the [while (true)]; [n] bounds its iterations, [fuel] those of
    the loops inside. *)
Fixpoint insert_loop (n fuel : nat) (k : Z) (v : V) (node_level : Z) (preds succs : list addr)
    : M t bool :=
  match n with
  | O => fail OutOfFuel
  | S n' =>
      let* '(found_level, preds, succs) := find fuel k preds succs in
      if negb (found_level =? -1) then
        let* node_found := lift_opt OutOfRange (vget succs found_level) in
        let* nf := deref node_found in
        if negb (marked nf) then wait_fully_linked fuel node_found ;; ret false
        else insert_loop n' fuel k v node_level preds succs
      else
        let* '(valid, locked_nodes) :=
          insert_validate (seqZ 0 (node_level + 1)) preds succs ∅ in
        if negb valid then
          unlock_all locked_nodes ;;
          insert_loop n' fuel k v node_level preds succs
        else
          let* nw := new_node k v node_level in
          insert_link (seqZ 0 (node_level + 1)) preds succs nw ;;
          set_fully_linked nw true ;;
          unlock_all locked_nodes ;;
          ret true
  end.

Definition insert (fuel : nat) (k : Z) (v : V) : M t bool :=
  let* node_level := get_rand_level fuel in
  let* preds := new_vector in
  let* succs := new_vector in
  insert_loop fuel fuel k v node_level preds succs.

(** [remove]: the loop that locks and validates the predecessors. *)
Fixpoint remove_validate (levels : list Z) (preds : list addr) (victim : addr)
    (locked_nodes : gset nat) : M t (bool * gset nat) :=
  match levels with
  | [] => ret (true, locked_nodes)
  | level :: rest =>
      let* pred := lift_opt OutOfRange (vget preds level) in
      let* locked_nodes := lock_once pred locked_nodes in
      let* pn := deref pred in
      if marked pn then ret (false, locked_nodes)
      else
        let* f := get_forward pred level in
        if decide (f = victim) then remove_validate rest preds victim locked_nodes
        else ret (false, locked_nodes)
  end.

(** [remove]: [preds[level]->forward[level] = victim->forward[level]] for
    [level = node_level, ..., 0]. *)
Fixpoint remove_unlink (levels : list Z) (preds : list addr) (victim : addr) : M t unit :=
  match levels with
  | [] => ret tt
  | level :: rest =>
      let* pred := lift_opt OutOfRange (vget preds level) in
      let* nxt := get_forward victim level in
      set_forward pred level nxt ;;
      remove_unlink rest preds victim
  end.

(** [remove]: what follows the marking of the victim, lines 186 to 217.
    After the validation loop the code is straight-line: when [valid] is
    false the predecessors are unlocked, and in both cases the victim is
    unlinked and deleted, [locked_nodes] are unlocked and [true] is
    returned. *)
Definition remove_unlink_phase (preds : list addr) (victim : addr) (node_level : Z) : M t bool :=
  let* '(valid, locked_nodes) :=
    remove_validate (seqZ 0 (node_level + 1)) preds victim ∅ in
  (if negb valid then unlock_all locked_nodes else ret tt) ;;
  remove_unlink (levels_down node_level) preds victim ;;
  unlock victim ;;
  delete_node victim ;;
  unlock_all locked_nodes ;;
  ret true.

(** [remove]: the part of the loop body after [find], lines 167 to 218.
    [None] stands for reaching the end of the body, after which the
    [while (true)] runs again; the booleans and the level returned with it
    are [is_marked] and [node_level]. *)
Definition remove_after_find (found_level : Z) (preds succs : list addr)
    (is_marked : bool) (nlevel : Z) : M t (option bool * bool * Z) :=
  if found_level =? -1 then ret (Some false, is_marked, nlevel)
  else
    let* victim := lift_opt OutOfRange (vget succs found_level) in
    let* eligible :=
      (if is_marked then ret true
       else let* vn := deref victim in
            ret (negb (found_level =? -1) &&
                 (fully_linked vn && (node_level vn =? found_level) && negb (marked vn)))) in
    if eligible then
      let* '(stop, is_marked, nlevel) :=
        (if negb is_marked then
           let* vn := deref victim in
           let nlevel := node_level vn in
           lock victim ;;
           let* vn := deref victim in
           if marked vn then unlock victim ;; ret (true, is_marked, nlevel)
           else set_marked victim true ;; ret (false, true, nlevel)
         else ret (false, is_marked, nlevel)) in
      if stop then ret (Some false, is_marked, nlevel)
      else
        let* b := remove_unlink_phase preds victim nlevel in
        ret (Some b, is_marked, nlevel)
    else ret (None, is_marked, nlevel).

Fixpoint remove_loop (n fuel : nat) (k : Z) (preds succs : list addr)
    (is_marked : bool) (node_level : Z) : M t bool :=
  match n with
  | O => fail OutOfFuel
  | S n' =>
      let* '(found_level, preds, succs) := find fuel k preds succs in
      let* '(r, is_marked, node_level) :=
        remove_after_find found_level preds succs is_marked node_level in
      match r with
      | Some b => ret b
      | None => remove_loop n' fuel k preds succs is_marked node_level
      end
  end.

Definition remove (fuel : nat) (k : Z) : M t bool :=
  let* preds := new_vector in
  let* succs := new_vector in
  remove_loop fuel fuel k preds succs false (-1).

(** [for_each]: the calls of the visitor, in order. *)
Fixpoint for_each_loop (fuel : nat) (node : addr) (visited : list (Z * V)) : M t (list (Z * V)) :=
  match fuel with
  | O => fail OutOfFuel
  | S f =>
      λ s, if decide (node = tail_ s) then Ok visited s
           else (let* n := deref node in
                 let* nxt := get_forward node 0 in
                 for_each_loop f nxt (visited ++ [(key n, value n)])) s
  end.

Definition for_each (fuel : nat) : M t (list (Z * V)) :=
  λ s, (let* node := get_forward (header_ s) 0 in for_each_loop fuel node []) s.

(** The destructor: the nodes between the header and the tail are deleted
    along level 0, then the header and the tail. *)
Fixpoint destroy_loop (fuel : nat) (curr : addr) : M t unit :=
  match fuel with
  | O => fail OutOfFuel
  | S f =>
      λ s, if decide (curr = tail_ s) then Ok tt s
           else (let tmp := curr in
                 let* curr := get_forward curr 0 in
                 delete_node tmp ;;
                 destroy_loop f curr) s
  end.

Definition destroy (fuel : nat) : M t unit :=
  λ s, (let* curr := get_forward (header_ s) 0 in
        destroy_loop fuel curr ;;
        delete_node (header_ s) ;;
        delete_node (tail_ s)) s.

(** [dump]: the inner [while] of one level, and the [for] over the levels.
    A level without a node gets its number only. *)
Fixpoint dump_walk (fuel : nat) (level : Z) (node : addr) (out : list (printed V))
    : M t (list (printed V)) :=
  match fuel with
  | O => fail OutOfFuel
  | S f =>
      λ s, if decide (node = tail_ s) then Ok out s
           else (let* n := deref node in
                 let out := out ++ dump_entry (key n, value n) in
                 let* nxt := get_forward node level in
                 dump_walk f level nxt out) s
  end.

Fixpoint dump_levels (fuel : nat) (levels : list Z) (out : list (printed V))
    : M t (list (printed V)) :=
  match levels with
  | [] => ret out
  | level :: rest =>
      λ s, (let* node := get_forward (header_ s) level in
            if decide (node = tail_ s)
            then dump_levels fuel rest (out ++ [PInt level; PEndl])
            else
              let out := out ++ [PStr "Level: "; PInt level; PStr " Keys: "] in
              let* out := dump_walk fuel level node out in
              dump_levels fuel rest (out ++ [PEndl])) s
  end.

Definition dump (fuel : nat) : M t (list (printed V)) :=
  λ s, dump_levels fuel (levels_down (max_level_ s)) [] s.

(** *** Two threads

    One schedule of two threads on the same list.  Thread A calls
    [remove(ka)] and thread B calls [insert(kb, vb)]: A runs its [find],
    which takes no lock, then B runs its whole [insert], then A runs the rest
    of its loop body with the vectors that its [find] has filled.  The result
    is what B's [insert] returns and what A's loop body yields. *)
Definition remove_with_insert_after_find (fuel : nat) (ka kb : Z) (vb : V)
    : M t (bool * (option bool * bool * Z)) :=
  let* preds := new_vector in
  let* succs := new_vector in
  let* '(found_level, preds, succs) := find fuel ka preds succs in
  let* b := insert fuel kb vb in
  let* r := remove_after_find found_level preds succs false (-1) in
  ret (b, r).

(** *** Well-formed states

    [fwd_view] and [meta_view] read the memory: the forward pointer of a
    node at a level, and the other fields of a node with the length of its
    forward vector. *)
Definition fwd_view (h : gmap nat Node) (a : addr) (L : Z) : option addr :=
  match h !! a with Some n => vget (forward n) L | None => None end.
Definition meta_view (h : gmap nat Node) (a : addr) : option (Z * V * bool * bool * Z * nat) :=
  match h !! a with
  | Some n => Some (key n, value n, marked n, fully_linked n, node_level n, length (forward n))
  | None => None
  end.

Definition header_tower (s : t) : tower V := mkTower (header_ s) 0 V0 (max_level_ s).

(** The state [s] holds exactly the towers [ts], in this order, between its
    header and its tail and no other node; every node is fully linked and
    not marked and no mutex is held. *)
Record Rep (s : t) (ts : list (tower V)) : Prop := mkRep {
  rep_max : 0 ≤ max_level_ s;
  rep_header : meta_view (heap s) (header_ s) =
               Some (0, V0, false, false, max_level_ s, Z.to_nat (max_level_ s + 1));
  rep_tail : meta_view (heap s) (tail_ s) = Some (0, V0, false, false, 0, 1%nat);
  rep_nodes : Forall (λ u, meta_view (heap s) (t_addr u) =
                           Some (t_key u, t_val u, false, true, t_lvl u,
                                 Z.to_nat (t_lvl u + 1))) ts;
  rep_links : chain_links (fwd_view (heap s)) (tail_ s) (header_tower s :: ts);
  rep_sorted : sorted ts;
  rep_nodup : NoDup (header_ s :: tail_ s :: (t_addr <$> ts));
  rep_levels : Forall (λ u, 0 ≤ t_lvl u ≤ max_level_ s) ts;
  rep_held : held s = ∅;
  rep_dom : ∀ a, is_Some (meta_view (heap s) a) →
            a = header_ s ∨ a = tail_ s ∨ a ∈ t_addr <$> ts;
}.

End WithValue.
End LockedSkipList.
(** ** FatSkipList (skiplist.h) *)

Module FatSkipList.
Section WithValue.
Context {V : Type}.
Variable V0 : V.

Record Node := mkNode {
  key : Z;
  value : V;
  forward : list addr;
}.

Definition with_forward (n : Node) (f : list addr) : Node := mkNode (key n) (value n) f.
Definition with_value (n : Node) (v : V) : Node := mkNode (key n) v (forward n).

(** The object: its fields, with [mutex_] true while the mutex is locked,
    and the nodes it has allocated. *)
Record t := mkList {
  cur_level_ : Z;
  max_level_ : Z;
  probability_ : Q;
  header_ : addr;
  gen_ : nat → Q;
  mutex_ : bool;
  heap : gmap nat Node;
}.

Definition with_heap (s : t) (h : gmap nat Node) : t :=
  mkList (cur_level_ s) (max_level_ s) (probability_ s) (header_ s) (gen_ s) (mutex_ s) h.
Definition with_cur_level (s : t) (c : Z) : t :=
  mkList c (max_level_ s) (probability_ s) (header_ s) (gen_ s) (mutex_ s) (heap s).
Definition with_gen (s : t) (g : nat → Q) : t :=
  mkList (cur_level_ s) (max_level_ s) (probability_ s) (header_ s) g (mutex_ s) (heap s).
Definition with_mutex (s : t) (b : bool) : t :=
  mkList (cur_level_ s) (max_level_ s) (probability_ s) (header_ s) (gen_ s) b (heap s).

Definition deref (p : addr) : M t Node :=
  λ s, match heap s !! p with Some n => Ok n s | None => Err BadPointer s end.
Definition store (p : addr) (n : Node) : M t unit :=
  λ s, Ok tt (with_heap s (<[p := n]> (heap s))).
Definition get_forward (p : addr) (level : Z) : M t addr :=
  let* n := deref p in lift_opt OutOfRange (vget (forward n) level).
Definition set_forward (p : addr) (level : Z) (q : addr) : M t unit :=
  let* n := deref p in
  let* f := lift_opt OutOfRange (vset (forward n) level q) in
  store p (with_forward n f).
Definition set_value (p : addr) (v : V) : M t unit :=
  let* n := deref p in store p (with_value n v).

Definition new_node (k : Z) (v : V) (level : Z) : M t addr :=
  λ s, let p := fresh ({[null]} ∪ dom (heap s)) in
       Ok p (with_heap s (<[p := mkNode k v (replicate (Z.to_nat (level + 1)) null)]> (heap s))).
Definition delete_node (p : addr) : M t unit :=
  deref p ;; λ s, Ok tt (with_heap s (delete p (heap s))).

(** [std::lock_guard lock(mutex_)] around the body [m] of a method. *)
Definition lock_guard {A} (m : M t A) : M t A :=
  λ s, if mutex_ s then Err Blocked s
       else (let* r := m in λ s', Ok r (with_mutex s' false)) (with_mutex s true).

(** The constructor: the header of height [max_level] at address 1, all its
    forward pointers null. *)
Definition create (max_level : Z) (prob : Q) (gen : nat → Q) : t :=
  let hd := 1%nat in
  mkList 0 max_level prob hd gen false
    (<[hd := mkNode 0 V0 (replicate (Z.to_nat (max_level + 1)) null)]> ∅).

Definition draw : M t Q :=
  λ s, Ok (gen_ s O) (with_gen s (λ i, gen_ s (S i))).

Fixpoint rand_level_loop (fuel : nat) (level : Z) : M t Z :=
  match fuel with
  | O => fail OutOfFuel
  | S f =>
      let* d := draw in
      λ s, if Qltb d (probability_ s) && (level <? max_level_ s)
           then rand_level_loop f (level + 1) s
           else Ok level s
  end.
Definition get_rand_level (fuel : nat) : M t Z := rand_level_loop fuel 0.

(** [v.resize(n, x)] *)
Definition resize {A} (v : list A) (n : Z) (x : A) : list A :=
  take (Z.to_nat n) v ++ replicate (Z.to_nat n - length v) x.

(** [find_node]: the inner [while] of one level. *)
Fixpoint find_node_walk (fuel : nat) (k : Z) (level : Z) (node : addr) : M t addr :=
  match fuel with
  | O => fail OutOfFuel
  | S f =>
      let* nxt := get_forward node level in
      if decide (nxt = null) then ret node
      else
        let* n := deref nxt in
        if key n <? k then find_node_walk f k level nxt else ret node
  end.

(** [find_node]: the levels [cur_level_, ..., 0]; [to_be_updated] is [None]
    when the caller passes no vector. *)
Fixpoint find_node_levels (fuel : nat) (k : Z) (levels : list Z) (node : addr)
    (to_be_updated : option (list addr)) : M t (addr * option (list addr)) :=
  match levels with
  | [] => ret (node, to_be_updated)
  | level :: rest =>
      let* node := find_node_walk fuel k level node in
      let* to_be_updated :=
        match to_be_updated with
        | Some v => let* v' := lift_opt OutOfRange (vset v level node) in ret (Some v')
        | None => ret None
        end in
      find_node_levels fuel k rest node to_be_updated
  end.

Definition levels_down (top : Z) : list Z := reverse (seqZ 0 (top + 1)).

Definition find_node (fuel : nat) (k : Z) (to_be_updated : option (list addr))
    : M t (addr * option (list addr)) :=
  λ s,
    let to_be_updated := (λ v, resize v (max_level_ s + 1) null) <$> to_be_updated in
    (let* '(node, to_be_updated) :=
       find_node_levels fuel k (levels_down (cur_level_ s)) (header_ s) to_be_updated in
     let* node := get_forward node 0 in
     ret (node, to_be_updated)) s.

Definition search (fuel : nat) (k : Z) : M t (bool * V) :=
  lock_guard (
    let* '(node, _) := find_node fuel k None in
    if decide (node = null) then ret (false, V0)
    else
      let* n := deref node in
      if key n =? k then ret (true, value n) else ret (false, V0)).

(** [insert]: [to_be_updated[i] = header_] for [i = cur_level_ + 1 .. node_level]. *)
Fixpoint insert_raise (levels : list Z) (to_be_updated : list addr) : M t (list addr) :=
  match levels with
  | [] => ret to_be_updated
  | i :: rest =>
      λ s, (let* v := lift_opt OutOfRange (vset to_be_updated i (header_ s)) in
            insert_raise rest v) s
  end.

Fixpoint insert_link (levels : list Z) (to_be_updated : list addr) (new_node : addr) : M t unit :=
  match levels with
  | [] => ret tt
  | level :: rest =>
      let* pred := lift_opt OutOfRange (vget to_be_updated level) in
      let* nxt := get_forward pred level in
      set_forward new_node level nxt ;;
      set_forward pred level new_node ;;
      insert_link rest to_be_updated new_node
  end.

Definition insert (fuel : nat) (k : Z) (v : V) : M t bool :=
  lock_guard (
    let* '(node, to_be_updated) := find_node fuel k (Some []) in
    let to_be_updated := default [] to_be_updated in
    let* dup :=
      (if decide (node = null) then ret false
       else let* n := deref node in ret (key n =? k)) in
    if (dup : bool) then set_value node v ;; ret false
    else
      let* node_level := get_rand_level fuel in
      let* to_be_updated :=
        (λ s, if cur_level_ s <? node_level
              then (let* tbu := insert_raise (seqZ (cur_level_ s + 1) (node_level - cur_level_ s))
                                  to_be_updated in
                    λ s', Ok tbu (with_cur_level s' node_level)) s
              else Ok to_be_updated s) in
      let* nw := new_node k v node_level in
      insert_link (seqZ 0 (node_level + 1)) to_be_updated nw ;;
      ret true).

(** [remove]: the loop over [level = 0 .. cur_level_] with its [break]. *)
Fixpoint remove_unlink (levels : list Z) (to_be_updated : list addr) (node : addr) : M t unit :=
  match levels with
  | [] => ret tt
  | level :: rest =>
      let* pred := lift_opt OutOfRange (vget to_be_updated level) in
      let* f := get_forward pred level in
      if decide (f = node) then
        let* nxt := get_forward node level in
        set_forward pred level nxt ;;
        remove_unlink rest to_be_updated node
      else ret tt
  end.

(** [remove]: [while (cur_level_ > 0 && header_->forward[cur_level_] == nullptr) cur_level_--;] *)
Fixpoint lower_cur_level (fuel : nat) : M t unit :=
  match fuel with
  | O => fail OutOfFuel
  | S f =>
      λ s, if 0 <? cur_level_ s
           then (let* top := get_forward (header_ s) (cur_level_ s) in
                 if decide (top = null)
                 then (λ s', Ok tt (with_cur_level s' (cur_level_ s' - 1))) ;; lower_cur_level f
                 else ret tt) s
           else Ok tt s
  end.

Definition remove (fuel : nat) (k : Z) : M t bool :=
  lock_guard (
    let* '(node, to_be_updated) := find_node fuel k (Some []) in
    let to_be_updated := default [] to_be_updated in
    let* absent :=
      (if decide (node = null) then ret true
       else let* n := deref node in ret (negb (key n =? k))) in
    if (absent : bool) then ret false
    else
      (λ s, remove_unlink (seqZ 0 (cur_level_ s + 1)) to_be_updated node s) ;;
      delete_node node ;;
      lower_cur_level fuel ;;
      ret true).

(** [for_each]: the calls of the visitor, in order. *)
Fixpoint for_each_loop (fuel : nat) (node : addr) (visited : list (Z * V)) : M t (list (Z * V)) :=
  match fuel with
  | O => fail OutOfFuel
  | S f =>
      if decide (node = null) then ret visited
      else
        let* n := deref node in
        let* nxt := get_forward node 0 in
        for_each_loop f nxt (visited ++ [(key n, value n)])
  end.

Definition for_each (fuel : nat) : M t (list (Z * V)) :=
  lock_guard (λ s, (let* node := get_forward (header_ s) 0 in for_each_loop fuel node []) s).

(** [for_each] as the source has it, lines 408 to 414: the walk is made
    without taking [mutex_].  [for_each] above runs the same walk under the
    lock, which gives the same result when the mutex is free and [Blocked]
    when it is held. *)
Definition for_each_unlocked (fuel : nat) : M t (list (Z * V)) :=
  λ s, (let* node := get_forward (header_ s) 0 in for_each_loop fuel node []) s.

(** The destructor: every node from the header on is deleted along level 0;
    [mutex_] is not taken. *)
Fixpoint destroy_loop (fuel : nat) (node : addr) : M t unit :=
  match fuel with
  | O => fail OutOfFuel
  | S f =>
      if decide (node = null) then ret tt
      else
        let tmp := node in
        let* node := get_forward node 0 in
        delete_node tmp ;;
        destroy_loop f node
  end.

Definition destroy (fuel : nat) : M t unit :=
  λ s, destroy_loop fuel (header_ s) s.

(** [dump]: the inner [while] of one level, and the [for] over the levels
    from [cur_level_] down; [mutex_] is not taken. *)
Fixpoint dump_walk (fuel : nat) (level : Z) (node : addr) (out : list (printed V))
    : M t (list (printed V)) :=
  match fuel with
  | O => fail OutOfFuel
  | S f =>
      if decide (node = null) then ret out
      else
        let* n := deref node in
        let out := out ++ dump_entry (key n, value n) in
        let* nxt := get_forward node level in
        dump_walk f level nxt out
  end.

Fixpoint dump_levels (fuel : nat) (levels : list Z) (out : list (printed V))
    : M t (list (printed V)) :=
  match levels with
  | [] => ret out
  | level :: rest =>
      let out := out ++ [PStr "Level: "; PInt level; PStr " Keys: "] in
      let* node := (λ s, get_forward (header_ s) level s) in
      let* out := dump_walk fuel level node out in
      dump_levels fuel rest (out ++ [PEndl])
  end.

Definition dump (fuel : nat) : M t (list (printed V)) :=
  λ s, dump_levels fuel (levels_down (cur_level_ s)) [] s.

(** *** Well-formed states *)
Definition fwd_view (h : gmap nat Node) (a : addr) (L : Z) : option addr :=
  match h !! a with Some n => vget (forward n) L | None => None end.
Definition meta_view (h : gmap nat Node) (a : addr) : option (Z * V * nat) :=
  match h !! a with
  | Some n => Some (key n, value n, length (forward n))
  | None => None
  end.

Definition header_tower (s : t) : tower V := mkTower (header_ s) 0 V0 (max_level_ s).

(** The memory of [s] holds exactly the header and the towers [ts], linked
    in this order, and no tower is higher than [cur_level_]. *)
Record Rep (s : t) (ts : list (tower V)) : Prop := mkRep {
  rep_cur : 0 ≤ cur_level_ s ≤ max_level_ s;
  rep_header : meta_view (heap s) (header_ s) = Some (0, V0, Z.to_nat (max_level_ s + 1));
  rep_nodes : Forall (λ u, meta_view (heap s) (t_addr u) =
                           Some (t_key u, t_val u, Z.to_nat (t_lvl u + 1))) ts;
  rep_links : chain_links (fwd_view (heap s)) null (header_tower s :: ts);
  rep_sorted : sorted ts;
  rep_nodup : NoDup (null :: header_ s :: (t_addr <$> ts));
  rep_levels : Forall (λ u, 0 ≤ t_lvl u ≤ cur_level_ s) ts;
  rep_dom : ∀ a, is_Some (meta_view (heap s) a) → a = header_ s ∨ a ∈ t_addr <$> ts;
}.

(** Between two calls the mutex is free. *)
Definition Inv (s : t) (ts : list (tower V)) : Prop := Rep s ts ∧ mutex_ s = false.

(** How [find_node] fills the vector it is given, if any, at the levels
    below [n]: with the last tower below [k] at each of them. *)
Definition filled (s : t) (k : Z) (ts : list (tower V)) (n : Z)
    (v v' : option (list addr)) : Prop :=
  match v, v' with
  | None, None => True
  | Some l, Some l' =>
      length l' = length l ∧
      (∀ lv, 0 ≤ lv < n → vget l' lv = Some (last_at (header_ s) lv (below k ts))) ∧
      (∀ lv, n ≤ lv → vget l' lv = vget l lv)
  | _, _ => False
  end.

End WithValue.
End FatSkipList.

(** ** The interface [SkipList<K, V>] and runs of operations *)

(** The four operations of the abstract class [SkipList] that change or
    read the list, each with the fuel for its loops; [for_each] gives the
    list of the calls of its visitor. *)
Record SkipList (V S : Type) := mkSkipList {
  sl_insert : nat → Z → V → M S bool;
  sl_remove : nat → Z → M S bool;
  sl_search : nat → Z → M S (bool * V);
  sl_for_each : nat → M S (list (Z * V));
}.
Arguments sl_insert {V S} _ _ _ _.
Arguments sl_remove {V S} _ _ _.
Arguments sl_search {V S} _ _ _.
Arguments sl_for_each {V S} _ _.

Definition Locked {V} (V0 : V) : SkipList V (LockedSkipList.t (V:=V)) :=
  mkSkipList V _ LockedSkipList.insert LockedSkipList.remove
    (LockedSkipList.search V0) LockedSkipList.for_each.

Definition Fat {V} (V0 : V) : SkipList V (FatSkipList.t (V:=V)) :=
  mkSkipList V _ FatSkipList.insert FatSkipList.remove
    (FatSkipList.search V0) FatSkipList.for_each.

Inductive op (V : Type) :=
| Insert (k : Z) (v : V)
| Remove (k : Z)
| Search (k : Z).
Arguments Insert {V} k v.
Arguments Remove {V} k.
Arguments Search {V} k.

Inductive outcome (V : Type) :=
| RBool (b : bool)
| RFound (r : bool * V).
Arguments RBool {V} b.
Arguments RFound {V} r.

Definition run_op {V S} (impl : SkipList V S) (fuel : nat) (o : op V) : M S (outcome V) :=
  match o with
  | Insert k v => let* b := sl_insert impl fuel k v in ret (RBool b)
  | Remove k => let* b := sl_remove impl fuel k in ret (RBool b)
  | Search k => let* r := sl_search impl fuel k in ret (RFound r)
  end.

(** The calls [os], one after the other, as a single thread makes them. *)
Fixpoint run_ops {V S} (impl : SkipList V S) (fuel : nat) (os : list (op V))
    : M S (list (outcome V)) :=
  match os with
  | [] => ret []
  | o :: rest =>
      let* r := run_op impl fuel o in
      let* rs := run_ops impl fuel rest in
      ret (r :: rs)
  end.

(** The sequential ordered map that the lists implement.  [overwrite] tells
    whether [insert] of a key that is present replaces its value. *)
Definition map_step {V} (overwrite : bool) (V0 : V) (o : op V) (m : gmap Z V)
    : gmap Z V * outcome V :=
  match o with
  | Insert k v =>
      (if decide (k ∈ dom m) then (if overwrite then <[k := v]> m else m) else <[k := v]> m,
       RBool (bool_decide (k ∉ dom m)))
  | Remove k => (delete k m, RBool (bool_decide (k ∈ dom m)))
  | Search k => (m, RFound (match m !! k with Some v => (true, v) | None => (false, V0) end))
  end.

Fixpoint map_run {V} (overwrite : bool) (V0 : V) (os : list (op V)) (m : gmap Z V)
    : gmap Z V * list (outcome V) :=
  match os with
  | [] => (m, [])
  | o :: rest =>
      let '(m1, r) := map_step overwrite V0 o m in
      let '(m2, rs) := map_run overwrite V0 rest m1 in
      (m2, r :: rs)
  end.

(** Fuel that suffices for [n] operations on a list that holds [size] keys
    and has the given [max_level]. *)
Definition enough (fuel : nat) (max_level : Z) (size n : nat) : Prop :=
  (Z.to_nat max_level + size + n < fuel)%nat.

(** The value that the key [k] has after the calls [os] in the coarse
    variant, when it had the value [v] before and is not removed: that of
    the last [insert] of [k]. *)
Fixpoint last_inserted {V} (k : Z) (os : list (op V)) (v : V) : V :=
  match os with
  | [] => v
  | Insert k' v' :: rest => last_inserted k rest (if decide (k' = k) then v' else v)
  | _ :: rest => last_inserted k rest v
  end.

(** ** The two variants under one name *)

Inductive variant := Coarse | Concurrent.

Definition state (V : Type) (w : variant) : Type :=
  match w with
  | Coarse => FatSkipList.t (V:=V)
  | Concurrent => LockedSkipList.t (V:=V)
  end.

Definition impl {V} (V0 : V) (w : variant) : SkipList V (state V w) :=
  match w with
  | Coarse => Fat V0
  | Concurrent => Locked V0
  end.

(** The list that the constructor of the variant builds. *)
Definition new_list {V} (V0 : V) (w : variant) (max_level : Z) (prob : Q) (gen : nat → Q)
    : state V w :=
  match w with
  | Coarse => FatSkipList.create V0 max_level prob gen
  | Concurrent => LockedSkipList.create V0 max_level prob gen
  end.

Definition overwrites (w : variant) : bool :=
  match w with Coarse => true | Concurrent => false end.

Definition wf {V} (V0 : V) (w : variant) : state V w → list (tower V) → Prop :=
  match w with
  | Coarse => FatSkipList.Inv V0
  | Concurrent => LockedSkipList.Rep V0
  end.

Definition max_level_of {V} (w : variant) : state V w → Z :=
  match w with
  | Coarse => FatSkipList.max_level_
  | Concurrent => LockedSkipList.max_level_
  end.
Definition probability_of {V} (w : variant) : state V w → Q :=
  match w with
  | Coarse => FatSkipList.probability_
  | Concurrent => LockedSkipList.probability_
  end.
Definition gen_of {V} (w : variant) : state V w → nat → Q :=
  match w with
  | Coarse => FatSkipList.gen_
  | Concurrent => LockedSkipList.gen_
  end.

Definition get_rand_level_of {V} (w : variant) (fuel : nat) : M (state V w) Z :=
  match w with
  | Coarse => FatSkipList.get_rand_level fuel
  | Concurrent => LockedSkipList.get_rand_level fuel
  end.

(** The level of the node at address [a], if there is one: the field
    [node_level] in the concurrent variant, the size of [forward] less one
    in the coarse variant, whose nodes have no such field. *)
Definition node_level_at {V} (w : variant) : state V w → addr → option Z :=
  match w with
  | Coarse => λ s a,
      (λ n, Z.of_nat (length (FatSkipList.forward n)) - 1) <$> FatSkipList.heap s !! a
  | Concurrent => λ s a,
      LockedSkipList.node_level <$> LockedSkipList.heap s !! a
  end.

(** Claim C2 in the words of the specification, for one variant: once
    [insert(k, v)] has returned true, [search(k)] returns true with [v]
    after any calls other than [remove(k)]. *)
Definition membership_as_stated {V} (V0 : V) (w : variant) : Prop :=
  ∀ max_level prob gen fuel os1 k v os2 rs1 (s1 s2 : state V w) rs2 s3,
    0 ≤ max_level → enough fuel max_level 0 (length os1 + (1 + length os2)) →
    run_ops (impl V0 w) fuel os1 (new_list V0 w max_level prob gen) = Ok rs1 s1 →
    sl_insert (impl V0 w) fuel k v s1 = Ok true s2 →
    Forall (λ o, o ≠ Remove k) os2 →
    run_ops (impl V0 w) fuel os2 s2 = Ok rs2 s3 →
    sl_search (impl V0 w) fuel k s3 = Ok (true, v) s3.

(** ** Lists of the tests

    Lists with [int] values as in [LockedSkipList<int, int>], of maximum
    level 2, whose generator alternates between 0.25 and 0.75. *)
Definition ex_gen : nat → Q := λ i, if Nat.even i then 1 # 4 else 3 # 4.
Definition ex_new (w : variant) : state Z w := new_list 0 w 2 (1 # 2) ex_gen.
Definition ex_ops : list (op Z) := [Insert 10 100; Insert 20 200; Insert 5 50; Remove 20].
Definition ex_results : list (outcome Z) :=
  [RBool true; RBool true; RBool true; RBool true].
Definition ex_list (w : variant) : state Z w :=
  state_of (run_ops (impl 0 w) 12 ex_ops (ex_new w)).

(** The list of the two-thread schedule: keys 10 and 20, both nodes of
    level 0 since no draw is below [probability_]. *)
Definition two_keys : LockedSkipList.t (V:=Z) :=
  state_of (run_ops (Locked 0) 5 [Insert 10 100; Insert 20 200]
              (LockedSkipList.create 0 1 (1 # 2) (λ _, 1%Q))).

(** Thread A calls [remove(20)] and thread B calls [insert(15, 150)]; B
    runs from start to end after A's [find] and before A locks its victim. *)
Definition two_threads : result (LockedSkipList.t (V:=Z)) (bool * (option bool * bool * Z)) :=
  LockedSkipList.remove_with_insert_after_find 5 20 15 150 two_keys.

(** A third thread C calls [search(15)] once A has unlinked its victim.
    B's [insert(15, 150)] has returned before C's call, and A's
    [remove(20)] has not returned yet: a sequential order of these calls
    has the [insert] before the [search], and the [remove] anywhere or
    nowhere. *)
Definition three_threads_orders : list (list (op Z)) :=
  [ [Insert 15 150; Search 15];
    [Remove 20; Insert 15 150; Search 15];
    [Insert 15 150; Remove 20; Search 15];
    [Insert 15 150; Search 15; Remove 20] ].

(** ** The remaining members of the two classes, by variant *)

(** [for_each] without the lock that the embedding of [FatSkipList::for_each]
    takes: the walk as both classes make it. *)
Definition for_each_of {V} (w : variant) (fuel : nat) : M (state V w) (list (Z * V)) :=
  match w with
  | Coarse => FatSkipList.for_each_unlocked fuel
  | Concurrent => LockedSkipList.for_each fuel
  end.

Definition destroy_of {V} (w : variant) (fuel : nat) : M (state V w) unit :=
  match w with
  | Coarse => FatSkipList.destroy fuel
  | Concurrent => LockedSkipList.destroy fuel
  end.

Definition dump_of {V} (w : variant) (fuel : nat) : M (state V w) (list (printed V)) :=
  match w with
  | Coarse => FatSkipList.dump fuel
  | Concurrent => LockedSkipList.dump fuel
  end.

(** The interface as a caller has it through a [SkipList<K, V>&]. *)
Definition methods {V} (V0 : V) (w : variant) : SkipList V (state V w) :=
  mkSkipList V _ (sl_insert (impl V0 w)) (sl_remove (impl V0 w)) (sl_search (impl V0 w))
    (for_each_of w).

(** The number of nodes that are allocated, and how many of them hold no
    key: the header, and the tail of the concurrent variant. *)
Definition allocated {V} (w : variant) : state V w → nat :=
  match w with
  | Coarse => λ s, size (FatSkipList.heap s)
  | Concurrent => λ s, size (LockedSkipList.heap s)
  end.
Definition sentinels (w : variant) : nat :=
  match w with Coarse => 1%nat | Concurrent => 2%nat end.

(** No mutex is held: [mutex_] of the coarse variant, the [mtx] of every
    node of the concurrent variant. *)
Definition locks_free {V} (w : variant) : state V w → Prop :=
  match w with
  | Coarse => λ s, FatSkipList.mutex_ s = false
  | Concurrent => λ s, LockedSkipList.held s = ∅
  end.

(** [cur_level_] of the coarse variant is 0 or does not exceed the level of
    some node of the towers [ts]. *)
Definition top_level_used {V} (s : FatSkipList.t (V:=V)) (ts : list (tower V)) : Prop :=
  FatSkipList.cur_level_ s = 0 ∨ ∃ u, u ∈ ts ∧ FatSkipList.cur_level_ s ≤ t_lvl u.

(** The highest level that [dump] prints, and the line it prints for a
    level: the concurrent variant prints the number alone for a level
    without nodes. *)
Definition dump_top {V} (w : variant) : state V w → Z :=
  match w with
  | Coarse => FatSkipList.cur_level_
  | Concurrent => LockedSkipList.max_level_
  end.

(** What [dump] prints for a level of the concurrent variant. *)
Definition locked_dump_line {V} (level : Z) (ps : list (Z * V)) : list (printed V) :=
  match ps with
  | [] => [PInt level; PEndl]
  | _ => dump_line level ps
  end.

Definition dump_line_of {V} (w : variant) : Z → list (Z * V) → list (printed V) :=
  match w with
  | Coarse => dump_line
  | Concurrent => locked_dump_line
  end.

(** ** The tests (basic_test.cc)

    A test yields the lines it has printed, or [None] when one of its
    [assert]s fails, which ends the program. *)

Definition INT_MIN : Z := -2147483648.

Section Tests.
Context {S : Type}.

Definition assert (b : bool) (k : M S (option (list string))) : M S (option (list string)) :=
  if b then k else ret None.

(** A method call on another object than the list under test. *)
Definition on_local {S' A} (m : M S' A) (s' : S') : M S (A * S') :=
  λ s, match m s' with
       | Ok a s1 => Ok (a, s1) s
       | Err e _ => Err e s
       end.

Notation "'assert!' b ';;' k" := (assert b k)
  (at level 10, b at level 99, k at level 200, only parsing).

Definition test_basic_operations (lst : SkipList string S) (fuel : nat) (out : list string)
    : M S (option (list string)) :=
  let* r := sl_insert lst fuel 10 "ten" in assert! r ;;
  let* r := sl_insert lst fuel 20 "twenty" in assert! r ;;
  let* r := sl_insert lst fuel 5 "five" in assert! r ;;
  let* search_result_1 := sl_search lst fuel 10 in
  assert! search_result_1.1 && String.eqb search_result_1.2 "ten" ;;
  let* search_result_2 := sl_search lst fuel 5 in
  assert! search_result_2.1 && String.eqb search_result_2.2 "five" ;;
  let* search_result_3 := sl_search lst fuel 20 in
  assert! search_result_3.1 && String.eqb search_result_3.2 "twenty" ;;
  let* r := sl_search lst fuel 15 in assert! negb r.1 ;;
  let* r := sl_remove lst fuel 10 in assert! r ;;
  let* r := sl_search lst fuel 10 in assert! negb r.1 ;;
  let* r := sl_remove lst fuel 10 in assert! negb r ;;
  ret (Some (out ++ ["Basic functionality tests passed."])).

(** [gen] is the generator of the local [LockedSkipList<int, int>], which
    is destroyed when the function returns. *)
Definition test_edge_cases (lst : SkipList string S) (fuel : nat) (gen : nat → Q)
    (out : list string) : M S (option (list string)) :=
  let* r := sl_insert lst fuel 100 "100" in assert! r ;;
  let* r := sl_insert lst fuel 100 "101" in assert! negb r ;;
  let empty_list := LockedSkipList.create 0 16 (1 # 2) gen in
  let* '(r, empty_list) := on_local (LockedSkipList.remove fuel 50) empty_list in
  assert! negb r ;;
  let* '(r, empty_list) := on_local (LockedSkipList.search 0 fuel 50) empty_list in
  assert! negb r.1 ;;
  let* r := sl_insert lst fuel 0 "0" in assert! r ;;
  let* r := sl_insert lst fuel 1000 "1000" in assert! r ;;
  let* r := sl_remove lst fuel 0 in assert! r ;;
  let* r := sl_remove lst fuel 1000 in assert! r ;;
  let* r := sl_search lst fuel 0 in assert! negb r.1 ;;
  let* r := sl_search lst fuel 1000 in assert! negb r.1 ;;
  let out := out ++ ["Edge case tests passed."] in
  on_local (LockedSkipList.destroy fuel) empty_list ;;
  ret (Some out).

(** [list.insert(key, std::to_string(key))] for each of the keys. *)
Fixpoint insert_all (lst : SkipList string S) (fuel : nat) (keys : list Z) : M S unit :=
  match keys with
  | [] => ret tt
  | key :: rest => sl_insert lst fuel key (pretty key) ;; insert_all lst fuel rest
  end.

(** The visitor of the test on the calls that [for_each] makes:
    [assert(key >= prev_key); prev_key = key]. *)
Fixpoint visitor_asserts (prev_key : Z) (visited : list (Z * string)) : bool :=
  match visited with
  | [] => true
  | (key, _) :: rest => (prev_key <=? key) && visitor_asserts key rest
  end.

(** [random_keys] are the numbers [gen() % 20000] that the test has drawn. *)
Definition test_sorted_after_large_inserts (lst : SkipList string S) (fuel : nat)
    (random_keys : list Z) (out : list string) : M S (option (list string)) :=
  insert_all lst fuel random_keys ;;
  let* visited := sl_for_each lst fuel in
  assert! visitor_asserts INT_MIN visited ;;
  ret (Some (out ++ ["Large insert and sorted order check passed."])).

(** The three tests on one list, one after the other. *)
Definition three_tests (lst : SkipList string S) (fuel : nat) (gen : nat → Q)
    (random_keys : list Z) : M S (option (list string)) :=
  let* r := test_basic_operations lst fuel [] in
  match r with
  | None => ret None
  | Some out =>
      let* r := test_edge_cases lst fuel gen out in
      match r with
      | None => ret None
      | Some out => test_sorted_after_large_inserts lst fuel random_keys out
      end
  end.

End Tests.

(** [fatskiplist_test] and [locked_skiplist_test]: a list with the default
    arguments of its constructor and the generator [gen], the three tests,
    and the destructor of the list when they have passed. *)
Definition fatskiplist_test (fuel : nat) (gen gen' : nat → Q) (random_keys : list Z)
    : result (FatSkipList.t (V:=string)) (option (list string)) :=
  (let* r := three_tests (methods "" Coarse) fuel gen' random_keys in
   match r with
   | None => ret None
   | Some out => FatSkipList.destroy fuel ;; ret (Some out)
   end) (FatSkipList.create "" 16 (1 # 2) gen).

Definition locked_skiplist_test (fuel : nat) (gen gen' : nat → Q) (random_keys : list Z)
    : result (LockedSkipList.t (V:=string)) (option (list string)) :=
  (let* r := three_tests (methods "" Concurrent) fuel gen' random_keys in
   match r with
   | None => ret None
   | Some out => LockedSkipList.destroy fuel ;; ret (Some out)
   end) (LockedSkipList.create "" 16 (1 # 2) gen).

(** The list under test stands for the map [m], holds at most [n] keys and
    has the default maximum level. *)
Definition holds (w : variant) (s : state string w) (m : gmap Z string) (n : nat) : Prop :=
  ∃ ts, wf "" w s ts ∧ model ts = m ∧ (length ts ≤ n)%nat ∧ max_level_of w s = 16.

(** What the tests print when they pass. *)
Definition tests_passed : list string :=
  ["Basic functionality tests passed."; "Edge case tests passed.";
   "Large insert and sorted order check passed."].

(** * Properties *)

(** ** Running monadic programs *)

Lemma bind_Ok {S A B} (m : M S A) (k : A → M S B) s a s' :
  m s = Ok a s' → bind m k s = k a s'.
Proof. intros H. unfold bind. by rewrite H. Qed.

Lemma bind_Err {S A B} (m : M S A) (k : A → M S B) s e s' :
  m s = Err e s' → bind m k s = Err e s'.
Proof. intros H. unfold bind. by rewrite H. Qed.

Lemma vget_Some {A} (l : list A) i x :
  vget l i = Some x ↔ 0 ≤ i ∧ l !! Z.to_nat i = Some x.
Proof. unfold vget. case_decide; naive_solver. Qed.

Lemma vget_lt {A} (l : list A) i x : vget l i = Some x → 0 ≤ i < Z.of_nat (length l).
Proof.
  intros [? H%lookup_lt_Some]%vget_Some. lia.
Qed.

Lemma vset_Some {A} (l : list A) i x :
  0 ≤ i < Z.of_nat (length l) → vset l i x = Some (<[Z.to_nat i := x]> l).
Proof. intros. unfold vset. by rewrite decide_True. Qed.

Lemma vget_insert {A} (l : list A) i j x :
  0 ≤ i < Z.of_nat (length l) →
  vget (<[Z.to_nat i := x]> l) j = if decide (j = i) then Some x else vget l j.
Proof.
  intros Hi. unfold vget. case_decide as Hj.
  - case_decide as Hij.
    + subst. apply list_lookup_insert_eq. lia.
    + apply list_lookup_insert_ne. lia.
  - case_decide; [lia | done].
Qed.

Lemma vget_replicate {A} n (x : A) i :
  0 ≤ i < Z.of_nat n → vget (replicate n x) i = Some x.
Proof.
  intros. unfold vget. rewrite decide_True by lia.
  apply lookup_replicate_2. lia.
Qed.

(** ** Lists *)

Lemma filter_all {A} (P : A → Prop) `{∀ x, Decision (P x)} (l : list A) :
  Forall P l → filter P l = l.
Proof.
  induction 1 as [|x l Hx _ IH]; [done|].
  rewrite filter_cons_True by done. by rewrite IH.
Qed.

Lemma filter_none {A} (P : A → Prop) `{∀ x, Decision (P x)} (l : list A) :
  Forall (λ x, ¬ P x) l → filter P l = [].
Proof.
  induction 1 as [|x l Hx _ IH]; [done|].
  by rewrite filter_cons_False.
Qed.

Lemma count_successes_le cap p g : (count_successes cap p g ≤ cap)%nat.
Proof.
  revert g. induction cap as [|c IH]; intros g; simpl; [lia|].
  destruct (Qltb (g 0%nat) p); [|lia]. specialize (IH (λ i, g (S i))). lia.
Qed.

(** ** Towers *)

Section TowerLemmas.
Context {V : Type}.
Implicit Types (t : tower V) (ts : list (tower V)).

Lemma next_at_app e L ts1 ts2 :
  next_at e L (ts1 ++ ts2) = next_at (next_at e L ts2) L ts1.
Proof. induction ts1 as [|t r IH]; simpl; [done|]. case_decide; done. Qed.

Lemma next_at_below e L ts :
  Forall (λ t, t_lvl t < L) ts → next_at e L ts = e.
Proof.
  induction 1 as [|t r Ht _ IH]; simpl; [done|].
  rewrite decide_False by lia. done.
Qed.

Lemma next_at_reaches e e' L ts :
  Exists (λ t, L ≤ t_lvl t) ts → next_at e L ts = next_at e' L ts.
Proof.
  induction ts as [|t r IH]; simpl; intros H.
  - by apply Exists_nil in H.
  - case_decide; [done|]. apply Exists_cons in H as [?|?]; [lia|]. by apply IH.
Qed.

Lemma next_at_cases e L ts :
  (Forall (λ t, t_lvl t < L) ts ∧ next_at e L ts = e) ∨
  (∃ a t b, ts = a ++ t :: b ∧ Forall (λ t, t_lvl t < L) a ∧ L ≤ t_lvl t ∧
            next_at e L ts = t_addr t).
Proof.
  induction ts as [|t r IH]; simpl.
  - left. by split.
  - case_decide as Ht.
    + right. exists [], t, r. by repeat split.
    + destruct IH as [[Hall Hn]|(a & u & b & -> & Ha & Hu & Hn)].
      * left. split; [|done]. constructor; [lia|done].
      * right. exists (t :: a), u, b. repeat split; try done.
        constructor; [lia|done].
Qed.

Lemma last_at_app d L ts1 ts2 :
  last_at d L (ts1 ++ ts2) = last_at (last_at d L ts1) L ts2.
Proof. revert d. induction ts1 as [|t r IH]; simpl; intros d; [done|]. apply IH. Qed.

Lemma last_at_below d L ts :
  Forall (λ t, t_lvl t < L) ts → last_at d L ts = d.
Proof.
  intros H. revert d. induction H as [|t r Ht _ IH]; simpl; intros d; [done|].
  rewrite decide_False by lia. apply IH.
Qed.

Lemma last_at_cases d L ts :
  (Forall (λ t, t_lvl t < L) ts ∧ last_at d L ts = d) ∨
  (∃ a t b, ts = a ++ t :: b ∧ Forall (λ t, t_lvl t < L) b ∧ L ≤ t_lvl t ∧
            last_at d L ts = t_addr t).
Proof.
  revert d. induction ts as [|t r IH]; simpl; intros d.
  - left. by split.
  - destruct (IH (if decide (L ≤ t_lvl t) then t_addr t else d))
      as [[Hall Hn]|(a & u & b & -> & Hb & Hu & Hn)].
    + case_decide as Ht.
      * right. exists [], t, r. by repeat split.
      * left. split; [|done]. constructor; [lia|done].
    + right. exists (t :: a), u, b. by repeat split.
Qed.

(** The last tower reaching [L] is [d] or one of the towers. *)
Lemma last_at_elem d L ts :
  last_at d L ts = d ∨ last_at d L ts ∈ t_addr <$> ts.
Proof.
  destruct (last_at_cases d L ts) as [[_ ->]|(a & u & b & -> & _ & _ & ->)]; [by left|].
  right. rewrite fmap_app, fmap_cons. set_solver.
Qed.

Lemma last_at_default d L ts :
  d ∉ t_addr <$> ts → (last_at d L ts = d ↔ Forall (λ t, t_lvl t < L) ts).
Proof.
  intros Hd. split; [|apply last_at_below].
  destruct (last_at_cases d L ts) as [[? _]|(a & u & b & -> & _ & _ & ->)]; [done|].
  intros <-. exfalso. apply Hd. rewrite fmap_app, fmap_cons. set_solver.
Qed.

Lemma chain_links_app F e ts1 ts2 :
  chain_links F e (ts1 ++ ts2) → chain_links F e ts2.
Proof. induction ts1 as [|t r IH]; simpl; [done|]. intros [_ ?]. by apply IH. Qed.

Lemma chain_links_mid F e a t b :
  chain_links F e (a ++ t :: b) →
  ∀ L, 0 ≤ L ≤ t_lvl t → F (t_addr t) L = Some (next_at e L b).
Proof. intros H%chain_links_app. by destruct H. Qed.

Lemma chain_links_ext F F' e ts :
  (∀ a L, a ∈ t_addr <$> ts → F' a L = F a L) →
  chain_links F e ts → chain_links F' e ts.
Proof.
  induction ts as [|t r IH]; simpl; [done|]. intros HF [Ht Hr]. split.
  - intros L HL. rewrite HF by set_solver. by apply Ht.
  - apply IH; [|done]. intros. apply HF. set_solver.
Qed.

(** Linking a new tower [nw] between [pre] and [hi]: the forward pointers
    [F'] differ from [F] at the last tower of [pre] that reaches [L], for
    every level [L] of [nw]. *)
Lemma chain_links_insert F F' e pre hi (nw : tower V) (D : Z → addr) :
  NoDup (t_addr <$> pre) →
  (∀ L, D L ∉ t_addr <$> pre) →
  chain_links F e (pre ++ hi) →
  (∀ a L, a ∈ t_addr <$> pre → 0 ≤ L →
     F' a L = if decide (L ≤ t_lvl nw ∧ a = last_at (D L) L pre)
              then Some (t_addr nw) else F a L) →
  chain_links F' e (nw :: hi) →
  chain_links F' e (pre ++ nw :: hi).
Proof.
  intros Hnd HD Hch HF' Hhi. revert D Hnd HD Hch HF'.
  induction pre as [|t b IH]; intros D Hnd HD Hch HF'; [done|].
  simpl in Hch. destruct Hch as [Ht Hb].
  rewrite fmap_cons in Hnd. apply NoDup_cons in Hnd as [Htb Hndb].
  split.
  - intros L HL. rewrite HF' by (rewrite ?fmap_cons; set_solver || lia).
    simpl. rewrite (decide_True (P := L ≤ t_lvl t)) by lia.
    rewrite Ht by done. rewrite !next_at_app.
    destruct (decide (Forall (λ u, t_lvl u < L) b)) as [Hall|Hex].
    + rewrite (last_at_below _ _ _ Hall), !(next_at_below _ _ _ Hall). simpl.
      repeat case_decide; naive_solver.
    + apply not_Forall_Exists in Hex; [|apply _].
      rewrite decide_False.
      * f_equal. apply next_at_reaches.
        eapply Exists_impl; [done|]. simpl. intros; lia.
      * intros [_ Heq]. symmetry in Heq. apply last_at_default in Heq; [|done].
        apply Exists_not_Forall in Hex. apply Hex.
        eapply Forall_impl; [done|]. simpl. intros; lia.
  - apply (IH (λ L, if decide (L ≤ t_lvl t) then t_addr t else D L)); try done.
    + intros L. case_decide; [done|]. specialize (HD L). rewrite fmap_cons in HD. set_solver.
    + intros a L Ha HL. rewrite HF' by (rewrite ?fmap_cons; set_solver || lia). done.
Qed.

(** Unlinking the tower [v] between [pre] and [hi]. *)
Lemma chain_links_remove F F' e pre hi (v : tower V) (D : Z → addr) :
  NoDup (t_addr <$> pre) →
  (∀ L, D L ∉ t_addr <$> pre) →
  chain_links F e (pre ++ v :: hi) →
  (∀ a L, a ∈ t_addr <$> pre → 0 ≤ L →
     F' a L = if decide (L ≤ t_lvl v ∧ a = last_at (D L) L pre)
              then Some (next_at e L hi) else F a L) →
  chain_links F' e hi →
  chain_links F' e (pre ++ hi).
Proof.
  intros Hnd HD Hch HF' Hhi. revert D Hnd HD Hch HF'.
  induction pre as [|t b IH]; intros D Hnd HD Hch HF'; [done|].
  simpl in Hch. destruct Hch as [Ht Hb].
  rewrite fmap_cons in Hnd. apply NoDup_cons in Hnd as [Htb Hndb].
  split.
  - intros L HL. rewrite HF' by (rewrite ?fmap_cons; set_solver || lia).
    simpl. rewrite (decide_True (P := L ≤ t_lvl t)) by lia.
    rewrite Ht by done. rewrite !next_at_app.
    destruct (decide (Forall (λ u, t_lvl u < L) b)) as [Hall|Hex].
    + rewrite (last_at_below _ _ _ Hall), !(next_at_below _ _ _ Hall). simpl.
      repeat case_decide; naive_solver.
    + apply not_Forall_Exists in Hex; [|apply _].
      rewrite decide_False.
      * f_equal. apply next_at_reaches.
        eapply Exists_impl; [done|]. simpl. intros; lia.
      * intros [_ Heq]. symmetry in Heq. apply last_at_default in Heq; [|done].
        apply Exists_not_Forall in Hex. apply Hex.
        eapply Forall_impl; [done|]. simpl. intros; lia.
  - apply (IH (λ L, if decide (L ≤ t_lvl t) then t_addr t else D L)); try done.
    + intros L. case_decide; [done|]. specialize (HD L). rewrite fmap_cons in HD. set_solver.
    + intros a L Ha HL. rewrite HF' by (rewrite ?fmap_cons; set_solver || lia). done.
Qed.

(** Sorted towers split at any key. *)
Lemma below_Forall k ts : Forall (λ t, t_key t < k) (below k ts).
Proof. apply Forall_forall. intros t [? _]%list_elem_of_filter. done. Qed.

Lemma from_Forall k ts : Forall (λ t, k ≤ t_key t) (from k ts).
Proof. apply Forall_forall. intros t [? _]%list_elem_of_filter. done. Qed.

Lemma sorted_split k ts : sorted ts → ts = below k ts ++ from k ts.
Proof.
  unfold below, from. induction ts as [|t r IH]; simpl; [done|].
  intros [Ht Hr]. rewrite !filter_cons.
  destruct (decide (t_key t < k)) as [Hlt|Hge].
  - rewrite decide_False by lia. simpl. f_equal. by apply IH.
  - rewrite decide_True by lia.
    rewrite filter_none, filter_all; [done|..];
      (eapply Forall_impl; [done|]; simpl; intros; lia).
Qed.

(** The predecessor that a search holds when it enters level [lv], having
    left level [top]: its forward pointer at [lv] leads into the towers [b]
    that follow it, all lower than [top]. *)
Lemma chain_pred_forward F e (hd : tower V) ts k lv top :
  chain_links F e (hd :: ts) → sorted ts → 0 ≤ lv ≤ t_lvl hd → lv ≤ top →
  ∃ b, F (last_at (t_addr hd) top (below k ts)) lv = Some (next_at e lv (b ++ from k ts)) ∧
       (∃ a, ts = a ++ b ++ from k ts) ∧
       Forall (λ u, t_key u < k) b ∧
       Forall (λ u, t_lvl u < top) b ∧
       last_at (last_at (t_addr hd) top (below k ts)) lv b = last_at (t_addr hd) lv (below k ts).
Proof.
  intros Hch Hs Hlv Htop. pose proof (sorted_split k ts Hs) as Hsp.
  destruct (last_at_cases (t_addr hd) top (below k ts))
    as [[Hall ->]|(a & u & b & Hbe & Hb & Hu & ->)].
  - exists (below k ts). split_and!; try done.
    + rewrite <- Hsp. destruct Hch as [Hh _]. by apply Hh.
    + exists []. by rewrite <- Hsp.
    + apply below_Forall.
  - exists b. split_and!; try done.
    + rewrite Hsp, Hbe in Hch. rewrite <- app_assoc, <- app_comm_cons in Hch.
      apply (chain_links_mid _ _ (hd :: a) u (b ++ from k ts)); [done|lia].
    + exists (a ++ [u]). rewrite Hsp at 1. rewrite Hbe.
      rewrite <- !app_assoc. done.
    + pose proof (below_Forall k ts) as HF. rewrite Hbe in HF.
      apply Forall_app in HF as [_ HF]. by apply Forall_cons in HF as [_ ?].
    + rewrite Hbe, last_at_app. simpl. rewrite decide_True by lia. done.
Qed.

Lemma chain_pred_link F e (hd : tower V) ts k lv :
  chain_links F e (hd :: ts) → sorted ts → 0 ≤ lv ≤ t_lvl hd →
  F (last_at (t_addr hd) lv (below k ts)) lv = Some (next_at e lv (from k ts)).
Proof.
  intros Hch Hs Hlv.
  destruct (chain_pred_forward F e hd ts k lv lv Hch Hs Hlv) as (b & -> & _ & _ & Hb & _); [lia|].
  by rewrite next_at_app, (next_at_below _ _ b Hb).
Qed.

Lemma sorted_app ts1 ts2 :
  sorted (ts1 ++ ts2) ↔
  sorted ts1 ∧ sorted ts2 ∧ ∀ t u, t ∈ ts1 → u ∈ ts2 → t_key t < t_key u.
Proof.
  induction ts1 as [|t r IH]; simpl.
  - split; [intros; repeat split; [done|set_solver]|naive_solver].
  - rewrite Forall_app, IH, !Forall_forall. split.
    + intros ([H1 H2] & H3 & H4 & H5). repeat split; try done.
      intros t' u [->|?]%elem_of_cons ?; eauto.
    + intros ([H1 H2] & H3 & H4). repeat split; try done.
      * intros u Hu. apply H4; [left|done].
      * intros t' u ??. apply H4; [by right|done].
Qed.

Lemma sorted_NoDup_keys ts : sorted ts → NoDup (t_key <$> ts).
Proof.
  induction ts as [|t r IH]; [constructor|].
  intros [Ht Hr]. rewrite fmap_cons. apply NoDup_cons. split; [|by apply IH].
  intros (u & Hu & Hin)%list_elem_of_fmap.
  rewrite Forall_forall in Ht. specialize (Ht u Hin). lia.
Qed.

Lemma from_head k ts t r :
  sorted ts → from k ts = t :: r →
  k ≤ t_key t ∧ Forall (λ u, k < t_key u) r ∧ sorted (t :: r).
Proof.
  intros Hs Hf. pose proof (sorted_split k ts Hs) as Hsp.
  rewrite Hsp in Hs. apply sorted_app in Hs as (_ & Hs & _).
  rewrite Hf in Hs. pose proof (from_Forall k ts) as Hall. rewrite Hf in Hall.
  apply Forall_cons in Hall as [Hk _]. repeat split; try done; try apply Hs.
  destruct Hs as [Ht _]. eapply Forall_impl; [done|]. simpl. intros; lia.
Qed.

(** The map the towers stand for. *)
Lemma model_cons t ts : model (t :: ts) = <[t_key t := t_val t]> (model ts).
Proof. done. Qed.

Lemma model_lookup_None k ts : k ∉ t_key <$> ts → model ts !! k = None.
Proof.
  intros Hk. apply not_elem_of_list_to_map_1.
  rewrite <- list_fmap_compose. done.
Qed.

Lemma model_lookup k ts :
  sorted ts →
  model ts !! k = match from k ts with
                  | t :: _ => if decide (t_key t = k) then Some (t_val t) else None
                  | [] => None
                  end.
Proof.
  unfold from. induction ts as [|t r IH]; simpl; [done|].
  intros [Ht Hr]. rewrite model_cons, filter_cons.
  destruct (decide (k ≤ t_key t)) as [Hle|Hgt].
  - case_decide as Heq; [subst; apply lookup_insert_eq|].
    rewrite lookup_insert_ne by done. apply model_lookup_None.
    intros (u & Hu & Hin)%list_elem_of_fmap.
    rewrite Forall_forall in Ht. specialize (Ht u Hin). lia.
  - rewrite lookup_insert_ne by lia. by apply IH.
Qed.

Lemma model_dom k ts : k ∈ dom (model ts) ↔ k ∈ t_key <$> ts.
Proof.
  unfold model. rewrite dom_list_to_map_L, elem_of_list_to_set, <- list_fmap_compose. done.
Qed.

Lemma model_remove k ts : model (t_remove k ts) = delete k (model ts).
Proof.
  unfold t_remove. induction ts as [|t r IH].
  - exact (eq_sym (delete_empty k)).
  - rewrite filter_cons, model_cons. case_decide as Hk.
    + rewrite model_cons, IH. by rewrite delete_insert_ne.
    + subst. by rewrite delete_insert_eq.
Qed.

Lemma model_update k v ts :
  model (t_update k v ts) =
  if decide (k ∈ t_key <$> ts) then <[k := v]> (model ts) else model ts.
Proof.
  unfold t_update. induction ts as [|t r IH]; [done|].
  rewrite !fmap_cons, !model_cons.
  destruct (decide (t_key t = k)) as [Heq|Hne].
  - rewrite (decide_True (P := k ∈ _ :: _)) by (apply elem_of_cons; auto).
    rewrite IH. cbn [t_key t_val]. subst k.
    case_decide; by rewrite !insert_insert_eq.
  - rewrite IH. destruct (decide (k ∈ t_key <$> r)) as [Hin|Hin].
    + rewrite (decide_True (P := k ∈ _ :: _)) by (apply elem_of_cons; auto).
      by apply insert_insert_ne.
    + rewrite (decide_False (P := k ∈ _ :: _)); [done|].
      intros [?|?]%elem_of_cons; congruence.
Qed.

Lemma model_insert t ts :
  sorted ts → t_key t ∉ t_key <$> ts →
  model (t_insert t ts) = <[t_key t := t_val t]> (model ts).
Proof.
  intros Hs Hk. rewrite <- model_cons. unfold model. apply list_to_map_proper.
  - rewrite <- list_fmap_compose. unfold t_insert.
    assert (below (t_key t) ts ++ t :: from (t_key t) ts ≡ₚ t :: ts) as ->.
    { rewrite (sorted_split (t_key t) ts Hs) at 3. by rewrite Permutation_middle. }
    rewrite fmap_cons. apply NoDup_cons. split; [done|]. by apply sorted_NoDup_keys.
  - apply fmap_Permutation. unfold t_insert.
    rewrite (sorted_split (t_key t) ts Hs) at 3. by rewrite Permutation_middle.
Qed.

Lemma sorted_insert t ts :
  sorted ts → t_key t ∉ t_key <$> ts → sorted (t_insert t ts).
Proof.
  intros Hs Hk. pose proof (sorted_split (t_key t) ts Hs) as Hsp.
  rewrite Hsp in Hs. apply sorted_app in Hs as (H1 & H2 & H3).
  pose proof (below_Forall (t_key t) ts) as Hb.
  pose proof (from_Forall (t_key t) ts) as Hf.
  rewrite Forall_forall in Hb, Hf.
  apply sorted_app. repeat split; try done.
  - simpl. apply Forall_forall. intros u Hu. specialize (Hf u Hu).
    destruct (decide (t_key u = t_key t)) as [Heq|]; [|lia].
    exfalso. apply Hk. rewrite <- Heq. apply list_elem_of_fmap_2.
    by apply list_elem_of_filter in Hu as [_ ?].
  - intros a u Ha [->|Hu]%elem_of_cons; [by apply Hb|by apply H3].
Qed.

Lemma sorted_filter (P : tower V → Prop) `{∀ t, Decision (P t)} ts :
  sorted ts → sorted (filter P ts).
Proof.
  induction ts as [|t r IH]; simpl; [done|]. intros [Ht Hr].
  rewrite filter_cons. case_decide; [|by apply IH]. simpl. split; [|by apply IH].
  apply Forall_forall. intros u [_ Hu]%list_elem_of_filter.
  rewrite Forall_forall in Ht. by apply Ht.
Qed.

Lemma t_remove_split k ts u r :
  sorted ts → from k ts = u :: r → t_key u = k →
  t_remove k ts = below k ts ++ r ∧ ts = below k ts ++ u :: r.
Proof.
  intros Hs Hf Hk. pose proof (sorted_split k ts Hs) as Hsp. rewrite Hf in Hsp.
  split; [|done]. destruct (from_head k ts u r Hs Hf) as (_ & Hr & _).
  unfold t_remove. rewrite Hsp at 1.
  rewrite filter_app, filter_cons_False by (intros Hne; by apply Hne).
  rewrite !filter_all; [done|..].
  - eapply Forall_impl; [done|]. cbn. intros; lia.
  - eapply Forall_impl; [apply below_Forall|]. cbn. intros; lia.
Qed.

Lemma t_remove_absent k ts : k ∉ t_key <$> ts → t_remove k ts = ts.
Proof.
  intros Hk. apply filter_all, Forall_forall. intros u Hu Heq.
  apply Hk. rewrite <- Heq. by apply list_elem_of_fmap_2.
Qed.

(** Updating the value of a key leaves addresses, keys and levels. *)
Lemma t_update_addr k (v : V) ts : t_addr <$> t_update k v ts = t_addr <$> ts.
Proof.
  unfold t_update. rewrite <- list_fmap_compose. apply list_fmap_ext.
  intros i u _. cbn. by case_decide.
Qed.

Lemma t_update_key k (v : V) ts : t_key <$> t_update k v ts = t_key <$> ts.
Proof.
  unfold t_update. rewrite <- list_fmap_compose. apply list_fmap_ext.
  intros i u _. cbn. by case_decide.
Qed.

Lemma t_update_length k (v : V) ts : length (t_update k v ts) = length ts.
Proof. unfold t_update. by rewrite length_fmap. Qed.

Lemma next_at_update e lv k (v : V) ts : next_at e lv (t_update k v ts) = next_at e lv ts.
Proof.
  unfold t_update. induction ts as [|u r IH]; [done|].
  rewrite fmap_cons. cbn [next_at]. rewrite IH. by destruct (decide (t_key u = k)).
Qed.

Lemma chain_links_update F e k (v : V) ts :
  chain_links F e ts → chain_links F e (t_update k v ts).
Proof.
  induction ts as [|u r IH]; [done|]. intros [Hu Hr].
  unfold t_update. rewrite fmap_cons. fold (t_update k v r). split; [|by apply IH].
  intros lv Hlv. rewrite next_at_update.
  destruct (decide (t_key u = k)); cbn [t_addr t_lvl] in *; by apply Hu.
Qed.

Lemma sorted_update k (v : V) ts : sorted ts → sorted (t_update k v ts).
Proof.
  induction ts as [|u r IH]; [done|]. intros [Hu Hr].
  unfold t_update. rewrite fmap_cons. fold (t_update k v r). split; [|by apply IH].
  unfold t_update. apply Forall_fmap. eapply Forall_impl; [exact Hu|].
  intros w Hw. cbn. by destruct (decide (t_key u = k)), (decide (t_key w = k)).
Qed.

Lemma sorted_key_inj ts u w :
  sorted ts → u ∈ ts → w ∈ ts → t_key u = t_key w → u = w.
Proof.
  induction ts as [|x r IH]; intros Hs Hu Hw Heq; [by apply elem_of_nil in Hu|].
  destruct Hs as [Hx Hr]. rewrite Forall_forall in Hx.
  apply elem_of_cons in Hu as [->|Hu]; apply elem_of_cons in Hw as [->|Hw].
  - done.
  - specialize (Hx w Hw). lia.
  - specialize (Hx u Hu). lia.
  - by apply IH.
Qed.

Lemma t_insert_length (u : tower V) ts :
  sorted ts → length (t_insert u ts) = S (length ts).
Proof.
  intros Hs. unfold t_insert. rewrite (sorted_split (t_key u) ts Hs) at 3.
  rewrite !length_app. simpl. lia.
Qed.

Lemma sorted_StronglySorted ts :
  sorted ts → StronglySorted Z.lt (t_key <$> ts).
Proof.
  induction ts as [|t r IH]; [constructor|]. intros [Ht Hr].
  rewrite fmap_cons. constructor; [by apply IH|].
  apply Forall_fmap. eapply Forall_impl; [done|]. done.
Qed.

End TowerLemmas.
(** ** LockedSkipList: the operations on well-formed states *)

Module LockedProofs.
Module L := LockedSkipList.
Section WithValue.
Context {V : Type}.
Variable V0 : V.
Implicit Types (s : L.t (V:=V)) (h : gmap nat (L.Node (V:=V))).
Implicit Types (ts b hi : list (tower V)) (u : tower V).

(** *** Reading and writing the memory *)

Lemma deref_Ok s p n : L.heap s !! p = Some n → L.deref p s = Ok n s.
Proof. intros H. unfold L.deref. by rewrite H. Qed.

Lemma meta_view_Some h a kk vv mm ff ll len :
  L.meta_view h a = Some (kk, vv, mm, ff, ll, len) →
  ∃ n, h !! a = Some n ∧ L.key n = kk ∧ L.value n = vv ∧ L.marked n = mm ∧
       L.fully_linked n = ff ∧ L.node_level n = ll ∧ length (L.forward n) = len.
Proof.
  unfold L.meta_view. destruct (h !! a) as [n|]; [|done].
  intros [= <- <- <- <- <- <-]. by exists n.
Qed.

Lemma meta_view_is_Some h a : is_Some (L.meta_view h a) ↔ is_Some (h !! a).
Proof. unfold L.meta_view. destruct (h !! a); split; intros [? ?]; eauto; done. Qed.

Lemma fwd_view_Some h a lv q :
  L.fwd_view h a lv = Some q → ∃ n, h !! a = Some n ∧ vget (L.forward n) lv = Some q.
Proof. unfold L.fwd_view. destruct (h !! a) as [n|]; [|done]. eauto. Qed.

Lemma get_forward_Ok s p lv q :
  L.fwd_view (L.heap s) p lv = Some q → L.get_forward p lv s = Ok q s.
Proof.
  intros (n & Hn & Hq)%fwd_view_Some. unfold L.get_forward.
  rewrite (bind_Ok _ _ _ _ _ (deref_Ok _ _ _ Hn)). by rewrite Hq.
Qed.

Lemma set_forward_Ok s p lv q :
  is_Some (L.fwd_view (L.heap s) p lv) →
  ∃ h', L.set_forward p lv q s = Ok tt (L.with_heap s h') ∧
        (∀ a, L.meta_view h' a = L.meta_view (L.heap s) a) ∧
        (∀ a lv', L.fwd_view h' a lv' =
                  if decide (a = p ∧ lv' = lv) then Some q else L.fwd_view (L.heap s) a lv').
Proof.
  intros [q0 (n & Hn & Hq)%fwd_view_Some]. pose proof (vget_lt _ _ _ Hq) as Hlt.
  eexists. split; [|split].
  - unfold L.set_forward. rewrite (bind_Ok _ _ _ _ _ (deref_Ok _ _ _ Hn)).
    rewrite (vset_Some _ _ _ Hlt). reflexivity.
  - intros a. unfold L.meta_view. destruct (decide (a = p)) as [->|Hne].
    + rewrite lookup_insert_eq, Hn. simpl. by rewrite length_insert.
    + by rewrite lookup_insert_ne.
  - intros a lv'. unfold L.fwd_view. destruct (decide (a = p)) as [->|Hne].
    + rewrite lookup_insert_eq, Hn. simpl. rewrite vget_insert by done.
      repeat case_decide; naive_solver.
    + rewrite lookup_insert_ne by done. rewrite decide_False by naive_solver. done.
Qed.

Lemma set_fully_linked_Ok s p kk vv mm ff ll len (b : bool) :
  L.meta_view (L.heap s) p = Some (kk, vv, mm, ff, ll, len) →
  ∃ h', L.set_fully_linked p b s = Ok tt (L.with_heap s h') ∧
        (∀ a, L.meta_view h' a =
              if decide (a = p) then Some (kk, vv, mm, b, ll, len) else L.meta_view (L.heap s) a) ∧
        (∀ a lv, L.fwd_view h' a lv = L.fwd_view (L.heap s) a lv).
Proof.
  intros (n & Hn & <- & <- & <- & <- & <- & <-)%meta_view_Some.
  eexists. split; [|split].
  - unfold L.set_fully_linked. rewrite (bind_Ok _ _ _ _ _ (deref_Ok _ _ _ Hn)). reflexivity.
  - intros a. unfold L.meta_view. case_decide as Ha.
    + subst. by rewrite lookup_insert_eq.
    + by rewrite lookup_insert_ne.
  - intros a lv. unfold L.fwd_view. destruct (decide (a = p)) as [->|Hne].
    + by rewrite lookup_insert_eq, Hn.
    + by rewrite lookup_insert_ne.
Qed.

Lemma set_marked_Ok s p kk vv mm ff ll len (b : bool) :
  L.meta_view (L.heap s) p = Some (kk, vv, mm, ff, ll, len) →
  ∃ h', L.set_marked p b s = Ok tt (L.with_heap s h') ∧
        (∀ a, L.meta_view h' a =
              if decide (a = p) then Some (kk, vv, b, ff, ll, len) else L.meta_view (L.heap s) a) ∧
        (∀ a lv, L.fwd_view h' a lv = L.fwd_view (L.heap s) a lv).
Proof.
  intros (n & Hn & <- & <- & <- & <- & <- & <-)%meta_view_Some.
  eexists. split; [|split].
  - unfold L.set_marked. rewrite (bind_Ok _ _ _ _ _ (deref_Ok _ _ _ Hn)). reflexivity.
  - intros a. unfold L.meta_view. case_decide as Ha.
    + subst. by rewrite lookup_insert_eq.
    + by rewrite lookup_insert_ne.
  - intros a lv. unfold L.fwd_view. destruct (decide (a = p)) as [->|Hne].
    + by rewrite lookup_insert_eq, Hn.
    + by rewrite lookup_insert_ne.
Qed.

Lemma new_node_Ok s kk vv lv :
  0 ≤ lv →
  ∃ nw h', L.new_node kk vv lv s = Ok nw (L.with_heap s h') ∧
        L.heap s !! nw = None ∧
        (∀ a, L.meta_view h' a =
              if decide (a = nw) then Some (kk, vv, false, false, lv, Z.to_nat (lv + 1))
              else L.meta_view (L.heap s) a) ∧
        (∀ a lv', L.fwd_view h' a lv' =
              if decide (a = nw) then (if decide (0 ≤ lv' ≤ lv) then Some null else None)
              else L.fwd_view (L.heap s) a lv').
Proof.
  intros Hlv. set (nw := fresh ({[null]} ∪ dom (L.heap s))).
  assert (L.heap s !! nw = None) as Hfresh.
  { apply not_elem_of_dom. pose proof (is_fresh ({[null]} ∪ dom (L.heap s))). set_solver. }
  exists nw. eexists. split; [|split; [|split]].
  - reflexivity.
  - done.
  - intros a. unfold L.meta_view. case_decide as Ha.
    + subst a. rewrite lookup_insert_eq. simpl. by rewrite length_replicate.
    + by rewrite lookup_insert_ne.
  - intros a lv'. unfold L.fwd_view. case_decide as Ha.
    + subst a. rewrite lookup_insert_eq. simpl. case_decide as Hr.
      * apply vget_replicate. lia.
      * unfold vget. case_decide; [|done]. apply lookup_replicate_None. lia.
    + by rewrite lookup_insert_ne.
Qed.

Lemma delete_node_Ok s p :
  is_Some (L.heap s !! p) →
  ∃ h', L.delete_node p s = Ok tt (L.with_heap s h') ∧
        (∀ a, L.meta_view h' a = if decide (a = p) then None else L.meta_view (L.heap s) a) ∧
        (∀ a lv, L.fwd_view h' a lv =
                 if decide (a = p) then None else L.fwd_view (L.heap s) a lv).
Proof.
  intros [n Hn]. eexists. split; [|split].
  - unfold L.delete_node. rewrite (bind_Ok _ _ _ _ _ (deref_Ok _ _ _ Hn)). reflexivity.
  - intros a. unfold L.meta_view. case_decide as Ha.
    + subst. by rewrite lookup_delete_eq.
    + by rewrite lookup_delete_ne.
  - intros a lv. unfold L.fwd_view. case_decide as Ha.
    + subst. by rewrite lookup_delete_eq.
    + by rewrite lookup_delete_ne.
Qed.

Lemma lock_Ok s p :
  is_Some (L.heap s !! p) → p ∉ L.held s →
  L.lock p s = Ok tt (L.with_held s ({[p]} ∪ L.held s)).
Proof.
  intros [n Hn] Hp. unfold L.lock. rewrite (bind_Ok _ _ _ _ _ (deref_Ok _ _ _ Hn)).
  by rewrite decide_False.
Qed.

Lemma unlock_Ok s p :
  is_Some (L.heap s !! p) → p ∈ L.held s →
  L.unlock p s = Ok tt (L.with_held s (L.held s ∖ {[p]})).
Proof.
  intros [n Hn] Hp. unfold L.unlock. rewrite (bind_Ok _ _ _ _ _ (deref_Ok _ _ _ Hn)).
  by rewrite decide_True.
Qed.

Lemma unlock_list_Ok l s :
  NoDup l → (∀ p, p ∈ l → p ∈ L.held s ∧ is_Some (L.heap s !! p)) →
  L.unlock_list l s = Ok tt (L.with_held s (L.held s ∖ list_to_set l)).
Proof.
  intros Hnd. revert s. induction Hnd as [|p l Hp Hnd IH]; intros s Hl; simpl.
  - unfold ret. f_equal. destruct s; unfold L.with_held; simpl. f_equal. set_solver.
  - destruct (Hl p) as [Hheld Hsome]; [left|].
    rewrite (bind_Ok _ _ _ _ _ (unlock_Ok _ _ Hsome Hheld)).
    rewrite IH.
    + unfold L.with_held; simpl. do 2 f_equal. set_solver.
    + intros q Hq. destruct (Hl q) as [? ?]; [by right|]. simpl. split; [|done].
      set_solver.
Qed.

Lemma unlock_all_Ok X s :
  X ⊆ L.held s → (∀ p, p ∈ X → is_Some (L.heap s !! p)) →
  L.unlock_all X s = Ok tt (L.with_held s (L.held s ∖ X)).
Proof.
  intros HX Hsome. unfold L.unlock_all. rewrite unlock_list_Ok.
  - by rewrite list_to_set_elements_L.
  - apply NoDup_elements.
  - intros p Hp%elem_of_elements. split; [set_solver|auto].
Qed.

(** *** Facts about well-formed states *)

Lemma Rep_node s ts u :
  L.Rep V0 s ts → u ∈ ts →
  ∃ n, L.heap s !! t_addr u = Some n ∧ L.key n = t_key u ∧ L.value n = t_val u ∧
       L.marked n = false ∧ L.fully_linked n = true ∧ L.node_level n = t_lvl u ∧
       length (L.forward n) = Z.to_nat (t_lvl u + 1).
Proof.
  intros HR Hu. pose proof (L.rep_nodes _ _ _ HR) as Hn.
  rewrite Forall_forall in Hn. apply Hn in Hu. apply meta_view_Some in Hu. naive_solver.
Qed.

Lemma Rep_addr s ts u :
  L.Rep V0 s ts → u ∈ ts → t_addr u ≠ L.header_ s ∧ t_addr u ≠ L.tail_ s.
Proof.
  intros HR Hu. pose proof (L.rep_nodup _ _ _ HR) as Hnd.
  apply NoDup_cons in Hnd as [Hh Hnd]. apply NoDup_cons in Hnd as [Ht Hnd].
  apply (list_elem_of_fmap_2 t_addr) in Hu.
  split; intros Heq; rewrite Heq in Hu; [apply Hh; by right|by apply Ht].
Qed.

Lemma Rep_level s ts u : L.Rep V0 s ts → u ∈ ts → 0 ≤ t_lvl u ≤ L.max_level_ s.
Proof.
  intros HR Hu. pose proof (L.rep_levels _ _ _ HR) as Hl.
  rewrite Forall_forall in Hl. by apply Hl.
Qed.

Lemma found_of_range s ts k : L.Rep V0 s ts → -1 ≤ found_of k ts ≤ L.max_level_ s.
Proof.
  intros HR. pose proof (L.rep_max _ _ _ HR). unfold found_of.
  destruct (from k ts) as [|u r] eqn:Hf; [lia|]. case_decide; [|lia].
  assert (u ∈ ts) as Hu.
  { assert (u ∈ from k ts) as Hin by (rewrite Hf; left).
    by apply list_elem_of_filter in Hin as [_ ?]. }
  pose proof (Rep_level _ _ _ HR Hu). lia.
Qed.

(** What [find] meets at level [lv] after the keys below [k]: the tail, or
    a tower whose key is [k] exactly when [lv] is at most the level found. *)
Lemma hi_probe s ts k lv :
  L.Rep V0 s ts → 0 ≤ lv →
  (next_at (L.tail_ s) lv (from k ts) = L.tail_ s ∧ ¬ lv ≤ found_of k ts) ∨
  (∃ u, u ∈ ts ∧ u ∈ from k ts ∧ next_at (L.tail_ s) lv (from k ts) = t_addr u ∧
        k ≤ t_key u ∧ lv ≤ t_lvl u ∧
        (t_key u = k ↔ lv ≤ found_of k ts) ∧ (t_key u = k → t_lvl u = found_of k ts)).
Proof.
  intros HR Hlv. pose proof (L.rep_sorted _ _ _ HR) as Hs.
  assert (∀ u, u ∈ from k ts → u ∈ ts) as Hsub.
  { intros u Hu. by apply list_elem_of_filter in Hu as [_ ?]. }
  unfold found_of. destruct (from k ts) as [|u r] eqn:Hf.
  - left. split; [done|lia].
  - destruct (from_head _ _ _ _ Hs Hf) as (Hku & Hr & _).
    simpl. destruct (decide (lv ≤ t_lvl u)) as [Hle|Hgt].
    + right. exists u. repeat split; try done; try (apply Hsub; left); try left.
      * intros ->. by rewrite decide_True.
      * case_decide; [done|lia].
      * intros ->. by rewrite decide_True.
    + destruct (next_at_cases (L.tail_ s) lv r)
        as [[Hall ->]|(a & w & b & -> & Ha & Hw & ->)].
      * left. split; [done|]. case_decide; lia.
      * assert (k < t_key w) as Hkw.
        { rewrite Forall_forall in Hr. apply Hr. set_solver. }
        right. exists w. repeat split; try done; try lia.
        -- apply Hsub. set_solver.
        -- set_solver.
        -- case_decide; lia.
Qed.

(** *** [find] *)

Lemma find_walk_spec s k lv b hi :
  chain_links (L.fwd_view (L.heap s)) (L.tail_ s) (b ++ hi) →
  Forall (λ u, ∃ n, L.heap s !! t_addr u = Some n ∧ L.key n = t_key u) (b ++ hi) →
  Forall (λ u, t_addr u ≠ L.tail_ s) (b ++ hi) →
  Forall (λ u, t_key u < k) b → Forall (λ u, k ≤ t_key u) hi →
  0 ≤ lv →
  ∀ pred fuel, (length b < fuel)%nat →
  L.find_walk fuel k lv pred (next_at (L.tail_ s) lv (b ++ hi)) s =
  Ok (last_at pred lv b, next_at (L.tail_ s) lv hi) s.
Proof.
  intros Hch Hnodes Hnt Hb Hhi Hlv.
  induction b as [|u b IH]; intros pred fuel Hfuel.
  - simpl in *. destruct fuel as [|f]; [lia|]. simpl.
    case_decide as Hc; [by rewrite Hc|].
    destruct (next_at_cases (L.tail_ s) lv hi)
      as [[_ Heq]|(a & w & c & Hhi_eq & _ & Hw & Heq)]; [done|].
    rewrite Heq. assert (w ∈ hi) as Hin by (rewrite Hhi_eq; set_solver).
    rewrite Forall_forall in Hnodes. destruct (Hnodes w Hin) as (n & Hn & Hkey).
    rewrite (bind_Ok _ _ _ _ _ (deref_Ok _ _ _ Hn)).
    rewrite Forall_forall in Hhi. specialize (Hhi w Hin).
    rewrite Hkey. destruct (Z.ltb_spec (t_key w) k); [lia|done].
  - simpl in Hch. destruct Hch as [Hu Hch].
    rewrite <- app_comm_cons in Hnodes, Hnt.
    apply Forall_cons in Hnodes as [(n & Hn & Hkey) Hnodes].
    apply Forall_cons in Hnt as [Hut Hnt].
    apply Forall_cons in Hb as [Huk Hb].
    simpl. destruct (decide (lv ≤ t_lvl u)) as [Hle|Hgt].
    + destruct fuel as [|f]; [simpl in Hfuel; lia|]. simpl.
      rewrite decide_False by done.
      rewrite (bind_Ok _ _ _ _ _ (deref_Ok _ _ _ Hn)).
      rewrite Hkey. destruct (Z.ltb_spec (t_key u) k); [|lia].
      erewrite bind_Ok; [|apply get_forward_Ok, Hu; lia].
      apply IH; try done. simpl in Hfuel. lia.
    + apply IH; try done. simpl in Hfuel. lia.
Qed.

Lemma levels_down_cons top : 0 ≤ top → L.levels_down top = top :: L.levels_down (top - 1).
Proof.
  intros Htop. unfold L.levels_down.
  replace (top + 1) with (Z.of_nat (S (Z.to_nat top))) by lia.
  rewrite seqZ_S, reverse_snoc. f_equal; [lia|]. f_equal. f_equal. lia.
Qed.

Lemma levels_down_nil top : top < 0 → L.levels_down top = [].
Proof.
  intros Htop. unfold L.levels_down.
  assert (length (seqZ 0 (top + 1)) = 0%nat) as Hl by (rewrite length_seqZ; lia).
  destruct (seqZ 0 (top + 1)); [done|simpl in Hl; lia].
Qed.

(** The predecessor that [find] holds when it enters level [lv]: its forward
    pointer at [lv] leads into the towers that follow it. *)
Lemma pred_forward s ts k lv top :
  L.Rep V0 s ts → 0 ≤ lv ≤ L.max_level_ s → lv ≤ top →
  ∃ b, L.fwd_view (L.heap s) (last_at (L.header_ s) top (below k ts)) lv =
         Some (next_at (L.tail_ s) lv (b ++ from k ts)) ∧
       (∃ a, ts = a ++ b ++ from k ts) ∧
       Forall (λ u, t_key u < k) b ∧
       Forall (λ u, t_lvl u < top) b ∧
       last_at (last_at (L.header_ s) top (below k ts)) lv b =
       last_at (L.header_ s) lv (below k ts).
Proof.
  intros HR Hlv Htop. pose proof (L.rep_links _ _ _ HR) as Hch.
  pose proof (sorted_split k ts (L.rep_sorted _ _ _ HR)) as Hsp.
  destruct (last_at_cases (L.header_ s) top (below k ts))
    as [[Hall ->]|(a & u & b & Hbe & Hb & Hu & ->)].
  - exists (below k ts). repeat split; try done.
    + rewrite <- Hsp. simpl in Hch. destruct Hch as [Hh _]. apply Hh. simpl. lia.
    + exists []. by rewrite <- Hsp.
    + apply below_Forall.
  - exists b. repeat split; try done.
    + rewrite Hsp, Hbe in Hch. rewrite <- app_assoc, <- app_comm_cons in Hch.
      apply (chain_links_mid _ _ (L.header_tower V0 s :: a) u (b ++ from k ts)); [done|lia].
    + exists (a ++ [u]). rewrite Hsp at 1. rewrite Hbe.
      rewrite <- !app_assoc. done.
    + pose proof (below_Forall k ts) as HF. rewrite Hbe in HF.
      apply Forall_app in HF as [_ HF]. by apply Forall_cons in HF as [_ ?].
    + rewrite Hbe, last_at_app. simpl. rewrite decide_True by lia. done.
Qed.

Lemma Rep_suffix s ts a b :
  L.Rep V0 s ts → ts = a ++ b →
  chain_links (L.fwd_view (L.heap s)) (L.tail_ s) b ∧
  Forall (λ u, ∃ n, L.heap s !! t_addr u = Some n ∧ L.key n = t_key u) b ∧
  Forall (λ u, t_addr u ≠ L.tail_ s) b ∧
  (length b ≤ length ts)%nat.
Proof.
  intros HR ->. repeat split.
  - pose proof (L.rep_links _ _ _ HR) as Hch.
    by apply (chain_links_app _ _ (L.header_tower V0 s :: a) b).
  - apply Forall_forall. intros u Hu.
    destruct (Rep_node s (a ++ b) u HR) as (n & ? & ? & _); [set_solver|eauto].
  - apply Forall_forall. intros u Hu.
    apply (Rep_addr s (a ++ b) u HR). set_solver.
  - rewrite length_app. lia.
Qed.

Lemma find_levels_spec s ts k fuel :
  L.Rep V0 s ts → (length ts < fuel)%nat →
  ∀ (n : nat) preds succs,
    Z.of_nat n - 1 ≤ L.max_level_ s →
    length preds = Z.to_nat (L.max_level_ s + 1) →
    length succs = Z.to_nat (L.max_level_ s + 1) →
    ∃ preds' succs',
      L.find_levels fuel k (L.levels_down (Z.of_nat n - 1))
        (last_at (L.header_ s) (Z.of_nat n) (below k ts))
        (if decide (Z.of_nat n ≤ found_of k ts) then found_of k ts else -1)
        preds succs s
      = Ok (found_of k ts, preds', succs') s ∧
      length preds' = Z.to_nat (L.max_level_ s + 1) ∧
      length succs' = Z.to_nat (L.max_level_ s + 1) ∧
      (∀ lv, 0 ≤ lv < Z.of_nat n →
         vget preds' lv = Some (last_at (L.header_ s) lv (below k ts)) ∧
         vget succs' lv = Some (next_at (L.tail_ s) lv (from k ts))) ∧
      (∀ lv, Z.of_nat n ≤ lv → vget preds' lv = vget preds lv ∧ vget succs' lv = vget succs lv).
Proof.
  intros HR Hfuel. pose proof (found_of_range s ts k HR) as Hfo.
  induction n as [|m IH]; intros preds succs Hn Hlp Hls.
  - exists preds, succs. rewrite levels_down_nil by lia. simpl. unfold ret.
    repeat split; try done; try lia.
    case_decide; [done|]. f_equal. f_equal. f_equal. lia.
  - replace (Z.of_nat (S m) - 1) with (Z.of_nat m) in * by lia.
    rewrite levels_down_cons by lia. cbn [L.find_levels].
    destruct (pred_forward s ts k (Z.of_nat m) (Z.of_nat (S m)) HR)
      as (b & Hfw & [a Hts] & Hbk & Hbl & Hlast); [lia..|].
    destruct (Rep_suffix s ts a (b ++ from k ts) HR Hts) as (Hch & Hnodes & Hnt & Hlen).
    rewrite length_app in Hlen.
    erewrite bind_Ok; [|by apply get_forward_Ok].
    erewrite bind_Ok;
      [|apply find_walk_spec; try done; [apply from_Forall|lia..]].
    rewrite Hlast.
    set (found' := if decide (Z.of_nat m ≤ found_of k ts) then found_of k ts else -1).
    erewrite (bind_Ok _ _ _ found' s).
    2:{ destruct (hi_probe s ts k (Z.of_nat m) HR) as
          [[-> Hnot]|(u & Hu & _ & -> & Hku & Hlu & Hiff & Hlvl)]; [lia|..].
        - rewrite bool_decide_eq_true_2 by done. rewrite andb_false_r.
          unfold found'. do 2 f_equal. repeat case_decide; lia.
        - destruct (Rep_node s ts u HR Hu) as (nd & Hnd & Hkey & _).
          destruct (Rep_addr s ts u HR Hu) as [_ Htl].
          rewrite bool_decide_eq_false_2 by done. simpl. rewrite andb_true_r.
          unfold found'. destruct (Z.eqb_spec
            (if decide (Z.of_nat (S m) ≤ found_of k ts) then found_of k ts else -1) (-1))
            as [Heq|Hne].
          + rewrite (bind_Ok _ _ _ _ _ (deref_Ok _ _ _ Hnd)). unfold ret. f_equal.
            rewrite Hkey, Heq.
            destruct (Z.eqb_spec k (t_key u)) as [Hk|Hk].
            * symmetry in Hk. pose proof (Hlvl Hk). apply Hiff in Hk.
              repeat case_decide; lia.
            * destruct (decide (Z.of_nat m ≤ found_of k ts)) as [Hc|Hc]; [|done].
              apply Hiff in Hc. congruence.
          + f_equal. repeat case_decide; lia. }
    cbv beta.
    assert (0 ≤ Z.of_nat m < Z.of_nat (length preds)) as Hip by lia.
    assert (0 ≤ Z.of_nat m < Z.of_nat (length succs)) as His by lia.
    rewrite (vset_Some _ _ _ Hip), (vset_Some _ _ _ His). cbn [lift_opt].
    erewrite bind_Ok; [|reflexivity]. erewrite bind_Ok; [|reflexivity].
    destruct (IH (<[Z.to_nat (Z.of_nat m) := last_at (L.header_ s) (Z.of_nat m) (below k ts)]> preds)
                 (<[Z.to_nat (Z.of_nat m) := next_at (L.tail_ s) (Z.of_nat m) (from k ts)]> succs))
      as (preds' & succs' & Hrun & Hlp' & Hls' & Hlow & Hhigh);
      [lia|by rewrite length_insert..|].
    exists preds', succs'. split; [exact Hrun|]. repeat split; try done.
    + destruct (decide (lv = Z.of_nat m)) as [->|Hne].
      * destruct (Hhigh (Z.of_nat m)) as [-> _]; [lia|].
        rewrite vget_insert by done. by rewrite decide_True.
      * apply Hlow. lia.
    + destruct (decide (lv = Z.of_nat m)) as [->|Hne].
      * destruct (Hhigh (Z.of_nat m)) as [_ ->]; [lia|].
        rewrite vget_insert by done. by rewrite decide_True.
      * apply Hlow. lia.
    + destruct (Hhigh lv) as [-> _]; [lia|].
      rewrite vget_insert by done. rewrite decide_False by lia. done.
    + destruct (Hhigh lv) as [_ ->]; [lia|].
      rewrite vget_insert by done. rewrite decide_False by lia. done.
Qed.

(** [find] on a well-formed state: the level found, and at every level the
    last tower below [k] and the first tower from [k] on. *)
Lemma find_spec s ts k fuel preds succs :
  L.Rep V0 s ts → (length ts < fuel)%nat →
  length preds = Z.to_nat (L.max_level_ s + 1) →
  length succs = Z.to_nat (L.max_level_ s + 1) →
  ∃ preds' succs',
    L.find fuel k preds succs s = Ok (found_of k ts, preds', succs') s ∧
    length preds' = Z.to_nat (L.max_level_ s + 1) ∧
    length succs' = Z.to_nat (L.max_level_ s + 1) ∧
    (∀ lv, 0 ≤ lv ≤ L.max_level_ s →
       vget preds' lv = Some (last_at (L.header_ s) lv (below k ts)) ∧
       vget succs' lv = Some (next_at (L.tail_ s) lv (from k ts))).
Proof.
  intros HR Hfuel Hlp Hls. pose proof (L.rep_max _ _ _ HR) as Hmax.
  pose proof (found_of_range s ts k HR) as Hfo.
  destruct (find_levels_spec s ts k fuel HR Hfuel (Z.to_nat (L.max_level_ s + 1)) preds succs)
    as (preds' & succs' & Hrun & Hlp' & Hls' & Hlow & _); [lia|done..|].
  exists preds', succs'. repeat split; try done; try (apply Hlow; lia).
  unfold L.find. rewrite <- Hrun. f_equal.
  - f_equal. lia.
  - symmetry. apply last_at_below. apply Forall_forall.
    intros u [_ Hu]%list_elem_of_filter. pose proof (Rep_level s ts u HR Hu). lia.
  - rewrite decide_False by lia. done.
Qed.

(** Whether [k] is among the towers, as [find] reports it. *)
Lemma found_of_cases s ts k :
  L.Rep V0 s ts →
  (found_of k ts = -1 ∧ model ts !! k = None ∧ k ∉ t_key <$> ts) ∨
  (∃ u r, from k ts = u :: r ∧ t_key u = k ∧ found_of k ts = t_lvl u ∧
          model ts !! k = Some (t_val u) ∧ u ∈ ts ∧ 0 ≤ t_lvl u ≤ L.max_level_ s ∧
          k ∈ t_key <$> ts).
Proof.
  intros HR. pose proof (L.rep_sorted _ _ _ HR) as Hs.
  rewrite (model_lookup k ts Hs). unfold found_of.
  destruct (from k ts) as [|u r] eqn:Hf.
  - left. repeat split; try done.
    intros (w & -> & Hw)%list_elem_of_fmap.
    assert (w ∈ from (t_key w) ts) as Hin by (apply list_elem_of_filter; split; [lia|done]).
    rewrite Hf in Hin. by apply elem_of_nil in Hin.
  - assert (u ∈ ts) as Hu.
    { assert (u ∈ from k ts) as Hin by (rewrite Hf; left).
      by apply list_elem_of_filter in Hin as [_ ?]. }
    destruct (from_head _ _ _ _ Hs Hf) as (Hku & Hr & _).
    case_decide as Hk.
    + right. exists u, r. repeat split; try done; try apply (Rep_level s ts u HR Hu).
      rewrite <- Hk. by apply list_elem_of_fmap_2.
    + left. repeat split; try done.
      intros (w & -> & Hw)%list_elem_of_fmap.
      assert (w ∈ from (t_key w) ts) as Hin by (apply list_elem_of_filter; split; [lia|done]).
      rewrite Hf in Hin. apply elem_of_cons in Hin as [->|Hin]; [done|].
      rewrite Forall_forall in Hr. specialize (Hr w Hin). lia.
Qed.

(** The predecessor recorded by [find] at level [lv]. *)
Lemma pred_info s ts k lv :
  L.Rep V0 s ts → 0 ≤ lv ≤ L.max_level_ s →
  let p := last_at (L.header_ s) lv (below k ts) in
  (∃ n, L.heap s !! p = Some n ∧ L.marked n = false) ∧
  p ≠ L.tail_ s ∧
  (∀ u, u ∈ from k ts → p ≠ t_addr u) ∧
  L.fwd_view (L.heap s) p lv = Some (next_at (L.tail_ s) lv (from k ts)).
Proof.
  intros HR Hlv p. pose proof (L.rep_nodup _ _ _ HR) as Hnd.
  pose proof (sorted_split k ts (L.rep_sorted _ _ _ HR)) as Hsp.
  assert (p = L.header_ s ∨ ∃ u, u ∈ below k ts ∧ t_addr u = p) as Hp.
  { destruct (last_at_elem (L.header_ s) lv (below k ts)) as [?|Hin]; [by left|].
    right. apply list_elem_of_fmap in Hin as (u & ? & ?). eauto. }
  repeat split.
  - destruct Hp as [->|(u & Hu & <-)].
    + destruct (meta_view_Some _ _ _ _ _ _ _ _ (L.rep_header _ _ _ HR)) as (n & ? & ? & ? & ? & _).
      eauto.
    + apply list_elem_of_filter in Hu as [_ Hu].
      destruct (Rep_node s ts u HR Hu) as (n & ? & ? & ? & ? & _). eauto.
  - destruct Hp as [->|(u & Hu & <-)].
    + apply NoDup_cons in Hnd as [Hh _]. intros Heq. apply Hh. rewrite Heq. left.
    + apply list_elem_of_filter in Hu as [_ Hu]. apply (Rep_addr s ts u HR Hu).
  - intros w Hw. destruct Hp as [->|(u & Hu & <-)].
    + apply list_elem_of_filter in Hw as [_ Hw]. intros Heq.
      by destruct (Rep_addr s ts w HR Hw).
    + intros Heq. apply NoDup_cons in Hnd as [_ Hnd]. apply NoDup_cons in Hnd as [_ Hnd].
      rewrite Hsp, fmap_app in Hnd. apply NoDup_app in Hnd as (_ & Hdis & _).
      apply (Hdis (t_addr u)); [by apply list_elem_of_fmap_2|].
      rewrite Heq. by apply list_elem_of_fmap_2.
  - destruct (pred_forward s ts k lv lv HR) as (b & Hfw & _ & _ & Hb & _); [lia..|].
    fold p in Hfw. rewrite Hfw, next_at_app, (next_at_below _ _ b Hb). done.
Qed.

(** The successor recorded by [find] at level [lv]. *)
Lemma succ_info s ts k lv :
  L.Rep V0 s ts → 0 ≤ lv →
  ∃ n, L.heap s !! next_at (L.tail_ s) lv (from k ts) = Some n ∧ L.marked n = false.
Proof.
  intros HR Hlv.
  destruct (hi_probe s ts k lv HR Hlv) as [[-> _]|(u & Hu & _ & -> & _)].
  - destruct (meta_view_Some _ _ _ _ _ _ _ _ (L.rep_tail _ _ _ HR)) as (n & ? & ? & ? & ? & _).
    eauto.
  - destruct (Rep_node s ts u HR Hu) as (n & ? & ? & ? & ? & _). eauto.
Qed.

Lemma new_vector_Ok s :
  L.new_vector s = Ok (replicate (Z.to_nat (L.max_level_ s + 1)) null) s.
Proof. done. Qed.

(** *** [search] *)

Lemma search_spec s ts k fuel :
  L.Rep V0 s ts → (length ts < fuel)%nat →
  L.search V0 fuel k s =
  Ok (match model ts !! k with Some v => (true, v) | None => (false, V0) end) s.
Proof.
  intros HR Hfuel. unfold L.search.
  rewrite (bind_Ok _ _ _ _ _ (new_vector_Ok s)), (bind_Ok _ _ _ _ _ (new_vector_Ok s)).
  destruct (find_spec s ts k fuel (replicate (Z.to_nat (L.max_level_ s + 1)) null)
              (replicate (Z.to_nat (L.max_level_ s + 1)) null) HR Hfuel)
    as (P & S & Hfind & _ & _ & Hvec); [by rewrite length_replicate..|].
  rewrite (bind_Ok _ _ _ _ _ Hfind).
  destruct (found_of_cases s ts k HR)
    as [(-> & -> & _)|(u & r & Hf & Hk & -> & -> & Hu & Hlvl & _)]; [done|].
  destruct (Z.eqb_spec (t_lvl u) (-1)) as [?|_]; [lia|].
  destruct (Hvec (t_lvl u) Hlvl) as [_ HS]. rewrite HS. cbn [lift_opt].
  erewrite bind_Ok; [|reflexivity].
  rewrite Hf. simpl. rewrite !(decide_True (P := t_lvl u ≤ t_lvl u)) by lia.
  destruct (Rep_addr s ts u HR Hu) as [_ Htl]. rewrite decide_False by done.
  destruct (Rep_node s ts u HR Hu) as (n & Hn & Hkey & Hval & Hm & Hfl & _).
  rewrite (bind_Ok _ _ _ _ _ (deref_Ok _ _ _ Hn)).
  rewrite Hkey, Hk, Hm, Hfl, Hval, Z.eqb_refl. done.
Qed.

(** *** [for_each] *)

Lemma for_each_loop_spec s b :
  chain_links (L.fwd_view (L.heap s)) (L.tail_ s) b →
  Forall (λ u, ∃ n, L.heap s !! t_addr u = Some n ∧ L.key n = t_key u ∧
                    L.value n = t_val u ∧ 0 ≤ t_lvl u ∧ t_addr u ≠ L.tail_ s) b →
  ∀ visited fuel, (length b < fuel)%nat →
  L.for_each_loop fuel (next_at (L.tail_ s) 0 b) visited s =
  Ok (visited ++ ((λ u, (t_key u, t_val u)) <$> b)) s.
Proof.
  induction b as [|u b IH]; intros Hch Hnodes visited fuel Hfuel.
  - destruct fuel as [|f]; [simpl in Hfuel; lia|]. simpl.
    rewrite decide_True by done. by rewrite app_nil_r.
  - destruct Hch as [Hu Hch].
    apply Forall_cons in Hnodes as [(n & Hn & Hkey & Hval & Hlvl & Htl) Hnodes].
    destruct fuel as [|f]; [simpl in Hfuel; lia|]. simpl.
    rewrite (decide_True (P := 0 ≤ t_lvl u)) by done.
    rewrite decide_False by done.
    rewrite (bind_Ok _ _ _ _ _ (deref_Ok _ _ _ Hn)).
    erewrite bind_Ok; [|apply get_forward_Ok, Hu; lia].
    rewrite IH; try done; [|simpl in Hfuel; lia].
    rewrite Hkey, Hval, <- app_assoc. done.
Qed.

Lemma for_each_spec s ts fuel :
  L.Rep V0 s ts → (length ts < fuel)%nat →
  L.for_each fuel s = Ok ((λ u, (t_key u, t_val u)) <$> ts) s.
Proof.
  intros HR Hfuel. unfold L.for_each.
  pose proof (L.rep_links _ _ _ HR) as [Hh Hch]. pose proof (L.rep_max _ _ _ HR).
  erewrite bind_Ok; [|apply get_forward_Ok, Hh; simpl; lia].
  apply (for_each_loop_spec s ts Hch); [|done].
  apply Forall_forall. intros u Hu.
  destruct (Rep_node s ts u HR Hu) as (n & ? & ? & ? & _).
  exists n. repeat split; try done; [apply (Rep_level s ts u HR Hu)|apply (Rep_addr s ts u HR Hu)].
Qed.

(** *** [get_rand_level] *)

Lemma rand_level_loop_spec fuel : ∀ level s,
  level ≤ L.max_level_ s → (Z.to_nat (L.max_level_ s - level) < fuel)%nat →
  let c := count_successes (Z.to_nat (L.max_level_ s - level)) (L.probability_ s) (L.gen_ s) in
  L.rand_level_loop fuel level s =
  Ok (level + Z.of_nat c) (L.with_gen s (drop_draws (S c) (L.gen_ s))).
Proof.
  induction fuel as [|f IH]; intros level s Hle Hfuel; [lia|].
  cbn [L.rand_level_loop]. unfold bind, L.draw. cbv zeta.
  cbn [L.probability_ L.max_level_ L.with_gen].
  destruct (Z.to_nat (L.max_level_ s - level)) as [|cap] eqn:Hcap.
  - destruct (Z.ltb_spec level (L.max_level_ s)); [lia|].
    rewrite andb_false_r. simpl. do 2 f_equal. lia.
  - destruct (Z.ltb_spec level (L.max_level_ s)); [|lia].
    rewrite andb_true_r. cbn [count_successes].
    destruct (Qltb (L.gen_ s 0%nat) (L.probability_ s)).
    + rewrite IH; cbn [L.max_level_ L.with_gen L.probability_ L.gen_]; [|lia..].
      replace (Z.to_nat (L.max_level_ s - (level + 1))) with cap by lia.
      f_equal. lia.
    + simpl. do 2 f_equal. lia.
Qed.

Lemma get_rand_level_spec fuel s :
  0 ≤ L.max_level_ s → (Z.to_nat (L.max_level_ s) < fuel)%nat →
  let c := count_successes (Z.to_nat (L.max_level_ s)) (L.probability_ s) (L.gen_ s) in
  L.get_rand_level fuel s = Ok (Z.of_nat c) (L.with_gen s (drop_draws (S c) (L.gen_ s))).
Proof.
  intros Hmax Hfuel. unfold L.get_rand_level.
  rewrite rand_level_loop_spec by lia. rewrite Z.sub_0_r. done.
Qed.

Lemma Rep_with_gen s ts g : L.Rep V0 s ts → L.Rep V0 (L.with_gen s g) ts.
Proof. intros [? ? ? ? ? ? ? ? ? ?]. by constructor. Qed.

(** *** [insert] *)

Lemma with_heap_id s : L.with_heap s (L.heap s) = s.
Proof. by destruct s. Qed.

Lemma with_held_id s : L.with_held s (L.held s) = s.
Proof. by destruct s. Qed.

Lemma lock_once_Ok s p X :
  is_Some (L.heap s !! p) → (∀ q, q ∈ X → is_Some (L.heap s !! q)) →
  ∃ X', L.lock_once p X (L.with_held s X) = Ok X' (L.with_held s X') ∧
        (∀ q, q ∈ X' → is_Some (L.heap s !! q)) ∧ X ⊆ X' ∧ X' ⊆ {[p]} ∪ X.
Proof.
  intros Hp HX. unfold L.lock_once. case_decide as Hin.
  - exists X. repeat split; [done|set_solver..].
  - exists ({[p]} ∪ X). rewrite (bind_Ok _ _ _ tt (L.with_held s ({[p]} ∪ X))).
    + repeat split; [|set_solver..]. intros q [->%elem_of_singleton|?]%elem_of_union; auto.
    + by rewrite lock_Ok.
Qed.

Lemma insert_validate_spec s ts k P S :
  L.Rep V0 s ts →
  (∀ lv, 0 ≤ lv ≤ L.max_level_ s →
     vget P lv = Some (last_at (L.header_ s) lv (below k ts)) ∧
     vget S lv = Some (next_at (L.tail_ s) lv (from k ts))) →
  ∀ levels X,
    Forall (λ lv, 0 ≤ lv ≤ L.max_level_ s) levels →
    (∀ p, p ∈ X → is_Some (L.heap s !! p)) →
    ∃ X', L.insert_validate levels P S X (L.with_held s X) = Ok (true, X') (L.with_held s X') ∧
          (∀ p, p ∈ X' → is_Some (L.heap s !! p)).
Proof.
  intros HR Hvec. induction levels as [|lv levels IH]; intros X Hlv HX.
  - exists X. by split.
  - apply Forall_cons in Hlv as [Hlv Hlevels].
    destruct (Hvec lv Hlv) as [HP HS].
    destruct (pred_info s ts k lv HR Hlv) as ((pn & Hpn & Hpm) & _ & _ & Hfw).
    destruct (succ_info s ts k lv HR) as (sn & Hsn & Hsm); [lia|].
    destruct (lock_once_Ok s (last_at (L.header_ s) lv (below k ts)) X)
      as (X1 & Hlock & HX1 & _); [eauto|done|].
    destruct (IH X1 Hlevels HX1) as (X' & Hrun & HX').
    exists X'. split; [|done].
    cbn [L.insert_validate]. rewrite HP, HS. cbn [lift_opt].
    erewrite bind_Ok; [|reflexivity]. erewrite bind_Ok; [|reflexivity].
    rewrite (bind_Ok _ _ _ _ _ Hlock).
    erewrite bind_Ok; [|by apply deref_Ok]. rewrite Hpm.
    erewrite bind_Ok; [|by apply deref_Ok]. rewrite Hsm.
    erewrite bind_Ok; [|by apply get_forward_Ok].
    rewrite decide_True by done. exact Hrun.
Qed.

Lemma insert_link_spec P S nw (fp fs : Z → addr) : ∀ levels s,
  (∀ lv, lv ∈ levels →
     vget P lv = Some (fp lv) ∧ vget S lv = Some (fs lv) ∧ fp lv ≠ nw ∧
     is_Some (L.fwd_view (L.heap s) nw lv) ∧ is_Some (L.fwd_view (L.heap s) (fp lv) lv)) →
  ∃ h', L.insert_link levels P S nw s = Ok tt (L.with_heap s h') ∧
     (∀ a, L.meta_view h' a = L.meta_view (L.heap s) a) ∧
     (∀ a lv, L.fwd_view h' a lv =
        if decide (lv ∈ levels ∧ a = nw) then Some (fs lv)
        else if decide (lv ∈ levels ∧ a = fp lv) then Some nw
        else L.fwd_view (L.heap s) a lv).
Proof.
  induction levels as [|l0 levels IH]; intros s Hl.
  - exists (L.heap s). rewrite with_heap_id. repeat split; done.
  - destruct (Hl l0) as (HP & HS & Hne & Hnw & Hp); [left|].
    destruct (set_forward_Ok s nw l0 (fs l0) Hnw) as (h1 & Hrun1 & Hm1 & Hf1).
    destruct (set_forward_Ok (L.with_heap s h1) (fp l0) l0 nw) as (h2 & Hrun2 & Hm2 & Hf2).
    { cbn [L.heap L.with_heap]. rewrite Hf1. case_decide; [eauto|done]. }
    cbn [L.heap L.with_heap] in *.
    destruct (IH (L.with_heap s h2)) as (h' & Hrun & Hm & Hf).
    { intros lv Hlv. destruct (Hl lv) as (? & ? & ? & Hs1 & Hs2); [by right|].
      repeat split; try done; cbn [L.heap L.with_heap]; rewrite Hf2, Hf1;
        repeat case_decide; eauto. }
    cbn [L.heap L.with_heap] in *.
    exists h'. split; [|split].
    + cbn [L.insert_link]. rewrite HS, HP. cbn [lift_opt].
      erewrite bind_Ok; [|reflexivity]. rewrite (bind_Ok _ _ _ _ _ Hrun1).
      erewrite bind_Ok; [|reflexivity]. rewrite (bind_Ok _ _ _ _ _ Hrun2).
      exact Hrun.
    + intros a. by rewrite Hm, Hm2, Hm1.
    + intros a lv. rewrite Hf, Hf2, Hf1.
      assert (lv ∈ l0 :: levels → fp lv ≠ nw) as Hne'.
      { intros Hin. by destruct (Hl lv Hin) as (_ & _ & ? & _). }
      clear -Hne'. repeat case_decide; try done; set_unfold; naive_solver.
Qed.

Lemma meta_view_fresh h a nw :
  h !! nw = None → is_Some (L.meta_view h a) → a ≠ nw.
Proof. intros Hnw [x Hx] ->. unfold L.meta_view in Hx. by rewrite Hnw in Hx. Qed.

Lemma Rep_meta_header s ts : L.Rep V0 s ts → is_Some (L.meta_view (L.heap s) (L.header_ s)).
Proof. intros HR. rewrite (L.rep_header _ _ _ HR). eauto. Qed.

Lemma Rep_meta_tail s ts : L.Rep V0 s ts → is_Some (L.meta_view (L.heap s) (L.tail_ s)).
Proof. intros HR. rewrite (L.rep_tail _ _ _ HR). eauto. Qed.

Lemma Rep_meta_node s ts u :
  L.Rep V0 s ts → u ∈ ts → is_Some (L.meta_view (L.heap s) (t_addr u)).
Proof.
  intros HR Hu. pose proof (L.rep_nodes _ _ _ HR) as Hn.
  rewrite Forall_forall in Hn. rewrite (Hn u Hu). eauto.
Qed.

Lemma Rep_meta_pred s ts k lv :
  L.Rep V0 s ts → 0 ≤ lv ≤ L.max_level_ s →
  is_Some (L.meta_view (L.heap s) (last_at (L.header_ s) lv (below k ts))).
Proof.
  intros HR Hlv. destruct (pred_info s ts k lv HR Hlv) as ((n & Hn & _) & _).
  apply meta_view_is_Some. eauto.
Qed.

(** The header counts as a tower of level [max_level_]. *)
Lemma last_at_header s ts lv d :
  lv ≤ L.max_level_ s →
  last_at d lv (L.header_tower V0 s :: ts) = last_at (L.header_ s) lv ts.
Proof. intros Hlv. simpl. by rewrite decide_True. Qed.

Lemma header_pre_NoDup s ts k :
  L.Rep V0 s ts →
  NoDup (t_addr <$> (L.header_tower V0 s :: below k ts)) ∧
  L.tail_ s ∉ t_addr <$> (L.header_tower V0 s :: below k ts).
Proof.
  intros HR. pose proof (L.rep_nodup _ _ _ HR) as Hnd.
  rewrite (sorted_split k ts (L.rep_sorted _ _ _ HR)), fmap_app in Hnd.
  rewrite fmap_cons. simpl.
  apply NoDup_cons in Hnd as [Hh Hnd]. apply NoDup_cons in Hnd as [Ht Hnd].
  apply NoDup_app in Hnd as (Hnd & _ & _).
  split.
  - apply NoDup_cons. split; [|done]. intros Hin. apply Hh. right.
    apply elem_of_app. by left.
  - intros [Heq|Hin]%elem_of_cons.
    + apply Hh. rewrite Heq. left.
    + apply Ht. apply elem_of_app. by left.
Qed.

(** [insert] of a key that is not in the list: one round of the loop. *)
Lemma insert_loop_absent s ts k v lvl fuel n preds succs :
  L.Rep V0 s ts → (length ts < fuel)%nat → 0 ≤ lvl ≤ L.max_level_ s →
  k ∉ t_key <$> ts →
  length preds = Z.to_nat (L.max_level_ s + 1) →
  length succs = Z.to_nat (L.max_level_ s + 1) →
  ∃ s' nw,
    L.insert_loop (S n) fuel k v lvl preds succs s = Ok true s' ∧
    L.Rep V0 s' (t_insert (mkTower nw k v lvl) ts) ∧
    L.max_level_ s' = L.max_level_ s ∧ L.probability_ s' = L.probability_ s ∧
    L.gen_ s' = L.gen_ s.
Proof.
  intros HR Hfuel Hlvl Habs Hlp Hls.
  destruct (find_spec s ts k fuel preds succs HR Hfuel Hlp Hls)
    as (P & S & Hfind & _ & _ & Hvec).
  destruct (found_of_cases s ts k HR) as [(Hfo & _ & _)|(u & r & _ & _ & _ & _ & _ & _ & Hin)];
    [|done].
  rewrite Hfo in Hfind.
  set (fp := λ lv, last_at (L.header_ s) lv (below k ts)).
  set (fs := λ lv, next_at (L.tail_ s) lv (from k ts)).
  (* validation *)
  destruct (insert_validate_spec s ts k P S HR Hvec (seqZ 0 (lvl + 1)) ∅)
    as (X & Hval & HX).
  { apply Forall_forall. intros lv Hlv%elem_of_seqZ. lia. }
  { intros p Hp. by apply elem_of_empty in Hp. }
  assert (L.with_held s ∅ = s) as Hs0
    by (rewrite <- (L.rep_held _ _ _ HR); apply with_held_id).
  rewrite Hs0 in Hval.
  (* allocation *)
  destruct (new_node_Ok (L.with_held s X) k v lvl) as (nw & h1 & Hnew & Hfresh & Hm1 & Hf1);
    [lia|].
  cbn [L.heap L.with_held] in Hfresh, Hm1, Hf1.
  assert (∀ a, is_Some (L.meta_view (L.heap s) a) → a ≠ nw) as Hne
    by (intros a; by apply meta_view_fresh).
  (* linking *)
  destruct (insert_link_spec P S nw fp fs (seqZ 0 (lvl + 1))
              (L.with_heap (L.with_held s X) h1)) as (h2 & Hlink & Hm2 & Hf2).
  { intros lv Hlv%elem_of_seqZ. destruct (Hvec lv) as [HP HS]; [lia|].
    pose proof (Hne _ (Rep_meta_pred s ts k lv HR ltac:(lia))) as Hpne.
    repeat split; try done; cbn [L.heap L.with_heap]; rewrite Hf1.
    - rewrite decide_True by done. rewrite decide_True by lia. eauto.
    - rewrite decide_False by done.
      destruct (pred_info s ts k lv HR) as (_ & _ & _ & Hpf); [lia|].
      unfold fp. rewrite Hpf. eauto. }
  cbn [L.heap L.with_heap L.with_held] in Hlink, Hm2, Hf2.
  destruct (set_fully_linked_Ok (L.with_heap (L.with_held s X) h2) nw
              k v false false lvl (Z.to_nat (lvl + 1)) true) as (h3 & Hfl & Hm3 & Hf3).
  { cbn [L.heap L.with_heap]. rewrite Hm2, Hm1. by rewrite decide_True. }
  cbn [L.heap L.with_heap L.with_held] in Hfl, Hm3, Hf3.
  assert (∀ a, a ≠ nw → L.meta_view h3 a = L.meta_view (L.heap s) a) as Hmeta.
  { intros a Ha. rewrite Hm3, decide_False by done. rewrite Hm2, Hm1.
    by rewrite decide_False. }
  assert (∀ a lv, L.fwd_view h3 a lv =
            if decide (0 ≤ lv ≤ lvl ∧ a = nw) then Some (fs lv)
            else if decide (0 ≤ lv ≤ lvl ∧ a = fp lv) then Some nw
            else if decide (a = nw) then None else L.fwd_view (L.heap s) a lv) as Hfwd.
  { intros a lv. rewrite Hf3, Hf2, Hf1.
    assert (lv ∈ seqZ 0 (lvl + 1) ↔ 0 ≤ lv ≤ lvl) as Hiff by (rewrite elem_of_seqZ; lia).
    assert (0 ≤ lv ≤ lvl → fp lv ≠ nw) as Hfp.
    { intros ?. apply Hne, Rep_meta_pred; [done|lia]. }
    clear -Hiff Hfp. repeat case_decide; try done; naive_solver. }
  assert (L.unlock_all X (L.with_heap (L.with_heap (L.with_held s X) h2) h3) =
          Ok tt (L.with_held (L.with_heap (L.with_heap (L.with_held s X) h2) h3) (X ∖ X)))
    as Hunl.
  { apply (unlock_all_Ok X (L.with_heap (L.with_heap (L.with_held s X) h2) h3));
      cbn [L.held L.heap L.with_heap L.with_held]; [done|].
    intros p Hp. apply meta_view_is_Some. rewrite Hmeta.
    - apply meta_view_is_Some. auto.
    - apply Hne, meta_view_is_Some. auto. }
  exists (L.with_held (L.with_heap (L.with_heap (L.with_held s X) h2) h3) (X ∖ X)), nw.
  split; [|split; [|done]].
  - cbn [L.insert_loop]. rewrite (bind_Ok _ _ _ _ _ Hfind). cbn [negb Z.eqb Pos.eqb].
    cbv iota. rewrite (bind_Ok _ _ _ _ _ Hval). cbn [negb]. cbv iota.
    rewrite (bind_Ok _ _ _ _ _ Hnew), (bind_Ok _ _ _ _ _ Hlink), (bind_Ok _ _ _ _ _ Hfl).
    rewrite (bind_Ok _ _ _ _ _ Hunl). reflexivity.
  - pose proof (sorted_split k ts (L.rep_sorted _ _ _ HR)) as Hsp.
    destruct (header_pre_NoDup s ts k HR) as [Hpre_nd Hpre_tl].
    constructor; cbn [L.heap L.held L.max_level_ L.header_ L.tail_ L.with_heap L.with_held].
    + apply (L.rep_max _ _ _ HR).
    + rewrite Hmeta; [apply (L.rep_header _ _ _ HR)|].
      apply Hne. by eapply Rep_meta_header.
    + rewrite Hmeta; [apply (L.rep_tail _ _ _ HR)|].
      apply Hne. by eapply Rep_meta_tail.
    + unfold t_insert. apply Forall_app. split; [|apply Forall_cons; split].
      * apply Forall_forall. intros w [_ Hw]%list_elem_of_filter.
        rewrite Hmeta by (apply Hne; by eapply Rep_meta_node).
        pose proof (L.rep_nodes _ _ _ HR) as Hn. rewrite Forall_forall in Hn. by apply Hn.
      * simpl. rewrite Hm3. by rewrite decide_True.
      * apply Forall_forall. intros w [_ Hw]%list_elem_of_filter.
        rewrite Hmeta by (apply Hne; by eapply Rep_meta_node).
        pose proof (L.rep_nodes _ _ _ HR) as Hn. rewrite Forall_forall in Hn. by apply Hn.
    + unfold t_insert. cbn [t_key].
      change (L.header_tower V0 _) with (L.header_tower V0 s).
      rewrite app_comm_cons.
      apply (chain_links_insert (L.fwd_view (L.heap s)) _ _ _ _ _ (λ _, L.tail_ s)).
      * done.
      * done.
      * rewrite <- app_comm_cons, <- Hsp. apply (L.rep_links _ _ _ HR).
      * intros a lv Ha Hlv0. rewrite Hfwd. cbn [t_lvl t_addr].
        assert (a ≠ nw) as Hanw.
        { apply Hne. rewrite fmap_cons in Ha. apply elem_of_cons in Ha as [->|Ha].
          - by eapply Rep_meta_header.
          - apply list_elem_of_fmap in Ha as (w & -> & [_ Hw]%list_elem_of_filter).
            by eapply Rep_meta_node. }
        rewrite (decide_False (P := _ ∧ a = nw)) by naive_solver.
        destruct (decide (lv ≤ lvl)) as [Hle|Hgt].
        -- rewrite last_at_header by lia. fold (fp lv).
           repeat case_decide; try done; naive_solver lia.
        -- rewrite !(decide_False (P := _ ∧ a = _)) by lia. by rewrite decide_False.
      * split.
        -- intros lv Hlv. cbn [t_lvl t_addr] in *. rewrite Hfwd. by rewrite decide_True.
        -- eapply chain_links_ext; [|apply (Rep_suffix s ts (below k ts) (from k ts) HR Hsp)].
           intros a lv (w & -> & Hw)%list_elem_of_fmap. rewrite Hfwd.
           assert (t_addr w ≠ nw) as Hwnw.
           { apply Hne. apply list_elem_of_filter in Hw as [_ Hw]. by eapply Rep_meta_node. }
           rewrite (decide_False (P := _ ∧ t_addr w = nw)) by naive_solver.
           rewrite (decide_False (P := t_addr w = nw)) by done.
           rewrite decide_False; [done|]. intros [Hlv Heq].
           destruct (pred_info s ts k lv HR) as (_ & _ & Hdis & _); [lia|].
           by apply (Hdis w Hw).
    + apply sorted_insert; [apply (L.rep_sorted _ _ _ HR)|done].
    + pose proof (L.rep_nodup _ _ _ HR) as Hnd. unfold t_insert. cbn [t_key].
      rewrite fmap_app, fmap_cons. cbn [t_addr].
      assert (L.header_ s :: L.tail_ s :: (t_addr <$> below k ts) ++ nw :: (t_addr <$> from k ts)
              ≡ₚ nw :: L.header_ s :: L.tail_ s :: (t_addr <$> ts)) as ->.
      { rewrite Hsp at 3. rewrite fmap_app, <- Permutation_middle.
        etrans; [apply perm_skip, perm_swap|apply perm_swap]. }
      apply NoDup_cons. split; [|done].
      intros [Heq|[Heq|Hin]%elem_of_cons]%elem_of_cons.
      * symmetry in Heq. revert Heq. apply Hne. by eapply Rep_meta_header.
      * symmetry in Heq. revert Heq. apply Hne. by eapply Rep_meta_tail.
      * apply list_elem_of_fmap in Hin as (w & Heq & Hw).
        symmetry in Heq. revert Heq. apply Hne. by eapply Rep_meta_node.
    + unfold t_insert. pose proof (L.rep_levels _ _ _ HR) as Hl.
      rewrite Forall_forall in Hl.
      apply Forall_app. split; [|apply Forall_cons; split]; try done;
        apply Forall_forall; intros w [_ Hw]%list_elem_of_filter; by apply Hl.
    + set_solver.
    + intros a Ha. unfold t_insert. rewrite fmap_app, fmap_cons. cbn [t_addr t_key].
      destruct (decide (a = nw)) as [->|Hanw]; [set_solver|].
      rewrite Hmeta in Ha by done.
      destruct (L.rep_dom _ _ _ HR a Ha) as [?|[?|Hin]]; [by left|by right; left|].
      do 2 right. rewrite Hsp, fmap_app in Hin. set_solver.
Qed.

(** [insert] of a key that is in the list. *)
Lemma insert_loop_present s ts k v lvl fuel n preds succs :
  L.Rep V0 s ts → (length ts < fuel)%nat →
  k ∈ t_key <$> ts →
  length preds = Z.to_nat (L.max_level_ s + 1) →
  length succs = Z.to_nat (L.max_level_ s + 1) →
  L.insert_loop (S n) fuel k v lvl preds succs s = Ok false s.
Proof.
  intros HR Hfuel Hin Hlp Hls.
  destruct (find_spec s ts k fuel preds succs HR Hfuel Hlp Hls)
    as (P & S & Hfind & _ & _ & Hvec).
  destruct (found_of_cases s ts k HR)
    as [(_ & _ & Habs)|(u & r & Hf & Hk & Hfo & _ & Hu & Hlvl & _)]; [done|].
  rewrite Hfo in Hfind. cbn [L.insert_loop]. rewrite (bind_Ok _ _ _ _ _ Hfind).
  destruct (Z.eqb_spec (t_lvl u) (-1)) as [?|_]; [lia|]. cbn [negb]. cbv iota.
  destruct (Hvec (t_lvl u) Hlvl) as [_ HS]. rewrite HS, Hf. cbn [lift_opt next_at].
  rewrite decide_True by lia. erewrite bind_Ok; [|reflexivity].
  destruct (Rep_node s ts u HR Hu) as (nd & Hnd & _ & _ & Hm & Hfl & _).
  rewrite (bind_Ok _ _ _ _ _ (deref_Ok _ _ _ Hnd)). rewrite Hm. cbn [negb]. cbv iota.
  destruct fuel as [|f]; [lia|]. cbn [L.wait_fully_linked].
  erewrite bind_Ok; [reflexivity|].
  rewrite (bind_Ok _ _ _ _ _ (deref_Ok _ _ _ Hnd)). by rewrite Hfl.
Qed.

(** [insert] on a well-formed state: it returns whether the key was
    absent, and the state it leaves is well-formed for the towers with the
    new one added (when the key was absent) or for the same towers. *)
Lemma insert_spec s ts k v fuel :
  L.Rep V0 s ts → (length ts < fuel)%nat → (Z.to_nat (L.max_level_ s) < fuel)%nat →
  ∃ s' ts',
    L.insert fuel k v s = Ok (bool_decide (k ∉ t_key <$> ts)) s' ∧
    L.Rep V0 s' ts' ∧
    L.max_level_ s' = L.max_level_ s ∧
    (length ts' ≤ S (length ts))%nat ∧
    model ts' = if decide (k ∈ t_key <$> ts) then model ts else <[k := v]> (model ts).
Proof.
  intros HR0 Hfuel Hfuel'. pose proof (L.rep_max _ _ _ HR0) as Hmax.
  unfold L.insert. rewrite (bind_Ok _ _ _ _ _ (get_rand_level_spec fuel s Hmax Hfuel')).
  set (c := count_successes _ _ _).
  assert (0 ≤ Z.of_nat c ≤ L.max_level_ s) as Hc.
  { pose proof (count_successes_le (Z.to_nat (L.max_level_ s)) (L.probability_ s) (L.gen_ s)) as Hle.
    fold c in Hle. lia. }
  set (s1 := L.with_gen s _).
  assert (L.Rep V0 s1 ts) as HR by by apply Rep_with_gen.
  rewrite (bind_Ok _ _ _ _ _ (new_vector_Ok s1)), (bind_Ok _ _ _ _ _ (new_vector_Ok s1)).
  destruct fuel as [|f]; [lia|].
  destruct (decide (k ∈ t_key <$> ts)) as [Hin|Habs].
  - exists s1, ts. rewrite bool_decide_eq_false_2 by auto.
    rewrite (insert_loop_present s1 ts) by (done || by rewrite length_replicate).
    split_and!; try done. lia.
  - destruct (insert_loop_absent s1 ts k v (Z.of_nat c) (S f) f
                (replicate (Z.to_nat (L.max_level_ s1 + 1)) null)
                (replicate (Z.to_nat (L.max_level_ s1 + 1)) null))
      as (s' & nw & Hrun & HR' & Hmx & _);
      [done|done|done|done|by rewrite length_replicate|by rewrite length_replicate|].
    exists s', (t_insert (mkTower nw k v (Z.of_nat c)) ts).
    rewrite bool_decide_eq_true_2 by done.
    split_and!; try done.
    + rewrite t_insert_length by apply (L.rep_sorted _ _ _ HR). lia.
    + rewrite model_insert; [done|apply (L.rep_sorted _ _ _ HR)|done].
Qed.

(** *** [remove] *)

Lemma with_held_eq s X Y : X = Y → L.with_held s X = L.with_held s Y.
Proof. by intros ->. Qed.

Lemma lock_once_held s p X :
  is_Some (L.heap s !! p) → X ⊆ L.held s → (p ∈ L.held s → p ∈ X) →
  ∃ X', L.lock_once p X s = Ok X' (L.with_held s (L.held s ∪ X')) ∧
        X ⊆ X' ∧ X' ⊆ {[p]} ∪ X.
Proof.
  intros Hp HX Hin. unfold L.lock_once. case_decide as HpX.
  - exists X. split; [|set_solver]. unfold ret. f_equal.
    rewrite <- (with_held_id s) at 1. apply with_held_eq. set_solver.
  - exists ({[p]} ∪ X). split; [|set_solver].
    rewrite (bind_Ok _ _ _ tt (L.with_held s ({[p]} ∪ L.held s))).
    + unfold ret. f_equal. apply with_held_eq. set_solver.
    + apply lock_Ok; [done|]. auto.
Qed.

Lemma remove_validate_spec P victim (fp : Z → addr) : ∀ levels X s,
  (∀ lv, lv ∈ levels →
     vget P lv = Some (fp lv) ∧
     (∃ n, L.heap s !! fp lv = Some n ∧ L.marked n = false) ∧
     L.fwd_view (L.heap s) (fp lv) lv = Some victim ∧
     (fp lv ∈ L.held s → fp lv ∈ X)) →
  X ⊆ L.held s →
  ∃ X', L.remove_validate levels P victim X s = Ok (true, X') (L.with_held s (L.held s ∪ X')) ∧
        X ⊆ X' ∧ (∀ p, p ∈ X' → p ∈ X ∨ ∃ lv, lv ∈ levels ∧ p = fp lv).
Proof.
  induction levels as [|l0 levels IH]; intros X s Hl HX.
  - exists X. split; [|set_solver]. cbn. unfold ret. f_equal.
    rewrite <- (with_held_id s) at 1. apply with_held_eq. set_solver.
  - destruct (Hl l0) as (HP & (pn & Hpn & Hpm) & Hfw & Hheld); [left|].
    destruct (lock_once_held s (fp l0) X) as (X1 & Hlock & HX1 & HX1'); [eauto|done|done|].
    destruct (IH X1 (L.with_held s (L.held s ∪ X1))) as (X' & Hrun & HX' & Hfrom).
    { intros lv Hlv. destruct (Hl lv) as (? & ? & ? & Hh); [by right|].
      cbn [L.heap L.held L.with_held]. split_and!; try done. set_solver. }
    { cbn [L.held L.with_held]. set_solver. }
    cbn [L.held L.with_held] in Hrun.
    exists X'. split; [|split; [set_solver|]].
    + cbn [L.remove_validate]. rewrite HP. cbn [lift_opt].
      erewrite bind_Ok; [|reflexivity]. rewrite (bind_Ok _ _ _ _ _ Hlock).
      erewrite bind_Ok; [|by apply deref_Ok]. rewrite Hpm.
      erewrite bind_Ok; [|by apply get_forward_Ok].
      rewrite decide_True by done. rewrite Hrun. f_equal.
      unfold L.with_held. cbn. f_equal. set_solver.
    + intros p Hp. destruct (Hfrom p Hp) as [Hin|(lv & ? & ?)].
      * apply HX1' in Hin. apply elem_of_union in Hin as [->%elem_of_singleton|?]; [|by left].
        right. exists l0. split; [left|done].
      * right. exists lv. split; [by right|done].
Qed.

Lemma remove_unlink_spec P victim (fp fv : Z → addr) : ∀ levels s,
  (∀ lv, lv ∈ levels →
     vget P lv = Some (fp lv) ∧ fp lv ≠ victim ∧
     L.fwd_view (L.heap s) victim lv = Some (fv lv) ∧
     is_Some (L.fwd_view (L.heap s) (fp lv) lv)) →
  ∃ h', L.remove_unlink levels P victim s = Ok tt (L.with_heap s h') ∧
     (∀ a, L.meta_view h' a = L.meta_view (L.heap s) a) ∧
     (∀ a lv, L.fwd_view h' a lv =
        if decide (lv ∈ levels ∧ a = fp lv) then Some (fv lv)
        else L.fwd_view (L.heap s) a lv).
Proof.
  induction levels as [|l0 levels IH]; intros s Hl.
  - exists (L.heap s). rewrite with_heap_id. split_and!; done.
  - destruct (Hl l0) as (HP & Hne & Hv & Hp); [left|].
    destruct (set_forward_Ok s (fp l0) l0 (fv l0) Hp) as (h1 & Hrun1 & Hm1 & Hf1).
    destruct (IH (L.with_heap s h1)) as (h' & Hrun & Hm & Hf).
    { intros lv Hlv. destruct (Hl lv) as (? & ? & Hs1 & Hs2); [by right|].
      split_and!; try done; cbn [L.heap L.with_heap]; rewrite Hf1.
      - rewrite decide_False; [done|]. intros [? _]. congruence.
      - case_decide; eauto. }
    cbn [L.heap L.with_heap] in *.
    exists h'. split; [|split].
    + cbn [L.remove_unlink]. rewrite HP. cbn [lift_opt].
      erewrite bind_Ok; [|reflexivity].
      erewrite bind_Ok; [|by apply get_forward_Ok].
      rewrite (bind_Ok _ _ _ _ _ Hrun1). exact Hrun.
    + intros a. by rewrite Hm, Hm1.
    + intros a lv. rewrite Hf, Hf1.
      repeat case_decide; try done; set_unfold; naive_solver.
Qed.

Lemma elem_of_levels_down lv top : lv ∈ L.levels_down top ↔ 0 ≤ lv ≤ top.
Proof. unfold L.levels_down. rewrite elem_of_reverse, elem_of_seqZ. lia. Qed.

Lemma meta_view_lookup h a kk vv mm ff ll len :
  L.meta_view h a = Some (kk, vv, mm, ff, ll, len) → ∃ n, h !! a = Some n ∧ L.marked n = mm.
Proof. intros (n & ? & _ & _ & ? & _)%meta_view_Some. eauto. Qed.

(** [remove] of a key that is in the list: the victim is marked, unlinked
    at all its levels and deleted. *)
Lemma remove_loop_present s ts k fuel n preds succs u r :
  L.Rep V0 s ts → (length ts < fuel)%nat →
  from k ts = u :: r → t_key u = k →
  length preds = Z.to_nat (L.max_level_ s + 1) →
  length succs = Z.to_nat (L.max_level_ s + 1) →
  ∃ s', L.remove_loop (S n) fuel k preds succs false (-1) s = Ok true s' ∧
        L.Rep V0 s' (below k ts ++ r) ∧
        L.max_level_ s' = L.max_level_ s ∧ L.probability_ s' = L.probability_ s ∧
        L.gen_ s' = L.gen_ s.
Proof.
  intros HR Hfuel Hf Hk Hlp Hls.
  destruct (find_spec s ts k fuel preds succs HR Hfuel Hlp Hls)
    as (P & S & Hfind & _ & _ & Hvec).
  pose proof (L.rep_sorted _ _ _ HR) as Hsorted.
  destruct (t_remove_split k ts u r Hsorted Hf Hk) as [_ Hsp].
  assert (u ∈ ts) as Hu by (rewrite Hsp; set_solver).
  assert (found_of k ts = t_lvl u) as Hfo by (unfold found_of; by rewrite Hf, decide_True).
  rewrite Hfo in Hfind.
  pose proof (Rep_level s ts u HR Hu) as Hlvl.
  destruct (Rep_addr s ts u HR Hu) as [Hvh Hvt].
  set (victim := t_addr u) in *.
  set (fp := λ lv, last_at (L.header_ s) lv (below k ts)).
  set (fv := λ lv, next_at (L.tail_ s) lv r).
  pose proof (L.rep_nodes _ _ _ HR) as Hnodes. rewrite Forall_forall in Hnodes.
  pose proof (Hnodes u Hu) as Hmv. fold victim in Hmv.
  destruct (meta_view_Some _ _ _ _ _ _ _ _ Hmv) as (nd & Hnd & Hkey & Hvalue & Hm & Hfl & Hnl & Hlen).
  assert (∀ lv, 0 ≤ lv ≤ t_lvl u → fp lv ≠ victim) as Hfpv.
  { intros lv Hlv. destruct (pred_info s ts k lv HR) as (_ & _ & Hdis & _); [lia|].
    apply Hdis. rewrite Hf. left. }
  assert (∀ lv, 0 ≤ lv ≤ t_lvl u →
            L.fwd_view (L.heap s) (fp lv) lv = Some victim) as Hfpfw.
  { intros lv Hlv. unfold fp.
    destruct (pred_info s ts k lv HR) as (_ & _ & _ & ->); [lia|].
    rewrite Hf. cbn. by rewrite decide_True by lia. }
  assert (∀ lv, 0 ≤ lv ≤ t_lvl u →
            L.fwd_view (L.heap s) victim lv = Some (fv lv)) as Hvfw.
  { intros lv Hlv. pose proof (L.rep_links _ _ _ HR) as Hch. rewrite Hsp in Hch.
    by apply (chain_links_mid _ _ (L.header_tower V0 s :: below k ts) u r). }
  (* marking *)
  destruct (set_marked_Ok (L.with_held s ({[victim]} ∪ L.held s)) victim _ _ _ _ _ _ true Hmv)
    as (h1 & Hmark & Hm1 & Hf1).
  cbn [L.heap L.held L.with_heap L.with_held] in Hm1, Hf1.
  (* validation *)
  destruct (remove_validate_spec P victim fp (seqZ 0 (t_lvl u + 1)) ∅
              (L.with_heap (L.with_held s ({[victim]} ∪ L.held s)) h1))
    as (X & Hval & _ & HX).
  { intros lv Hlv%elem_of_seqZ. cbn [L.heap L.held L.with_heap L.with_held].
    destruct (Hvec lv) as [HP _]; [lia|]. split_and!.
    - done.
    - destruct (pred_info s ts k lv HR) as ((pn & Hpn & Hpm) & _); [lia|].
      apply (meta_view_lookup _ _ (L.key pn) (L.value pn) false (L.fully_linked pn)
               (L.node_level pn) (length (L.forward pn))).
      rewrite Hm1, decide_False by (apply Hfpv; lia).
      unfold L.meta_view. fold (fp lv) in Hpn. by rewrite Hpn, Hpm.
    - rewrite Hf1. apply Hfpfw. lia.
    - rewrite (L.rep_held _ _ _ HR). intros Hin. exfalso.
      apply (Hfpv lv); [lia|]. set_solver. }
  { set_solver. }
  cbn [L.heap L.held L.with_heap L.with_held] in Hval.
  assert (∀ p, p ∈ X → ∃ lv, 0 ≤ lv ≤ t_lvl u ∧ p = fp lv) as HX'.
  { intros p Hp. destruct (HX p Hp) as [[]%elem_of_empty|(lv & Hlv%elem_of_seqZ & ->)].
    exists lv. split; [lia|done]. }
  (* unlinking *)
  destruct (remove_unlink_spec P victim fp fv (L.levels_down (t_lvl u))
      (L.with_held (L.with_heap (L.with_held s ({[victim]} ∪ L.held s)) h1)
         ({[victim]} ∪ L.held s ∪ X))) as (h2 & Hunl & Hm2 & Hf2).
  { intros lv Hlv%elem_of_levels_down. cbn [L.heap L.held L.with_heap L.with_held].
    destruct (Hvec lv) as [HP _]; [lia|]. rewrite !Hf1, Hvfw, Hfpfw by done.
    split_and!; eauto. }
  cbn [L.heap L.held L.with_heap L.with_held] in Hunl, Hm2, Hf2.
  set (s2 := L.with_heap _ h2) in Hunl.
  assert (L.unlock victim s2 = Ok tt (L.with_held s2 (L.held s2 ∖ {[victim]}))) as Hunv.
  { apply unlock_Ok; subst s2; cbn [L.heap L.held L.with_heap L.with_held]; [|set_solver].
    apply meta_view_is_Some. rewrite Hm2, Hm1. by rewrite decide_True. }
  destruct (delete_node_Ok (L.with_held s2 (L.held s2 ∖ {[victim]})) victim)
    as (h3 & Hdel & Hm3 & Hf3).
  { subst s2; cbn [L.heap L.held L.with_heap L.with_held].
    apply meta_view_is_Some. rewrite Hm2, Hm1. by rewrite decide_True. }
  set (s3 := L.with_heap _ h3) in Hdel.
  assert (∀ a, a ≠ victim → L.meta_view h3 a = L.meta_view (L.heap s) a) as Hmeta.
  { intros a Ha. subst s2. cbn [L.heap L.held L.with_heap L.with_held] in *.
    rewrite Hm3, decide_False by done. rewrite Hm2, Hm1. by rewrite decide_False. }
  assert (∀ a lv, a ≠ victim → L.fwd_view h3 a lv =
            if decide (0 ≤ lv ≤ t_lvl u ∧ a = fp lv) then Some (fv lv)
            else L.fwd_view (L.heap s) a lv) as Hfwd.
  { intros a lv Ha. subst s2. cbn [L.heap L.held L.with_heap L.with_held] in *.
    rewrite Hf3, decide_False by done. rewrite Hf2, Hf1.
    pose proof (elem_of_levels_down lv (t_lvl u)) as Hiff.
    clear -Hiff. repeat case_decide; try done; naive_solver. }
  assert (L.unlock_all X s3 = Ok tt (L.with_held s3 (L.held s3 ∖ X))) as Hunx.
  { apply unlock_all_Ok; subst s3 s2; cbn [L.heap L.held L.with_heap L.with_held].
    - intros p Hp. destruct (HX' p Hp) as (lv & Hlv & ->).
      pose proof (Hfpv lv Hlv). set_solver.
    - intros p Hp. destruct (HX' p Hp) as (lv & Hlv & ->).
      apply meta_view_is_Some. rewrite Hmeta by by apply Hfpv.
      apply Rep_meta_pred; [done|lia]. }
  exists (L.with_held s3 (L.held s3 ∖ X)). split; [|split].
  - cbn [L.remove_loop]. rewrite (bind_Ok _ _ _ _ _ Hfind).
    rewrite (bind_Ok _ _ _ (Some true, true, t_lvl u) (L.with_held s3 (L.held s3 ∖ X)));
      [reflexivity|].
    unfold L.remove_after_find.
    destruct (Z.eqb_spec (t_lvl u) (-1)) as [?|_]; [lia|].
    destruct (Hvec (t_lvl u) Hlvl) as [_ HS]. rewrite HS, Hf. cbn [lift_opt next_at].
    rewrite decide_True by lia. fold victim.
    erewrite bind_Ok; [|reflexivity].
    erewrite bind_Ok; [|erewrite bind_Ok; [reflexivity|by apply deref_Ok]].
    rewrite Hfl, Hm, Hnl, Z.eqb_refl. cbn [negb andb]. cbv iota.
    erewrite bind_Ok.
    2:{ erewrite bind_Ok; [|by apply deref_Ok].
        erewrite bind_Ok.
        2:{ apply lock_Ok; [eauto|]. rewrite (L.rep_held _ _ _ HR). set_solver. }
        erewrite bind_Ok; [|by apply deref_Ok]. rewrite Hm.
        rewrite (bind_Ok _ _ _ _ _ Hmark). reflexivity. }
    cbv iota beta. rewrite Hnl.
    erewrite bind_Ok; [reflexivity|].
    unfold L.remove_unlink_phase. rewrite (bind_Ok _ _ _ _ _ Hval). cbn [negb]. cbv iota.
    erewrite bind_Ok; [|reflexivity].
    rewrite (bind_Ok _ _ _ _ _ Hunl), (bind_Ok _ _ _ _ _ Hunv), (bind_Ok _ _ _ _ _ Hdel).
    rewrite (bind_Ok _ _ _ _ _ Hunx). reflexivity.
  - destruct (header_pre_NoDup s ts k HR) as [Hpre_nd Hpre_tl].
    pose proof (L.rep_nodup _ _ _ HR) as Hnd0.
    assert (NoDup (victim :: L.header_ s :: L.tail_ s :: (t_addr <$> below k ts ++ r))) as Hnd1.
    { assert (victim :: L.header_ s :: L.tail_ s :: (t_addr <$> below k ts ++ r)
              ≡ₚ L.header_ s :: L.tail_ s :: (t_addr <$> ts)) as ->; [|done].
      rewrite Hsp at 2. rewrite !fmap_app, fmap_cons, <- Permutation_middle. fold victim.
      symmetry. etrans; [apply perm_skip, perm_swap|apply perm_swap]. }
    apply NoDup_cons in Hnd1 as [Hvnot Hnd1].
    assert (∀ w, w ∈ below k ts ++ r → w ∈ ts ∧ t_addr w ≠ victim) as Hold.
    { intros w Hw. split.
      - rewrite Hsp. set_solver.
      - intros Heq. apply Hvnot. rewrite <- Heq. do 2 right. by apply list_elem_of_fmap_2. }
    subst s3 s2.
    constructor; cbn [L.heap L.held L.max_level_ L.header_ L.tail_ L.with_heap L.with_held].
    + apply (L.rep_max _ _ _ HR).
    + rewrite Hmeta by done. apply (L.rep_header _ _ _ HR).
    + rewrite Hmeta by done. apply (L.rep_tail _ _ _ HR).
    + apply Forall_forall. intros w Hw. destruct (Hold w Hw) as [Hwts Hwv].
      rewrite Hmeta by done. by apply Hnodes.
    + change (L.header_tower V0 _) with (L.header_tower V0 s). rewrite app_comm_cons.
      apply (chain_links_remove (L.fwd_view (L.heap s)) _ _ _ _ u (λ _, L.tail_ s)).
      * done.
      * done.
      * rewrite <- app_comm_cons, <- Hsp. apply (L.rep_links _ _ _ HR).
      * intros a lv Ha Hlv0.
        assert (a ≠ victim) as Hav.
        { intros ->. apply Hvnot. rewrite fmap_cons in Ha. cbn in Ha.
          apply elem_of_cons in Ha as [Ha|Ha]; [by apply Hvh in Ha|].
          do 2 right. rewrite fmap_app. apply elem_of_app. by left. }
        rewrite Hfwd by done.
        destruct (decide (lv ≤ t_lvl u)) as [Hle|Hgt].
        -- rewrite last_at_header by lia. fold (fp lv) (fv lv).
           repeat case_decide; try done; naive_solver lia.
        -- rewrite !(decide_False (P := _ ∧ a = _)) by lia. done.
      * eapply chain_links_ext;
          [|apply (Rep_suffix s ts (below k ts ++ [u]) r HR); by rewrite <- app_assoc].
        intros a lv (w & -> & Hw)%list_elem_of_fmap.
        assert (w ∈ below k ts ++ r) as Hw' by set_solver.
        destruct (Hold w Hw') as [Hwts Hwv]. rewrite Hfwd by done.
        rewrite decide_False; [done|]. intros [Hlv Heq].
        destruct (pred_info s ts k lv HR) as (_ & _ & Hdis & _); [lia|].
        apply (Hdis w); [|done]. rewrite Hf. by right.
    + pose proof (sorted_filter (λ t, t_key t ≠ k) ts Hsorted) as Hsf.
      destruct (t_remove_split k ts u r Hsorted Hf Hk) as [Heq _].
      unfold t_remove in Heq. by rewrite Heq in Hsf.
    + done.
    + apply Forall_forall. intros w Hw. destruct (Hold w Hw) as [Hwts _].
      by apply (Rep_level s ts w HR).
    + rewrite (L.rep_held _ _ _ HR). set_solver.
    + intros a Ha. destruct (decide (a = victim)) as [->|Hav].
      { rewrite Hm3, decide_True in Ha by done. by destruct Ha. }
      rewrite Hmeta in Ha by done.
      destruct (L.rep_dom _ _ _ HR a Ha) as [?|[?|Hin]]; [by left|by right; left|].
      do 2 right. rewrite Hsp, fmap_app, fmap_cons in Hin. rewrite fmap_app.
      fold victim in Hin. set_solver.
  - by subst s3 s2.
Qed.

Lemma remove_loop_absent s ts k fuel n preds succs :
  L.Rep V0 s ts → (length ts < fuel)%nat → k ∉ t_key <$> ts →
  length preds = Z.to_nat (L.max_level_ s + 1) →
  length succs = Z.to_nat (L.max_level_ s + 1) →
  L.remove_loop (S n) fuel k preds succs false (-1) s = Ok false s.
Proof.
  intros HR Hfuel Habs Hlp Hls.
  destruct (find_spec s ts k fuel preds succs HR Hfuel Hlp Hls)
    as (P & S & Hfind & _ & _ & Hvec).
  destruct (found_of_cases s ts k HR) as [(Hfo & _ & _)|(u & r & _ & _ & _ & _ & _ & _ & Hin)];
    [|done].
  rewrite Hfo in Hfind. cbn [L.remove_loop]. rewrite (bind_Ok _ _ _ _ _ Hfind).
  reflexivity.
Qed.

(** [remove] on a well-formed state: it returns whether the key was there,
    and leaves a well-formed state without it. *)
Lemma remove_spec s ts k fuel :
  L.Rep V0 s ts → (length ts < fuel)%nat →
  ∃ s', L.remove fuel k s = Ok (bool_decide (k ∈ t_key <$> ts)) s' ∧
        L.Rep V0 s' (t_remove k ts) ∧
        L.max_level_ s' = L.max_level_ s.
Proof.
  intros HR Hfuel. unfold L.remove.
  rewrite (bind_Ok _ _ _ _ _ (new_vector_Ok s)), (bind_Ok _ _ _ _ _ (new_vector_Ok s)).
  destruct fuel as [|f]; [lia|].
  destruct (found_of_cases s ts k HR)
    as [(_ & _ & Habs)|(u & r & Hf & Hk & _ & _ & _ & _ & Hin)].
  - exists s. rewrite bool_decide_eq_false_2 by done.
    rewrite (remove_loop_absent s ts) by (done || by rewrite length_replicate).
    rewrite t_remove_absent by done. done.
  - destruct (remove_loop_present s ts k (S f) f
                (replicate (Z.to_nat (L.max_level_ s + 1)) null)
                (replicate (Z.to_nat (L.max_level_ s + 1)) null) u r)
      as (s' & Hrun & HR' & Hmx & _);
      [done|done|done|done|by rewrite length_replicate|by rewrite length_replicate|].
    exists s'. rewrite bool_decide_eq_true_2 by done.
    destruct (t_remove_split k ts u r (L.rep_sorted _ _ _ HR) Hf Hk) as [-> _]. done.
Qed.

(** *** The constructor *)

Lemma create_Rep max_level prob gen :
  0 ≤ max_level → L.Rep V0 (L.create V0 max_level prob gen) [].
Proof.
  intros Hmax. constructor; cbn.
  - done.
  - unfold L.meta_view. rewrite lookup_insert_eq. cbn. by rewrite length_replicate.
  - unfold L.meta_view. rewrite lookup_insert_ne by done. by rewrite lookup_insert_eq.
  - constructor.
  - split; [|done]. intros lv Hlv. unfold L.fwd_view. rewrite lookup_insert_eq. cbn.
    apply vget_replicate. cbn in Hlv. lia.
  - done.
  - repeat constructor; set_solver.
  - constructor.
  - done.
  - intros a [x Ha]. unfold L.meta_view in Ha.
    destruct (decide (a = 1%nat)) as [->|H1]; [by left|].
    destruct (decide (a = 2%nat)) as [->|H2]; [by right; left|].
    by rewrite !lookup_insert_ne, lookup_empty in Ha.
Qed.

End WithValue.
End LockedProofs.
(** ** FatSkipList: the operations on well-formed states *)

Module FatProofs.
Module F := FatSkipList.
Section WithValue.
Context {V : Type}.
Variable V0 : V.
Implicit Types (s : F.t (V:=V)) (h : gmap nat (F.Node (V:=V))).
Implicit Types (ts b hi : list (tower V)) (u : tower V).

(** *** Reading and writing the memory *)

Lemma fat_deref_Ok s p n : F.heap s !! p = Some n → F.deref p s = Ok n s.
Proof. intros H. unfold F.deref. by rewrite H. Qed.

Lemma fat_meta_view_Some h a kk vv len :
  F.meta_view h a = Some (kk, vv, len) →
  ∃ n, h !! a = Some n ∧ F.key n = kk ∧ F.value n = vv ∧ length (F.forward n) = len.
Proof.
  unfold F.meta_view. destruct (h !! a) as [n|]; [|done].
  intros [= <- <- <-]. by exists n.
Qed.

Lemma fat_meta_view_is_Some h a : is_Some (F.meta_view h a) ↔ is_Some (h !! a).
Proof. unfold F.meta_view. destruct (h !! a); split; intros [? ?]; eauto; done. Qed.

Lemma fat_fwd_view_Some h a lv q :
  F.fwd_view h a lv = Some q → ∃ n, h !! a = Some n ∧ vget (F.forward n) lv = Some q.
Proof. unfold F.fwd_view. destruct (h !! a) as [n|]; [|done]. eauto. Qed.

Lemma fat_get_forward_Ok s p lv q :
  F.fwd_view (F.heap s) p lv = Some q → F.get_forward p lv s = Ok q s.
Proof.
  intros (n & Hn & Hq)%fat_fwd_view_Some. unfold F.get_forward.
  rewrite (bind_Ok _ _ _ _ _ (fat_deref_Ok _ _ _ Hn)). by rewrite Hq.
Qed.

Lemma fat_set_forward_Ok s p lv q :
  is_Some (F.fwd_view (F.heap s) p lv) →
  ∃ h', F.set_forward p lv q s = Ok tt (F.with_heap s h') ∧
        (∀ a, F.meta_view h' a = F.meta_view (F.heap s) a) ∧
        (∀ a lv', F.fwd_view h' a lv' =
                  if decide (a = p ∧ lv' = lv) then Some q else F.fwd_view (F.heap s) a lv').
Proof.
  intros [q0 (n & Hn & Hq)%fat_fwd_view_Some]. pose proof (vget_lt _ _ _ Hq) as Hlt.
  eexists. split; [|split].
  - unfold F.set_forward. rewrite (bind_Ok _ _ _ _ _ (fat_deref_Ok _ _ _ Hn)).
    rewrite (vset_Some _ _ _ Hlt). reflexivity.
  - intros a. unfold F.meta_view. destruct (decide (a = p)) as [->|Hne].
    + rewrite lookup_insert_eq, Hn. simpl. by rewrite length_insert.
    + by rewrite lookup_insert_ne.
  - intros a lv'. unfold F.fwd_view. destruct (decide (a = p)) as [->|Hne].
    + rewrite lookup_insert_eq, Hn. simpl. rewrite vget_insert by done.
      repeat case_decide; naive_solver.
    + rewrite lookup_insert_ne by done. rewrite decide_False by naive_solver. done.
Qed.

Lemma set_value_Ok s p kk vv len (v : V) :
  F.meta_view (F.heap s) p = Some (kk, vv, len) →
  ∃ h', F.set_value p v s = Ok tt (F.with_heap s h') ∧
        (∀ a, F.meta_view h' a =
              if decide (a = p) then Some (kk, v, len) else F.meta_view (F.heap s) a) ∧
        (∀ a lv, F.fwd_view h' a lv = F.fwd_view (F.heap s) a lv).
Proof.
  intros (n & Hn & <- & <- & <-)%fat_meta_view_Some.
  eexists. split; [|split].
  - unfold F.set_value. rewrite (bind_Ok _ _ _ _ _ (fat_deref_Ok _ _ _ Hn)). reflexivity.
  - intros a. unfold F.meta_view. case_decide as Ha.
    + subst. by rewrite lookup_insert_eq.
    + by rewrite lookup_insert_ne.
  - intros a lv. unfold F.fwd_view. destruct (decide (a = p)) as [->|Hne].
    + by rewrite lookup_insert_eq, Hn.
    + by rewrite lookup_insert_ne.
Qed.

Lemma fat_new_node_Ok s kk vv lv :
  0 ≤ lv →
  ∃ nw h', F.new_node kk vv lv s = Ok nw (F.with_heap s h') ∧
        F.heap s !! nw = None ∧ nw ≠ null ∧
        (∀ a, F.meta_view h' a =
              if decide (a = nw) then Some (kk, vv, Z.to_nat (lv + 1))
              else F.meta_view (F.heap s) a) ∧
        (∀ a lv', F.fwd_view h' a lv' =
              if decide (a = nw) then (if decide (0 ≤ lv' ≤ lv) then Some null else None)
              else F.fwd_view (F.heap s) a lv').
Proof.
  intros Hlv. set (nw := fresh ({[null]} ∪ dom (F.heap s))).
  pose proof (is_fresh ({[null]} ∪ dom (F.heap s))) as Hf. fold nw in Hf.
  assert (F.heap s !! nw = None) as Hfresh by (apply not_elem_of_dom; set_solver).
  exists nw. eexists. split_and!.
  - reflexivity.
  - done.
  - set_solver.
  - intros a. unfold F.meta_view. case_decide as Ha.
    + subst a. rewrite lookup_insert_eq. simpl. by rewrite length_replicate.
    + by rewrite lookup_insert_ne.
  - intros a lv'. unfold F.fwd_view. case_decide as Ha.
    + subst a. rewrite lookup_insert_eq. simpl. case_decide as Hr.
      * apply vget_replicate. lia.
      * unfold vget. case_decide; [|done]. apply lookup_replicate_None. lia.
    + by rewrite lookup_insert_ne.
Qed.

Lemma fat_delete_node_Ok s p :
  is_Some (F.heap s !! p) →
  ∃ h', F.delete_node p s = Ok tt (F.with_heap s h') ∧
        (∀ a, F.meta_view h' a = if decide (a = p) then None else F.meta_view (F.heap s) a) ∧
        (∀ a lv, F.fwd_view h' a lv =
                 if decide (a = p) then None else F.fwd_view (F.heap s) a lv).
Proof.
  intros [n Hn]. eexists. split; [|split].
  - unfold F.delete_node. rewrite (bind_Ok _ _ _ _ _ (fat_deref_Ok _ _ _ Hn)). reflexivity.
  - intros a. unfold F.meta_view. case_decide as Ha.
    + subst. by rewrite lookup_delete_eq.
    + by rewrite lookup_delete_ne.
  - intros a lv. unfold F.fwd_view. case_decide as Ha.
    + subst. by rewrite lookup_delete_eq.
    + by rewrite lookup_delete_ne.
Qed.

Lemma fat_with_heap_id s : F.with_heap s (F.heap s) = s.
Proof. by destruct s. Qed.

(** A method body that runs to [Ok] under the lock guard. *)
Lemma lock_guard_Ok {A} (m : M (F.t (V:=V)) A) s r s' :
  F.mutex_ s = false → m (F.with_mutex s true) = Ok r s' →
  F.lock_guard m s = Ok r (F.with_mutex s' false).
Proof. intros Hm Hrun. unfold F.lock_guard, bind. by rewrite Hm, Hrun. Qed.

(** *** Facts about well-formed states *)

Lemma Rep_with_mutex s ts (m : bool) : F.Rep V0 s ts → F.Rep V0 (F.with_mutex s m) ts.
Proof. intros [? ? ? ? ? ? ? ?]. by constructor. Qed.

Lemma fat_Rep_with_gen s ts g : F.Rep V0 s ts → F.Rep V0 (F.with_gen s g) ts.
Proof. intros [? ? ? ? ? ? ? ?]. by constructor. Qed.

Lemma fat_Rep_node s ts u :
  F.Rep V0 s ts → u ∈ ts →
  ∃ n, F.heap s !! t_addr u = Some n ∧ F.key n = t_key u ∧ F.value n = t_val u ∧
       length (F.forward n) = Z.to_nat (t_lvl u + 1).
Proof.
  intros HR Hu. pose proof (F.rep_nodes _ _ _ HR) as Hn.
  rewrite Forall_forall in Hn. apply Hn in Hu. apply fat_meta_view_Some in Hu. naive_solver.
Qed.

Lemma fat_Rep_addr s ts u :
  F.Rep V0 s ts → u ∈ ts → t_addr u ≠ F.header_ s ∧ t_addr u ≠ null.
Proof.
  intros HR Hu. pose proof (F.rep_nodup _ _ _ HR) as Hnd.
  apply NoDup_cons in Hnd as [Hh Hnd]. apply NoDup_cons in Hnd as [Ht Hnd].
  apply (list_elem_of_fmap_2 t_addr) in Hu.
  split; intros Heq; rewrite Heq in Hu; [by apply Ht|apply Hh; by right].
Qed.

Lemma Rep_header_nonnull s ts : F.Rep V0 s ts → F.header_ s ≠ null.
Proof.
  intros HR Heq. pose proof (F.rep_nodup _ _ _ HR) as Hnd.
  apply NoDup_cons in Hnd as [Hh _]. apply Hh. rewrite Heq. left.
Qed.

Lemma fat_Rep_level s ts u : F.Rep V0 s ts → u ∈ ts → 0 ≤ t_lvl u ≤ F.cur_level_ s.
Proof.
  intros HR Hu. pose proof (F.rep_levels _ _ _ HR) as Hl.
  rewrite Forall_forall in Hl. by apply Hl.
Qed.

Lemma fat_Rep_suffix s ts a b :
  F.Rep V0 s ts → ts = a ++ b →
  chain_links (F.fwd_view (F.heap s)) null b ∧
  Forall (λ u, ∃ n, F.heap s !! t_addr u = Some n ∧ F.key n = t_key u ∧
                    F.value n = t_val u ∧ 0 ≤ t_lvl u ∧ t_addr u ≠ null) b ∧
  (length b ≤ length ts)%nat.
Proof.
  intros HR ->. split_and!.
  - pose proof (F.rep_links _ _ _ HR) as Hch.
    by apply (chain_links_app _ _ (F.header_tower V0 s :: a) b).
  - apply Forall_forall. intros u Hu.
    assert (u ∈ a ++ b) as Hin by set_solver.
    destruct (fat_Rep_node s (a ++ b) u HR Hin) as (n & ? & ? & ? & _).
    exists n. split_and!; try done.
    + apply (fat_Rep_level s (a ++ b) u HR Hin).
    + apply (fat_Rep_addr s (a ++ b) u HR Hin).
  - rewrite length_app. lia.
Qed.

Lemma fat_levels_down_cons top : 0 ≤ top → F.levels_down top = top :: F.levels_down (top - 1).
Proof.
  intros Htop. unfold F.levels_down.
  replace (top + 1) with (Z.of_nat (S (Z.to_nat top))) by lia.
  rewrite seqZ_S, reverse_snoc. f_equal; [lia|]. f_equal. f_equal. lia.
Qed.

Lemma fat_levels_down_nil top : top < 0 → F.levels_down top = [].
Proof.
  intros Htop. unfold F.levels_down.
  assert (length (seqZ 0 (top + 1)) = 0%nat) as Hl by (rewrite length_seqZ; lia).
  destruct (seqZ 0 (top + 1)); [done|simpl in Hl; lia].
Qed.

Lemma header_links s ts :
  F.Rep V0 s ts →
  chain_links (F.fwd_view (F.heap s)) null (F.header_tower V0 s :: ts) ∧
  t_addr (F.header_tower V0 s) = F.header_ s ∧
  t_lvl (F.header_tower V0 s) = F.max_level_ s.
Proof. intros HR. split_and!; try done. apply (F.rep_links _ _ _ HR). Qed.

(** The predecessor at level [lv]. *)
Lemma fat_pred_info s ts k lv :
  F.Rep V0 s ts → 0 ≤ lv ≤ F.max_level_ s →
  let p := last_at (F.header_ s) lv (below k ts) in
  is_Some (F.meta_view (F.heap s) p) ∧ p ≠ null ∧
  (∀ u, u ∈ from k ts → p ≠ t_addr u) ∧
  F.fwd_view (F.heap s) p lv = Some (next_at null lv (from k ts)).
Proof.
  intros HR Hlv p. pose proof (F.rep_nodup _ _ _ HR) as Hnd.
  pose proof (sorted_split k ts (F.rep_sorted _ _ _ HR)) as Hsp.
  assert (p = F.header_ s ∨ ∃ u, u ∈ below k ts ∧ t_addr u = p) as Hp.
  { destruct (last_at_elem (F.header_ s) lv (below k ts)) as [?|Hin]; [by left|].
    right. apply list_elem_of_fmap in Hin as (u & ? & ?). eauto. }
  split_and!.
  - destruct Hp as [->|(u & Hu & <-)].
    + rewrite (F.rep_header _ _ _ HR). eauto.
    + apply list_elem_of_filter in Hu as [_ Hu].
      pose proof (F.rep_nodes _ _ _ HR) as Hn. rewrite Forall_forall in Hn.
      rewrite (Hn u Hu). eauto.
  - destruct Hp as [->|(u & Hu & <-)].
    + by eapply Rep_header_nonnull.
    + apply list_elem_of_filter in Hu as [_ Hu]. apply (fat_Rep_addr s ts u HR Hu).
  - intros w Hw. destruct Hp as [->|(u & Hu & <-)].
    + apply list_elem_of_filter in Hw as [_ Hw]. intros Heq.
      by destruct (fat_Rep_addr s ts w HR Hw).
    + intros Heq. apply NoDup_cons in Hnd as [_ Hnd]. apply NoDup_cons in Hnd as [_ Hnd].
      rewrite Hsp, fmap_app in Hnd. apply NoDup_app in Hnd as (_ & Hdis & _).
      apply (Hdis (t_addr u)); [by apply list_elem_of_fmap_2|].
      rewrite Heq. by apply list_elem_of_fmap_2.
  - apply (chain_pred_link _ _ (F.header_tower V0 s) ts k lv); [|apply (F.rep_sorted _ _ _ HR)|done].
    apply (F.rep_links _ _ _ HR).
Qed.

(** *** [find_node] *)

Lemma find_node_walk_spec s k lv b hi :
  chain_links (F.fwd_view (F.heap s)) null (b ++ hi) →
  Forall (λ u, ∃ n, F.heap s !! t_addr u = Some n ∧ F.key n = t_key u ∧
                    F.value n = t_val u ∧ 0 ≤ t_lvl u ∧ t_addr u ≠ null) (b ++ hi) →
  Forall (λ u, t_key u < k) b → Forall (λ u, k ≤ t_key u) hi →
  0 ≤ lv →
  ∀ pred fuel,
    F.fwd_view (F.heap s) pred lv = Some (next_at null lv (b ++ hi)) →
    (length b < fuel)%nat →
    F.find_node_walk fuel k lv pred s = Ok (last_at pred lv b) s.
Proof.
  intros Hch Hnodes Hb Hhi Hlv.
  induction b as [|u b IH]; intros pred fuel Hfw Hfuel.
  - simpl in *. destruct fuel as [|f]; [lia|]. simpl.
    rewrite (bind_Ok _ _ _ _ _ (fat_get_forward_Ok _ _ _ _ Hfw)).
    case_decide as Hc; [done|].
    destruct (next_at_cases null lv hi)
      as [[_ Heq]|(a & w & c & Hhi_eq & _ & Hw & Heq)]; [done|].
    rewrite Heq. assert (w ∈ hi) as Hin by (rewrite Hhi_eq; set_solver).
    rewrite Forall_forall in Hnodes. destruct (Hnodes w Hin) as (n & Hn & Hkey & _).
    rewrite (bind_Ok _ _ _ _ _ (fat_deref_Ok _ _ _ Hn)).
    rewrite Forall_forall in Hhi. specialize (Hhi w Hin).
    rewrite Hkey. destruct (Z.ltb_spec (t_key w) k); [lia|done].
  - simpl in Hch. destruct Hch as [Hu Hch].
    rewrite <- app_comm_cons in Hnodes.
    apply Forall_cons in Hnodes as [(n & Hn & Hkey & _ & _ & Hunn) Hnodes].
    apply Forall_cons in Hb as [Huk Hb].
    simpl in Hfw |- *. destruct (decide (lv ≤ t_lvl u)) as [Hle|Hgt].
    + destruct fuel as [|f]; [simpl in Hfuel; lia|]. simpl.
      rewrite (bind_Ok _ _ _ _ _ (fat_get_forward_Ok _ _ _ _ Hfw)).
      rewrite decide_False by done.
      rewrite (bind_Ok _ _ _ _ _ (fat_deref_Ok _ _ _ Hn)).
      rewrite Hkey. destruct (Z.ltb_spec (t_key u) k); [|lia].
      apply IH; try done; [apply Hu; lia|simpl in Hfuel; lia].
    + apply IH; try done. simpl in Hfuel. lia.
Qed.

Lemma find_node_levels_spec s ts k fuel :
  F.Rep V0 s ts → (length ts < fuel)%nat →
  ∀ (n : nat) tbu,
    Z.of_nat n - 1 ≤ F.cur_level_ s →
    (∀ l, tbu = Some l → length l = Z.to_nat (F.max_level_ s + 1)) →
    ∃ tbu',
      F.find_node_levels fuel k (F.levels_down (Z.of_nat n - 1))
        (last_at (F.header_ s) (Z.of_nat n) (below k ts)) tbu s
      = Ok (last_at (F.header_ s) 0 (below k ts), tbu') s ∧
      F.filled s k ts (Z.of_nat n) tbu tbu'.
Proof.
  intros HR Hfuel. pose proof (F.rep_cur _ _ _ HR) as Hcur.
  induction n as [|m IH]; intros tbu Hn Hlen.
  - exists tbu. rewrite fat_levels_down_nil by lia. split; [done|].
    destruct tbu as [l|]; [|done]. split_and!; try done. intros; lia.
  - replace (Z.of_nat (S m) - 1) with (Z.of_nat m) in * by lia.
    rewrite fat_levels_down_cons by lia. cbn [F.find_node_levels].
    destruct (chain_pred_forward (F.fwd_view (F.heap s)) null (F.header_tower V0 s) ts k
                (Z.of_nat m) (Z.of_nat (S m)))
      as (b & Hfw & [a Hts] & Hbk & Hbl & Hlast);
      [apply (F.rep_links _ _ _ HR)|apply (F.rep_sorted _ _ _ HR)|cbn; lia|lia|].
    cbn [t_addr F.header_tower] in Hfw, Hlast.
    destruct (fat_Rep_suffix s ts a (b ++ from k ts) HR Hts) as (Hch & Hnodes & Hlenb).
    rewrite length_app in Hlenb.
    erewrite bind_Ok;
      [|apply (find_node_walk_spec s k (Z.of_nat m) b (from k ts));
        try done; [apply from_Forall|lia..]].
    rewrite Hlast.
    set (p := last_at (F.header_ s) (Z.of_nat m) (below k ts)).
    set (tbu1 := match tbu with
                 | Some l => Some (<[Z.to_nat (Z.of_nat m) := p]> l)
                 | None => None
                 end).
    erewrite (bind_Ok _ _ _ tbu1 s).
    2:{ destruct tbu as [l|]; [|done]. cbn [tbu1].
        rewrite vset_Some by (rewrite (Hlen l eq_refl); lia). done. }
    destruct (IH tbu1) as (tbu' & Hrun & Hfill); [lia|..].
    { intros l Hl. destruct tbu as [l0|]; [|done]. injection Hl as <-.
      rewrite length_insert. by apply Hlen. }
    exists tbu'. split; [exact Hrun|].
    destruct tbu as [l|]; cbn [tbu1] in Hfill; destruct tbu' as [l'|]; try done.
    destruct Hfill as (Hl' & Hlow & Hhigh). rewrite length_insert in Hl'.
    assert (0 ≤ Z.of_nat m < Z.of_nat (length l)) as Hml
      by (rewrite (Hlen l eq_refl); lia).
    split_and!; try done.
    + intros lv Hlv. destruct (decide (lv = Z.of_nat m)) as [->|Hne].
      * rewrite Hhigh by lia. rewrite vget_insert by done. by rewrite decide_True.
      * apply Hlow. lia.
    + intros lv Hlv. rewrite Hhigh by lia. rewrite vget_insert by done.
      rewrite decide_False by lia. done.
Qed.

Lemma resize_nil {A} n (x : A) : F.resize [] n x = replicate (Z.to_nat n) x.
Proof. unfold F.resize. rewrite take_nil. simpl. f_equal. lia. Qed.

(** [find_node] on a well-formed state: the first tower from [k] on (or
    null), and in the vector, when there is one, the last tower below [k] at
    each level up to [cur_level_] and null above. *)
Lemma find_node_spec s ts k fuel tbu :
  F.Rep V0 s ts → (length ts < fuel)%nat → tbu = None ∨ tbu = Some [] →
  ∃ tbu',
    F.find_node fuel k tbu s = Ok (next_at null 0 (from k ts), tbu') s ∧
    match tbu with
    | None => tbu' = None
    | Some _ =>
        ∃ l, tbu' = Some l ∧ length l = Z.to_nat (F.max_level_ s + 1) ∧
             (∀ lv, 0 ≤ lv ≤ F.cur_level_ s →
                vget l lv = Some (last_at (F.header_ s) lv (below k ts))) ∧
             (∀ lv, F.cur_level_ s < lv ≤ F.max_level_ s → vget l lv = Some null)
    end.
Proof.
  intros HR Hfuel Htbu. pose proof (F.rep_cur _ _ _ HR) as Hcur.
  set (tbu0 := (λ v, F.resize v (F.max_level_ s + 1) null) <$> tbu).
  destruct (find_node_levels_spec s ts k fuel HR Hfuel (Z.to_nat (F.cur_level_ s + 1)) tbu0)
    as (tbu' & Hrun & Hfill); [lia|..].
  { intros l Hl. destruct Htbu as [->| ->]; [done|]. cbn in Hl. injection Hl as <-.
    rewrite resize_nil. by rewrite length_replicate. }
  exists tbu'. split.
  - unfold F.find_node. fold tbu0.
    replace (Z.of_nat (Z.to_nat (F.cur_level_ s + 1)) - 1) with (F.cur_level_ s) in Hrun by lia.
    replace (last_at (F.header_ s) (Z.of_nat (Z.to_nat (F.cur_level_ s + 1))) (below k ts))
      with (F.header_ s) in Hrun.
    2:{ symmetry. apply last_at_below. apply Forall_forall.
        intros u [_ Hu]%list_elem_of_filter. pose proof (fat_Rep_level s ts u HR Hu). lia. }
    rewrite (bind_Ok _ _ _ _ _ Hrun). cbv beta iota.
    erewrite bind_Ok; [reflexivity|].
    apply fat_get_forward_Ok. apply (fat_pred_info s ts k 0 HR). lia.
  - destruct Htbu as [->| ->]; cbn in tbu0; subst tbu0; destruct tbu' as [l'|]; try done.
    destruct Hfill as (Hl' & Hlow & Hhigh). exists l'. rewrite resize_nil in *.
    rewrite length_replicate in Hl'. split_and!; try done.
    + intros lv Hlv. apply Hlow. lia.
    + intros lv Hlv. rewrite Hhigh by lia. apply vget_replicate. lia.
Qed.

(** Whether [k] is among the towers, as [find_node] reports it. *)
Lemma head_cases s ts k :
  F.Rep V0 s ts →
  (k ∉ t_key <$> ts ∧ model ts !! k = None ∧
   (next_at null 0 (from k ts) = null ∨
    ∃ u, u ∈ ts ∧ next_at null 0 (from k ts) = t_addr u ∧ t_key u ≠ k)) ∨
  (∃ u r, from k ts = u :: r ∧ t_key u = k ∧ next_at null 0 (from k ts) = t_addr u ∧
          model ts !! k = Some (t_val u) ∧ u ∈ ts ∧ k ∈ t_key <$> ts).
Proof.
  intros HR. pose proof (F.rep_sorted _ _ _ HR) as Hs.
  rewrite (model_lookup k ts Hs).
  destruct (from k ts) as [|u r] eqn:Hf.
  - left. split_and!; try done; [|by left].
    intros (w & -> & Hw)%list_elem_of_fmap.
    assert (w ∈ from (t_key w) ts) as Hin by (apply list_elem_of_filter; split; [lia|done]).
    rewrite Hf in Hin. by apply elem_of_nil in Hin.
  - assert (u ∈ ts) as Hu.
    { assert (u ∈ from k ts) as Hin by (rewrite Hf; left).
      by apply list_elem_of_filter in Hin as [_ ?]. }
    destruct (from_head _ _ _ _ Hs Hf) as (Hku & Hr & _).
    pose proof (fat_Rep_level s ts u HR Hu) as Hlvl.
    cbn [next_at]. rewrite (decide_True (P := 0 ≤ t_lvl u)) by lia.
    case_decide as Hk.
    + right. exists u, r. split_and!; try done.
      rewrite <- Hk. by apply list_elem_of_fmap_2.
    + left. split_and!; try done; [|right; eauto].
      intros (w & -> & Hw)%list_elem_of_fmap.
      assert (w ∈ from (t_key w) ts) as Hin by (apply list_elem_of_filter; split; [lia|done]).
      rewrite Hf in Hin. apply elem_of_cons in Hin as [->|Hin]; [done|].
      rewrite Forall_forall in Hr. specialize (Hr w Hin). lia.
Qed.

Lemma unlock_id s : F.mutex_ s = false → F.with_mutex (F.with_mutex s true) false = s.
Proof. destruct s. cbn. by intros ->. Qed.

(** *** [search] *)

Lemma fat_search_spec s ts k fuel :
  F.Inv V0 s ts → (length ts < fuel)%nat →
  F.search V0 fuel k s =
  Ok (match model ts !! k with Some v => (true, v) | None => (false, V0) end) s.
Proof.
  intros [HR0 Hm] Hfuel. unfold F.search.
  rewrite <- (unlock_id s Hm) at 2. apply lock_guard_Ok; [done|].
  pose proof (Rep_with_mutex s ts true HR0) as HR.
  destruct (find_node_spec _ ts k fuel None HR Hfuel) as (tbu' & Hfind & _); [by left|].
  rewrite (bind_Ok _ _ _ _ _ Hfind). cbv beta iota.
  destruct (head_cases _ ts k HR)
    as [(_ & -> & [->|(u & Hu & -> & Hne)])|(u & r & _ & Hk & -> & -> & Hu & _)].
  - done.
  - destruct (fat_Rep_addr _ ts u HR Hu) as [_ Hnn]. rewrite decide_False by done.
    destruct (fat_Rep_node _ ts u HR Hu) as (n & Hn & Hkey & _).
    rewrite (bind_Ok _ _ _ _ _ (fat_deref_Ok _ _ _ Hn)). rewrite Hkey.
    destruct (Z.eqb_spec (t_key u) k); [done|done].
  - destruct (fat_Rep_addr _ ts u HR Hu) as [_ Hnn]. rewrite decide_False by done.
    destruct (fat_Rep_node _ ts u HR Hu) as (n & Hn & Hkey & Hval & _).
    rewrite (bind_Ok _ _ _ _ _ (fat_deref_Ok _ _ _ Hn)). rewrite Hkey, Hk, Z.eqb_refl, Hval.
    done.
Qed.

(** *** [for_each] *)

Lemma fat_for_each_loop_spec s b :
  chain_links (F.fwd_view (F.heap s)) null b →
  Forall (λ u, ∃ n, F.heap s !! t_addr u = Some n ∧ F.key n = t_key u ∧
                    F.value n = t_val u ∧ 0 ≤ t_lvl u ∧ t_addr u ≠ null) b →
  ∀ visited fuel, (length b < fuel)%nat →
  F.for_each_loop fuel (next_at null 0 b) visited s =
  Ok (visited ++ ((λ u, (t_key u, t_val u)) <$> b)) s.
Proof.
  induction b as [|u b IH]; intros Hch Hnodes visited fuel Hfuel.
  - destruct fuel as [|f]; [simpl in Hfuel; lia|]. simpl. by rewrite app_nil_r.
  - destruct Hch as [Hu Hch].
    apply Forall_cons in Hnodes as [(n & Hn & Hkey & Hval & Hlvl & Hnn) Hnodes].
    destruct fuel as [|f]; [simpl in Hfuel; lia|]. simpl.
    rewrite (decide_True (P := 0 ≤ t_lvl u)) by done.
    rewrite decide_False by done.
    rewrite (bind_Ok _ _ _ _ _ (fat_deref_Ok _ _ _ Hn)).
    erewrite bind_Ok; [|apply fat_get_forward_Ok, Hu; lia].
    rewrite IH; try done; [|simpl in Hfuel; lia].
    rewrite Hkey, Hval, <- app_assoc. done.
Qed.

Lemma fat_for_each_spec s ts fuel :
  F.Inv V0 s ts → (length ts < fuel)%nat →
  F.for_each fuel s = Ok ((λ u, (t_key u, t_val u)) <$> ts) s.
Proof.
  intros [HR0 Hm] Hfuel. unfold F.for_each.
  rewrite <- (unlock_id s Hm) at 2. apply lock_guard_Ok; [done|].
  pose proof (Rep_with_mutex s ts true HR0) as HR.
  pose proof (F.rep_links _ _ _ HR) as [Hh Hch]. pose proof (F.rep_cur _ _ _ HR).
  erewrite bind_Ok; [|apply fat_get_forward_Ok, Hh; cbn in *; lia].
  apply (fat_for_each_loop_spec _ ts Hch); [|done].
  by destruct (fat_Rep_suffix _ ts [] ts HR eq_refl) as (_ & ? & _).
Qed.

(** *** [get_rand_level] *)

Lemma fat_rand_level_loop_spec fuel : ∀ level s,
  level ≤ F.max_level_ s → (Z.to_nat (F.max_level_ s - level) < fuel)%nat →
  let c := count_successes (Z.to_nat (F.max_level_ s - level)) (F.probability_ s) (F.gen_ s) in
  F.rand_level_loop fuel level s =
  Ok (level + Z.of_nat c) (F.with_gen s (drop_draws (S c) (F.gen_ s))).
Proof.
  induction fuel as [|f IH]; intros level s Hle Hfuel; [lia|].
  cbn [F.rand_level_loop]. unfold bind, F.draw. cbv zeta.
  cbn [F.probability_ F.max_level_ F.with_gen].
  destruct (Z.to_nat (F.max_level_ s - level)) as [|cap] eqn:Hcap.
  - destruct (Z.ltb_spec level (F.max_level_ s)); [lia|].
    rewrite andb_false_r. simpl. do 2 f_equal. lia.
  - destruct (Z.ltb_spec level (F.max_level_ s)); [|lia].
    rewrite andb_true_r. cbn [count_successes].
    destruct (Qltb (F.gen_ s 0%nat) (F.probability_ s)).
    + rewrite IH; cbn [F.max_level_ F.with_gen F.probability_ F.gen_]; [|lia..].
      replace (Z.to_nat (F.max_level_ s - (level + 1))) with cap by lia.
      f_equal. lia.
    + simpl. do 2 f_equal. lia.
Qed.

Lemma fat_get_rand_level_spec fuel s :
  0 ≤ F.max_level_ s → (Z.to_nat (F.max_level_ s) < fuel)%nat →
  let c := count_successes (Z.to_nat (F.max_level_ s)) (F.probability_ s) (F.gen_ s) in
  F.get_rand_level fuel s = Ok (Z.of_nat c) (F.with_gen s (drop_draws (S c) (F.gen_ s))).
Proof.
  intros Hmax Hfuel. unfold F.get_rand_level.
  rewrite fat_rand_level_loop_spec by lia. rewrite Z.sub_0_r. done.
Qed.

(** *** [insert] *)

Lemma insert_raise_spec s : ∀ levels (l : list addr),
  Forall (λ i, 0 ≤ i < Z.of_nat (length l)) levels →
  ∃ l', F.insert_raise levels l s = Ok l' s ∧ length l' = length l ∧
        ∀ lv, vget l' lv = if decide (lv ∈ levels) then Some (F.header_ s) else vget l lv.
Proof.
  induction levels as [|i levels IH]; intros l Hl.
  - exists l. split_and!; try done.
  - apply Forall_cons in Hl as [Hi Hl].
    destruct (IH (<[Z.to_nat i := F.header_ s]> l)) as (l' & Hrun & Hlen & Hget).
    { by rewrite length_insert. }
    exists l'. rewrite length_insert in Hlen. split_and!; try done.
    + cbn [F.insert_raise]. rewrite (vset_Some _ _ _ Hi). cbn [lift_opt].
      erewrite bind_Ok; [|reflexivity]. exact Hrun.
    + intros lv. rewrite Hget, vget_insert by done.
      repeat case_decide; try done; set_unfold; naive_solver.
Qed.

Lemma fat_insert_link_spec (l : list addr) nw (fp fs : Z → addr) : ∀ levels s,
  NoDup levels →
  (∀ lv, lv ∈ levels →
     vget l lv = Some (fp lv) ∧ fp lv ≠ nw ∧
     F.fwd_view (F.heap s) (fp lv) lv = Some (fs lv) ∧
     is_Some (F.fwd_view (F.heap s) nw lv)) →
  ∃ h', F.insert_link levels l nw s = Ok tt (F.with_heap s h') ∧
     (∀ a, F.meta_view h' a = F.meta_view (F.heap s) a) ∧
     (∀ a lv, F.fwd_view h' a lv =
        if decide (lv ∈ levels ∧ a = nw) then Some (fs lv)
        else if decide (lv ∈ levels ∧ a = fp lv) then Some nw
        else F.fwd_view (F.heap s) a lv).
Proof.
  induction levels as [|l0 levels IH]; intros s Hnd Hl.
  - exists (F.heap s). rewrite fat_with_heap_id. split_and!; done.
  - apply NoDup_cons in Hnd as [Hl0 Hnd].
    destruct (Hl l0) as (HP & Hne & Hp & Hnw); [left|].
    destruct (fat_set_forward_Ok s nw l0 (fs l0) Hnw) as (h1 & Hrun1 & Hm1 & Hf1).
    destruct (fat_set_forward_Ok (F.with_heap s h1) (fp l0) l0 nw) as (h2 & Hrun2 & Hm2 & Hf2).
    { cbn [F.heap F.with_heap]. rewrite Hf1. case_decide; [eauto|]. rewrite Hp. eauto. }
    cbn [F.heap F.with_heap] in *.
    destruct (IH (F.with_heap s h2) Hnd) as (h' & Hrun & Hm & Hf).
    { intros lv Hlv. destruct (Hl lv) as (? & ? & Hs1 & Hs2); [by right|].
      assert (lv ≠ l0) by (intros ->; done).
      split_and!; try done; cbn [F.heap F.with_heap]; rewrite Hf2, Hf1.
      - rewrite !decide_False by naive_solver. done.
      - rewrite !decide_False by naive_solver. done. }
    cbn [F.heap F.with_heap] in *.
    exists h'. split; [|split].
    + cbn [F.insert_link]. rewrite HP. cbn [lift_opt].
      erewrite bind_Ok; [|reflexivity].
      erewrite bind_Ok; [|by apply fat_get_forward_Ok].
      rewrite (bind_Ok _ _ _ _ _ Hrun1), (bind_Ok _ _ _ _ _ Hrun2).
      exact Hrun.
    + intros a. by rewrite Hm, Hm2, Hm1.
    + intros a lv. rewrite Hf, Hf2, Hf1.
      assert (lv ∈ l0 :: levels → fp lv ≠ nw) as Hne'.
      { intros Hin. by destruct (Hl lv Hin) as (_ & ? & _). }
      clear -Hne'. repeat case_decide; try done; set_unfold; naive_solver.
Qed.

Lemma Rep_with_cur_level s ts c :
  F.Rep V0 s ts → F.cur_level_ s ≤ c ≤ F.max_level_ s → F.Rep V0 (F.with_cur_level s c) ts.
Proof.
  intros [? ? ? ? ? ? Hl ?] Hc. constructor; try done; cbn.
  - lia.
  - eapply Forall_impl; [exact Hl|]. cbn. intros; lia.
Qed.

Lemma fat_meta_view_fresh h a nw :
  h !! nw = None → is_Some (F.meta_view h a) → a ≠ nw.
Proof. intros Hnw [x Hx] ->. unfold F.meta_view in Hx. by rewrite Hnw in Hx. Qed.

Lemma fat_Rep_meta_header s ts : F.Rep V0 s ts → is_Some (F.meta_view (F.heap s) (F.header_ s)).
Proof. intros HR. rewrite (F.rep_header _ _ _ HR). eauto. Qed.

Lemma fat_Rep_meta_node s ts u :
  F.Rep V0 s ts → u ∈ ts → is_Some (F.meta_view (F.heap s) (t_addr u)).
Proof.
  intros HR Hu. pose proof (F.rep_nodes _ _ _ HR) as Hn.
  rewrite Forall_forall in Hn. rewrite (Hn u Hu). eauto.
Qed.

Lemma fat_last_at_header s ts lv d :
  lv ≤ F.max_level_ s →
  last_at d lv (F.header_tower V0 s :: ts) = last_at (F.header_ s) lv ts.
Proof. intros Hlv. simpl. by rewrite decide_True. Qed.

Lemma fat_header_pre_NoDup s ts k :
  F.Rep V0 s ts →
  NoDup (t_addr <$> (F.header_tower V0 s :: below k ts)) ∧
  null ∉ t_addr <$> (F.header_tower V0 s :: below k ts).
Proof.
  intros HR. pose proof (F.rep_nodup _ _ _ HR) as Hnd.
  rewrite (sorted_split k ts (F.rep_sorted _ _ _ HR)), fmap_app in Hnd.
  rewrite fmap_cons. simpl.
  apply NoDup_cons in Hnd as [Hn Hnd]. apply NoDup_cons in Hnd as [Hh Hnd].
  apply NoDup_app in Hnd as (Hnd & _ & _).
  split.
  - apply NoDup_cons. split; [|done]. intros Hin. apply Hh.
    apply elem_of_app. by left.
  - intros [Heq|Hin]%elem_of_cons.
    + apply Hn. rewrite Heq. left.
    + apply Hn. right. apply elem_of_app. by left.
Qed.

(** The body of [insert] once [find_node] has found no node with key [k]:
    a node of level [lvl] is linked in. *)
Lemma insert_new s ts k v lvl (l : list addr) :
  F.Rep V0 s ts → 0 ≤ lvl ≤ F.cur_level_ s →
  k ∉ t_key <$> ts →
  (∀ lv, 0 ≤ lv ≤ lvl → vget l lv = Some (last_at (F.header_ s) lv (below k ts))) →
  ∃ h' nw,
    (let* nw := F.new_node k v lvl in F.insert_link (seqZ 0 (lvl + 1)) l nw ;; ret true) s
    = Ok true (F.with_heap s h') ∧
    F.Rep V0 (F.with_heap s h') (t_insert (mkTower nw k v lvl) ts).
Proof.
  intros HR Hlvl Habs Hvec. pose proof (F.rep_cur _ _ _ HR) as Hcur.
  set (fp := λ lv, last_at (F.header_ s) lv (below k ts)).
  set (fs := λ lv, next_at null lv (from k ts)).
  destruct (fat_new_node_Ok s k v lvl) as (nw & h1 & Hnew & Hfresh & Hnn & Hm1 & Hf1); [lia|].
  assert (∀ a, is_Some (F.meta_view (F.heap s) a) → a ≠ nw) as Hne
    by (intros a; by apply fat_meta_view_fresh).
  assert (∀ lv, 0 ≤ lv ≤ lvl → fp lv ≠ nw) as Hfpne.
  { intros lv Hlv. apply Hne. apply (fat_pred_info s ts k lv HR). lia. }
  destruct (fat_insert_link_spec l nw fp fs (seqZ 0 (lvl + 1)) (F.with_heap s h1))
    as (h2 & Hlink & Hm2 & Hf2).
  { apply NoDup_seqZ. }
  { intros lv Hlv%elem_of_seqZ. cbn [F.heap F.with_heap]. rewrite !Hf1.
    split_and!.
    - apply Hvec. lia.
    - apply Hfpne. lia.
    - rewrite decide_False by (apply Hfpne; lia). apply (fat_pred_info s ts k lv HR). lia.
    - rewrite decide_True by done. rewrite decide_True by lia. eauto. }
  cbn [F.heap F.with_heap] in Hlink, Hm2, Hf2.
  assert (∀ a, a ≠ nw → F.meta_view h2 a = F.meta_view (F.heap s) a) as Hmeta.
  { intros a Ha. rewrite Hm2, Hm1. by rewrite decide_False. }
  assert (∀ a lv, F.fwd_view h2 a lv =
            if decide (0 ≤ lv ≤ lvl ∧ a = nw) then Some (fs lv)
            else if decide (0 ≤ lv ≤ lvl ∧ a = fp lv) then Some nw
            else if decide (a = nw) then None else F.fwd_view (F.heap s) a lv) as Hfwd.
  { intros a lv. rewrite Hf2, Hf1.
    assert (lv ∈ seqZ 0 (lvl + 1) ↔ 0 ≤ lv ≤ lvl) as Hiff by (rewrite elem_of_seqZ; lia).
    specialize (Hfpne lv).
    clear -Hiff Hfpne. repeat case_decide; try done; naive_solver. }
  exists h2, nw. split.
  - rewrite (bind_Ok _ _ _ _ _ Hnew), (bind_Ok _ _ _ _ _ Hlink). reflexivity.
  - pose proof (sorted_split k ts (F.rep_sorted _ _ _ HR)) as Hsp.
    destruct (fat_header_pre_NoDup s ts k HR) as [Hpre_nd Hpre_nn].
    pose proof (F.rep_nodes _ _ _ HR) as Hnodes. rewrite Forall_forall in Hnodes.
    constructor; cbn [F.heap F.cur_level_ F.max_level_ F.header_ F.with_heap].
    + done.
    + rewrite Hmeta; [apply (F.rep_header _ _ _ HR)|].
      apply Hne. by eapply fat_Rep_meta_header.
    + unfold t_insert. apply Forall_app. split; [|apply Forall_cons; split].
      * apply Forall_forall. intros w [_ Hw]%list_elem_of_filter.
        rewrite Hmeta by (apply Hne; by eapply fat_Rep_meta_node). by apply Hnodes.
      * simpl. rewrite Hm2, Hm1. by rewrite decide_True.
      * apply Forall_forall. intros w [_ Hw]%list_elem_of_filter.
        rewrite Hmeta by (apply Hne; by eapply fat_Rep_meta_node). by apply Hnodes.
    + unfold t_insert. cbn [t_key].
      change (F.header_tower V0 _) with (F.header_tower V0 s).
      rewrite app_comm_cons.
      apply (chain_links_insert (F.fwd_view (F.heap s)) _ _ _ _ _ (λ _, null)).
      * done.
      * done.
      * rewrite <- app_comm_cons, <- Hsp. apply (F.rep_links _ _ _ HR).
      * intros a lv Ha Hlv0. rewrite Hfwd. cbn [t_lvl t_addr].
        assert (a ≠ nw) as Hanw.
        { apply Hne. rewrite fmap_cons in Ha. apply elem_of_cons in Ha as [->|Ha].
          - by eapply fat_Rep_meta_header.
          - apply list_elem_of_fmap in Ha as (w & -> & [_ Hw]%list_elem_of_filter).
            by eapply fat_Rep_meta_node. }
        rewrite (decide_False (P := _ ∧ a = nw)) by naive_solver.
        destruct (decide (lv ≤ lvl)) as [Hle|Hgt].
        -- rewrite fat_last_at_header by lia. fold (fp lv).
           repeat case_decide; try done; naive_solver lia.
        -- rewrite !(decide_False (P := _ ∧ a = _)) by lia. by rewrite decide_False.
      * split.
        -- intros lv Hlv. cbn [t_lvl t_addr] in *. rewrite Hfwd. by rewrite decide_True.
        -- eapply chain_links_ext; [|apply (fat_Rep_suffix s ts (below k ts) (from k ts) HR Hsp)].
           intros a lv (w & -> & Hw)%list_elem_of_fmap. rewrite Hfwd.
           assert (t_addr w ≠ nw) as Hwnw.
           { apply Hne. apply list_elem_of_filter in Hw as [_ Hw]. by eapply fat_Rep_meta_node. }
           rewrite (decide_False (P := _ ∧ t_addr w = nw)) by naive_solver.
           rewrite (decide_False (P := t_addr w = nw)) by done.
           rewrite decide_False; [done|]. intros [Hlv Heq].
           destruct (fat_pred_info s ts k lv HR) as (_ & _ & Hdis & _); [lia|].
           by apply (Hdis w Hw).
    + apply sorted_insert; [apply (F.rep_sorted _ _ _ HR)|done].
    + pose proof (F.rep_nodup _ _ _ HR) as Hnd. unfold t_insert. cbn [t_key].
      rewrite fmap_app, fmap_cons. cbn [t_addr].
      assert (null :: F.header_ s :: (t_addr <$> below k ts) ++ nw :: (t_addr <$> from k ts)
              ≡ₚ nw :: null :: F.header_ s :: (t_addr <$> ts)) as ->.
      { rewrite Hsp at 3. rewrite fmap_app, <- Permutation_middle.
        etrans; [apply perm_skip, perm_swap|apply perm_swap]. }
      apply NoDup_cons. split; [|done].
      intros [Heq|[Heq|Hin]%elem_of_cons]%elem_of_cons.
      * done.
      * symmetry in Heq. revert Heq. apply Hne. by eapply fat_Rep_meta_header.
      * apply list_elem_of_fmap in Hin as (w & Heq & Hw).
        symmetry in Heq. revert Heq. apply Hne. by eapply fat_Rep_meta_node.
    + unfold t_insert. pose proof (F.rep_levels _ _ _ HR) as Hl.
      rewrite Forall_forall in Hl.
      apply Forall_app. split; [|apply Forall_cons; split]; try done;
        apply Forall_forall; intros w [_ Hw]%list_elem_of_filter; by apply Hl.
    + intros a Ha. unfold t_insert. rewrite fmap_app, fmap_cons. cbn [t_addr t_key].
      destruct (decide (a = nw)) as [->|Hanw]; [set_solver|].
      rewrite Hmeta in Ha by done.
      destruct (F.rep_dom _ _ _ HR a Ha) as [?|Hin]; [by left|].
      right. rewrite Hsp, fmap_app in Hin. set_solver.
Qed.

(** The body of [insert] once [find_node] has found the node with key [k]:
    its value is overwritten. *)
Lemma insert_overwrite s ts k v u :
  F.Rep V0 s ts → u ∈ ts → t_key u = k →
  ∃ h', F.set_value (t_addr u) v s = Ok tt (F.with_heap s h') ∧
        F.Rep V0 (F.with_heap s h') (t_update k v ts).
Proof.
  intros HR Hu Hk. pose proof (F.rep_nodes _ _ _ HR) as Hnodes.
  rewrite Forall_forall in Hnodes.
  destruct (set_value_Ok s (t_addr u) _ _ _ v (Hnodes u Hu)) as (h' & Hrun & Hm & Hf).
  exists h'. split; [done|].
  destruct (fat_Rep_addr s ts u HR Hu) as [Huh _].
  constructor; cbn [F.heap F.cur_level_ F.max_level_ F.header_ F.with_heap].
  - apply (F.rep_cur _ _ _ HR).
  - rewrite Hm, decide_False by done. apply (F.rep_header _ _ _ HR).
  - unfold t_update. apply Forall_fmap, Forall_forall. intros w Hw. cbn.
    rewrite Hm. destruct (decide (t_key w = k)) as [Hwk|Hwk]; cbn [t_addr t_key t_val t_lvl].
    + assert (w = u) as -> by (apply (sorted_key_inj ts); [apply (F.rep_sorted _ _ _ HR)|..];
                                 congruence || done).
      by rewrite decide_True.
    + rewrite decide_False; [by apply Hnodes|]. intros Heq.
      pose proof (F.rep_nodup _ _ _ HR) as Hnd.
      apply NoDup_cons in Hnd as [_ Hnd]. apply NoDup_cons in Hnd as [_ Hnd].
      apply Hwk. rewrite <- Hk. f_equal.
      apply list_elem_of_lookup in Hw as [i Hi]. apply list_elem_of_lookup in Hu as [j Hj].
      assert (i = j) as ->; [|congruence].
      eapply (NoDup_lookup _ _ _ _ Hnd); rewrite list_lookup_fmap; [by rewrite Hi|].
      rewrite Hj. cbn. by rewrite Heq.
  - change (F.header_tower V0 _) with (F.header_tower V0 s).
    eapply chain_links_ext; [intros; apply Hf|].
    destruct (F.rep_links _ _ _ HR) as [Hh Hch]. split.
    + intros lv Hlv. rewrite next_at_update. by apply Hh.
    + by apply chain_links_update.
  - apply sorted_update, (F.rep_sorted _ _ _ HR).
  - rewrite t_update_addr. apply (F.rep_nodup _ _ _ HR).
  - pose proof (F.rep_levels _ _ _ HR) as Hl. unfold t_update.
    apply Forall_fmap. eapply Forall_impl; [exact Hl|]. intros w Hw. cbn.
    by destruct (decide (t_key w = k)).
  - intros a Ha. rewrite t_update_addr. apply (F.rep_dom _ _ _ HR).
    rewrite Hm in Ha. case_decide; [subst; by eapply fat_Rep_meta_node|done].
Qed.

(** [insert] on a well-formed state: it returns whether the key was
    absent, and in both cases the key has the value [v] afterwards. *)
Lemma fat_insert_exact s ts k v fuel :
  F.Inv V0 s ts → (length ts < fuel)%nat → (Z.to_nat (F.max_level_ s) < fuel)%nat →
  let c := count_successes (Z.to_nat (F.max_level_ s)) (F.probability_ s) (F.gen_ s) in
  ∃ s' ts',
    F.insert fuel k v s = Ok (bool_decide (k ∉ t_key <$> ts)) s' ∧
    F.Inv V0 s' ts' ∧
    F.max_level_ s' = F.max_level_ s ∧
    (length ts' ≤ S (length ts))%nat ∧
    model ts' = <[k := v]> (model ts) ∧
    (k ∈ t_key <$> ts →
       ts' = t_update k v ts ∧ F.cur_level_ s' = F.cur_level_ s ∧ F.gen_ s' = F.gen_ s) ∧
    (k ∉ t_key <$> ts →
       ∃ nw, ts' = t_insert (mkTower nw k v (Z.of_nat c)) ts ∧
             F.cur_level_ s' = Z.max (F.cur_level_ s) (Z.of_nat c) ∧
             F.gen_ s' = drop_draws (S c) (F.gen_ s)).
Proof.
  intros [HR0 Hm] Hfuel Hfuel' c0. unfold F.insert.
  pose proof (Rep_with_mutex s ts true HR0) as HR.
  set (sm := F.with_mutex s true) in *.
  pose proof (F.rep_cur _ _ _ HR) as Hcur.
  destruct (find_node_spec sm ts k fuel (Some []) HR Hfuel) as (tbu' & Hfind & Htbu);
    [by right|].
  destruct Htbu as (l & -> & Hlen & Hlow & Hhigh).
  destruct (head_cases sm ts k HR)
    as [(Habs & _ & Hnode)|(u & r & _ & Hk & Hnode & _ & Hu & Hin)].
  - (* a new key *)
    assert ((if decide (next_at null 0 (from k ts) = null) then ret false
             else let* n := F.deref (next_at null 0 (from k ts)) in
                  ret (F.key n =? k)) sm = Ok false sm) as Hdup.
    { destruct Hnode as [->|(w & Hw & -> & Hne)]; [done|].
      destruct (fat_Rep_addr sm ts w HR Hw) as [_ Hnn]. rewrite decide_False by done.
      destruct (fat_Rep_node sm ts w HR Hw) as (n & Hn & Hkey & _).
      rewrite (bind_Ok _ _ _ _ _ (fat_deref_Ok _ _ _ Hn)). rewrite Hkey.
      by destruct (Z.eqb_spec (t_key w) k). }
    pose proof (fat_get_rand_level_spec fuel sm ltac:(lia) Hfuel') as Hrand. cbv zeta in Hrand.
    set (c := count_successes _ _ _) in Hrand.
    assert (0 ≤ Z.of_nat c ≤ F.max_level_ sm) as Hc.
    { pose proof (count_successes_le (Z.to_nat (F.max_level_ sm)) (F.probability_ sm)
                    (F.gen_ sm)) as Hle. fold c in Hle. lia. }
    set (s1 := F.with_gen sm _) in Hrand.
    assert (F.Rep V0 s1 ts) as HR1 by by apply fat_Rep_with_gen.
    assert (∃ l' s2,
      (if F.cur_level_ s1 <? Z.of_nat c
       then (let* tbu := F.insert_raise
                           (seqZ (F.cur_level_ s1 + 1) (Z.of_nat c - F.cur_level_ s1)) l in
             λ s', Ok tbu (F.with_cur_level s' (Z.of_nat c))) s1
       else Ok l s1) = Ok l' s2 ∧
      F.Rep V0 s2 ts ∧ Z.of_nat c ≤ F.cur_level_ s2 ∧
      F.header_ s2 = F.header_ s ∧ F.max_level_ s2 = F.max_level_ s ∧ F.mutex_ s2 = true ∧
      (∀ lv, 0 ≤ lv ≤ Z.of_nat c →
         vget l' lv = Some (last_at (F.header_ s) lv (below k ts))) ∧
      F.cur_level_ s2 = Z.max (F.cur_level_ s) (Z.of_nat c) ∧ F.gen_ s2 = F.gen_ s1) as Hraise.
    { destruct (Z.ltb_spec (F.cur_level_ s1) (Z.of_nat c)) as [Hlt|Hge].
      - destruct (insert_raise_spec s1
                    (seqZ (F.cur_level_ s1 + 1) (Z.of_nat c - F.cur_level_ s1)) l)
          as (l' & Hrun & Hlen' & Hget).
        { apply Forall_forall. intros i Hi%elem_of_seqZ. rewrite Hlen. cbn in *. lia. }
        exists l', (F.with_cur_level s1 (Z.of_nat c)).
        rewrite (bind_Ok _ _ _ _ _ Hrun). split_and!; try done.
        + apply Rep_with_cur_level; [done|]. cbn in *. lia.
        + intros lv Hlv. rewrite Hget.
          pose proof (elem_of_seqZ (F.cur_level_ s1 + 1) (Z.of_nat c - F.cur_level_ s1) lv)
            as Hiff.
          destruct (decide (lv ∈ seqZ (F.cur_level_ s1 + 1) (Z.of_nat c - F.cur_level_ s1)))
            as [Hin|Hin]; [apply Hiff in Hin|rewrite Hiff in Hin].
          * f_equal. symmetry. apply last_at_below, Forall_forall.
            intros w [_ Hw]%list_elem_of_filter.
            pose proof (fat_Rep_level sm ts w HR Hw). cbn in *. lia.
          * apply Hlow. cbn in *. lia.
        + cbn in *. lia.
      - exists l, s1. split_and!; try done; [|cbn in *; lia].
        intros lv Hlv. apply Hlow. cbn in *. lia. }
    destruct Hraise as (l' & s2 & Hraise & HR2 & Hc2 & Hhd & Hmx & Hmu & Hl' & Hcur2 & Hgen2).
    destruct (insert_new s2 ts k v (Z.of_nat c) l' HR2) as (h' & nw & Hrun & HR');
      [lia|done|by rewrite Hhd|].
    exists (F.with_mutex (F.with_heap s2 h') false), (t_insert (mkTower nw k v (Z.of_nat c)) ts).
    rewrite bool_decide_eq_true_2 by done. split_and!.
    + apply lock_guard_Ok; [done|]. fold sm.
      rewrite (bind_Ok _ _ _ _ _ Hfind). cbv beta iota. cbn [default].
      rewrite (bind_Ok _ _ _ _ _ Hdup). cbv iota.
      rewrite (bind_Ok _ _ _ _ _ Hrand).
      rewrite (bind_Ok _ _ _ _ _ Hraise).
      exact Hrun.
    + split; [by apply Rep_with_mutex|done].
    + done.
    + rewrite t_insert_length by apply (F.rep_sorted _ _ _ HR). lia.
    + rewrite model_insert; [done|apply (F.rep_sorted _ _ _ HR)|done].
    + done.
    + intros _. exists nw. split_and!; [done|exact Hcur2|exact Hgen2].
  - (* the key is there *)
    destruct (fat_Rep_addr sm ts u HR Hu) as [_ Hnn].
    destruct (fat_Rep_node sm ts u HR Hu) as (n & Hn & Hkey & _).
    destruct (insert_overwrite sm ts k v u HR Hu Hk) as (h' & Hset & HR').
    exists (F.with_mutex (F.with_heap sm h') false), (t_update k v ts).
    rewrite bool_decide_eq_false_2 by auto. split_and!.
    + apply lock_guard_Ok; [done|]. fold sm.
      rewrite (bind_Ok _ _ _ _ _ Hfind). cbv beta iota. cbn [default].
      rewrite Hnode. rewrite decide_False by done.
      erewrite bind_Ok; [|erewrite bind_Ok; [reflexivity|by apply fat_deref_Ok]].
      rewrite Hkey, Hk, Z.eqb_refl. cbv iota.
      rewrite (bind_Ok _ _ _ _ _ Hset). reflexivity.
    + split; [by apply Rep_with_mutex|done].
    + done.
    + rewrite t_update_length. lia.
    + rewrite model_update. by rewrite decide_True.
    + done.
    + done.
Qed.

Lemma fat_insert_spec s ts k v fuel :
  F.Inv V0 s ts → (length ts < fuel)%nat → (Z.to_nat (F.max_level_ s) < fuel)%nat →
  ∃ s' ts',
    F.insert fuel k v s = Ok (bool_decide (k ∉ t_key <$> ts)) s' ∧
    F.Inv V0 s' ts' ∧
    F.max_level_ s' = F.max_level_ s ∧
    (length ts' ≤ S (length ts))%nat ∧
    model ts' = <[k := v]> (model ts).
Proof.
  intros HI Hfuel Hfuel'.
  destruct (fat_insert_exact s ts k v fuel HI Hfuel Hfuel') as (s' & ts' & ? & ? & ? & ? & ? & _).
  by exists s', ts'.
Qed.

(** *** [remove] *)

(** The unlinking loop runs through the levels [levels1], at which the
    predecessor points to the victim, and stops at the first level of
    [levels2], if any, at which it does not. *)
Lemma fat_remove_unlink_spec (l : list addr) victim (fp fv : Z → addr) : ∀ levels1 levels2 s,
  NoDup levels1 →
  (∀ lv, lv ∈ levels1 →
     vget l lv = Some (fp lv) ∧ fp lv ≠ victim ∧
     F.fwd_view (F.heap s) (fp lv) lv = Some victim ∧
     F.fwd_view (F.heap s) victim lv = Some (fv lv)) →
  (levels2 = [] ∨
   ∃ lv rest p q, levels2 = lv :: rest ∧ lv ∉ levels1 ∧ vget l lv = Some p ∧
                  F.fwd_view (F.heap s) p lv = Some q ∧ q ≠ victim) →
  ∃ h', F.remove_unlink (levels1 ++ levels2) l victim s = Ok tt (F.with_heap s h') ∧
     (∀ a, F.meta_view h' a = F.meta_view (F.heap s) a) ∧
     (∀ a lv, F.fwd_view h' a lv =
        if decide (lv ∈ levels1 ∧ a = fp lv) then Some (fv lv)
        else F.fwd_view (F.heap s) a lv).
Proof.
  induction levels1 as [|l0 levels1 IH]; intros levels2 s Hnd Hl Hstop.
  - exists (F.heap s). rewrite fat_with_heap_id. split_and!; try done.
    destruct Hstop as [->|(lv & rest & p & q & -> & _ & Hp & Hq & Hne)]; [done|].
    cbn [app F.remove_unlink]. rewrite Hp. cbn [lift_opt].
    erewrite bind_Ok; [|reflexivity].
    erewrite bind_Ok; [|by apply fat_get_forward_Ok].
    by rewrite decide_False.
  - apply NoDup_cons in Hnd as [Hl0 Hnd].
    destruct (Hl l0) as (HP & Hne & Hp & Hv); [left|].
    destruct (fat_set_forward_Ok s (fp l0) l0 (fv l0)) as (h1 & Hrun1 & Hm1 & Hf1); [eauto|].
    destruct (IH levels2 (F.with_heap s h1) Hnd) as (h' & Hrun & Hm & Hf).
    { intros lv Hlv. destruct (Hl lv) as (? & ? & Hs1 & Hs2); [by right|].
      assert (lv ≠ l0) by (intros ->; done).
      split_and!; try done; cbn [F.heap F.with_heap]; rewrite Hf1;
        rewrite decide_False by naive_solver; done. }
    { destruct Hstop as [->|(lv & rest & p & q & -> & Hnotin & Hp' & Hq & Hqne)]; [by left|].
      right. exists lv, rest, p, q. split_and!; try done.
      - set_solver.
      - cbn [F.heap F.with_heap]. rewrite Hf1. rewrite decide_False; [done|].
        intros [_ ->]. apply Hnotin. left. }
    cbn [F.heap F.with_heap] in *.
    exists h'. split; [|split].
    + cbn [app F.remove_unlink]. rewrite HP. cbn [lift_opt].
      erewrite bind_Ok; [|reflexivity].
      erewrite bind_Ok; [|by apply fat_get_forward_Ok].
      rewrite decide_True by done.
      erewrite bind_Ok; [|by apply fat_get_forward_Ok].
      rewrite (bind_Ok _ _ _ _ _ Hrun1). exact Hrun.
    + intros a. by rewrite Hm, Hm1.
    + intros a lv. rewrite Hf, Hf1.
      repeat case_decide; try done; set_unfold; naive_solver.
Qed.

Lemma with_cur_level_id s : F.with_cur_level s (F.cur_level_ s) = s.
Proof. by destruct s. Qed.

Lemma lower_cur_level_spec ts fuel : ∀ s,
  F.Rep V0 s ts → (Z.to_nat (F.cur_level_ s) < fuel)%nat →
  ∃ c, F.lower_cur_level fuel s = Ok tt (F.with_cur_level s c) ∧
       F.Rep V0 (F.with_cur_level s c) ts.
Proof.
  induction fuel as [|f IH]; intros s HR Hfuel; [lia|].
  pose proof (F.rep_cur _ _ _ HR) as Hcur.
  cbn [F.lower_cur_level].
  destruct (Z.ltb_spec 0 (F.cur_level_ s)) as [Hpos|Hzero].
  - destruct (F.rep_links _ _ _ HR) as [Hh _].
    erewrite bind_Ok; [|apply fat_get_forward_Ok, Hh; cbn; lia].
    destruct (next_at_cases null (F.cur_level_ s) ts)
      as [[Hall ->]|(a & u & b & Hts & _ & _ & ->)].
    + rewrite decide_True by done.
      assert (F.Rep V0 (F.with_cur_level s (F.cur_level_ s - 1)) ts) as HR1.
      { destruct HR as [? ? ? ? ? ? Hl ?]. constructor; try done; cbn.
        - lia.
        - rewrite Forall_forall in Hl, Hall. apply Forall_forall. intros w Hw.
          specialize (Hl w Hw). specialize (Hall w Hw). lia. }
      destruct (IH _ HR1) as (c & Hrun & HRc); [cbn; lia|].
      exists c. split; [|exact HRc].
      erewrite bind_Ok; [|reflexivity]. exact Hrun.
    + assert (u ∈ ts) as Hu by (rewrite Hts; set_solver).
      destruct (fat_Rep_addr s ts u HR Hu) as [_ Hnn]. rewrite decide_False by done.
      exists (F.cur_level_ s). by rewrite with_cur_level_id.
  - exists (F.cur_level_ s). by rewrite with_cur_level_id.
Qed.

(** [remove] on a well-formed state: it returns whether the key was there,
    and leaves a well-formed state without it. *)
Lemma lower_cur_level_exit ts fuel : ∀ s s',
  F.Rep V0 s ts → F.lower_cur_level fuel s = Ok tt s' →
  F.cur_level_ s' = 0 ∨ ∃ u, u ∈ ts ∧ F.cur_level_ s' ≤ t_lvl u.
Proof.
  induction fuel as [|f IH]; intros s s' HR Hrun; [done|].
  pose proof (F.rep_cur _ _ _ HR) as Hcur.
  cbn [F.lower_cur_level] in Hrun.
  destruct (Z.ltb_spec 0 (F.cur_level_ s)) as [Hpos|Hzero].
  - destruct (F.rep_links _ _ _ HR) as [Hh _].
    erewrite bind_Ok in Hrun; [|apply fat_get_forward_Ok, Hh; cbn; lia].
    destruct (next_at_cases null (F.cur_level_ s) ts)
      as [[Hall Hnx]|(a & u & b & Hts & _ & Hle & Hnx)]; rewrite Hnx in Hrun.
    + rewrite decide_True in Hrun by done.
      assert (F.Rep V0 (F.with_cur_level s (F.cur_level_ s - 1)) ts) as HR1.
      { destruct HR as [? ? ? ? ? ? Hl ?]. constructor; try done; cbn.
        - lia.
        - rewrite Forall_forall in Hl, Hall. apply Forall_forall. intros w Hw.
          specialize (Hl w Hw). specialize (Hall w Hw). lia. }
      erewrite bind_Ok in Hrun; [|reflexivity]. by apply (IH _ _ HR1).
    + assert (u ∈ ts) as Hu by (rewrite Hts; set_solver).
      destruct (fat_Rep_addr s ts u HR Hu) as [_ Hnn]. rewrite decide_False in Hrun by done.
      injection Hrun as <-. right. by exists u.
  - injection Hrun as <-. left. lia.
Qed.

Lemma fat_remove_exact s ts k fuel :
  F.Inv V0 s ts → (length ts < fuel)%nat → (Z.to_nat (F.max_level_ s) < fuel)%nat →
  ∃ s', F.remove fuel k s = Ok (bool_decide (k ∈ t_key <$> ts)) s' ∧
        F.Inv V0 s' (t_remove k ts) ∧
        F.max_level_ s' = F.max_level_ s ∧
        F.gen_ s' = F.gen_ s ∧
        (k ∉ t_key <$> ts → s' = s) ∧
        (k ∈ t_key <$> ts →
           F.cur_level_ s' = 0 ∨ ∃ u, u ∈ t_remove k ts ∧ F.cur_level_ s' ≤ t_lvl u).
Proof.
  intros [HR0 Hm] Hfuel Hfuel'. unfold F.remove.
  pose proof (Rep_with_mutex s ts true HR0) as HR.
  set (sm := F.with_mutex s true) in *.
  pose proof (F.rep_cur _ _ _ HR) as Hcur.
  pose proof (F.rep_sorted _ _ _ HR) as Hsorted.
  destruct (find_node_spec sm ts k fuel (Some []) HR Hfuel) as (tbu' & Hfind & Htbu);
    [by right|].
  destruct Htbu as (l & -> & Hlen & Hlow & Hhigh).
  destruct (head_cases sm ts k HR)
    as [(Habs & _ & Hnode)|(u & r & Hf & Hk & Hnode & _ & Hu & Hin)].
  - (* the key is not there *)
    exists (F.with_mutex sm false). rewrite bool_decide_eq_false_2 by done.
    rewrite t_remove_absent by done. split_and!; try done.
    + apply lock_guard_Ok; [done|]. fold sm.
      rewrite (bind_Ok _ _ _ _ _ Hfind). cbv beta iota. cbn [default].
      destruct Hnode as [->|(w & Hw & -> & Hne)]; [done|].
      destruct (fat_Rep_addr sm ts w HR Hw) as [_ Hnn]. rewrite decide_False by done.
      destruct (fat_Rep_node sm ts w HR Hw) as (n & Hn & Hkey & _).
      erewrite bind_Ok; [|erewrite bind_Ok; [reflexivity|by apply fat_deref_Ok]].
      rewrite Hkey. by destruct (Z.eqb_spec (t_key w) k).
    + split; [by apply Rep_with_mutex|done].
    + intros _. by apply unlock_id.
  - (* the key is there *)
    destruct (t_remove_split k ts u r Hsorted Hf Hk) as [Hrem Hsp].
    destruct (fat_Rep_addr sm ts u HR Hu) as [Hvh Hvn].
    destruct (fat_Rep_node sm ts u HR Hu) as (n & Hn & Hkey & _).
    pose proof (fat_Rep_level sm ts u HR Hu) as Hlvl.
    set (victim := t_addr u) in *.
    set (fp := λ lv, last_at (F.header_ sm) lv (below k ts)).
    set (fv := λ lv, next_at null lv r).
    pose proof (F.rep_nodup _ _ _ HR) as Hnd0.
    assert (NoDup (victim :: null :: F.header_ sm :: (t_addr <$> below k ts ++ r))) as Hnd1.
    { assert (victim :: null :: F.header_ sm :: (t_addr <$> below k ts ++ r)
              ≡ₚ null :: F.header_ sm :: (t_addr <$> ts)) as ->; [|done].
      rewrite Hsp at 2. rewrite !fmap_app, fmap_cons, <- Permutation_middle. fold victim.
      symmetry. etrans; [apply perm_skip, perm_swap|apply perm_swap]. }
    apply NoDup_cons in Hnd1 as [Hvnot Hnd1].
    assert (∀ w, w ∈ below k ts ++ r → w ∈ ts ∧ t_addr w ≠ victim) as Hold.
    { intros w Hw. split.
      - rewrite Hsp. set_solver.
      - intros Heq. apply Hvnot. rewrite <- Heq. do 2 right. by apply list_elem_of_fmap_2. }
    assert (∀ lv, 0 ≤ lv ≤ F.max_level_ sm → fp lv ≠ victim) as Hfpv.
    { intros lv Hlv. destruct (fat_pred_info sm ts k lv HR) as (_ & _ & Hdis & _); [lia|].
      apply Hdis. rewrite Hf. left. }
    assert (∀ lv, 0 ≤ lv ≤ F.max_level_ sm →
              F.fwd_view (F.heap sm) (fp lv) lv = Some (next_at null lv (u :: r))) as Hfpfw.
    { intros lv Hlv. unfold fp.
      destruct (fat_pred_info sm ts k lv HR) as (_ & _ & _ & ->); [lia|]. by rewrite Hf. }
    assert (∀ lv, 0 ≤ lv ≤ t_lvl u →
              F.fwd_view (F.heap sm) victim lv = Some (fv lv)) as Hvfw.
    { intros lv Hlv. pose proof (F.rep_links _ _ _ HR) as Hch. rewrite Hsp in Hch.
      by apply (chain_links_mid _ _ (F.header_tower V0 sm :: below k ts) u r). }
    (* unlinking *)
    destruct (fat_remove_unlink_spec l victim fp fv (seqZ 0 (t_lvl u + 1))
                (seqZ (t_lvl u + 1) (F.cur_level_ sm - t_lvl u)) sm)
      as (h1 & Hunl & Hm1 & Hf1).
    { apply NoDup_seqZ. }
    { intros lv Hlv%elem_of_seqZ. split_and!.
      - apply Hlow. lia.
      - apply Hfpv. lia.
      - rewrite Hfpfw by lia. cbn. by rewrite decide_True by lia.
      - apply Hvfw. lia. }
    { destruct (decide (t_lvl u = F.cur_level_ sm)) as [Heq|Hne].
      - left. rewrite Heq, Z.sub_diag. done.
      - right. rewrite seqZ_cons by lia.
        exists (t_lvl u + 1), (seqZ (Z.succ (t_lvl u + 1)) (Z.pred (F.cur_level_ sm - t_lvl u))),
          (fp (t_lvl u + 1)), (next_at null (t_lvl u + 1) r).
        split_and!.
        + done.
        + rewrite elem_of_seqZ. lia.
        + apply Hlow. lia.
        + rewrite Hfpfw by lia. cbn. by rewrite decide_False by lia.
        + destruct (next_at_cases null (t_lvl u + 1) r)
            as [[_ ->]|(a & w & b & Hr & _ & _ & ->)]; [done|].
          apply Hold. rewrite Hr. set_solver. }
    assert (seqZ 0 (t_lvl u + 1) ++ seqZ (t_lvl u + 1) (F.cur_level_ sm - t_lvl u) =
            seqZ 0 (F.cur_level_ sm + 1)) as Hseq.
    { replace (F.cur_level_ sm + 1) with ((t_lvl u + 1) + (F.cur_level_ sm - t_lvl u)) by lia.
      rewrite (seqZ_app 0 (t_lvl u + 1) (F.cur_level_ sm - t_lvl u)) by lia.
      by rewrite Z.add_0_l. }
    rewrite Hseq in Hunl.
    destruct (fat_delete_node_Ok (F.with_heap sm h1) victim) as (h2 & Hdel & Hm2 & Hf2).
    { cbn [F.heap F.with_heap]. apply fat_meta_view_is_Some. rewrite Hm1.
      apply fat_meta_view_is_Some. eauto. }
    cbn [F.heap F.with_heap] in Hm2, Hf2.
    set (s2 := F.with_heap (F.with_heap sm h1) h2) in *.
    assert (F.Rep V0 s2 (below k ts ++ r)) as HR2.
    { destruct (fat_header_pre_NoDup sm ts k HR) as [Hpre_nd Hpre_nn].
      pose proof (F.rep_nodes _ _ _ HR) as Hnodes. rewrite Forall_forall in Hnodes.
      assert (∀ a, a ≠ victim → F.meta_view h2 a = F.meta_view (F.heap sm) a) as Hmeta.
      { intros a Ha. rewrite Hm2, decide_False by done. by rewrite Hm1. }
      assert (∀ a lv, a ≠ victim → F.fwd_view h2 a lv =
                if decide (0 ≤ lv ≤ t_lvl u ∧ a = fp lv) then Some (fv lv)
                else F.fwd_view (F.heap sm) a lv) as Hfwd.
      { intros a lv Ha. rewrite Hf2, decide_False by done. rewrite Hf1.
        pose proof (elem_of_seqZ 0 (t_lvl u + 1) lv) as Hiff.
        clear -Hiff. repeat case_decide; try done; naive_solver lia. }
      subst s2.
      constructor; cbn [F.heap F.cur_level_ F.max_level_ F.header_ F.with_heap].
      - done.
      - rewrite Hmeta by done. apply (F.rep_header _ _ _ HR).
      - apply Forall_forall. intros w Hw. destruct (Hold w Hw) as [Hwts Hwv].
        rewrite Hmeta by done. by apply Hnodes.
      - change (F.header_tower V0 _) with (F.header_tower V0 sm). rewrite app_comm_cons.
        apply (chain_links_remove (F.fwd_view (F.heap sm)) _ _ _ _ u (λ _, null)).
        + done.
        + done.
        + rewrite <- app_comm_cons, <- Hsp. apply (F.rep_links _ _ _ HR).
        + intros a lv Ha Hlv0.
          assert (a ≠ victim) as Hav.
          { intros ->. apply Hvnot. rewrite fmap_cons in Ha. cbn in Ha.
            apply elem_of_cons in Ha as [Ha|Ha]; [by apply Hvh in Ha|].
            do 2 right. rewrite fmap_app. apply elem_of_app. by left. }
          rewrite Hfwd by done.
          destruct (decide (lv ≤ t_lvl u)) as [Hle|Hgt].
          * rewrite fat_last_at_header by (cbn in *; lia). fold (fp lv) (fv lv).
            repeat case_decide; try done; naive_solver lia.
          * rewrite !(decide_False (P := _ ∧ a = _)) by lia. done.
        + eapply chain_links_ext;
            [|apply (fat_Rep_suffix sm ts (below k ts ++ [u]) r HR); by rewrite <- app_assoc].
          intros a lv (w & -> & Hw)%list_elem_of_fmap.
          assert (w ∈ below k ts ++ r) as Hw' by set_solver.
          destruct (Hold w Hw') as [Hwts Hwv]. rewrite Hfwd by done.
          rewrite decide_False; [done|]. intros [Hlv Heq].
          destruct (fat_pred_info sm ts k lv HR) as (_ & _ & Hdis & _); [lia|].
          apply (Hdis w); [|done]. rewrite Hf. by right.
      - rewrite <- Hrem. by apply sorted_filter.
      - done.
      - apply Forall_forall. intros w Hw. destruct (Hold w Hw) as [Hwts _].
        by apply (fat_Rep_level sm ts w HR).
      - intros a Ha. destruct (decide (a = victim)) as [->|Hav].
        { rewrite Hm2, decide_True in Ha by done. by destruct Ha. }
        rewrite Hmeta in Ha by done.
        destruct (F.rep_dom _ _ _ HR a Ha) as [?|Hain]; [by left|].
        right. rewrite Hsp, fmap_app, fmap_cons in Hain. rewrite fmap_app.
        fold victim in Hain. set_solver. }
    destruct (lower_cur_level_spec (below k ts ++ r) fuel s2 HR2) as (c & Hlow' & HRc).
    { subst s2. cbn in *. lia. }
    exists (F.with_mutex (F.with_cur_level s2 c) false).
    rewrite bool_decide_eq_true_2 by done. rewrite Hrem. split_and!; try done.
    + apply lock_guard_Ok; [done|]. fold sm.
      rewrite (bind_Ok _ _ _ _ _ Hfind). cbv beta iota. cbn [default].
      rewrite Hnode. fold victim. rewrite decide_False by done.
      erewrite bind_Ok; [|erewrite bind_Ok; [reflexivity|by apply fat_deref_Ok]].
      rewrite Hkey, Hk, Z.eqb_refl. cbn [negb]. cbv iota.
      rewrite (bind_Ok (λ s0, F.remove_unlink (seqZ 0 (F.cur_level_ s0 + 1)) l victim s0)
                 _ _ _ _ Hunl).
      rewrite (bind_Ok _ _ _ _ _ Hdel), (bind_Ok _ _ _ _ _ Hlow'). reflexivity.
    + split; [by apply Rep_with_mutex|done].
    + intros _. apply (lower_cur_level_exit (below k ts ++ r) fuel s2 _ HR2 Hlow').
Qed.

Lemma fat_remove_spec s ts k fuel :
  F.Inv V0 s ts → (length ts < fuel)%nat → (Z.to_nat (F.max_level_ s) < fuel)%nat →
  ∃ s', F.remove fuel k s = Ok (bool_decide (k ∈ t_key <$> ts)) s' ∧
        F.Inv V0 s' (t_remove k ts) ∧
        F.max_level_ s' = F.max_level_ s.
Proof.
  intros HI Hfuel Hfuel'.
  destruct (fat_remove_exact s ts k fuel HI Hfuel Hfuel') as (s' & ? & ? & ? & _).
  by exists s'.
Qed.

(** *** The constructor *)

Lemma create_Inv max_level prob gen :
  0 ≤ max_level → F.Inv V0 (F.create V0 max_level prob gen) [].
Proof.
  intros Hmax. split; [|done]. constructor; cbn.
  - lia.
  - unfold F.meta_view. rewrite lookup_insert_eq. cbn. by rewrite length_replicate.
  - constructor.
  - split; [|done]. intros lv Hlv. unfold F.fwd_view. rewrite lookup_insert_eq. cbn.
    apply vget_replicate. cbn in Hlv. lia.
  - done.
  - repeat constructor; set_solver.
  - constructor.
  - intros a [x Ha]. unfold F.meta_view in Ha.
    destruct (decide (a = 1%nat)) as [->|H1]; [by left|].
    by rewrite lookup_insert_ne, lookup_empty in Ha.
Qed.

End WithValue.
End FatProofs.
(** ** Runs of operations refine the sequential map *)

Section Runs.
Context {V : Type}.
Variable V0 : V.
Implicit Types (m : gmap Z V) (os : list (op V)).

Lemma map_run_cons overwrite o os m :
  map_run overwrite V0 (o :: os) m =
  (fst (map_run overwrite V0 os (fst (map_step overwrite V0 o m))),
   snd (map_step overwrite V0 o m) ::
   snd (map_run overwrite V0 os (fst (map_step overwrite V0 o m)))).
Proof.
  cbn [map_run]. destruct (map_step overwrite V0 o m) as [m1 r]. cbn [fst snd].
  by destruct (map_run overwrite V0 os m1).
Qed.

Lemma map_run_app overwrite os1 os2 m :
  fst (map_run overwrite V0 (os1 ++ os2) m) =
  fst (map_run overwrite V0 os2 (fst (map_run overwrite V0 os1 m))).
Proof.
  revert m. induction os1 as [|o os1 IH]; intros m; [done|].
  rewrite <- app_comm_cons, !map_run_cons. cbn [fst]. apply IH.
Qed.

(** A key that is not removed stays; its value stays too when [insert]
    does not overwrite. *)
Lemma map_run_keeps os m k v :
  m !! k = Some v → Forall (λ o, o ≠ Remove k) os →
  fst (map_run false V0 os m) !! k = Some v.
Proof.
  revert m. induction os as [|o os IH]; intros m Hk Hos; [done|].
  apply Forall_cons in Hos as [Ho Hos]. rewrite map_run_cons. cbn [fst].
  apply IH; [|done]. destruct o as [k' v'|k'|k']; cbn.
  - case_decide as Hin; [done|]. rewrite lookup_insert_ne; [done|].
    intros ->. apply Hin. apply elem_of_dom. eauto.
  - rewrite lookup_delete_ne; [done|]. congruence.
  - done.
Qed.

Lemma map_run_keeps_last os m k v :
  m !! k = Some v → Forall (λ o, o ≠ Remove k) os →
  fst (map_run true V0 os m) !! k = Some (last_inserted k os v).
Proof.
  revert m v. induction os as [|o os IH]; intros m v Hk Hos; [done|].
  apply Forall_cons in Hos as [Ho Hos]. rewrite map_run_cons. cbn [fst].
  destruct o as [k' v'|k'|k']; cbn [last_inserted]; apply IH; try done; cbn.
  - assert (<[k' := v']> m !! k = Some (if decide (k' = k) then v' else v)) as Hl.
    { case_decide as Heq; [subst; apply lookup_insert_eq|by rewrite lookup_insert_ne]. }
    destruct (decide (k' ∈ dom m)); exact Hl.
  - rewrite lookup_delete_ne; [done|]. congruence.
Qed.

(** A key that is not inserted stays absent. *)
Lemma map_run_absent overwrite os m k :
  m !! k = None → Forall (λ o, ∀ v, o ≠ Insert k v) os →
  fst (map_run overwrite V0 os m) !! k = None.
Proof.
  revert m. induction os as [|o os IH]; intros m Hk Hos; [done|].
  apply Forall_cons in Hos as [Ho Hos]. rewrite map_run_cons. cbn [fst].
  apply IH; [|done]. destruct o as [k' v'|k'|k']; cbn.
  - assert (k' ≠ k) as Hne by (intros ->; by apply (Ho v')).
    destruct (decide (k' ∈ dom m)); [destruct overwrite|]; by rewrite ?lookup_insert_ne.
  - destruct (decide (k' = k)) as [->|Hne]; [apply lookup_delete_eq|].
    by rewrite lookup_delete_ne.
  - done.
Qed.

(** The concurrent variant, run by one thread, is the map without
    overwriting. *)
Lemma Locked_run_op s ts o fuel :
  LockedSkipList.Rep V0 s ts → enough fuel (LockedSkipList.max_level_ s) (length ts) 0 →
  ∃ s' ts',
    run_op (Locked V0) fuel o s = Ok (snd (map_step false V0 o (model ts))) s' ∧
    LockedSkipList.Rep V0 s' ts' ∧
    model ts' = fst (map_step false V0 o (model ts)) ∧
    LockedSkipList.max_level_ s' = LockedSkipList.max_level_ s ∧
    (length ts' ≤ S (length ts))%nat.
Proof.
  intros HR Hfuel. unfold enough in Hfuel. destruct o as [k v|k|k]; cbn [run_op map_step fst snd].
  - destruct (LockedProofs.insert_spec V0 s ts k v fuel HR) as (s' & ts' & Hrun & HR' & Hmx & Hlen & Hmod);
      [lia..|].
    exists s', ts'. cbn [sl_insert Locked]. rewrite (bind_Ok _ _ _ _ _ Hrun).
    split_and!; try done.
    + unfold ret. do 2 f_equal. apply bool_decide_ext. by rewrite model_dom.
    + rewrite Hmod. cbn. apply decide_ext. by rewrite model_dom.
  - destruct (LockedProofs.remove_spec V0 s ts k fuel HR) as (s' & Hrun & HR' & Hmx); [lia|].
    exists s', (t_remove k ts). cbn [sl_remove Locked]. rewrite (bind_Ok _ _ _ _ _ Hrun).
    split_and!; try done.
    + unfold ret. do 2 f_equal. apply bool_decide_ext. by rewrite model_dom.
    + apply model_remove.
    + unfold t_remove. pose proof (length_filter (λ t, t_key t ≠ k) ts). lia.
  - exists s, ts. cbn [sl_search Locked].
    rewrite (bind_Ok _ _ _ _ _ (LockedProofs.search_spec V0 s ts k fuel HR ltac:(lia))).
    split_and!; try done. lia.
Qed.

Lemma Locked_run_ops os : ∀ s ts fuel,
  LockedSkipList.Rep V0 s ts →
  enough fuel (LockedSkipList.max_level_ s) (length ts) (length os) →
  ∃ s' ts',
    run_ops (Locked V0) fuel os s = Ok (snd (map_run false V0 os (model ts))) s' ∧
    LockedSkipList.Rep V0 s' ts' ∧
    model ts' = fst (map_run false V0 os (model ts)) ∧
    LockedSkipList.max_level_ s' = LockedSkipList.max_level_ s ∧
    (length ts' ≤ length ts + length os)%nat.
Proof.
  induction os as [|o os IH]; intros s ts fuel HR Hfuel; unfold enough in *.
  - exists s, ts. split_and!; try done. lia.
  - cbn [length] in Hfuel.
    destruct (Locked_run_op s ts o fuel HR) as (s1 & ts1 & Hrun1 & HR1 & Hmod1 & Hmx1 & Hlen1);
      [unfold enough; lia|].
    destruct (IH s1 ts1 fuel HR1) as (s2 & ts2 & Hrun2 & HR2 & Hmod2 & Hmx2 & Hlen2);
      [rewrite Hmx1; lia|].
    exists s2, ts2. rewrite map_run_cons. cbn [fst snd run_ops].
    rewrite (bind_Ok _ _ _ _ _ Hrun1), <- Hmod1, (bind_Ok _ _ _ _ _ Hrun2).
    split_and!; try done; [congruence|cbn [length]; lia].
Qed.

(** The coarse-locked variant is the map with overwriting. *)
Lemma Fat_run_op s ts o fuel :
  FatSkipList.Inv V0 s ts → enough fuel (FatSkipList.max_level_ s) (length ts) 0 →
  ∃ s' ts',
    run_op (Fat V0) fuel o s = Ok (snd (map_step true V0 o (model ts))) s' ∧
    FatSkipList.Inv V0 s' ts' ∧
    model ts' = fst (map_step true V0 o (model ts)) ∧
    FatSkipList.max_level_ s' = FatSkipList.max_level_ s ∧
    (length ts' ≤ S (length ts))%nat.
Proof.
  intros HR Hfuel. unfold enough in Hfuel. destruct o as [k v|k|k]; cbn [run_op map_step fst snd].
  - destruct (FatProofs.fat_insert_spec V0 s ts k v fuel HR) as (s' & ts' & Hrun & HR' & Hmx & Hlen & Hmod);
      [lia..|].
    exists s', ts'. cbn [sl_insert Fat]. rewrite (bind_Ok _ _ _ _ _ Hrun).
    split_and!; try done.
    + unfold ret. do 2 f_equal. apply bool_decide_ext. by rewrite model_dom.
    + rewrite Hmod. by destruct (decide (k ∈ dom (model ts))).
  - destruct (FatProofs.fat_remove_spec V0 s ts k fuel HR) as (s' & Hrun & HR' & Hmx); [lia..|].
    exists s', (t_remove k ts). cbn [sl_remove Fat]. rewrite (bind_Ok _ _ _ _ _ Hrun).
    split_and!; try done.
    + unfold ret. do 2 f_equal. apply bool_decide_ext. by rewrite model_dom.
    + apply model_remove.
    + unfold t_remove. pose proof (length_filter (λ t, t_key t ≠ k) ts). lia.
  - exists s, ts. cbn [sl_search Fat].
    rewrite (bind_Ok _ _ _ _ _ (FatProofs.fat_search_spec V0 s ts k fuel HR ltac:(lia))).
    split_and!; try done. lia.
Qed.

Lemma Fat_run_ops os : ∀ s ts fuel,
  FatSkipList.Inv V0 s ts →
  enough fuel (FatSkipList.max_level_ s) (length ts) (length os) →
  ∃ s' ts',
    run_ops (Fat V0) fuel os s = Ok (snd (map_run true V0 os (model ts))) s' ∧
    FatSkipList.Inv V0 s' ts' ∧
    model ts' = fst (map_run true V0 os (model ts)) ∧
    FatSkipList.max_level_ s' = FatSkipList.max_level_ s ∧
    (length ts' ≤ length ts + length os)%nat.
Proof.
  induction os as [|o os IH]; intros s ts fuel HR Hfuel; unfold enough in *.
  - exists s, ts. split_and!; try done. lia.
  - cbn [length] in Hfuel.
    destruct (Fat_run_op s ts o fuel HR) as (s1 & ts1 & Hrun1 & HR1 & Hmod1 & Hmx1 & Hlen1);
      [unfold enough; lia|].
    destruct (IH s1 ts1 fuel HR1) as (s2 & ts2 & Hrun2 & HR2 & Hmod2 & Hmx2 & Hlen2);
      [rewrite Hmx1; lia|].
    exists s2, ts2. rewrite map_run_cons. cbn [fst snd run_ops].
    rewrite (bind_Ok _ _ _ _ _ Hrun1), <- Hmod1, (bind_Ok _ _ _ _ _ Hrun2).
    split_and!; try done; [congruence|cbn [length]; lia].
Qed.

(** Both variants at once. *)
Lemma wf_new_list w max_level prob gen :
  0 ≤ max_level →
  wf V0 w (new_list V0 w max_level prob gen) [] ∧
  max_level_of w (new_list V0 w max_level prob gen) = max_level.
Proof.
  intros Hmax. destruct w; (split; [|done]).
  - by apply FatProofs.create_Inv.
  - by apply LockedProofs.create_Rep.
Qed.

Lemma wf_run_ops w os (s : state V w) ts fuel :
  wf V0 w s ts → enough fuel (max_level_of w s) (length ts) (length os) →
  ∃ s' ts',
    run_ops (impl V0 w) fuel os s = Ok (snd (map_run (overwrites w) V0 os (model ts))) s' ∧
    wf V0 w s' ts' ∧
    model ts' = fst (map_run (overwrites w) V0 os (model ts)) ∧
    max_level_of w s' = max_level_of w s ∧
    (length ts' ≤ length ts + length os)%nat.
Proof. destruct w; [apply Fat_run_ops|apply Locked_run_ops]. Qed.

Lemma wf_run_op w o (s : state V w) ts fuel :
  wf V0 w s ts → enough fuel (max_level_of w s) (length ts) 0 →
  ∃ s' ts',
    run_op (impl V0 w) fuel o s = Ok (snd (map_step (overwrites w) V0 o (model ts))) s' ∧
    wf V0 w s' ts' ∧
    model ts' = fst (map_step (overwrites w) V0 o (model ts)) ∧
    max_level_of w s' = max_level_of w s ∧
    (length ts' ≤ S (length ts))%nat.
Proof. destruct w; [apply Fat_run_op|apply Locked_run_op]. Qed.

Lemma wf_search w (s : state V w) ts k fuel :
  wf V0 w s ts → enough fuel (max_level_of w s) (length ts) 0 →
  sl_search (impl V0 w) fuel k s =
  Ok (match model ts !! k with Some v => (true, v) | None => (false, V0) end) s.
Proof.
  unfold enough. destruct w; intros HR Hfuel.
  - apply FatProofs.fat_search_spec; [done|lia].
  - apply LockedProofs.search_spec; [done|lia].
Qed.

Lemma wf_for_each w (s : state V w) ts fuel :
  wf V0 w s ts → enough fuel (max_level_of w s) (length ts) 0 →
  sl_for_each (impl V0 w) fuel s = Ok ((λ u, (t_key u, t_val u)) <$> ts) s ∧ sorted ts.
Proof.
  unfold enough. destruct w; intros HR Hfuel.
  - split; [apply (FatProofs.fat_for_each_spec V0); [done|lia]|]. destruct HR as [HR _].
    apply (FatSkipList.rep_sorted _ _ _ HR).
  - split; [apply (LockedProofs.for_each_spec V0); [done|lia]|].
    apply (LockedSkipList.rep_sorted _ _ _ HR).
Qed.

(** The state that a run from a new list ends in. *)
Lemma reached_wf w max_level prob gen os fuel rs (s : state V w) n :
  0 ≤ max_level → enough fuel max_level 0 (length os + n) →
  run_ops (impl V0 w) fuel os (new_list V0 w max_level prob gen) = Ok rs s →
  ∃ ts, wf V0 w s ts ∧
        model ts = fst (map_run (overwrites w) V0 os ∅) ∧
        rs = snd (map_run (overwrites w) V0 os ∅) ∧
        max_level_of w s = max_level ∧
        enough fuel (max_level_of w s) (length ts) n.
Proof.
  intros Hmax Hfuel Hrun. destruct (wf_new_list w max_level prob gen Hmax) as [Hwf Hmx].
  destruct (wf_run_ops w os _ [] fuel Hwf) as (s' & ts & Hrun' & Hwf' & Hmod & Hmx' & Hlen).
  { rewrite Hmx. unfold enough in *. cbn [length]. lia. }
  rewrite Hrun' in Hrun. injection Hrun as <- <-.
  exists ts. split_and!; try done.
  - congruence.
  - rewrite Hmx', Hmx. unfold enough in *. cbn [length] in Hlen. lia.
Qed.

End Runs.
(** ** The properties of the specification *)

Section Claims.
Context {V : Type}.
Variable V0 : V.

Lemma run_op_insert_inv {S} (impl : SkipList V S) fuel k v s b s' :
  run_op impl fuel (Insert k v) s = Ok (RBool b) s' → sl_insert impl fuel k v s = Ok b s'.
Proof.
  cbn [run_op]. unfold bind, ret. destruct (sl_insert impl fuel k v s); [|done].
  by intros [= -> ->].
Qed.

Lemma run_op_insert {S} (impl : SkipList V S) fuel k v s b s' :
  sl_insert impl fuel k v s = Ok b s' → run_op impl fuel (Insert k v) s = Ok (RBool b) s'.
Proof. intros H. cbn [run_op]. by rewrite (bind_Ok _ _ _ _ _ H). Qed.

Lemma run_op_remove_inv {S} (impl : SkipList V S) fuel k s b s' :
  run_op impl fuel (Remove k) s = Ok (RBool b) s' → sl_remove impl fuel k s = Ok b s'.
Proof.
  cbn [run_op]. unfold bind, ret. destruct (sl_remove impl fuel k s); [|done].
  by intros [= -> ->].
Qed.

Lemma run_op_remove {S} (impl : SkipList V S) fuel k s b s' :
  sl_remove impl fuel k s = Ok b s' → run_op impl fuel (Remove k) s = Ok (RBool b) s'.
Proof. intros H. cbn [run_op]. by rewrite (bind_Ok _ _ _ _ _ H). Qed.

Lemma enough_weaken fuel mx size n size' n' :
  enough fuel mx size n → (size' + n' ≤ size + n)%nat → enough fuel mx size' n'.
Proof. unfold enough. lia. Qed.

Lemma lookup_found (m : gmap Z V) k b v :
  match m !! k with Some x => (true, x) | None => (false, V0) end = (b, v) →
  (b = true ∧ m !! k = Some v) ∨ (b = false ∧ m !! k = None ∧ v = V0).
Proof. destruct (m !! k); intros [= <- <-]; [left|right]; done. Qed.

(** What [insert] does on a well-formed state. *)
Lemma wf_insert w (s : state V w) ts k v fuel :
  wf V0 w s ts → enough fuel (max_level_of w s) (length ts) 0 →
  ∃ s' ts',
    sl_insert (impl V0 w) fuel k v s = Ok (bool_decide (k ∉ dom (model ts))) s' ∧
    wf V0 w s' ts' ∧
    model ts' = (if decide (k ∈ dom (model ts))
                 then (if overwrites w then <[k := v]> (model ts) else model ts)
                 else <[k := v]> (model ts)) ∧
    max_level_of w s' = max_level_of w s ∧ (length ts' ≤ S (length ts))%nat.
Proof.
  intros Hwf Hfuel.
  destruct (wf_run_op V0 w (Insert k v) s ts fuel Hwf Hfuel) as (s' & ts' & Hrun & ?).
  exists s', ts'. split; [|done]. by apply run_op_insert_inv.
Qed.

(** What [remove] does on a well-formed state. *)
Lemma wf_remove w (s : state V w) ts k fuel :
  wf V0 w s ts → enough fuel (max_level_of w s) (length ts) 0 →
  ∃ s' ts',
    sl_remove (impl V0 w) fuel k s = Ok (bool_decide (k ∈ dom (model ts))) s' ∧
    wf V0 w s' ts' ∧
    model ts' = delete k (model ts) ∧
    max_level_of w s' = max_level_of w s ∧ (length ts' ≤ S (length ts))%nat.
Proof.
  intros Hwf Hfuel.
  destruct (wf_run_op V0 w (Remove k) s ts fuel Hwf Hfuel) as (s' & ts' & Hrun & ?).
  exists s', ts'. split; [|done]. by apply run_op_remove_inv.
Qed.

(** C2, as amended: after [insert(k, v)] has returned true on a list reached
    from a new one, and whatever calls other than [remove(k)] follow,
    [search(k)] returns true with [v] in the concurrent variant, and with
    the value of the last [insert(k, _)] since then ([v] if there was none)
    in the coarse-locked variant. *)
Theorem C2_search_after_insert w max_level prob gen fuel os1 k v os2 rs1
    (s1 s2 : state V w) :
  0 ≤ max_level → enough fuel max_level 0 (length os1 + (1 + length os2)) →
  run_ops (impl V0 w) fuel os1 (new_list V0 w max_level prob gen) = Ok rs1 s1 →
  sl_insert (impl V0 w) fuel k v s1 = Ok true s2 →
  Forall (λ o, o ≠ Remove k) os2 →
  ∃ rs2 s3,
    run_ops (impl V0 w) fuel os2 s2 = Ok rs2 s3 ∧
    sl_search (impl V0 w) fuel k s3 =
    Ok (true, if overwrites w then last_inserted k os2 v else v) s3.
Proof.
  intros Hmax Hfuel Hrun1 Hins Hos2.
  destruct (reached_wf V0 w max_level prob gen os1 fuel rs1 s1 _ Hmax Hfuel Hrun1)
    as (ts1 & Hwf1 & _ & _ & Hmx1 & Hf1).
  destruct (wf_insert w s1 ts1 k v fuel Hwf1) as (s2' & ts2 & Hins' & Hwf2 & Hmod2 & Hmx2 & Hlen2);
    [eapply enough_weaken; [done|lia]|].
  rewrite Hins' in Hins. injection Hins as Hb <-.
  apply bool_decide_eq_true in Hb. rewrite decide_False in Hmod2 by done.
  destruct (wf_run_ops V0 w os2 s2' ts2 fuel Hwf2)
    as (s3 & ts3 & Hrun2 & Hwf3 & Hmod3 & Hmx3 & Hlen3).
  { rewrite Hmx2. eapply enough_weaken; [done|lia]. }
  eexists _, s3. split; [exact Hrun2|].
  rewrite (wf_search V0 w s3 ts3 k fuel Hwf3).
  2:{ rewrite Hmx3, Hmx2. eapply enough_weaken; [done|lia]. }
  rewrite Hmod3, Hmod2. destruct w; cbn [overwrites].
  - rewrite (map_run_keeps_last V0 os2 _ k v); [done| |done]. apply lookup_insert_eq.
  - rewrite (map_run_keeps V0 os2 _ k v); [done| |done]. apply lookup_insert_eq.
Qed.

(** C3: after any sequence of calls on a new list, in either variant,
    [for_each] runs through strictly increasing keys. *)
Theorem C3_for_each_sorted w max_level prob gen fuel os :
  0 ≤ max_level → enough fuel max_level 0 (length os) →
  ∃ rs (s : state V w) visited,
    run_ops (impl V0 w) fuel os (new_list V0 w max_level prob gen) = Ok rs s ∧
    sl_for_each (impl V0 w) fuel s = Ok visited s ∧
    StronglySorted Z.lt (fst <$> visited).
Proof.
  intros Hmax Hfuel. destruct (wf_new_list V0 w max_level prob gen Hmax) as [Hwf Hmx].
  destruct (wf_run_ops V0 w os _ [] fuel Hwf) as (s & ts & Hrun & Hwf' & _ & Hmx' & Hlen).
  { by rewrite Hmx. }
  destruct (wf_for_each V0 w s ts fuel Hwf') as [Hfe Hsorted].
  { rewrite Hmx', Hmx. eapply enough_weaken; [done|cbn in *; lia]. }
  eexists _, s, _. split_and!; [exact Hrun|exact Hfe|].
  rewrite <- list_fmap_compose. by apply sorted_StronglySorted.
Qed.

(** C4: in either variant, [search(k)] returns false with the default value
    after [remove(k)] has returned true, and on a new list, whatever calls
    other than [insert(k, _)] follow. *)
Theorem C4_search_absent w max_level prob gen fuel os1 k os2 rs1 (s1 s2 : state V w) :
  0 ≤ max_level → enough fuel max_level 0 (length os1 + (1 + length os2)) →
  run_ops (impl V0 w) fuel os1 (new_list V0 w max_level prob gen) = Ok rs1 s1 →
  sl_remove (impl V0 w) fuel k s1 = Ok true s2 ∨ (os1 = [] ∧ s2 = s1) →
  Forall (λ o, ∀ v, o ≠ Insert k v) os2 →
  ∃ rs2 s3,
    run_ops (impl V0 w) fuel os2 s2 = Ok rs2 s3 ∧
    sl_search (impl V0 w) fuel k s3 = Ok (false, V0) s3.
Proof.
  intros Hmax Hfuel Hrun1 Hstart Hos2.
  destruct (reached_wf V0 w max_level prob gen os1 fuel rs1 s1 _ Hmax Hfuel Hrun1)
    as (ts1 & Hwf1 & Hmod1 & _ & Hmx1 & Hf1).
  assert (∃ ts2, wf V0 w s2 ts2 ∧ model ts2 !! k = None ∧
                 max_level_of w s2 = max_level_of w s1 ∧
                 (length ts2 ≤ S (length ts1))%nat) as (ts2 & Hwf2 & Hk & Hmx2 & Hlen2).
  { destruct Hstart as [Hrem|[-> ->]].
    - destruct (wf_remove w s1 ts1 k fuel Hwf1) as (s2' & ts2 & Hrem' & Hwf2 & Hmod2 & Hmx2 & Hlen2);
        [eapply enough_weaken; [done|lia]|].
      rewrite Hrem' in Hrem. injection Hrem as _ <-.
      exists ts2. split_and!; try done. rewrite Hmod2. apply lookup_delete_eq.
    - exists ts1. split_and!; try done; [|lia]. rewrite Hmod1. done. }
  destruct (wf_run_ops V0 w os2 s2 ts2 fuel Hwf2)
    as (s3 & ts3 & Hrun2 & Hwf3 & Hmod3 & Hmx3 & Hlen3).
  { rewrite Hmx2. eapply enough_weaken; [done|lia]. }
  eexists _, s3. split; [exact Hrun2|].
  rewrite (wf_search V0 w s3 ts3 k fuel Hwf3).
  2:{ rewrite Hmx3, Hmx2. eapply enough_weaken; [done|lia]. }
  by rewrite Hmod3, (map_run_absent V0 _ os2 _ k Hk Hos2).
Qed.

(** C5: [insert(k, v1)] of a key that is present with the value [v0]
    returns false in both variants; afterwards the key has the value [v1] in
    the coarse-locked variant and still [v0] in the concurrent variant. *)
Theorem C5_insert_present w max_level prob gen fuel os k v0 v1 rs (s : state V w) :
  0 ≤ max_level → enough fuel max_level 0 (length os + 1) →
  run_ops (impl V0 w) fuel os (new_list V0 w max_level prob gen) = Ok rs s →
  sl_search (impl V0 w) fuel k s = Ok (true, v0) s →
  ∃ s', sl_insert (impl V0 w) fuel k v1 s = Ok false s' ∧
        sl_search (impl V0 w) fuel k s' = Ok (true, if overwrites w then v1 else v0) s'.
Proof.
  intros Hmax Hfuel Hrun Hsearch.
  destruct (reached_wf V0 w max_level prob gen os fuel rs s _ Hmax Hfuel Hrun)
    as (ts & Hwf & _ & _ & Hmx & Hf).
  rewrite (wf_search V0 w s ts k fuel Hwf) in Hsearch
    by (eapply enough_weaken; [done|lia]).
  injection Hsearch as Hsearch.
  apply lookup_found in Hsearch as [[_ Hk]|[? _]]; [|done].
  destruct (wf_insert w s ts k v1 fuel Hwf) as (s' & ts' & Hins & Hwf' & Hmod & Hmx' & Hlen);
    [eapply enough_weaken; [done|lia]|].
  assert (k ∈ dom (model ts)) as Hin by (apply elem_of_dom; eauto).
  exists s'. split.
  - rewrite Hins. by rewrite bool_decide_eq_false_2 by auto.
  - rewrite (wf_search V0 w s' ts' k fuel Hwf').
    2:{ rewrite Hmx'. eapply enough_weaken; [done|lia]. }
    rewrite Hmod, decide_True by done. destruct w; cbn [overwrites].
    + by rewrite lookup_insert_eq.
    + by rewrite Hk.
Qed.

(** C6: in both variants [remove(k)] returns true exactly when [search(k)]
    finds the key, the key is absent afterwards, and a second [remove(k)]
    returns false. *)
Theorem C6_remove w max_level prob gen fuel os k rs (s : state V w) :
  0 ≤ max_level → enough fuel max_level 0 (length os + 2) →
  run_ops (impl V0 w) fuel os (new_list V0 w max_level prob gen) = Ok rs s →
  ∃ found v s1 s2,
    sl_search (impl V0 w) fuel k s = Ok (found, v) s ∧
    sl_remove (impl V0 w) fuel k s = Ok found s1 ∧
    sl_search (impl V0 w) fuel k s1 = Ok (false, V0) s1 ∧
    sl_remove (impl V0 w) fuel k s1 = Ok false s2.
Proof.
  intros Hmax Hfuel Hrun.
  destruct (reached_wf V0 w max_level prob gen os fuel rs s _ Hmax Hfuel Hrun)
    as (ts & Hwf & _ & _ & Hmx & Hf).
  destruct (wf_remove w s ts k fuel Hwf) as (s1 & ts1 & Hrem & Hwf1 & Hmod1 & Hmx1 & Hlen1);
    [eapply enough_weaken; [done|lia]|].
  destruct (wf_remove w s1 ts1 k fuel Hwf1) as (s2 & ts2 & Hrem2 & _);
    [rewrite Hmx1; eapply enough_weaken; [done|lia]|].
  assert (k ∉ dom (model ts1)) as Hout.
  { rewrite Hmod1. rewrite dom_delete_L. set_solver. }
  exists (bool_decide (k ∈ dom (model ts))),
    (match model ts !! k with Some x => x | None => V0 end), s1, s2.
  split_and!.
  - rewrite (wf_search V0 w s ts k fuel Hwf) by (eapply enough_weaken; [done|lia]).
    destruct (model ts !! k) as [x|] eqn:Hk.
    + rewrite bool_decide_eq_true_2; [done|]. apply elem_of_dom. eauto.
    + rewrite bool_decide_eq_false_2; [done|]. by apply not_elem_of_dom.
  - done.
  - rewrite (wf_search V0 w s1 ts1 k fuel Hwf1)
      by (rewrite Hmx1; eapply enough_weaken; [done|lia]).
    apply not_elem_of_dom in Hout. by rewrite Hout.
  - rewrite Hrem2. by rewrite bool_decide_eq_false_2.
Qed.

End Claims.

Section ClaimsMore.
Context {V : Type}.
Variable V0 : V.

Lemma Locked_node_level (s : LockedSkipList.t (V:=V)) ts a n :
  LockedSkipList.Rep V0 s ts → LockedSkipList.heap s !! a = Some n →
  0 ≤ LockedSkipList.node_level n ≤ LockedSkipList.max_level_ s.
Proof.
  intros HR Hn. pose proof (LockedSkipList.rep_max _ _ _ HR) as Hmax.
  assert (LockedSkipList.meta_view (LockedSkipList.heap s) a =
          Some (LockedSkipList.key n, LockedSkipList.value n, LockedSkipList.marked n,
                LockedSkipList.fully_linked n, LockedSkipList.node_level n,
                length (LockedSkipList.forward n))) as Hmv.
  { unfold LockedSkipList.meta_view. by rewrite Hn. }
  destruct (LockedSkipList.rep_dom _ _ _ HR a) as [->|[->|Hin]]; [by rewrite Hmv|..].
  - rewrite (LockedSkipList.rep_header _ _ _ HR) in Hmv. injection Hmv as _ _ _ _ <- _. lia.
  - rewrite (LockedSkipList.rep_tail _ _ _ HR) in Hmv. injection Hmv as _ _ _ _ <- _. lia.
  - apply list_elem_of_fmap in Hin as (u & -> & Hu).
    pose proof (LockedSkipList.rep_nodes _ _ _ HR) as Hnodes.
    rewrite Forall_forall in Hnodes. rewrite (Hnodes u Hu) in Hmv.
    injection Hmv as _ _ _ _ <- _. apply (LockedProofs.Rep_level V0 s ts u HR Hu).
Qed.

Lemma Fat_node_level (s : FatSkipList.t (V:=V)) ts a n :
  FatSkipList.Inv V0 s ts → FatSkipList.heap s !! a = Some n →
  0 ≤ Z.of_nat (length (FatSkipList.forward n)) - 1 ≤ FatSkipList.max_level_ s.
Proof.
  intros [HR _] Hn. pose proof (FatSkipList.rep_cur _ _ _ HR) as Hcur.
  assert (FatSkipList.meta_view (FatSkipList.heap s) a =
          Some (FatSkipList.key n, FatSkipList.value n, length (FatSkipList.forward n)))
    as Hmv.
  { unfold FatSkipList.meta_view. by rewrite Hn. }
  destruct (FatSkipList.rep_dom _ _ _ HR a) as [->|Hin]; [by rewrite Hmv|..].
  - rewrite (FatSkipList.rep_header _ _ _ HR) in Hmv. injection Hmv as _ _ <-. lia.
  - apply list_elem_of_fmap in Hin as (u & -> & Hu).
    pose proof (FatSkipList.rep_nodes _ _ _ HR) as Hnodes.
    rewrite Forall_forall in Hnodes. rewrite (Hnodes u Hu) in Hmv.
    injection Hmv as _ _ <-. pose proof (FatProofs.fat_Rep_level V0 s ts u HR Hu). lia.
Qed.

(** C7: whatever the draws, [get_rand_level] returns the number of leading
    draws below [probability_], counting at most [max_level_] of them, so a
    level between 0 and [max_level_]; and no node of a list reached from a
    new one has a level outside of this range, in either variant. *)
Theorem C7_levels w (s0 : state V w) max_level prob gen fuel os rs (s : state V w) a lvl :
  0 ≤ max_level_of w s0 → (Z.to_nat (max_level_of w s0) < fuel)%nat →
  0 ≤ max_level → enough fuel max_level 0 (length os) →
  run_ops (impl V0 w) fuel os (new_list V0 w max_level prob gen) = Ok rs s →
  node_level_at w s a = Some lvl →
  (∃ s0',
     get_rand_level_of w fuel s0 =
     Ok (Z.of_nat (count_successes (Z.to_nat (max_level_of w s0))
                     (probability_of w s0) (gen_of w s0))) s0' ∧
     0 ≤ Z.of_nat (count_successes (Z.to_nat (max_level_of w s0))
                     (probability_of w s0) (gen_of w s0)) ≤ max_level_of w s0) ∧
  0 ≤ lvl ≤ max_level.
Proof.
  intros Hmax0 Hfuel0 Hmax Hfuel Hrun Hlvl. split.
  - pose proof (count_successes_le (Z.to_nat (max_level_of w s0))
                  (probability_of w s0) (gen_of w s0)) as Hle.
    destruct w; cbn [get_rand_level_of max_level_of probability_of gen_of] in *.
    + eexists. split; [by apply FatProofs.fat_get_rand_level_spec|lia].
    + eexists. split; [by apply LockedProofs.get_rand_level_spec|lia].
  - replace (length os) with (length os + 0)%nat in Hfuel by lia.
    destruct (reached_wf V0 w max_level prob gen os fuel rs s _ Hmax Hfuel Hrun)
      as (ts & Hwf & _ & _ & Hmx & _).
    destruct w; cbn [node_level_at wf max_level_of] in *.
    + destruct (FatSkipList.heap s !! a) as [n|] eqn:Hn; [|done].
      injection Hlvl as <-. rewrite <- Hmx. by eapply Fat_node_level.
    + destruct (LockedSkipList.heap s !! a) as [n|] eqn:Hn; [|done].
      injection Hlvl as <-. rewrite <- Hmx. by eapply Locked_node_level.
Qed.

(** C8: on a list reached from a new one by any calls, every call of
    [insert], [remove], [search] and [for_each] by a single thread ends
    with a result, given fuel for its loops. *)
Theorem C8_terminates w max_level prob gen fuel os o :
  0 ≤ max_level → enough fuel max_level 0 (length os + 1) →
  ∃ rs (s : state V w) r s' visited,
    run_ops (impl V0 w) fuel os (new_list V0 w max_level prob gen) = Ok rs s ∧
    run_op (impl V0 w) fuel o s = Ok r s' ∧
    sl_for_each (impl V0 w) fuel s = Ok visited s.
Proof.
  intros Hmax Hfuel. destruct (wf_new_list V0 w max_level prob gen Hmax) as [Hwf Hmx].
  destruct (wf_run_ops V0 w os _ [] fuel Hwf) as (s & ts & Hrun & Hwf' & _ & Hmx' & Hlen).
  { rewrite Hmx. eapply enough_weaken; [done|cbn [length]; lia]. }
  cbn [length] in Hlen.
  destruct (wf_run_op V0 w o s ts fuel Hwf') as (s' & ts' & Hop & _).
  { rewrite Hmx', Hmx. eapply enough_weaken; [done|lia]. }
  destruct (wf_for_each V0 w s ts fuel Hwf') as [Hfe _].
  { rewrite Hmx', Hmx. eapply enough_weaken; [done|lia]. }
  eexists _, s, _, s', _. split_and!; [exact Hrun|exact Hop|exact Hfe].
Qed.

(** C10: [insert(k, v)] and [remove(k)] leave what [search] returns for
    every other key, in both variants. *)
Theorem C10_other_keys w max_level prob gen fuel os k v k' rs (s : state V w) :
  0 ≤ max_level → enough fuel max_level 0 (length os + 1) →
  run_ops (impl V0 w) fuel os (new_list V0 w max_level prob gen) = Ok rs s →
  k' ≠ k →
  ∃ r b1 s1 b2 s2,
    sl_search (impl V0 w) fuel k' s = Ok r s ∧
    sl_insert (impl V0 w) fuel k v s = Ok b1 s1 ∧
    sl_search (impl V0 w) fuel k' s1 = Ok r s1 ∧
    sl_remove (impl V0 w) fuel k s = Ok b2 s2 ∧
    sl_search (impl V0 w) fuel k' s2 = Ok r s2.
Proof.
  intros Hmax Hfuel Hrun Hne.
  destruct (reached_wf V0 w max_level prob gen os fuel rs s _ Hmax Hfuel Hrun)
    as (ts & Hwf & _ & _ & Hmx & Hf).
  destruct (wf_insert V0 w s ts k v fuel Hwf) as (s1 & ts1 & Hins & Hwf1 & Hmod1 & Hmx1 & Hlen1);
    [eapply enough_weaken; [done|lia]|].
  destruct (wf_remove V0 w s ts k fuel Hwf) as (s2 & ts2 & Hrem & Hwf2 & Hmod2 & Hmx2 & Hlen2);
    [eapply enough_weaken; [done|lia]|].
  eexists _, _, s1, _, s2. split_and!.
  - apply (wf_search V0 w s ts k' fuel Hwf). eapply enough_weaken; [done|lia].
  - exact Hins.
  - rewrite (wf_search V0 w s1 ts1 k' fuel Hwf1)
      by (rewrite Hmx1; eapply enough_weaken; [done|lia]).
    rewrite Hmod1. repeat case_decide; try destruct (overwrites w);
      by rewrite ?lookup_insert_ne.
  - exact Hrem.
  - rewrite (wf_search V0 w s2 ts2 k' fuel Hwf2)
      by (rewrite Hmx2; eapply enough_weaken; [done|lia]).
    rewrite Hmod2. by rewrite lookup_delete_ne.
Qed.

End ClaimsMore.
(** ** The claims on the lists of the tests *)

Lemma ex_list_run w :
  run_ops (impl 0 w) 12 ex_ops (ex_new w) =
  Ok ex_results (ex_list w).
Proof. destruct w; vm_compute; reflexivity. Defined.

Lemma C2_search_after_insert_witness :
  ∃ rs2 s3,
    run_ops (impl 0 Coarse) 12 [Insert 7 71; Search 5; Insert 7 72]
      (state_of (sl_insert (impl 0 Coarse) 12 7 70 (ex_list Coarse))) = Ok rs2 s3 ∧
    sl_search (impl 0 Coarse) 12 7 s3 = Ok (true, 72) s3.
Proof.
  apply (C2_search_after_insert 0 Coarse 2 (1 # 2) ex_gen 12 ex_ops 7 70
           [Insert 7 71; Search 5; Insert 7 72] ex_results (ex_list Coarse)).
  - lia.
  - unfold enough. cbn. lia.
  - apply ex_list_run.
  - vm_compute. reflexivity.
  - repeat constructor; discriminate.
Defined.

(** The claim C2 as stated fails in the coarse-locked variant: a second
    [insert] of the key replaces the value. *)
Lemma C2_counterexample : ¬ membership_as_stated 0 Coarse.
Proof.
  unfold membership_as_stated. intros H.
  specialize (H 2 (1 # 2) ex_gen 12%nat ex_ops 7 70 [Insert 7 71]
                ex_results (ex_list Coarse)
                (state_of (sl_insert (impl 0 Coarse) 12 7 70 (ex_list Coarse)))
                [RBool false]
                (state_of (run_ops (impl 0 Coarse) 12 [Insert 7 71]
                   (state_of (sl_insert (impl 0 Coarse) 12 7 70 (ex_list Coarse)))))).
  assert (0 ≤ 2) as H0 by lia.
  assert (enough 12 2 0 (length ex_ops + (1 + length [Insert 7 71 : op Z]))) as H1
    by (unfold enough; cbn; lia).
  specialize (H H0 H1 (ex_list_run Coarse)).
  assert (sl_insert (impl 0 Coarse) 12 7 70 (ex_list Coarse) =
          Ok true (state_of (sl_insert (impl 0 Coarse) 12 7 70 (ex_list Coarse)))) as H2
    by (vm_compute; reflexivity).
  assert (Forall (λ o : op Z, o ≠ Remove 7) [Insert 7 71]) as H3
    by (repeat constructor; discriminate).
  specialize (H H2 H3).
  assert (run_ops (impl 0 Coarse) 12 [Insert 7 71]
            (state_of (sl_insert (impl 0 Coarse) 12 7 70 (ex_list Coarse))) =
          Ok [RBool false]
            (state_of (run_ops (impl 0 Coarse) 12 [Insert 7 71]
               (state_of (sl_insert (impl 0 Coarse) 12 7 70 (ex_list Coarse)))))) as H4
    by (vm_compute; reflexivity).
  specialize (H H4). vm_compute in H. discriminate H.
Qed.

Lemma C3_for_each_sorted_witness :
  ∃ rs (s : state Z Concurrent) visited,
    run_ops (impl 0 Concurrent) 12 ex_ops (ex_new Concurrent) = Ok rs s ∧
    sl_for_each (impl 0 Concurrent) 12 s = Ok visited s ∧
    StronglySorted Z.lt (fst <$> visited).
Proof.
  apply (C3_for_each_sorted 0 Concurrent 2 (1 # 2) ex_gen 12 ex_ops).
  - lia.
  - unfold enough. cbn. lia.
Defined.

Lemma C4_search_absent_witness :
  ∃ rs2 s3,
    run_ops (impl 0 Concurrent) 12 [Insert 7 70; Remove 5]
      (state_of (sl_remove (impl 0 Concurrent) 12 10 (ex_list Concurrent))) = Ok rs2 s3 ∧
    sl_search (impl 0 Concurrent) 12 10 s3 = Ok (false, 0) s3.
Proof.
  apply (C4_search_absent 0 Concurrent 2 (1 # 2) ex_gen 12 ex_ops 10
           [Insert 7 70; Remove 5] ex_results (ex_list Concurrent)).
  - lia.
  - unfold enough. cbn. lia.
  - apply ex_list_run.
  - left. vm_compute. reflexivity.
  - repeat constructor; discriminate.
Defined.

Lemma C5_insert_present_witness :
  ∃ s', sl_insert (impl 0 Coarse) 12 10 101 (ex_list Coarse) = Ok false s' ∧
        sl_search (impl 0 Coarse) 12 10 s' = Ok (true, 101) s'.
Proof.
  apply (C5_insert_present 0 Coarse 2 (1 # 2) ex_gen 12 ex_ops 10 100 101 ex_results (ex_list Coarse)).
  - lia.
  - unfold enough. cbn. lia.
  - apply ex_list_run.
  - vm_compute. reflexivity.
Defined.

Lemma C6_remove_witness :
  ∃ found v s1 s2,
    sl_search (impl 0 Concurrent) 12 10 (ex_list Concurrent) =
      Ok (found, v) (ex_list Concurrent) ∧
    sl_remove (impl 0 Concurrent) 12 10 (ex_list Concurrent) = Ok found s1 ∧
    sl_search (impl 0 Concurrent) 12 10 s1 = Ok (false, 0) s1 ∧
    sl_remove (impl 0 Concurrent) 12 10 s1 = Ok false s2.
Proof.
  apply (C6_remove 0 Concurrent 2 (1 # 2) ex_gen 12 ex_ops 10 ex_results (ex_list Concurrent)).
  - lia.
  - unfold enough. cbn. lia.
  - apply ex_list_run.
Defined.

Lemma C7_levels_witness :
  (∃ s0',
     get_rand_level_of Coarse 12 (ex_list Coarse) =
     Ok (Z.of_nat (count_successes (Z.to_nat (max_level_of Coarse (ex_list Coarse)))
                     (probability_of Coarse (ex_list Coarse))
                     (gen_of Coarse (ex_list Coarse)))) s0' ∧
     0 ≤ Z.of_nat (count_successes (Z.to_nat (max_level_of Coarse (ex_list Coarse)))
                     (probability_of Coarse (ex_list Coarse))
                     (gen_of Coarse (ex_list Coarse)))
       ≤ max_level_of Coarse (ex_list Coarse)) ∧
  0 ≤ 1 ≤ 2.
Proof.
  apply (C7_levels 0 Coarse (ex_list Coarse) 2 (1 # 2) ex_gen 12 ex_ops ex_results
           (ex_list Coarse) 2%nat 1).
  - vm_compute. discriminate.
  - vm_compute. lia.
  - lia.
  - unfold enough. cbn. lia.
  - apply ex_list_run.
  - vm_compute. reflexivity.
Defined.

Lemma C8_terminates_witness :
  ∃ rs (s : state Z Concurrent) r s' visited,
    run_ops (impl 0 Concurrent) 12 ex_ops (ex_new Concurrent) = Ok rs s ∧
    run_op (impl 0 Concurrent) 12 (Insert 10 101) s = Ok r s' ∧
    sl_for_each (impl 0 Concurrent) 12 s = Ok visited s.
Proof.
  apply (C8_terminates 0 Concurrent 2 (1 # 2) ex_gen 12 ex_ops (Insert 10 101)).
  - lia.
  - unfold enough. cbn. lia.
Defined.

Lemma C10_other_keys_witness :
  ∃ r b1 s1 b2 s2,
    sl_search (impl 0 Coarse) 12 5 (ex_list Coarse) = Ok r (ex_list Coarse) ∧
    sl_insert (impl 0 Coarse) 12 10 101 (ex_list Coarse) = Ok b1 s1 ∧
    sl_search (impl 0 Coarse) 12 5 s1 = Ok r s1 ∧
    sl_remove (impl 0 Coarse) 12 10 (ex_list Coarse) = Ok b2 s2 ∧
    sl_search (impl 0 Coarse) 12 5 s2 = Ok r s2.
Proof.
  apply (C10_other_keys 0 Coarse 2 (1 # 2) ex_gen 12 ex_ops 10 101 5 ex_results (ex_list Coarse)).
  - lia.
  - unfold enough. cbn. lia.
  - apply ex_list_run.
  - discriminate.
Defined.

(** C1: the validation of [remove] can fail, and the code then does not
    release its locks and start again from a fresh [find]. On the list of
    keys 10 and 20, thread A's [find(20)] returns node 3 (key 10) as
    predecessor of its victim, node 4; thread B then inserts key 15, as node
    5, between them; A locks and marks its victim, and its validation fails
    since [preds[0]->forward[0]] is no longer the victim. A unlocks the
    predecessor, and nevertheless unlinks the victim through the stale
    predecessor, deletes it, and unlocks the predecessor a second time, a
    mutex it does not hold. Key 15, whose [insert] returned true, is lost:
    the walk at level 0 visits key 10 only and [search(15)] fails, whereas
    [insert(15, 150)] followed by [remove(20)] leaves keys 10 and 15. *)
Theorem C1_remove_after_failed_validation :
  value_of ((let* preds := LockedSkipList.new_vector in
             let* succs := LockedSkipList.new_vector in
             LockedSkipList.find 5 20 preds succs) two_keys)
    = Some (0, [3%nat; 1%nat], [4%nat; 2%nat]) ∧
  value_of ((LockedSkipList.insert 5 15 150 ;;
             LockedSkipList.lock 4 ;;
             LockedSkipList.set_marked 4 true ;;
             LockedSkipList.remove_validate (seqZ 0 1) [3%nat; 1%nat] 4 ∅) two_keys)
    = Some (false, {[3%nat]}) ∧
  error_of two_threads = Some UnlockNotHeld ∧
  LockedSkipList.heap (state_of two_threads) !! 4%nat = None ∧
  LockedSkipList.forward <$> LockedSkipList.heap (state_of two_threads) !! 3%nat
    = Some [2%nat] ∧
  value_of (LockedSkipList.for_each 5 (state_of two_threads)) = Some [(10, 100)] ∧
  value_of (LockedSkipList.search 0 5 15 (state_of two_threads)) = Some (false, 0) ∧
  value_of ((LockedSkipList.insert 5 15 150 ;;
             LockedSkipList.remove 5 20 ;;
             LockedSkipList.for_each 5) two_keys)
    = Some [(10, 100); (15, 150)].
Proof. split_and!; vm_compute; reflexivity. Qed.

(** C9: the calls of the concurrent variant are not linearizable. In the
    schedule of the two threads above, B's [insert(15, 150)] returns true
    while A is between its [find(20)] and the locking of its victim; A then
    unlinks its victim although the validation failed, and a [search(15)]
    of a third thread after that returns false with the default value. The
    list held keys 10 and 20 before, and in every sequential order of the
    three calls on the map of these keys in which the [insert] precedes the
    [search], the [search] returns true with 150. *)
Theorem C9_not_linearizable :
  value_of (LockedSkipList.for_each 5 two_keys) = Some [(10, 100); (20, 200)] ∧
  value_of ((let* preds := LockedSkipList.new_vector in
             let* succs := LockedSkipList.new_vector in
             LockedSkipList.find 5 20 preds succs ;;
             LockedSkipList.insert 5 15 150) two_keys) = Some true ∧
  value_of (LockedSkipList.search 0 5 15 (state_of two_threads)) = Some (false, 0) ∧
  Forall (λ order,
            RFound (true, 150) ∈ (map_run false 0 order (<[10 := 100]> (<[20 := 200]> ∅))).2)
         three_threads_orders.
Proof.
  split_and!; [vm_compute; reflexivity..|].
  repeat constructor; vm_compute; set_solver.
Qed.
(** ** LockedSkipList: the destructor, [dump] and what the operations leave
    unchanged *)

Module LockedMore.
Module L := LockedSkipList.
Import LockedProofs.
Section WithValue.
Context {V : Type}.
Variable V0 : V.
Implicit Types (s : L.t (V:=V)) (h : gmap nat (L.Node (V:=V))).
Implicit Types (ts b : list (tower V)) (u : tower V).

Lemma delete_node_eq s p :
  is_Some (L.heap s !! p) →
  L.delete_node p s = Ok tt (L.with_heap s (delete p (L.heap s))).
Proof.
  intros [n Hn]. unfold L.delete_node. by rewrite (bind_Ok _ _ _ _ _ (deref_Ok _ _ _ Hn)).
Qed.

Lemma fwd_view_delete h p a lv :
  a ≠ p → L.fwd_view (delete p h) a lv = L.fwd_view h a lv.
Proof. intros Hne. unfold L.fwd_view. by rewrite lookup_delete_ne. Qed.

Lemma destroy_loop_spec b : ∀ s fuel,
  chain_links (L.fwd_view (L.heap s)) (L.tail_ s) b →
  Forall (λ u, 0 ≤ t_lvl u ∧ t_addr u ≠ L.tail_ s) b →
  NoDup (t_addr <$> b) →
  (length b < fuel)%nat →
  ∃ h', L.destroy_loop fuel (next_at (L.tail_ s) 0 b) s = Ok tt (L.with_heap s h') ∧
        ∀ a, h' !! a = if decide (a ∈ t_addr <$> b) then None else L.heap s !! a.
Proof.
  induction b as [|u r IH]; intros s fuel Hch Hb Hnd Hfuel;
    (destruct fuel as [|f]; [cbn in Hfuel; lia|]).
  - exists (L.heap s). cbn [next_at L.destroy_loop]. rewrite decide_True by done.
    rewrite with_heap_id. split; [done|]. intros a. rewrite decide_False; [done|]. set_solver.
  - apply Forall_cons in Hb as [[Hlvl Htl] Hb]. rewrite fmap_cons in Hnd.
    apply NoDup_cons in Hnd as [Hnotin Hnd]. destruct Hch as [Hu Hch].
    cbn [next_at]. rewrite decide_True by done. cbn [L.destroy_loop].
    rewrite decide_False by done.
    pose proof (Hu 0 ltac:(lia)) as Hfw.
    rewrite (bind_Ok _ _ _ _ _ (get_forward_Ok _ _ _ _ Hfw)).
    apply fwd_view_Some in Hfw as (n & Hn & _).
    rewrite (bind_Ok _ _ _ _ _ (delete_node_eq s (t_addr u) (mk_is_Some _ _ Hn))).
    set (s1 := L.with_heap s (delete (t_addr u) (L.heap s))).
    destruct (IH s1 f) as (h' & Hrun & Hh'); [|done|done|cbn in Hfuel; lia|].
    { eapply chain_links_ext; [|exact Hch]. intros a lv Ha. cbn.
      apply fwd_view_delete. intros ->. done. }
    exists h'. split; [exact Hrun|]. intros a. rewrite Hh'. cbn [L.heap L.with_heap s1].
    rewrite fmap_cons. destruct (decide (a = t_addr u)) as [->|Hne].
    + rewrite decide_False by done. rewrite lookup_delete_eq.
      rewrite decide_True; [done|]. left.
    + rewrite lookup_delete_ne by done.
      destruct (decide (a ∈ t_addr <$> r)) as [Hin|Hout].
      * rewrite decide_True; [done|]. by right.
      * rewrite decide_False; [done|]. intros [?|?]%elem_of_cons; done.
Qed.

Lemma destroy_spec s ts fuel :
  L.Rep V0 s ts → (length ts < fuel)%nat →
  L.destroy fuel s = Ok tt (L.with_heap s ∅).
Proof.
  intros HR Hfuel. unfold L.destroy.
  pose proof (L.rep_links _ _ _ HR) as [Hh Hch]. pose proof (L.rep_max _ _ _ HR) as Hmax.
  pose proof (L.rep_nodup _ _ _ HR) as Hnd.
  apply NoDup_cons in Hnd as [Hhd Hnd]. apply NoDup_cons in Hnd as [Htl Hnd].
  erewrite bind_Ok; [|apply get_forward_Ok, Hh; simpl; lia].
  destruct (destroy_loop_spec ts s fuel Hch) as (h' & Hrun & Hh'); [|done|done|].
  { apply Forall_forall. intros u Hu. split; [apply (Rep_level V0 s ts u HR Hu)|].
    apply (Rep_addr V0 s ts u HR Hu). }
  cbn [t_addr L.header_tower] in Hrun. rewrite (bind_Ok _ _ _ _ _ Hrun).
  destruct (Rep_meta_header V0 s ts HR) as [mh Hmh%mk_is_Some%meta_view_is_Some].
  destruct (Rep_meta_tail V0 s ts HR) as [mt Hmt%mk_is_Some%meta_view_is_Some].
  assert (L.header_ s ≠ L.tail_ s) as Hne by (intros Heq; apply Hhd; rewrite Heq; left).
  assert (is_Some (L.heap (L.with_heap s h') !! L.header_ s)) as Hhs.
  { cbn. rewrite Hh', decide_False; [done|]. intros ?. apply Hhd. by right. }
  rewrite (bind_Ok _ _ _ _ _ (delete_node_eq _ _ Hhs)).
  rewrite delete_node_eq.
  2: { cbn. rewrite lookup_delete_ne by done. rewrite Hh', decide_False; done. }
  cbn [L.heap L.with_heap L.tail_ L.header_ L.max_level_ L.probability_ L.gen_ L.held].
  unfold L.with_heap. cbn. do 2 f_equal. apply map_eq. intros a. rewrite lookup_empty.
  destruct (decide (a = L.tail_ s)) as [->|Hat]; [apply lookup_delete_eq|].
  rewrite lookup_delete_ne by done.
  destruct (decide (a = L.header_ s)) as [->|Hah]; [apply lookup_delete_eq|].
  rewrite lookup_delete_ne by done. rewrite Hh'. case_decide as Hin; [done|].
  destruct (L.heap s !! a) as [n|] eqn:Hn; [|done]. exfalso.
  destruct (L.rep_dom _ _ _ HR a) as [?|[?|?]]; try done.
  apply meta_view_is_Some. by rewrite Hn.
Qed.

Local Abbreviation pairs_at lv ts :=
  ((λ u, (t_key u, t_val u)) <$> filter (λ u, lv ≤ t_lvl u) ts).

Lemma dump_walk_spec lv s b :
  0 ≤ lv →
  chain_links (L.fwd_view (L.heap s)) (L.tail_ s) b →
  Forall (λ u, ∃ n, L.heap s !! t_addr u = Some n ∧ L.key n = t_key u ∧
                    L.value n = t_val u ∧ t_addr u ≠ L.tail_ s) b →
  ∀ out fuel, (length b < fuel)%nat →
  L.dump_walk fuel lv (next_at (L.tail_ s) lv b) out s =
  Ok (out ++ concat (dump_entry <$> pairs_at lv b)) s.
Proof.
  intros Hlv. induction b as [|u r IH]; intros Hch Hb out fuel Hfuel;
    (destruct fuel as [|f]; [cbn in Hfuel; lia|]).
  - cbn [next_at L.dump_walk]. rewrite decide_True by done. cbn. by rewrite app_nil_r.
  - apply Forall_cons in Hb as [(n & Hn & Hkey & Hval & Htl) Hb]. destruct Hch as [Hu Hch].
    cbn [next_at]. destruct (decide (lv ≤ t_lvl u)) as [Hle|Hgt].
    + rewrite filter_cons_True by done. cbn [L.dump_walk]. rewrite decide_False by done.
      rewrite (bind_Ok _ _ _ _ _ (deref_Ok _ _ _ Hn)).
      rewrite (bind_Ok _ _ _ _ _ (get_forward_Ok _ _ _ _ (Hu lv ltac:(lia)))).
      rewrite IH; [|done|done|cbn in Hfuel; lia].
      rewrite Hkey, Hval, fmap_cons. cbn [concat fmap list_fmap]. by rewrite <- app_assoc.
    + rewrite filter_cons_False by done. apply IH; [done|done|cbn in Hfuel; lia].
Qed.

Lemma Rep_entries s ts :
  L.Rep V0 s ts →
  Forall (λ u, ∃ n, L.heap s !! t_addr u = Some n ∧ L.key n = t_key u ∧
                    L.value n = t_val u ∧ t_addr u ≠ L.tail_ s) ts.
Proof.
  intros HR. apply Forall_forall. intros u Hu.
  destruct (Rep_node V0 s ts u HR Hu) as (n & ? & ? & ? & _).
  exists n. split_and!; try done. apply (Rep_addr V0 s ts u HR Hu).
Qed.

Lemma dump_levels_spec s ts fuel :
  L.Rep V0 s ts → (length ts < fuel)%nat →
  ∀ levels out, Forall (λ lv, 0 ≤ lv ≤ L.max_level_ s) levels →
  L.dump_levels fuel levels out s =
  Ok (out ++ concat ((λ lv, locked_dump_line lv (pairs_at lv ts)) <$> levels)) s.
Proof.
  intros HR Hfuel. pose proof (L.rep_links _ _ _ HR) as [Hh Hch].
  induction levels as [|lv rest IH]; intros out Hlevels.
  - cbn. by rewrite app_nil_r.
  - apply Forall_cons in Hlevels as [Hlv Hrest]. cbn [L.dump_levels].
    rewrite (bind_Ok _ _ _ _ _ (get_forward_Ok _ _ _ _ (Hh lv Hlv))).
    rewrite fmap_cons. cbn [concat].
    destruct (next_at_cases (L.tail_ s) lv ts)
      as [[Hall Hnx]|(a & u & b & Hts & _ & Hle & Hnx)].
    + rewrite Hnx, decide_True by done. rewrite IH by done.
      rewrite filter_none; [|eapply Forall_impl; [exact Hall|]; cbn; intros; lia].
      cbn. by rewrite <- app_assoc.
    + assert (u ∈ ts) as Hu by (rewrite Hts; set_solver).
      rewrite decide_False by (rewrite Hnx; apply (Rep_addr V0 s ts u HR Hu)).
      rewrite (bind_Ok _ _ _ _ _
                 (dump_walk_spec lv s ts ltac:(lia) Hch (Rep_entries s ts HR) _ fuel Hfuel)).
      rewrite IH by done.
      assert (u ∈ filter (λ u, lv ≤ t_lvl u) ts) as Hin by (by apply list_elem_of_filter).
      destruct (filter (λ u, lv ≤ t_lvl u) ts) as [|w l] eqn:Hf; [by apply elem_of_nil in Hin|].
      cbn [fmap list_fmap locked_dump_line]. unfold dump_line.
      by rewrite <- !app_assoc.
Qed.

Lemma dump_spec s ts fuel :
  L.Rep V0 s ts → (length ts < fuel)%nat →
  L.dump fuel s =
  Ok (concat ((λ lv, locked_dump_line lv (pairs_at lv ts)) <$> L.levels_down (L.max_level_ s))) s.
Proof.
  intros HR Hfuel. unfold L.dump.
  rewrite (dump_levels_spec s ts fuel HR Hfuel); [done|].
  apply Forall_forall. intros lv. by rewrite elem_of_levels_down.
Qed.

(** The nodes that are allocated are the header, the tail and one node for
    each key. *)
Lemma heap_dom s ts :
  L.Rep V0 s ts →
  dom (L.heap s) = list_to_set (L.header_ s :: L.tail_ s :: (t_addr <$> ts)).
Proof.
  intros HR. apply set_eq. intros a. rewrite elem_of_dom, elem_of_list_to_set.
  rewrite <- meta_view_is_Some. split.
  - intros Ha. destruct (L.rep_dom _ _ _ HR a Ha) as [->|[->|?]]; set_solver.
  - intros [->|[->|(u & -> & Hu)%list_elem_of_fmap]%elem_of_cons]%elem_of_cons.
    + by apply (Rep_meta_header V0 s ts).
    + by apply (Rep_meta_tail V0 s ts).
    + by apply (Rep_meta_node V0 s ts).
Qed.

Lemma heap_size s ts : L.Rep V0 s ts → size (L.heap s) = S (S (length ts)).
Proof.
  intros HR. rewrite <- size_dom, (heap_dom s ts HR).
  rewrite size_list_to_set by apply (L.rep_nodup _ _ _ HR).
  cbn. by rewrite length_fmap.
Qed.

(** The first iteration of the [while (true)] of [insert] and of [remove]
    decides: when one iteration gives a result, so do more. *)
Lemma insert_loop_first n fuel k v lvl preds succs s r s' :
  L.insert_loop 1 fuel k v lvl preds succs s = Ok r s' →
  L.insert_loop (S n) fuel k v lvl preds succs s = Ok r s'.
Proof.
  cbn [L.insert_loop]. unfold bind, fail.
  repeat (case_match; simplify_eq; try done).
Qed.

Lemma remove_loop_first n fuel k preds succs m lvl s r s' :
  L.remove_loop 1 fuel k preds succs m lvl s = Ok r s' →
  L.remove_loop (S n) fuel k preds succs m lvl s = Ok r s'.
Proof.
  cbn [L.remove_loop]. unfold bind, fail.
  repeat (case_match; simplify_eq; try done).
Qed.

Lemma insert_exact s ts k v fuel :
  L.Rep V0 s ts → (length ts < fuel)%nat → (Z.to_nat (L.max_level_ s) < fuel)%nat →
  let c := count_successes (Z.to_nat (L.max_level_ s)) (L.probability_ s) (L.gen_ s) in
  ∃ s' ts',
    L.insert fuel k v s = Ok (bool_decide (k ∉ t_key <$> ts)) s' ∧
    (let* lvl := L.get_rand_level fuel in
     let* preds := L.new_vector in
     let* succs := L.new_vector in
     L.insert_loop 1 fuel k v lvl preds succs) s = Ok (bool_decide (k ∉ t_key <$> ts)) s' ∧
    L.Rep V0 s' ts' ∧
    L.gen_ s' = drop_draws (S c) (L.gen_ s) ∧
    (k ∈ t_key <$> ts → s' = L.with_gen s (drop_draws (S c) (L.gen_ s)) ∧ ts' = ts) ∧
    (k ∉ t_key <$> ts → ∃ nw, ts' = t_insert (mkTower nw k v (Z.of_nat c)) ts).
Proof.
  intros HR0 Hfuel Hfuel' c. pose proof (L.rep_max _ _ _ HR0) as Hmax.
  unfold L.insert. rewrite !(bind_Ok _ _ _ _ _ (get_rand_level_spec fuel s Hmax Hfuel')).
  fold c.
  assert (0 ≤ Z.of_nat c ≤ L.max_level_ s) as Hc.
  { pose proof (count_successes_le (Z.to_nat (L.max_level_ s)) (L.probability_ s) (L.gen_ s)) as Hle.
    fold c in Hle. lia. }
  set (s1 := L.with_gen s _).
  assert (L.Rep V0 s1 ts) as HR by by apply Rep_with_gen.
  rewrite !(bind_Ok _ _ _ _ _ (new_vector_Ok s1)).
  destruct fuel as [|f]; [lia|].
  destruct (decide (k ∈ t_key <$> ts)) as [Hin|Habs].
  - exists s1, ts. rewrite bool_decide_eq_false_2 by auto.
    rewrite !(insert_loop_present V0 s1 ts) by (done || by rewrite length_replicate).
    split_and!; done.
  - destruct (insert_loop_absent V0 s1 ts k v (Z.of_nat c) (S f) 0
                (replicate (Z.to_nat (L.max_level_ s1 + 1)) null)
                (replicate (Z.to_nat (L.max_level_ s1 + 1)) null))
      as (s' & nw & Hrun & HR' & _ & _ & Hgen);
      [done|done|done|done|by rewrite length_replicate|by rewrite length_replicate|].
    exists s', (t_insert (mkTower nw k v (Z.of_nat c)) ts).
    rewrite bool_decide_eq_true_2 by done.
    split_and!; try done.
    + by apply insert_loop_first.
    + by exists nw.
Qed.

Lemma remove_exact s ts k fuel :
  L.Rep V0 s ts → (length ts < fuel)%nat →
  ∃ s',
    L.remove fuel k s = Ok (bool_decide (k ∈ t_key <$> ts)) s' ∧
    (let* preds := L.new_vector in
     let* succs := L.new_vector in
     L.remove_loop 1 fuel k preds succs false (-1)) s = Ok (bool_decide (k ∈ t_key <$> ts)) s' ∧
    L.Rep V0 s' (t_remove k ts) ∧
    L.gen_ s' = L.gen_ s ∧
    (k ∉ t_key <$> ts → s' = s).
Proof.
  intros HR Hfuel. unfold L.remove.
  rewrite !(bind_Ok _ _ _ _ _ (new_vector_Ok s)).
  destruct fuel as [|f]; [lia|].
  destruct (found_of_cases V0 s ts k HR)
    as [(_ & _ & Habs)|(u & r & Hf & Hk & _ & _ & _ & _ & Hin)].
  - exists s. rewrite bool_decide_eq_false_2 by done.
    rewrite !(remove_loop_absent V0 s ts) by (done || by rewrite length_replicate).
    rewrite t_remove_absent by done. done.
  - destruct (remove_loop_present V0 s ts k (S f) 0
                (replicate (Z.to_nat (L.max_level_ s + 1)) null)
                (replicate (Z.to_nat (L.max_level_ s + 1)) null) u r)
      as (s' & Hrun & HR' & _ & _ & Hgen);
      [done|done|done|done|by rewrite length_replicate|by rewrite length_replicate|].
    exists s'. rewrite bool_decide_eq_true_2 by done.
    destruct (t_remove_split k ts u r (L.rep_sorted _ _ _ HR) Hf Hk) as [-> _].
    split_and!; try done. by apply remove_loop_first.
Qed.

(** What [find] leaves in [preds] and [succs]. *)
Lemma find_contract s ts k fuel preds succs :
  L.Rep V0 s ts → (length ts < fuel)%nat →
  length preds = Z.to_nat (L.max_level_ s + 1) →
  length succs = Z.to_nat (L.max_level_ s + 1) →
  ∃ found preds' succs',
    L.find fuel k preds succs s = Ok (found, preds', succs') s ∧
    (found = -1 ↔ k ∉ t_key <$> ts) ∧
    (∀ lv, 0 ≤ lv ≤ L.max_level_ s →
       ∃ p q pn qn,
         vget preds' lv = Some p ∧ vget succs' lv = Some q ∧
         L.heap s !! p = Some pn ∧ L.heap s !! q = Some qn ∧
         vget (L.forward pn) lv = Some q ∧
         (p = L.header_ s ∨ L.key pn < k) ∧ p ≠ L.tail_ s ∧
         (q = L.tail_ s ∨ k ≤ L.key qn) ∧ q ≠ L.header_ s ∧
         (found ≠ -1 → lv = found → L.key qn = k ∧ L.node_level qn = found ∧ q ≠ L.tail_ s)).
Proof.
  intros HR Hfuel Hlp Hls.
  destruct (find_spec V0 s ts k fuel preds succs HR Hfuel Hlp Hls)
    as (preds' & succs' & Hfind & _ & _ & Hvec).
  exists (found_of k ts), preds', succs'. split; [done|]. split.
  { destruct (found_of_cases V0 s ts k HR)
      as [(-> & _ & Habs)|(u & r & _ & _ & -> & _ & _ & Hlvl & Hin)]; [done|].
    split; [lia|done]. }
  intros lv Hlv. destruct (Hvec lv Hlv) as [Hp Hq].
  destruct (pred_info V0 s ts k lv HR Hlv) as ((pn & Hpn & _) & Hptl & _ & Hfw).
  apply fwd_view_Some in Hfw as (pn' & Hpn' & Hfw). rewrite Hpn in Hpn'. injection Hpn' as <-.
  pose proof (L.rep_nodup _ _ _ HR) as Hnd. apply NoDup_cons in Hnd as [Hhd _].
  assert (last_at (L.header_ s) lv (below k ts) = L.header_ s ∨ L.key pn < k) as Hpk.
  { destruct (last_at_elem (L.header_ s) lv (below k ts)) as [?|Hel]; [by left|right].
    apply list_elem_of_fmap in Hel as (u & Heq & [Hlt Hu]%list_elem_of_filter).
    destruct (Rep_node V0 s ts u HR Hu) as (n & Hn & Hkey & _).
    rewrite Heq, Hn in Hpn. injection Hpn as <-. by rewrite Hkey. }
  destruct (hi_probe V0 s ts k lv HR ltac:(lia))
    as [[Hq' Hnf]|(u & Hu & _ & Hq' & Hge & Hle & Hiff & Hlvl)].
  - destruct (Rep_meta_tail V0 s ts HR) as [mt Hmt%mk_is_Some%meta_view_is_Some].
    destruct Hmt as [qn Hqn].
    exists (last_at (L.header_ s) lv (below k ts)), (L.tail_ s), pn, qn.
    rewrite Hq' in Hq, Hfw. split_and!; try done.
    + by left.
    + intros Heq. apply Hhd. rewrite <- Heq. left.
    + intros _ ->. lia.
  - destruct (Rep_node V0 s ts u HR Hu) as (qn & Hqn & Hkey & _ & _ & _ & Hnl & _).
    destruct (Rep_addr V0 s ts u HR Hu) as [Huh Hut].
    exists (last_at (L.header_ s) lv (below k ts)), (t_addr u), pn, qn.
    rewrite Hq' in Hq, Hfw. split_and!; try done.
    + right. by rewrite Hkey.
    + intros _ ->. assert (t_key u = k) as Hk by (apply Hiff; lia).
      split_and!; [congruence| |done]. rewrite Hnl. by apply Hlvl.
Qed.

End WithValue.
End LockedMore.
(** ** FatSkipList: the walk without the lock, the destructor, [dump] and
    [cur_level_] *)

Module FatMore.
Module F := FatSkipList.
Import FatProofs.
Section WithValue.
Context {V : Type}.
Variable V0 : V.
Implicit Types (s : F.t (V:=V)) (h : gmap nat (F.Node (V:=V))).
Implicit Types (ts b : list (tower V)) (u : tower V).

Local Abbreviation pairs_at lv ts :=
  ((λ u, (t_key u, t_val u)) <$> filter (λ u, lv ≤ t_lvl u) ts).

Lemma for_each_unlocked_spec s ts fuel :
  F.Rep V0 s ts → (length ts < fuel)%nat →
  F.for_each_unlocked fuel s = Ok ((λ u, (t_key u, t_val u)) <$> ts) s.
Proof.
  intros HR Hfuel. unfold F.for_each_unlocked.
  pose proof (F.rep_links _ _ _ HR) as [Hh Hch]. pose proof (F.rep_cur _ _ _ HR).
  erewrite bind_Ok; [|apply fat_get_forward_Ok, Hh; cbn in *; lia].
  apply (fat_for_each_loop_spec _ ts Hch); [|done].
  by destruct (fat_Rep_suffix V0 _ ts [] ts HR eq_refl) as (_ & ? & _).
Qed.

(** With the mutex free, taking it makes no difference. *)
Lemma for_each_unlocked_eq s ts fuel :
  F.Inv V0 s ts → (length ts < fuel)%nat →
  F.for_each fuel s = F.for_each_unlocked fuel s.
Proof.
  intros HI Hfuel. rewrite (fat_for_each_spec V0 s ts) by done.
  symmetry. apply for_each_unlocked_spec; [apply HI|done].
Qed.

Lemma fat_delete_node_eq s p :
  is_Some (F.heap s !! p) →
  F.delete_node p s = Ok tt (F.with_heap s (delete p (F.heap s))).
Proof.
  intros [n Hn]. unfold F.delete_node. by rewrite (bind_Ok _ _ _ _ _ (fat_deref_Ok _ _ _ Hn)).
Qed.

Lemma fat_fwd_view_delete h p a lv :
  a ≠ p → F.fwd_view (delete p h) a lv = F.fwd_view h a lv.
Proof. intros Hne. unfold F.fwd_view. by rewrite lookup_delete_ne. Qed.

Lemma fat_destroy_loop_spec b : ∀ s fuel,
  chain_links (F.fwd_view (F.heap s)) null b →
  Forall (λ u, 0 ≤ t_lvl u ∧ t_addr u ≠ null) b →
  NoDup (t_addr <$> b) →
  (length b < fuel)%nat →
  ∃ h', F.destroy_loop fuel (next_at null 0 b) s = Ok tt (F.with_heap s h') ∧
        ∀ a, h' !! a = if decide (a ∈ t_addr <$> b) then None else F.heap s !! a.
Proof.
  induction b as [|u r IH]; intros s fuel Hch Hb Hnd Hfuel;
    (destruct fuel as [|f]; [cbn in Hfuel; lia|]).
  - exists (F.heap s). cbn [next_at F.destroy_loop]. rewrite decide_True by done.
    rewrite fat_with_heap_id. split; [done|]. intros a. rewrite decide_False; [done|]. set_solver.
  - apply Forall_cons in Hb as [[Hlvl Htl] Hb]. rewrite fmap_cons in Hnd.
    apply NoDup_cons in Hnd as [Hnotin Hnd]. destruct Hch as [Hu Hch].
    cbn [next_at]. rewrite decide_True by done. cbn [F.destroy_loop].
    rewrite decide_False by done.
    pose proof (Hu 0 ltac:(lia)) as Hfw.
    rewrite (bind_Ok _ _ _ _ _ (fat_get_forward_Ok _ _ _ _ Hfw)).
    apply fat_fwd_view_Some in Hfw as (n & Hn & _).
    rewrite (bind_Ok _ _ _ _ _ (fat_delete_node_eq s (t_addr u) (mk_is_Some _ _ Hn))).
    set (s1 := F.with_heap s (delete (t_addr u) (F.heap s))).
    destruct (IH s1 f) as (h' & Hrun & Hh'); [|done|done|cbn in Hfuel; lia|].
    { eapply chain_links_ext; [|exact Hch]. intros a lv Ha. cbn.
      apply fat_fwd_view_delete. intros ->. done. }
    exists h'. split; [exact Hrun|]. intros a. rewrite Hh'. cbn [F.heap F.with_heap s1].
    rewrite fmap_cons. destruct (decide (a = t_addr u)) as [->|Hne].
    + rewrite decide_False by done. rewrite lookup_delete_eq.
      rewrite decide_True; [done|]. left.
    + rewrite lookup_delete_ne by done.
      destruct (decide (a ∈ t_addr <$> r)) as [Hin|Hout].
      * rewrite decide_True; [done|]. by right.
      * rewrite decide_False; [done|]. intros [?|?]%elem_of_cons; done.
Qed.

Lemma fat_destroy_spec s ts fuel :
  F.Rep V0 s ts → (S (length ts) < fuel)%nat →
  F.destroy fuel s = Ok tt (F.with_heap s ∅).
Proof.
  intros HR Hfuel. unfold F.destroy.
  pose proof (F.rep_links _ _ _ HR) as Hch. pose proof (F.rep_cur _ _ _ HR) as Hcur.
  pose proof (F.rep_nodup _ _ _ HR) as Hnd.
  apply NoDup_cons in Hnd as [Hnull Hnd].
  destruct (fat_destroy_loop_spec (F.header_tower V0 s :: ts) s fuel Hch) as (h' & Hrun & Hh').
  { apply Forall_cons. split.
    - cbn. split; [lia|]. intros Heq. apply Hnull. rewrite <- Heq. left.
    - apply Forall_forall. intros u Hu. pose proof (fat_Rep_level V0 s ts u HR Hu).
      split; [lia|]. apply (fat_Rep_addr V0 s ts u HR Hu). }
  { done. }
  { cbn [length]. lia. }
  cbn [next_at] in Hrun. rewrite decide_True in Hrun by (cbn; lia). cbn [t_addr F.header_tower] in Hrun.
  rewrite Hrun. do 2 f_equal. unfold F.with_heap. f_equal.
  apply map_eq. intros a. rewrite lookup_empty, Hh'. case_decide as Hin; [done|].
  destruct (F.heap s !! a) as [n|] eqn:Hn; [|done]. exfalso. apply Hin.
  rewrite fmap_cons. cbn [t_addr F.header_tower].
  destruct (F.rep_dom _ _ _ HR a) as [->|?]; [|left|by right].
  apply fat_meta_view_is_Some. by rewrite Hn.
Qed.

Lemma fat_dump_walk_spec lv s b :
  0 ≤ lv →
  chain_links (F.fwd_view (F.heap s)) null b →
  Forall (λ u, ∃ n, F.heap s !! t_addr u = Some n ∧ F.key n = t_key u ∧
                    F.value n = t_val u ∧ 0 ≤ t_lvl u ∧ t_addr u ≠ null) b →
  ∀ out fuel, (length b < fuel)%nat →
  F.dump_walk fuel lv (next_at null lv b) out s =
  Ok (out ++ concat (dump_entry <$> pairs_at lv b)) s.
Proof.
  intros Hlv. induction b as [|u r IH]; intros Hch Hb out fuel Hfuel;
    (destruct fuel as [|f]; [cbn in Hfuel; lia|]).
  - cbn [next_at F.dump_walk]. rewrite decide_True by done. cbn. by rewrite app_nil_r.
  - apply Forall_cons in Hb as [(n & Hn & Hkey & Hval & _ & Htl) Hb]. destruct Hch as [Hu Hch].
    cbn [next_at]. destruct (decide (lv ≤ t_lvl u)) as [Hle|Hgt].
    + rewrite filter_cons_True by done. cbn [F.dump_walk]. rewrite decide_False by done.
      rewrite (bind_Ok _ _ _ _ _ (fat_deref_Ok _ _ _ Hn)).
      rewrite (bind_Ok _ _ _ _ _ (fat_get_forward_Ok _ _ _ _ (Hu lv ltac:(lia)))).
      rewrite IH; [|done|done|cbn in Hfuel; lia].
      rewrite Hkey, Hval, fmap_cons. cbn [concat fmap list_fmap]. by rewrite <- app_assoc.
    + rewrite filter_cons_False by done. apply IH; [done|done|cbn in Hfuel; lia].
Qed.

Lemma fat_dump_levels_spec s ts fuel :
  F.Rep V0 s ts → (length ts < fuel)%nat →
  ∀ levels out, Forall (λ lv, 0 ≤ lv ≤ F.max_level_ s) levels →
  F.dump_levels fuel levels out s =
  Ok (out ++ concat ((λ lv, dump_line lv (pairs_at lv ts)) <$> levels)) s.
Proof.
  intros HR Hfuel. pose proof (F.rep_links _ _ _ HR) as [Hh Hch].
  destruct (fat_Rep_suffix V0 _ ts [] ts HR eq_refl) as (_ & Hnodes & _).
  induction levels as [|lv rest IH]; intros out Hlevels.
  - cbn. by rewrite app_nil_r.
  - apply Forall_cons in Hlevels as [Hlv Hrest]. cbn [F.dump_levels].
    rewrite (bind_Ok (λ s0, F.get_forward (F.header_ s0) lv s0) _ _ _ _
               (fat_get_forward_Ok _ _ _ _ (Hh lv Hlv))).
    rewrite (bind_Ok _ _ _ _ _ (fat_dump_walk_spec lv s ts ltac:(lia) Hch Hnodes _ fuel Hfuel)).
    rewrite IH by done. rewrite fmap_cons. cbn [concat]. unfold dump_line.
    by rewrite <- !app_assoc.
Qed.

Lemma fat_dump_spec s ts fuel :
  F.Rep V0 s ts → (length ts < fuel)%nat →
  F.dump fuel s =
  Ok (concat ((λ lv, dump_line lv (pairs_at lv ts)) <$> F.levels_down (F.cur_level_ s))) s.
Proof.
  intros HR Hfuel. unfold F.dump. pose proof (F.rep_cur _ _ _ HR) as Hcur.
  rewrite (fat_dump_levels_spec s ts fuel HR Hfuel); [done|].
  apply Forall_forall. intros lv Hlv. unfold F.levels_down in Hlv.
  apply elem_of_reverse, elem_of_seqZ in Hlv. lia.
Qed.

Lemma fat_heap_dom s ts :
  F.Rep V0 s ts → dom (F.heap s) = list_to_set (F.header_ s :: (t_addr <$> ts)).
Proof.
  intros HR. apply set_eq. intros a. rewrite elem_of_dom, elem_of_list_to_set.
  rewrite <- fat_meta_view_is_Some. split.
  - intros Ha. destruct (F.rep_dom _ _ _ HR a Ha) as [->|?]; set_solver.
  - intros [->|(u & -> & Hu)%list_elem_of_fmap]%elem_of_cons.
    + by apply (fat_Rep_meta_header V0 s ts).
    + by apply (fat_Rep_meta_node V0 s ts).
Qed.

Lemma fat_heap_size s ts : F.Rep V0 s ts → size (F.heap s) = S (length ts).
Proof.
  intros HR. rewrite <- size_dom, (fat_heap_dom s ts HR).
  pose proof (F.rep_nodup _ _ _ HR) as Hnd. apply NoDup_cons in Hnd as [_ Hnd].
  rewrite size_list_to_set by done. cbn. by rewrite length_fmap.
Qed.

Lemma next_at_elem (e : addr) lv b :
  next_at e lv b = e ∨ ∃ u, u ∈ b ∧ lv ≤ t_lvl u ∧ next_at e lv b = t_addr u.
Proof.
  destruct (next_at_cases e lv b) as [[_ ?]|(a & u & r & -> & _ & ? & ?)]; [by left|].
  right. exists u. split_and!; [set_solver|done|done].
Qed.

(** What [find_node] returns and leaves in [to_be_updated]. *)
Lemma find_node_contract s ts k fuel :
  F.Rep V0 s ts → (length ts < fuel)%nat →
  ∃ node l,
    F.find_node fuel k (Some []) s = Ok (node, Some l) s ∧
    F.find_node fuel k None s = Ok (node, None) s ∧
    length l = Z.to_nat (F.max_level_ s + 1) ∧
    (node = null ∧ Forall (λ u, t_key u < k) ts ∨
     ∃ n, F.heap s !! node = Some n ∧ k ≤ F.key n ∧
          (F.key n = k ↔ k ∈ t_key <$> ts)) ∧
    (∀ lv, 0 ≤ lv ≤ F.cur_level_ s →
       ∃ p pn q,
         vget l lv = Some p ∧ F.heap s !! p = Some pn ∧
         (p = F.header_ s ∨ F.key pn < k) ∧
         vget (F.forward pn) lv = Some q ∧
         (q = null ∨ ∃ qn, F.heap s !! q = Some qn ∧ k ≤ F.key qn) ∧
         (lv = 0 → q = node)) ∧
    (∀ lv, F.cur_level_ s < lv ≤ F.max_level_ s → vget l lv = Some null).
Proof.
  intros HR Hfuel. pose proof (F.rep_cur _ _ _ HR) as Hcur.
  destruct (find_node_spec V0 s ts k fuel (Some []) HR Hfuel) as (tbu & Hfind & Htbu);
    [by right|].
  destruct Htbu as (l & -> & Hlen & Hlow & Hhigh).
  destruct (find_node_spec V0 s ts k fuel None HR Hfuel) as (tbu & Hfind' & ->); [by left|].
  exists (next_at null 0 (from k ts)), l. split_and!; try done.
  - destruct (head_cases V0 s ts k HR)
      as [(Habs & _ & [Hnode|(u & Hu & Hnode & Hne)])|(u & r & Hf & Hk & Hnode & _ & Hu & Hin)].
    + left. split; [done|]. apply Forall_forall. intros u Hu.
      destruct (decide (t_key u < k)) as [|Hge]; [done|]. exfalso.
      assert (u ∈ from k ts) as Hfr by (apply list_elem_of_filter; split; [lia|done]).
      destruct (next_at_cases null 0 (from k ts))
        as [[Hall _]|(a & w & b & Hfrom & _ & _ & Hnx)].
      * rewrite Forall_forall in Hall. specialize (Hall u Hfr).
        pose proof (fat_Rep_level V0 s ts u HR Hu). lia.
      * assert (w ∈ ts) as Hw.
        { assert (w ∈ from k ts) as Hw' by (rewrite Hfrom; set_solver).
          by apply list_elem_of_filter in Hw' as [_ ?]. }
        destruct (fat_Rep_addr V0 s ts w HR Hw) as [_ Hnn]. congruence.
    + right. destruct (fat_Rep_node V0 s ts u HR Hu) as (n & Hn & Hkey & _).
      exists n. rewrite Hnode. split_and!; [done| |].
      * destruct (next_at_elem null 0 (from k ts)) as [Hnl|(w & Hw & _ & Hnx)].
        { destruct (fat_Rep_addr V0 s ts u HR Hu) as [_ Hnn]. congruence. }
        apply list_elem_of_filter in Hw as [Hge Hw].
        destruct (fat_Rep_node V0 s ts w HR Hw) as (n' & Hn' & Hkey' & _).
        rewrite Hnode in Hnx. rewrite Hnx, Hn' in Hn. injection Hn as ->. lia.
      * rewrite Hkey. split; [done|]. intros Hin. done.
    + right. destruct (fat_Rep_node V0 s ts u HR Hu) as (n & Hn & Hkey & _).
      exists n. rewrite Hnode. split_and!; [done|lia|]. rewrite Hkey. done.
  - intros lv Hlv.
    destruct (fat_pred_info V0 s ts k lv HR ltac:(lia)) as ([m Hm] & Hpn & _ & Hfw).
    apply fat_fwd_view_Some in Hfw as (pn & Hp & Hfw).
    exists (last_at (F.header_ s) lv (below k ts)), pn, (next_at null lv (from k ts)).
    split_and!; try done.
    + by apply Hlow.
    + destruct (last_at_elem (F.header_ s) lv (below k ts)) as [?|Hel]; [by left|right].
      apply list_elem_of_fmap in Hel as (u & Heq & [Hlt Hu]%list_elem_of_filter).
      destruct (fat_Rep_node V0 s ts u HR Hu) as (n & Hn & Hkey & _).
      rewrite Heq, Hn in Hp. injection Hp as <-. by rewrite Hkey.
    + destruct (next_at_elem null lv (from k ts)) as [?|(w & Hw & _ & Hnx)]; [by left|right].
      apply list_elem_of_filter in Hw as [Hge Hw].
      destruct (fat_Rep_node V0 s ts w HR Hw) as (n' & Hn' & Hkey' & _).
      exists n'. rewrite Hnx. split; [done|lia].
    + by intros ->.
Qed.

(** [cur_level_] is the level of a node, unless it is 0. *)
Lemma top_level_used_create max_level prob gen :
  top_level_used (F.create V0 max_level prob gen) [].
Proof. by left. Qed.

Lemma fat_op_top_level s ts o fuel :
  F.Inv V0 s ts → top_level_used s ts →
  (length ts < fuel)%nat → (Z.to_nat (F.max_level_ s) < fuel)%nat →
  ∃ s' ts',
    run_op (Fat V0) fuel o s = Ok (snd (map_step true V0 o (model ts))) s' ∧
    F.Inv V0 s' ts' ∧ top_level_used s' ts' ∧
    model ts' = fst (map_step true V0 o (model ts)) ∧
    F.max_level_ s' = F.max_level_ s ∧
    (length ts' ≤ S (length ts))%nat.
Proof.
  intros HI Htop Hfuel Hfuel'. pose proof HI as [HR _].
  pose proof (F.rep_sorted _ _ _ HR) as Hsorted.
  destruct o as [k v|k|k]; cbn [run_op map_step fst snd].
  - destruct (fat_insert_exact V0 s ts k v fuel HI Hfuel Hfuel')
      as (s' & ts' & Hrun & HI' & Hmx & Hlen & Hmod & Hpres & Habs).
    exists s', ts'. cbn [sl_insert Fat]. rewrite (bind_Ok _ _ _ _ _ Hrun).
    split_and!; try done.
    + unfold ret. do 2 f_equal. apply bool_decide_ext. by rewrite model_dom.
    + destruct (decide (k ∈ t_key <$> ts)) as [Hin|Hout].
      * destruct (Hpres Hin) as (-> & Hcur & _). unfold top_level_used. rewrite Hcur.
        destruct Htop as [?|(u & Hu & Hle)]; [by left|right].
        exists (if decide (t_key u = k) then mkTower (t_addr u) (t_key u) v (t_lvl u) else u).
        split; [|destruct (decide (t_key u = k)); cbn; lia].
        unfold t_update. apply list_elem_of_fmap. by exists u.
      * destruct (Habs Hout) as (nw & -> & Hcur & _). unfold top_level_used. rewrite Hcur.
        set (c := Z.of_nat (count_successes _ _ _)).
        destruct (Z.max_spec (F.cur_level_ s) c) as [[Hlt ->]|[Hge ->]].
        -- right. exists (mkTower nw k v c). split; [|cbn; lia]. unfold t_insert. set_solver.
        -- destruct Htop as [?|(u & Hu & Hle)]; [by left|right].
           exists u. split; [|done]. unfold t_insert.
           rewrite (sorted_split k ts Hsorted) in Hu. cbn [t_key]. set_solver.
    + rewrite Hmod. by destruct (decide (k ∈ dom (model ts))).
  - destruct (fat_remove_exact V0 s ts k fuel HI Hfuel Hfuel')
      as (s' & Hrun & HI' & Hmx & _ & Habs & Hpres).
    exists s', (t_remove k ts). cbn [sl_remove Fat]. rewrite (bind_Ok _ _ _ _ _ Hrun).
    split_and!; try done.
    + unfold ret. do 2 f_equal. apply bool_decide_ext. by rewrite model_dom.
    + destruct (decide (k ∈ t_key <$> ts)) as [Hin|Hout]; [by apply Hpres|].
      rewrite (Habs Hout). by rewrite t_remove_absent.
    + apply model_remove.
    + unfold t_remove. pose proof (length_filter (λ t, t_key t ≠ k) ts). lia.
  - exists s, ts. cbn [sl_search Fat]. rewrite (bind_Ok _ _ _ _ _ (fat_search_spec V0 s ts k fuel HI Hfuel)).
    split_and!; try done. lia.
Qed.

Lemma fat_ops_top_level os : ∀ s ts fuel,
  F.Inv V0 s ts → top_level_used s ts →
  enough fuel (F.max_level_ s) (length ts) (length os) →
  ∃ s' ts',
    run_ops (Fat V0) fuel os s = Ok (snd (map_run true V0 os (model ts))) s' ∧
    F.Inv V0 s' ts' ∧ top_level_used s' ts'.
Proof.
  induction os as [|o os IH]; intros s ts fuel HI Htop Hfuel; unfold enough in *.
  - by exists s, ts.
  - cbn [length] in Hfuel.
    destruct (fat_op_top_level s ts o fuel HI Htop) as (s1 & ts1 & Hrun1 & HI1 & Htop1 & Hmod1 & Hmx1 & Hlen1);
      [lia..|].
    destruct (IH s1 ts1 fuel HI1 Htop1) as (s2 & ts2 & Hrun2 & HI2 & Htop2).
    { unfold enough. rewrite Hmx1. lia. }
    exists s2, ts2. cbn [run_ops]. rewrite (bind_Ok _ _ _ _ _ Hrun1), (bind_Ok _ _ _ _ _ Hrun2).
    rewrite map_run_cons. cbn [snd]. rewrite <- Hmod1. done.
Qed.

End WithValue.
End FatMore.
(** ** Further properties of the two classes *)

Section More.
Context {V : Type}.
Variable V0 : V.

Local Abbreviation pairs ts := ((λ u, (t_key u, t_val u)) <$> ts).
Local Abbreviation pairs_at lv ts :=
  ((λ u, (t_key u, t_val u)) <$> filter (λ u, lv ≤ t_lvl u) ts).

Lemma wf_for_each_of w (s : state V w) ts fuel :
  wf V0 w s ts → enough fuel (max_level_of w s) (length ts) 0 →
  for_each_of w fuel s = Ok (pairs ts) s.
Proof.
  unfold enough. destruct w; intros HR Hfuel.
  - apply (FatMore.for_each_unlocked_spec V0); [apply HR|lia].
  - apply (LockedProofs.for_each_spec V0); [done|lia].
Qed.

Lemma wf_sorted w (s : state V w) ts : wf V0 w s ts → sorted ts.
Proof.
  destruct w; intros HR.
  - destruct HR as [HR _]. apply (FatSkipList.rep_sorted _ _ _ HR).
  - apply (LockedSkipList.rep_sorted _ _ _ HR).
Qed.

Lemma wf_locks_free w (s : state V w) ts : wf V0 w s ts → locks_free w s.
Proof.
  destruct w; intros HR.
  - apply HR.
  - apply (LockedSkipList.rep_held _ _ _ HR).
Qed.

Lemma wf_allocated w (s : state V w) ts :
  wf V0 w s ts → allocated w s = (sentinels w + length ts)%nat.
Proof.
  destruct w; intros HR.
  - apply (FatMore.fat_heap_size V0), HR.
  - by apply (LockedMore.heap_size V0).
Qed.

Lemma wf_destroy w (s : state V w) ts fuel :
  wf V0 w s ts → enough fuel (max_level_of w s) (length ts) 1 →
  ∃ s', destroy_of w fuel s = Ok tt s' ∧ allocated w s' = 0%nat.
Proof.
  unfold enough. destruct w; intros HR Hfuel.
  - exists (FatSkipList.with_heap s ∅). split; [|done].
    apply (FatMore.fat_destroy_spec V0 s ts); [apply HR|lia].
  - exists (LockedSkipList.with_heap s ∅). split; [|done].
    apply (LockedMore.destroy_spec V0 s ts); [done|lia].
Qed.

Lemma wf_dump w (s : state V w) ts fuel :
  wf V0 w s ts → enough fuel (max_level_of w s) (length ts) 0 →
  dump_of w fuel s =
  Ok (concat ((λ lv, dump_line_of w lv (pairs_at lv ts)) <$>
              LockedSkipList.levels_down (dump_top w s))) s.
Proof.
  unfold enough. destruct w; intros HR Hfuel.
  - apply (FatMore.fat_dump_spec V0 s ts); [apply HR|lia].
  - apply (LockedMore.dump_spec V0 s ts); [done|lia].
Qed.

Lemma pairs_at_0 w (s : state V w) ts : wf V0 w s ts → pairs_at 0 ts = pairs ts.
Proof.
  intros HR. f_equal. apply filter_all, Forall_forall. intros u Hu. destruct w.
  - destruct HR as [HR _]. pose proof (FatProofs.fat_Rep_level V0 s ts u HR Hu). lia.
  - pose proof (LockedProofs.Rep_level V0 s ts u HR Hu). lia.
Qed.

Lemma pairs_at_sublist lv (ts : list (tower V)) : pairs_at (lv + 1) ts `sublist_of` pairs_at lv ts.
Proof.
  apply fmap_sublist. induction ts as [|u r IH]; [done|].
  destruct (decide (lv + 1 ≤ t_lvl u)) as [Hle|Hgt].
  - rewrite !filter_cons_True by lia. by apply sublist_skip.
  - rewrite (filter_cons_False (λ u, lv + 1 ≤ t_lvl u)) by done.
    destruct (decide (lv ≤ t_lvl u)).
    + rewrite filter_cons_True by done. by apply sublist_cons.
    + by rewrite filter_cons_False by done.
Qed.

Lemma sorted_pairs (ts : list (tower V)) : sorted ts → StronglySorted Z.lt (pairs ts).*1.
Proof.
  intros Hs. rewrite <- list_fmap_compose.
  apply (sorted_StronglySorted ts Hs).
Qed.

Lemma count_successes_draws cap p g :
  (∀ i, (i < count_successes cap p g)%nat → Qltb (g i) p = true) ∧
  ((count_successes cap p g < cap)%nat → Qltb (g (count_successes cap p g)) p = false).
Proof.
  revert g. induction cap as [|c IH]; intros g; cbn [count_successes].
  - split; intros; lia.
  - destruct (Qltb (g 0%nat) p) eqn:Hd.
    + destruct (IH (λ i, g (S i))) as [Hlt Hstop]. split.
      * intros [|i] Hi; [done|]. apply (Hlt i). lia.
      * intros Hc. apply Hstop. lia.
    + split; [intros; lia|done].
Qed.

Lemma drop_draws_lookup n : ∀ (g : nat → Q) i, drop_draws n g i = g (n + i)%nat.
Proof.
  induction n as [|n IH]; intros g i; cbn [drop_draws]; [done|].
  rewrite IH. f_equal.
Qed.

Lemma t_remove_insert (u : tower V) ts :
  sorted ts → t_key u ∉ t_key <$> ts → t_remove (t_key u) (t_insert u ts) = ts.
Proof.
  intros Hs Hk. unfold t_remove, t_insert. rewrite filter_app, filter_cons_False by naive_solver.
  rewrite !filter_all.
  - symmetry. by apply sorted_split.
  - apply Forall_forall. intros w [Hge Hw]%list_elem_of_filter. intros Heq.
    apply Hk. rewrite <- Heq. by apply list_elem_of_fmap_2.
  - apply Forall_forall. intros w [Hlt Hw]%list_elem_of_filter. lia.
Qed.

Lemma wf_remove_exact w (s : state V w) ts k fuel :
  wf V0 w s ts → enough fuel (max_level_of w s) (length ts) 0 →
  ∃ s', sl_remove (impl V0 w) fuel k s = Ok (bool_decide (k ∈ t_key <$> ts)) s' ∧
        wf V0 w s' (t_remove k ts) ∧
        max_level_of w s' = max_level_of w s ∧
        gen_of w s' = gen_of w s ∧
        (k ∉ t_key <$> ts → s' = s).
Proof.
  unfold enough. destruct w; cbn [max_level_of]; intros HR Hfuel.
  - destruct (FatProofs.fat_remove_exact V0 s ts k fuel HR) as (s' & ? & ? & ? & ? & ? & _);
      [lia..|].
    by exists s'.
  - destruct (LockedMore.remove_exact V0 s ts k fuel HR) as (s' & ? & _ & ? & ? & ?); [lia|].
    exists s'. split_and!; try done.
    destruct (LockedProofs.remove_spec V0 s ts k fuel HR) as (s'' & Hrun & _ & Hmx); [lia|].
    cbn [sl_remove impl Locked] in *. congruence.
Qed.

Lemma wf_insert_new w (s : state V w) ts k v fuel :
  wf V0 w s ts → enough fuel (max_level_of w s) (length ts) 0 →
  k ∉ t_key <$> ts →
  ∃ s' nw lvl,
    sl_insert (impl V0 w) fuel k v s = Ok true s' ∧
    wf V0 w s' (t_insert (mkTower nw k v lvl) ts) ∧
    max_level_of w s' = max_level_of w s.
Proof.
  unfold enough. destruct w; cbn [max_level_of]; intros HR Hfuel Hk.
  - destruct (FatProofs.fat_insert_exact V0 s ts k v fuel HR)
      as (s' & ts' & Hrun & HR' & Hmx & _ & _ & _ & Habs); [lia..|].
    destruct (Habs Hk) as (nw & -> & _). rewrite bool_decide_eq_true_2 in Hrun by done.
    by eexists s', nw, _.
  - destruct (LockedMore.insert_exact V0 s ts k v fuel HR)
      as (s' & ts' & Hrun & _ & HR' & _ & _ & Habs); [lia..|].
    destruct (Habs Hk) as (nw & ->). rewrite bool_decide_eq_true_2 in Hrun by done.
    eexists s', nw, _. split_and!; [done|done|].
    destruct (LockedProofs.insert_spec V0 s ts k v fuel HR) as (s'' & ts'' & Hrun' & _ & Hmx & _);
      [lia..|].
    rewrite bool_decide_eq_true_2 in Hrun' by done.
    cbn [sl_insert impl Locked] in *. congruence.
Qed.

Lemma search_absent (ts : list (tower V)) k r :
  match model ts !! k with Some x => (true, x) | None => (false, V0) end = (false, r) →
  k ∉ t_key <$> ts.
Proof.
  intros Hm Hin. apply model_dom, elem_of_dom in Hin as [x Hx]. by rewrite Hx in Hm.
Qed.

(** X1: the results of any sequence of calls on a new list, of either
    variant, are those of the sequential map on the empty map ([insert] of a
    present key replacing the value in the coarse variant only), and
    [for_each] then visits exactly the pairs of that map, in increasing key
    order. *)
Theorem X1_refines_map w max_level prob gen fuel os :
  0 ≤ max_level → enough fuel max_level 0 (length os) →
  ∃ (s : state V w) visited,
    run_ops (impl V0 w) fuel os (new_list V0 w max_level prob gen) =
      Ok (map_run (overwrites w) V0 os ∅).2 s ∧
    for_each_of w fuel s = Ok visited s ∧
    list_to_map visited = (map_run (overwrites w) V0 os ∅).1 ∧
    StronglySorted Z.lt visited.*1.
Proof.
  intros Hmax Hfuel. destruct (wf_new_list V0 w max_level prob gen Hmax) as [Hwf Hmx].
  destruct (wf_run_ops V0 w os _ [] fuel Hwf) as (s & ts & Hrun & Hwf' & Hmod & Hmx' & Hlen).
  { by rewrite Hmx. }
  exists s, (pairs ts). split_and!.
  - exact Hrun.
  - apply wf_for_each_of; [done|]. unfold enough in *. cbn [length] in *. lia.
  - exact Hmod.
  - apply sorted_pairs. by apply (wf_sorted w s).
Qed.

(** X2: no call returns with a mutex held: after any sequence of calls on a
    new list, [mutex_] of the coarse variant is free and no node of the
    concurrent variant is locked. *)
Theorem X2_locks_released w max_level prob gen fuel os rs (s : state V w) :
  0 ≤ max_level → enough fuel max_level 0 (length os) →
  run_ops (impl V0 w) fuel os (new_list V0 w max_level prob gen) = Ok rs s →
  locks_free w s.
Proof.
  intros Hmax Hfuel Hrun.
  destruct (reached_wf V0 w max_level prob gen os fuel rs s 0 Hmax) as (ts & Hwf & _);
    [by rewrite Nat.add_0_r|done|].
  by apply (wf_locks_free w s ts).
Qed.

(** X3: the list allocates one node for each key it holds and nothing else
    but its header (and its tail in the concurrent variant): after any
    sequence of calls, the number of allocated nodes is the number of pairs
    that [for_each] visits plus the sentinels. *)
Theorem X3_one_node_per_key w max_level prob gen fuel os rs (s : state V w) :
  0 ≤ max_level → enough fuel max_level 0 (length os) →
  run_ops (impl V0 w) fuel os (new_list V0 w max_level prob gen) = Ok rs s →
  ∃ visited,
    for_each_of w fuel s = Ok visited s ∧
    allocated w s = (sentinels w + length visited)%nat.
Proof.
  intros Hmax Hfuel Hrun.
  destruct (reached_wf V0 w max_level prob gen os fuel rs s 0 Hmax) as (ts & Hwf & _ & _ & _ & Hen);
    [by rewrite Nat.add_0_r|done|].
  exists (pairs ts). split; [by apply wf_for_each_of|].
  rewrite length_fmap. by apply wf_allocated.
Qed.

(** X4: the destructor frees every node: run on the list that any sequence
    of calls has left, it ends without an error (no node is deleted twice or
    read after its deletion) and no node remains allocated. *)
Theorem X4_destructor_frees_all w max_level prob gen fuel os rs (s : state V w) :
  0 ≤ max_level → enough fuel max_level 0 (length os + 1) →
  run_ops (impl V0 w) fuel os (new_list V0 w max_level prob gen) = Ok rs s →
  ∃ s', destroy_of w fuel s = Ok tt s' ∧ allocated w s' = 0%nat.
Proof.
  intros Hmax Hfuel Hrun.
  destruct (reached_wf V0 w max_level prob gen os fuel rs s 1 Hmax Hfuel Hrun)
    as (ts & Hwf & _ & _ & _ & Hen).
  by apply (wf_destroy w s ts).
Qed.

(** X5: [dump] prints one line for each level from the top one
    ([cur_level_] in the coarse variant, [max_level_] in the concurrent one)
    down to 0, and leaves the list as it is. The line of level 0 shows the
    pairs that [for_each] visits, and the pairs on the line of a level are a
    sub-sequence of those on the line of the level below. *)
Theorem X5_dump_levels w max_level prob gen fuel os rs (s : state V w) :
  0 ≤ max_level → enough fuel max_level 0 (length os) →
  run_ops (impl V0 w) fuel os (new_list V0 w max_level prob gen) = Ok rs s →
  ∃ visited (at_level : Z → list (Z * V)),
    for_each_of w fuel s = Ok visited s ∧
    dump_of w fuel s =
      Ok (concat ((λ lv, dump_line_of w lv (at_level lv)) <$>
                  LockedSkipList.levels_down (dump_top w s))) s ∧
    at_level 0 = visited ∧
    ∀ lv, at_level (lv + 1) `sublist_of` at_level lv.
Proof.
  intros Hmax Hfuel Hrun.
  destruct (reached_wf V0 w max_level prob gen os fuel rs s 0 Hmax) as (ts & Hwf & _ & _ & _ & Hen);
    [by rewrite Nat.add_0_r|done|].
  exists (pairs ts), (λ lv, pairs_at lv ts). split_and!.
  - by apply wf_for_each_of.
  - by apply wf_dump.
  - by apply (pairs_at_0 w s).
  - intros lv. apply pairs_at_sublist.
Qed.

(** X6: [get_rand_level] returns the number [lvl] of leading draws below
    [probability_], stopping at [max_level_], and takes [lvl + 1] numbers
    from the generator: the one that ended the loop is consumed too, also
    when the loop ends because the level has reached [max_level_]. *)
Theorem X6_draws_consumed w (s0 : state V w) fuel :
  0 ≤ max_level_of w s0 → (Z.to_nat (max_level_of w s0) < fuel)%nat →
  ∃ lvl s0',
    get_rand_level_of w fuel s0 = Ok lvl s0' ∧
    0 ≤ lvl ≤ max_level_of w s0 ∧
    (∀ i, (i < Z.to_nat lvl)%nat → Qltb (gen_of w s0 i) (probability_of w s0) = true) ∧
    (lvl < max_level_of w s0 →
       Qltb (gen_of w s0 (Z.to_nat lvl)) (probability_of w s0) = false) ∧
    (∀ i, gen_of w s0' i = gen_of w s0 (Z.to_nat lvl + 1 + i)%nat).
Proof.
  intros Hmax Hfuel.
  set (c := count_successes (Z.to_nat (max_level_of w s0)) (probability_of w s0) (gen_of w s0)).
  pose proof (count_successes_le (Z.to_nat (max_level_of w s0)) (probability_of w s0)
                (gen_of w s0)) as Hle.
  destruct (count_successes_draws (Z.to_nat (max_level_of w s0)) (probability_of w s0)
              (gen_of w s0)) as [Hlt Hstop].
  fold c in Hle, Hlt, Hstop.
  assert (∃ s0', get_rand_level_of w fuel s0 = Ok (Z.of_nat c) s0' ∧
                 gen_of w s0' = drop_draws (S c) (gen_of w s0)) as (s0' & Hrun & Hgen).
  { destruct w; cbn in *.
    - eexists. split; [by apply FatProofs.fat_get_rand_level_spec|done].
    - eexists. split; [by apply LockedProofs.get_rand_level_spec|done]. }
  exists (Z.of_nat c), s0'. rewrite Nat2Z.id. split_and!; try done; try lia.
  - intros Hc. apply Hstop. lia.
  - intros i. rewrite Hgen, drop_draws_lookup. f_equal. lia.
Qed.

(** X7: a [remove] that returns false changes nothing: the list it leaves,
    with its nodes, locks and generator, is the one it was called on. *)
Theorem X7_failed_remove_changes_nothing w max_level prob gen fuel os rs k
    (s s' : state V w) :
  0 ≤ max_level → enough fuel max_level 0 (length os) →
  run_ops (impl V0 w) fuel os (new_list V0 w max_level prob gen) = Ok rs s →
  sl_remove (impl V0 w) fuel k s = Ok false s' →
  s' = s.
Proof.
  intros Hmax Hfuel Hrun Hrem.
  destruct (reached_wf V0 w max_level prob gen os fuel rs s 0 Hmax) as (ts & Hwf & _ & _ & _ & Hen);
    [by rewrite Nat.add_0_r|done|].
  destruct (wf_remove_exact w s ts k fuel Hwf Hen) as (s1 & Hrun1 & _ & _ & _ & Hid).
  rewrite Hrun1 in Hrem. injection Hrem as Hb <-. apply Hid.
  by apply bool_decide_eq_false in Hb.
Qed.

(** X14: inserting a key that the list does not hold and removing it again
    gives back the list as it was for its users: both calls return true,
    [for_each] visits the same pairs as before and as many nodes are
    allocated as before. *)
Theorem X14_insert_remove_round_trip w max_level prob gen fuel os rs k v r (s : state V w) :
  0 ≤ max_level → enough fuel max_level 0 (length os + 1) →
  run_ops (impl V0 w) fuel os (new_list V0 w max_level prob gen) = Ok rs s →
  sl_search (impl V0 w) fuel k s = Ok (false, r) s →
  ∃ s1 s2 visited,
    sl_insert (impl V0 w) fuel k v s = Ok true s1 ∧
    sl_remove (impl V0 w) fuel k s1 = Ok true s2 ∧
    for_each_of w fuel s = Ok visited s ∧
    for_each_of w fuel s2 = Ok visited s2 ∧
    allocated w s2 = allocated w s.
Proof.
  intros Hmax Hfuel Hrun Hsearch.
  destruct (reached_wf V0 w max_level prob gen os fuel rs s 1 Hmax Hfuel Hrun)
    as (ts & Hwf & _ & _ & _ & Hen).
  assert (enough fuel (max_level_of w s) (length ts) 0) as Hen0
    by (unfold enough in *; lia).
  rewrite (wf_search V0 w s ts k fuel Hwf Hen0) in Hsearch. injection Hsearch as Hm.
  apply search_absent in Hm.
  pose proof (wf_sorted w s ts Hwf) as Hsorted.
  destruct (wf_insert_new w s ts k v fuel Hwf Hen0 Hm) as (s1 & nw & lvl & Hins & Hwf1 & Hmx1).
  destruct (wf_remove_exact w s1 _ k fuel Hwf1) as (s2 & Hrem & Hwf2 & Hmx2 & _).
  { unfold enough in *. rewrite Hmx1, t_insert_length by done. lia. }
  pose proof (t_remove_insert (mkTower nw k v lvl) ts Hsorted Hm) as Hri.
  cbn [t_key] in Hri. rewrite Hri in Hwf2.
  rewrite bool_decide_eq_true_2 in Hrem.
  2: { unfold t_insert. rewrite fmap_app, fmap_cons. set_solver. }
  exists s1, s2, (pairs ts). split_and!; try done.
  - by apply wf_for_each_of.
  - apply wf_for_each_of; [done|]. unfold enough in *. rewrite Hmx2, Hmx1. lia.
  - by rewrite (wf_allocated w s2 ts Hwf2), (wf_allocated w s ts Hwf).
Qed.

End More.

Section PerClass.
Context {V : Type}.
Variable V0 : V.

Local Abbreviation pairs ts := ((λ u, (t_key u, t_val u)) <$> ts).

Lemma Locked_reached max_level prob gen fuel os rs (s : LockedSkipList.t (V:=V)) n :
  0 ≤ max_level → enough fuel max_level 0 (length os + n) →
  run_ops (Locked V0) fuel os (LockedSkipList.create V0 max_level prob gen) = Ok rs s →
  ∃ ts, LockedSkipList.Rep V0 s ts ∧ LockedSkipList.max_level_ s = max_level ∧
        (Z.to_nat max_level + length ts + n < fuel)%nat.
Proof.
  intros Hmax Hfuel Hrun.
  destruct (reached_wf V0 Concurrent max_level prob gen os fuel rs s n Hmax Hfuel Hrun)
    as (ts & Hwf & _ & _ & Hmx & Hen).
  exists ts. unfold enough in Hen. rewrite Hmx in Hen. done.
Qed.

Lemma Fat_reached max_level prob gen fuel os rs (s : FatSkipList.t (V:=V)) n :
  0 ≤ max_level → enough fuel max_level 0 (length os + n) →
  run_ops (Fat V0) fuel os (FatSkipList.create V0 max_level prob gen) = Ok rs s →
  ∃ ts, FatSkipList.Inv V0 s ts ∧ top_level_used s ts ∧
        FatSkipList.max_level_ s = max_level ∧
        (Z.to_nat max_level + length ts + n < fuel)%nat.
Proof.
  intros Hmax Hfuel Hrun.
  destruct (reached_wf V0 Coarse max_level prob gen os fuel rs s n Hmax Hfuel Hrun)
    as (ts & Hwf & _ & _ & Hmx & Hen).
  destruct (FatMore.fat_ops_top_level V0 os (FatSkipList.create V0 max_level prob gen) [] fuel)
    as (s' & ts' & Hrun' & HI & Htop).
  { by apply FatProofs.create_Inv. }
  { apply FatMore.top_level_used_create. }
  { unfold enough in *. cbn in *. lia. }
  rewrite Hrun' in Hrun. injection Hrun as _ ->.
  exists ts'. unfold enough in Hen. rewrite Hmx in Hen. cbn in Hmx, Hwf.
  assert (length ts' = length ts) as Hlen.
  { pose proof (FatMore.fat_heap_size V0 s ts' (proj1 HI)) as H1.
    pose proof (FatMore.fat_heap_size V0 s ts (proj1 Hwf)) as H2. lia. }
  rewrite Hlen. done.
Qed.

(** X8: an [insert] of the concurrent variant that returns false has drawn
    a level all the same, as the first thing it does: the list it leaves
    differs from the one it was called on in the generator only, which is
    [lvl + 1] draws further for a level [lvl] within the bounds. *)
Theorem X8_locked_failed_insert max_level prob gen fuel os rs k v
    (s s' : LockedSkipList.t (V:=V)) :
  0 ≤ max_level → enough fuel max_level 0 (length os) →
  run_ops (Locked V0) fuel os (LockedSkipList.create V0 max_level prob gen) = Ok rs s →
  LockedSkipList.insert fuel k v s = Ok false s' →
  ∃ lvl, 0 ≤ lvl ≤ max_level ∧
         s' = LockedSkipList.with_gen s
                (drop_draws (Z.to_nat lvl + 1) (LockedSkipList.gen_ s)).
Proof.
  intros Hmax Hfuel Hrun Hins.
  destruct (Locked_reached max_level prob gen fuel os rs s 0 Hmax) as (ts & HR & Hmx & Hen);
    [by rewrite Nat.add_0_r|done|].
  destruct (LockedMore.insert_exact V0 s ts k v fuel HR) as (s1 & ts1 & Hrun1 & _ & _ & _ & Hin & _);
    [lia..|].
  rewrite Hrun1 in Hins. injection Hins as Hb <-.
  apply bool_decide_eq_false in Hb. apply dec_stable in Hb. destruct (Hin Hb) as [-> _].
  set (c := count_successes _ _ _).
  pose proof (count_successes_le (Z.to_nat (LockedSkipList.max_level_ s))
                (LockedSkipList.probability_ s) (LockedSkipList.gen_ s)) as Hle. fold c in Hle.
  exists (Z.of_nat c). rewrite Nat2Z.id, Nat.add_1_r. split; [lia|done].
Qed.

(** X9: an [insert] of the coarse variant that returns false draws no level
    and allocates no node: the generator, [cur_level_] and the number of
    nodes are as before, and the mutex is free again. *)
Theorem X9_fat_failed_insert max_level prob gen fuel os rs k v
    (s s' : FatSkipList.t (V:=V)) :
  0 ≤ max_level → enough fuel max_level 0 (length os) →
  run_ops (Fat V0) fuel os (FatSkipList.create V0 max_level prob gen) = Ok rs s →
  FatSkipList.insert fuel k v s = Ok false s' →
  FatSkipList.gen_ s' = FatSkipList.gen_ s ∧
  FatSkipList.cur_level_ s' = FatSkipList.cur_level_ s ∧
  size (FatSkipList.heap s') = size (FatSkipList.heap s) ∧
  FatSkipList.mutex_ s' = false.
Proof.
  intros Hmax Hfuel Hrun Hins.
  destruct (Fat_reached max_level prob gen fuel os rs s 0 Hmax) as (ts & HI & _ & Hmx & Hen);
    [by rewrite Nat.add_0_r|done|].
  destruct (FatProofs.fat_insert_exact V0 s ts k v fuel HI)
    as (s1 & ts1 & Hrun1 & HI1 & _ & _ & _ & Hin & _); [lia..|].
  rewrite Hrun1 in Hins. injection Hins as Hb <-.
  apply bool_decide_eq_false in Hb. apply dec_stable in Hb. destruct (Hin Hb) as (-> & Hcur & Hgen).
  split_and!; try done; [|apply HI1].
  rewrite (FatMore.fat_heap_size V0 s1 _ (proj1 HI1)), (FatMore.fat_heap_size V0 s ts (proj1 HI)).
  by rewrite t_update_length.
Qed.

(** X10: [cur_level_] of the coarse variant stays between 0 and
    [max_level_], no node other than the header has more than
    [cur_level_ + 1] forward pointers, and [cur_level_] is 0 or the header
    has a successor at level [cur_level_]: [insert] raises it to the level of
    the node it adds and [remove] lowers it to the highest level in use. *)
Theorem X10_cur_level max_level prob gen fuel os rs (s : FatSkipList.t (V:=V)) :
  0 ≤ max_level → enough fuel max_level 0 (length os) →
  run_ops (Fat V0) fuel os (FatSkipList.create V0 max_level prob gen) = Ok rs s →
  0 ≤ FatSkipList.cur_level_ s ≤ max_level ∧
  (∀ a n, FatSkipList.heap s !! a = Some n → a ≠ FatSkipList.header_ s →
          (1 ≤ length (FatSkipList.forward n))%nat ∧
          Z.of_nat (length (FatSkipList.forward n)) ≤ FatSkipList.cur_level_ s + 1) ∧
  (FatSkipList.cur_level_ s = 0 ∨
   ∃ hn q, FatSkipList.heap s !! FatSkipList.header_ s = Some hn ∧
           vget (FatSkipList.forward hn) (FatSkipList.cur_level_ s) = Some q ∧ q ≠ null).
Proof.
  intros Hmax Hfuel Hrun.
  destruct (Fat_reached max_level prob gen fuel os rs s 0 Hmax) as (ts & [HR _] & Htop & Hmx & Hen);
    [by rewrite Nat.add_0_r|done|].
  pose proof (FatSkipList.rep_cur _ _ _ HR) as Hcur. split_and!.
  - lia.
  - lia.
  - intros a n Hn Hne.
    destruct (FatSkipList.rep_dom _ _ _ HR a) as [?|(u & -> & Hu)%list_elem_of_fmap]; [|done|].
    { apply FatProofs.fat_meta_view_is_Some. by rewrite Hn. }
    destruct (FatProofs.fat_Rep_node V0 s ts u HR Hu) as (n' & Hn' & _ & _ & Hlen).
    rewrite Hn in Hn'. injection Hn' as <-.
    pose proof (FatProofs.fat_Rep_level V0 s ts u HR Hu). lia.
  - destruct Htop as [?|(u & Hu & Hle)]; [by left|right].
    destruct (FatSkipList.rep_links _ _ _ HR) as [Hh _].
    specialize (Hh (FatSkipList.cur_level_ s) ltac:(cbn; lia)).
    apply FatProofs.fat_fwd_view_Some in Hh as (hn & Hhn & Hfw).
    exists hn, (next_at null (FatSkipList.cur_level_ s) ts). split_and!; [done|done|].
    destruct (next_at_cases null (FatSkipList.cur_level_ s) ts)
      as [[Hall _]|(a & w & b & Hts & _ & _ & ->)].
    + rewrite Forall_forall in Hall. specialize (Hall u Hu). lia.
    + apply (FatProofs.fat_Rep_addr V0 s ts w HR). rewrite Hts. set_solver.
Qed.

(** X11: what [find] of the concurrent variant returns on a list that any
    sequence of calls has left. It changes nothing; it returns -1 exactly
    when [search] does not find the key; at every level up to [max_level_],
    [preds[level]] is the header or a node with a smaller key, never the
    tail, its forward pointer at that level is [succs[level]], and
    [succs[level]] is the tail or a node whose key is not smaller, never the
    header; when the key is found, [succs[found]] is its node, whose
    [node_level] is [found]. *)
Theorem X11_find_contract max_level prob gen fuel os rs k preds succs
    (s : LockedSkipList.t (V:=V)) :
  0 ≤ max_level → enough fuel max_level 0 (length os) →
  run_ops (Locked V0) fuel os (LockedSkipList.create V0 max_level prob gen) = Ok rs s →
  length preds = Z.to_nat (max_level + 1) → length succs = Z.to_nat (max_level + 1) →
  ∃ found preds' succs' r,
    LockedSkipList.find fuel k preds succs s = Ok (found, preds', succs') s ∧
    LockedSkipList.search V0 fuel k s = Ok (negb (found =? -1), r) s ∧
    (∀ lv, 0 ≤ lv ≤ max_level →
       ∃ p q pn qn,
         vget preds' lv = Some p ∧ vget succs' lv = Some q ∧
         LockedSkipList.heap s !! p = Some pn ∧ LockedSkipList.heap s !! q = Some qn ∧
         vget (LockedSkipList.forward pn) lv = Some q ∧
         (p = LockedSkipList.header_ s ∨ LockedSkipList.key pn < k) ∧
         p ≠ LockedSkipList.tail_ s ∧
         (q = LockedSkipList.tail_ s ∨ k ≤ LockedSkipList.key qn) ∧
         q ≠ LockedSkipList.header_ s ∧
         (found ≠ -1 → lv = found →
            LockedSkipList.key qn = k ∧ LockedSkipList.node_level qn = found ∧
            q ≠ LockedSkipList.tail_ s)).
Proof.
  intros Hmax Hfuel Hrun Hlp Hls.
  destruct (Locked_reached max_level prob gen fuel os rs s 0 Hmax) as (ts & HR & Hmx & Hen);
    [by rewrite Nat.add_0_r|done|].
  destruct (LockedMore.find_contract V0 s ts k fuel preds succs HR)
    as (found & preds' & succs' & Hfind & Hiff & Hlv); [lia|by rewrite Hmx..|].
  rewrite Hmx in Hlv.
  exists found, preds', succs', (default V0 (model ts !! k)).
  split_and!; [done| |done].
  rewrite (LockedProofs.search_spec V0 s ts k fuel HR) by lia.
  destruct (model ts !! k) as [x|] eqn:Hx; cbn [default].
  - assert (found ≠ -1) as Hne.
    { intros Heq. apply Hiff in Heq. apply Heq, model_dom, elem_of_dom. eauto. }
    destruct (Z.eqb_spec found (-1)); [done|]. reflexivity.
  - assert (found = -1) as ->; [|reflexivity].
    apply Hiff. intros Hin%model_dom%elem_of_dom. rewrite Hx in Hin. by destruct Hin.
Qed.

(** X12: what [find_node] of the coarse variant returns on a list that any
    sequence of calls has left. It changes nothing, and returns the same
    node with or without a vector to fill. The node is null, and then every
    key of the list is smaller than the key looked for, or it has a key that
    is not smaller, which is the key looked for exactly when the list holds
    it. The vector gets [max_level_ + 1] entries: up to [cur_level_] the
    header or a node with a smaller key, whose successor at that level is
    null or has a key that is not smaller and at level 0 is the node
    returned; above [cur_level_], null. *)
Theorem X12_find_node_contract max_level prob gen fuel os rs k (s : FatSkipList.t (V:=V)) :
  0 ≤ max_level → enough fuel max_level 0 (length os) →
  run_ops (Fat V0) fuel os (FatSkipList.create V0 max_level prob gen) = Ok rs s →
  ∃ node l visited,
    FatSkipList.find_node fuel k (Some []) s = Ok (node, Some l) s ∧
    FatSkipList.find_node fuel k None s = Ok (node, None) s ∧
    FatSkipList.for_each_unlocked fuel s = Ok visited s ∧
    length l = Z.to_nat (max_level + 1) ∧
    (node = null ∧ Forall (λ p, p.1 < k) visited ∨
     ∃ n, FatSkipList.heap s !! node = Some n ∧ k ≤ FatSkipList.key n ∧
          (FatSkipList.key n = k ↔ k ∈ visited.*1)) ∧
    (∀ lv, 0 ≤ lv ≤ FatSkipList.cur_level_ s →
       ∃ p pn q,
         vget l lv = Some p ∧ FatSkipList.heap s !! p = Some pn ∧
         (p = FatSkipList.header_ s ∨ FatSkipList.key pn < k) ∧
         vget (FatSkipList.forward pn) lv = Some q ∧
         (q = null ∨ ∃ qn, FatSkipList.heap s !! q = Some qn ∧ k ≤ FatSkipList.key qn) ∧
         (lv = 0 → q = node)) ∧
    (∀ lv, FatSkipList.cur_level_ s < lv ≤ max_level → vget l lv = Some null).
Proof.
  intros Hmax Hfuel Hrun.
  destruct (Fat_reached max_level prob gen fuel os rs s 0 Hmax) as (ts & [HR _] & _ & Hmx & Hen);
    [by rewrite Nat.add_0_r|done|].
  destruct (FatMore.find_node_contract V0 s ts k fuel HR)
    as (node & l & Hf1 & Hf2 & Hlen & Hnode & Hlow & Hhigh); [lia|].
  rewrite Hmx in Hlen, Hhigh.
  exists node, l, (pairs ts). split_and!; try done.
  - apply (FatMore.for_each_unlocked_spec V0); [done|lia].
  - destruct Hnode as [[-> Hall]|(n & Hn & Hge & Hiff)]; [left|right].
    + split; [done|]. by apply Forall_fmap.
    + exists n. split_and!; [done|done|]. by rewrite <- list_fmap_compose.
Qed.

(** X13: called by a single thread, [insert] and [remove] of the concurrent
    variant never go round their [while (true)] a second time: the list is
    validated at the first attempt, and no marked or half-linked node is
    met. With the loop cut after one iteration they give the same result
    and the same list. *)
Theorem X13_no_retry max_level prob gen fuel os rs k v (s : LockedSkipList.t (V:=V)) :
  0 ≤ max_level → enough fuel max_level 0 (length os) →
  run_ops (Locked V0) fuel os (LockedSkipList.create V0 max_level prob gen) = Ok rs s →
  ∃ b1 s1 b2 s2,
    LockedSkipList.insert fuel k v s = Ok b1 s1 ∧
    (let* lvl := LockedSkipList.get_rand_level fuel in
     let* preds := LockedSkipList.new_vector in
     let* succs := LockedSkipList.new_vector in
     LockedSkipList.insert_loop 1 fuel k v lvl preds succs) s = Ok b1 s1 ∧
    LockedSkipList.remove fuel k s = Ok b2 s2 ∧
    (let* preds := LockedSkipList.new_vector in
     let* succs := LockedSkipList.new_vector in
     LockedSkipList.remove_loop 1 fuel k preds succs false (-1)) s = Ok b2 s2.
Proof.
  intros Hmax Hfuel Hrun.
  destruct (Locked_reached max_level prob gen fuel os rs s 0 Hmax) as (ts & HR & Hmx & Hen);
    [by rewrite Nat.add_0_r|done|].
  destruct (LockedMore.insert_exact V0 s ts k v fuel HR) as (s1 & ts1 & Hi & Hi1 & _); [lia..|].
  destruct (LockedMore.remove_exact V0 s ts k fuel HR) as (s2 & Hr & Hr1 & _); [lia|].
  by eexists _, s1, _, s2.
Qed.

(** X16: between the calls of a single thread, every node of the concurrent
    variant other than the header and the tail is fully linked and not
    marked, and has [node_level + 1] forward pointers: [insert] sets
    [fully_linked] before it returns, and [remove] deletes the node that it
    has marked. The header and the tail are never marked, and never fully
    linked either. *)
Theorem X16_nodes_linked_unmarked max_level prob gen fuel os rs (s : LockedSkipList.t (V:=V))
    a n :
  0 ≤ max_level → enough fuel max_level 0 (length os) →
  run_ops (Locked V0) fuel os (LockedSkipList.create V0 max_level prob gen) = Ok rs s →
  LockedSkipList.heap s !! a = Some n →
  LockedSkipList.marked n = false ∧
  LockedSkipList.fully_linked n =
    negb (bool_decide (a = LockedSkipList.header_ s ∨ a = LockedSkipList.tail_ s)) ∧
  Z.of_nat (length (LockedSkipList.forward n)) = LockedSkipList.node_level n + 1.
Proof.
  intros Hmax Hfuel Hrun Hn.
  destruct (Locked_reached max_level prob gen fuel os rs s 0 Hmax) as (ts & HR & Hmx & Hen);
    [by rewrite Nat.add_0_r|done|].
  pose proof (LockedSkipList.rep_max _ _ _ HR) as Hmax'.
  destruct (LockedSkipList.rep_dom _ _ _ HR a) as [->|[->|(u & -> & Hu)%list_elem_of_fmap]].
  { apply LockedProofs.meta_view_is_Some. by rewrite Hn. }
  - pose proof (LockedSkipList.rep_header _ _ _ HR) as Hh.
    apply LockedProofs.meta_view_Some in Hh as (n' & Hn' & _ & _ & ? & ? & ? & ?).
    rewrite Hn in Hn'. injection Hn' as <-.
    rewrite bool_decide_eq_true_2 by auto. split_and!; [done|done|lia].
  - pose proof (LockedSkipList.rep_tail _ _ _ HR) as Hh.
    apply LockedProofs.meta_view_Some in Hh as (n' & Hn' & _ & _ & ? & ? & ? & ?).
    rewrite Hn in Hn'. injection Hn' as <-.
    rewrite bool_decide_eq_true_2 by auto. split_and!; [done|done|lia].
  - destruct (LockedProofs.Rep_node V0 s ts u HR Hu) as (n' & Hn' & _ & _ & Hm & Hfl & Hnl & Hlen).
    rewrite Hn in Hn'. injection Hn' as <-.
    pose proof (LockedProofs.Rep_level V0 s ts u HR Hu) as Hlvl.
    destruct (LockedProofs.Rep_addr V0 s ts u HR Hu).
    rewrite bool_decide_eq_false_2 by naive_solver. split_and!; [done|done|lia].
Qed.

End PerClass.
(** ** The tests pass *)

Section TestsPass.
Variable w : variant.
Implicit Types (s : state string w) (m : gmap Z string).

Local Abbreviation pairs ts := ((λ u, (t_key u, t_val u)) <$> ts).

Lemma holds_new gen : holds w (new_list "" w 16 (1 # 2) gen) ∅ 0.
Proof.
  destruct (wf_new_list "" w 16 (1 # 2) gen) as [Hwf Hmx]; [lia|].
  exists []. split_and!; done.
Qed.

Lemma holds_fuel s n fuel (ts : list (tower string)) :
  (16 + n < fuel)%nat → (length ts ≤ n)%nat → max_level_of w s = 16 →
  enough fuel (max_level_of w s) (length ts) 0.
Proof. intros ? ? ->. unfold enough. lia. Qed.

Lemma tested_insert_new fuel k v s m n :
  holds w s m n → (16 + n < fuel)%nat → m !! k = None →
  ∃ s', sl_insert (methods "" w) fuel k v s = Ok true s' ∧ holds w s' (<[k := v]> m) (S n).
Proof.
  intros (ts & Hwf & <- & Hlen & Hmx) Hfuel Hk.
  destruct (wf_insert "" w s ts k v fuel Hwf) as (s' & ts' & Hrun & Hwf' & Hmod & Hmx' & Hlen').
  { by eapply holds_fuel. }
  apply not_elem_of_dom in Hk.
  rewrite bool_decide_eq_true_2 in Hrun by done. rewrite decide_False in Hmod by done.
  exists s'. split; [exact Hrun|]. exists ts'. split_and!; [done|done|lia|congruence].
Qed.

Lemma tested_insert_old fuel k v s m n :
  holds w s m n → (16 + n < fuel)%nat → is_Some (m !! k) →
  ∃ s', sl_insert (methods "" w) fuel k v s = Ok false s' ∧
        holds w s' (if overwrites w then <[k := v]> m else m) (S n).
Proof.
  intros (ts & Hwf & <- & Hlen & Hmx) Hfuel Hk.
  destruct (wf_insert "" w s ts k v fuel Hwf) as (s' & ts' & Hrun & Hwf' & Hmod & Hmx' & Hlen').
  { by eapply holds_fuel. }
  apply elem_of_dom in Hk.
  rewrite bool_decide_eq_false_2 in Hrun by auto. rewrite decide_True in Hmod by done.
  exists s'. split; [exact Hrun|]. exists ts'. split_and!; [done|done|lia|congruence].
Qed.

Lemma tested_insert s m n fuel k v :
  holds w s m n → (16 + n < fuel)%nat →
  ∃ s' m' b, sl_insert (methods "" w) fuel k v s = Ok b s' ∧ holds w s' m' (S n) ∧
             dom m' ⊆ {[k]} ∪ dom m.
Proof.
  intros H Hfuel. destruct (m !! k) as [x|] eqn:Hk.
  - destruct (tested_insert_old fuel k v s m n H Hfuel) as (s' & Hrun & H'); [done|].
    eexists s', _, false. split_and!; [done|done|].
    destruct (overwrites w); set_solver.
  - destruct (tested_insert_new fuel k v s m n H Hfuel Hk) as (s' & Hrun & H').
    eexists s', _, true. split_and!; [done|done|]. set_solver.
Qed.

Lemma tested_remove_old fuel k s m n :
  holds w s m n → (16 + n < fuel)%nat → is_Some (m !! k) →
  ∃ s', sl_remove (methods "" w) fuel k s = Ok true s' ∧ holds w s' (delete k m) n.
Proof.
  intros (ts & Hwf & <- & Hlen & Hmx) Hfuel Hk.
  destruct (wf_remove_exact "" w s ts k fuel Hwf) as (s' & Hrun & Hwf' & Hmx' & _).
  { by eapply holds_fuel. }
  apply elem_of_dom, model_dom in Hk.
  rewrite bool_decide_eq_true_2 in Hrun by done.
  exists s'. split; [exact Hrun|]. exists (t_remove k ts). split_and!.
  - done.
  - apply model_remove.
  - unfold t_remove. pose proof (length_filter (λ t : tower string, t_key t ≠ k) ts). lia.
  - congruence.
Qed.

Lemma tested_remove_none fuel k s m n :
  holds w s m n → (16 + n < fuel)%nat → m !! k = None →
  sl_remove (methods "" w) fuel k s = Ok false s.
Proof.
  intros (ts & Hwf & <- & Hlen & Hmx) Hfuel Hk.
  destruct (wf_remove_exact "" w s ts k fuel Hwf) as (s' & Hrun & _ & _ & _ & Hid).
  { by eapply holds_fuel. }
  assert (k ∉ t_key <$> ts) as Hout.
  { intros Hin%model_dom%elem_of_dom. rewrite Hk in Hin. by destruct Hin. }
  rewrite bool_decide_eq_false_2 in Hrun by done. by rewrite (Hid Hout) in Hrun.
Qed.

Lemma tested_search fuel k o s m n :
  holds w s m n → (16 + n < fuel)%nat → m !! k = o →
  sl_search (methods "" w) fuel k s =
  Ok (match o with Some v => (true, v) | None => (false, "") end) s.
Proof.
  intros (ts & Hwf & <- & Hlen & Hmx) Hfuel <-.
  apply (wf_search "" w s ts k fuel Hwf). by eapply holds_fuel.
Qed.

Lemma insert_all_ok keys : ∀ s m n fuel,
  holds w s m n → (16 + n + length keys < fuel)%nat →
  ∃ s' m', insert_all (methods "" w) fuel keys s = Ok tt s' ∧
           holds w s' m' (n + length keys) ∧
           dom m' ⊆ list_to_set keys ∪ dom m.
Proof.
  induction keys as [|k keys IH]; intros s m n fuel H Hfuel; cbn [length] in *.
  - exists s, m. rewrite Nat.add_0_r. split_and!; [done|done|set_solver].
  - destruct (tested_insert s m n fuel k (pretty k) H) as (s1 & m1 & b & Hrun & H1 & Hdom);
      [lia|].
    destruct (IH s1 m1 (S n) fuel H1) as (s2 & m2 & Hrun2 & H2 & Hdom2); [lia|].
    exists s2, m2. cbn [insert_all]. rewrite (bind_Ok _ _ _ _ _ Hrun).
    replace (n + S (length keys))%nat with (S n + length keys)%nat by lia.
    split_and!; [done|done|]. set_solver.
Qed.

Lemma visitor_asserts_sorted (ts : list (tower string)) prev :
  sorted ts → Forall (λ u, prev ≤ t_key u) ts → visitor_asserts prev (pairs ts) = true.
Proof.
  revert prev. induction ts as [|u r IH]; intros prev Hs Hall; [done|].
  destruct Hs as [Hlt Hs]. apply Forall_cons in Hall as [Hu _].
  cbn [fmap list_fmap visitor_asserts]. rewrite IH; [|done|].
  - rewrite andb_true_r. by apply Z.leb_le.
  - eapply Forall_impl; [exact Hlt|]. cbn. intros. lia.
Qed.

Lemma assert_true {S} (b : bool) (k : M S (option (list string))) :
  b = true → assert b k = k.
Proof. by intros ->. Qed.

Lemma on_local_Ok {S S' A} (m : M S' A) (e e' : S') (a : A) (s : S) :
  m e = Ok a e' → on_local m e s = Ok (a, e') s.
Proof. unfold on_local. by intros ->. Qed.

(** One call of the test and the [assert] on its result. *)
Ltac tested_call HH lem :=
  let s' := fresh "s" in
  let Hr := fresh "Hr" in
  let HH' := fresh "HH" in
  destruct (lem _ _ _ HH) as (s' & Hr & HH');
  [first [lia|by destruct w; vm_compute|by apply not_eq_None_Some; destruct w; vm_compute]..|
   rewrite (bind_Ok _ _ _ _ _ Hr); cbv beta;
   rewrite assert_true by reflexivity;
   clear Hr HH; rename HH' into HH].

Ltac tested_read HH lem :=
  rewrite (bind_Ok _ _ _ _ _ (lem _ _ _ HH ltac:(lia) ltac:(by destruct w; vm_compute)));
  cbv beta; rewrite assert_true by reflexivity.

Lemma test_basic_operations_ok s fuel out :
  holds w s ∅ 0 → (26 < fuel)%nat →
  ∃ s', test_basic_operations (methods "" w) fuel out s =
          Ok (Some (out ++ ["Basic functionality tests passed."])) s' ∧
        holds w s' (delete 10 (<[5 := "five"]> (<[20 := "twenty"]> (<[10 := "ten"]> ∅)))) 3.
Proof.
  intros HH Hfuel. unfold test_basic_operations.
  tested_call HH (tested_insert_new fuel 10 "ten").
  tested_call HH (tested_insert_new fuel 20 "twenty").
  tested_call HH (tested_insert_new fuel 5 "five").
  tested_read HH (tested_search fuel 10 (Some "ten")).
  tested_read HH (tested_search fuel 5 (Some "five")).
  tested_read HH (tested_search fuel 20 (Some "twenty")).
  tested_read HH (tested_search fuel 15 None).
  tested_call HH (tested_remove_old fuel 10).
  tested_read HH (tested_search fuel 10 None).
  tested_read HH (tested_remove_none fuel 10).
  eexists. split; [reflexivity|exact HH].
Qed.

Lemma empty_list_ok fuel gen :
  (17 < fuel)%nat →
  let e := LockedSkipList.create 0 16 (1 # 2) gen in
  LockedSkipList.remove fuel 50 e = Ok false e ∧
  LockedSkipList.search 0 fuel 50 e = Ok (false, 0) e ∧
  LockedSkipList.destroy fuel e = Ok tt (LockedSkipList.with_heap e ∅).
Proof.
  intros Hfuel e.
  assert (LockedSkipList.Rep 0 e []) as HR by (apply LockedProofs.create_Rep; lia).
  split_and!.
  - destruct (LockedMore.remove_exact 0 e [] 50 fuel HR) as (e' & Hrun & _ & _ & _ & Hid);
      [cbn; lia|].
    rewrite bool_decide_eq_false_2 in Hrun by set_solver. rewrite Hid in Hrun by set_solver. done.
  - rewrite (LockedProofs.search_spec 0 e [] 50 fuel HR) by (cbn; lia). done.
  - apply (LockedMore.destroy_spec 0 e []); [done|cbn; lia].
Qed.

Lemma test_edge_cases_ok s m fuel gen out :
  holds w s m 3 → (26 < fuel)%nat →
  m !! 100 = None → m !! 0 = None → m !! 1000 = None →
  ∃ s' m', test_edge_cases (methods "" w) fuel gen out s =
             Ok (Some (out ++ ["Edge case tests passed."])) s' ∧
           holds w s' m' 7 ∧ dom m' ⊆ {[100]} ∪ dom m.
Proof.
  intros H Hfuel H100 H0 H1000. unfold test_edge_cases.
  destruct (empty_list_ok fuel gen ltac:(lia)) as (He1 & He2 & He3).
  destruct (tested_insert_new fuel 100 "100" s _ _ H) as (s1 & Hr & H1); [lia|done|].
  rewrite (bind_Ok _ _ _ _ _ Hr). cbv beta. rewrite assert_true by reflexivity. clear Hr.
  destruct (tested_insert_old fuel 100 "101" s1 _ _ H1) as (s2 & Hr & H2);
    [lia|by rewrite lookup_insert_eq|].
  rewrite (bind_Ok _ _ _ _ _ Hr). cbv beta. rewrite assert_true by reflexivity. clear Hr.
  set (m2 := if overwrites w then _ else _) in H2.
  assert (m2 !! 0 = None ∧ m2 !! 1000 = None ∧ dom m2 = {[100]} ∪ dom m) as (Hm0 & Hm1000 & Hdom).
  { subst m2. destruct (overwrites w); rewrite ?lookup_insert_ne by done;
      rewrite ?dom_insert_L; split_and!; try done; set_solver. }
  cbv zeta.
  rewrite (bind_Ok _ _ _ _ _ (on_local_Ok _ _ _ _ _ He1)). cbv beta iota.
  rewrite assert_true by reflexivity.
  rewrite (bind_Ok _ _ _ _ _ (on_local_Ok _ _ _ _ _ He2)). cbv beta iota.
  rewrite assert_true by reflexivity.
  destruct (tested_insert_new fuel 0 "0" s2 _ _ H2) as (s3 & Hr & H3); [lia|done|].
  rewrite (bind_Ok _ _ _ _ _ Hr). cbv beta. rewrite assert_true by reflexivity. clear Hr.
  destruct (tested_insert_new fuel 1000 "1000" s3 _ _ H3) as (s4 & Hr & H4);
    [lia|by rewrite lookup_insert_ne|].
  rewrite (bind_Ok _ _ _ _ _ Hr). cbv beta. rewrite assert_true by reflexivity. clear Hr.
  destruct (tested_remove_old fuel 0 s4 _ _ H4) as (s5 & Hr & H5);
    [lia|by rewrite lookup_insert_ne, lookup_insert_eq|].
  rewrite (bind_Ok _ _ _ _ _ Hr). cbv beta. rewrite assert_true by reflexivity. clear Hr.
  destruct (tested_remove_old fuel 1000 s5 _ _ H5) as (s6 & Hr & H6);
    [lia|by rewrite lookup_delete_ne, lookup_insert_eq|].
  rewrite (bind_Ok _ _ _ _ _ Hr). cbv beta. rewrite assert_true by reflexivity. clear Hr.
  rewrite (bind_Ok _ _ _ _ _ (tested_search fuel 0 None s6 _ _ H6 ltac:(lia)
             ltac:(by rewrite lookup_delete_ne, lookup_delete_eq))).
  cbv beta. rewrite assert_true by reflexivity.
  rewrite (bind_Ok _ _ _ _ _ (tested_search fuel 1000 None s6 _ _ H6 ltac:(lia)
             ltac:(by rewrite lookup_delete_eq))).
  cbv beta. rewrite assert_true by reflexivity.
  rewrite (bind_Ok _ _ _ _ _ (on_local_Ok _ _ _ _ _ He3)).
  eexists s6, _. split_and!; [done| |].
  - destruct H6 as (ts & ? & ? & ? & ?). exists ts. split_and!; [done|done|lia|done].
  - rewrite !dom_delete_L, !dom_insert_L, Hdom. set_solver.
Qed.

Lemma test_sorted_after_large_inserts_ok s m n fuel random_keys out :
  holds w s m n → (16 + n + length random_keys < fuel)%nat →
  (∀ k, k ∈ dom m → INT_MIN ≤ k) → Forall (λ k, INT_MIN ≤ k) random_keys →
  ∃ s' m', test_sorted_after_large_inserts (methods "" w) fuel random_keys out s =
             Ok (Some (out ++ ["Large insert and sorted order check passed."])) s' ∧
           holds w s' m' (n + length random_keys).
Proof.
  intros H Hfuel Hm Hkeys. unfold test_sorted_after_large_inserts.
  destruct (insert_all_ok random_keys s m n fuel H Hfuel) as (s1 & m1 & Hrun & H1 & Hdom).
  rewrite (bind_Ok _ _ _ _ _ Hrun). exists s1, m1. split; [|done].
  destruct H1 as (ts & Hwf & <- & Hlen & Hmx).
  cbn [sl_for_each methods].
  rewrite (bind_Ok _ _ _ _ _ (wf_for_each_of "" w s1 ts fuel Hwf
             ltac:(rewrite Hmx; unfold enough; lia))).
  rewrite assert_true; [done|].
  apply visitor_asserts_sorted; [by apply (wf_sorted "" w s1)|].
  apply Forall_forall. intros u Hu.
  assert (t_key u ∈ dom (model ts)) as Hin by (apply model_dom; by apply list_elem_of_fmap_2).
  apply Hdom in Hin. apply elem_of_union in Hin as [Hin|Hin]; [|by apply Hm].
  rewrite Forall_forall in Hkeys. apply Hkeys. by apply elem_of_list_to_set in Hin.
Qed.

Lemma three_tests_ok fuel gen gen' random_keys :
  Forall (λ k, 0 ≤ k < 20000) random_keys →
  (26 + length random_keys < fuel)%nat →
  ∃ s' s'',
    three_tests (methods "" w) fuel gen' random_keys (new_list "" w 16 (1 # 2) gen) =
      Ok (Some tests_passed) s' ∧
    destroy_of w fuel s' = Ok tt s'' ∧ allocated w s'' = 0%nat.
Proof.
  intros Hkeys Hfuel. unfold three_tests.
  destruct (test_basic_operations_ok _ fuel [] (holds_new gen)) as (s1 & Hr1 & H1); [lia|].
  rewrite (bind_Ok _ _ _ _ _ Hr1). cbv beta iota.
  destruct (test_edge_cases_ok s1 _ fuel gen' ["Basic functionality tests passed."] H1)
    as (s2 & m2 & Hr2 & H2 & Hdom2); [lia|done..|].
  cbn [app]. rewrite (bind_Ok _ _ _ _ _ Hr2). cbv beta iota.
  destruct (test_sorted_after_large_inserts_ok s2 m2 7 fuel random_keys
              ["Basic functionality tests passed."; "Edge case tests passed."] H2)
    as (s3 & m3 & Hr3 & H3); [lia| | |].
  { intros k Hk. apply Hdom2 in Hk. rewrite dom_delete_L, !dom_insert_L, dom_empty_L in Hk.
    unfold INT_MIN. set_unfold. lia. }
  { eapply Forall_impl; [exact Hkeys|]. unfold INT_MIN. cbn. intros. lia. }
  destruct H3 as (ts & Hwf & _ & Hlen & Hmx).
  destruct (wf_destroy "" w s3 ts fuel Hwf) as (s4 & Hd & Hz).
  { rewrite Hmx. unfold enough. lia. }
  exists s3, s4. split_and!; [exact Hr3|done|done].
Qed.

End TestsPass.

(** X15: the tests of basic_test.cc pass, on both classes, whatever levels
    the lists draw and whatever keys the third test draws: for every
    generator of the list, every generator of the local list of
    [test_edge_cases] and all random keys in the range of [gen() % 20000],
    no [assert] fails, no operation fails, the three lines are printed, and
    the destructor of the list leaves no node allocated. *)
Theorem X15_tests_pass fuel gen gen' random_keys :
  Forall (λ k, 0 ≤ k < 20000) random_keys →
  (26 + length random_keys < fuel)%nat →
  (∃ s, fatskiplist_test fuel gen gen' random_keys = Ok (Some tests_passed) s ∧
        size (FatSkipList.heap s) = 0%nat) ∧
  (∃ s, locked_skiplist_test fuel gen gen' random_keys = Ok (Some tests_passed) s ∧
        size (LockedSkipList.heap s) = 0%nat).
Proof.
  intros Hkeys Hfuel. split.
  - destruct (three_tests_ok Coarse fuel gen gen' random_keys Hkeys Hfuel)
      as (s' & s'' & Hrun & Hd & Hz).
    exists s''. unfold fatskiplist_test. cbn [new_list] in Hrun.
    rewrite (bind_Ok _ _ _ _ _ Hrun). cbn [destroy_of] in Hd.
    rewrite (bind_Ok _ _ _ _ _ Hd). done.
  - destruct (three_tests_ok Concurrent fuel gen gen' random_keys Hkeys Hfuel)
      as (s' & s'' & Hrun & Hd & Hz).
    exists s''. unfold locked_skiplist_test. cbn [new_list] in Hrun.
    rewrite (bind_Ok _ _ _ _ _ Hrun). cbn [destroy_of] in Hd.
    rewrite (bind_Ok _ _ _ _ _ Hd). done.
Qed.
(** ** The further properties on the lists of the tests *)

Lemma X1_refines_map_witness :
  ∃ (s : state Z Coarse) visited,
    run_ops (impl 0 Coarse) 12 ex_ops (new_list 0 Coarse 2 (1 # 2) ex_gen) =
      Ok (map_run (overwrites Coarse) 0 ex_ops ∅).2 s ∧
    for_each_of Coarse 12 s = Ok visited s ∧
    list_to_map visited = (map_run (overwrites Coarse) 0 ex_ops ∅).1 ∧
    StronglySorted Z.lt visited.*1.
Proof.
  apply (X1_refines_map 0 Coarse 2 (1 # 2) ex_gen 12 ex_ops).
  - lia.
  - unfold enough. cbn. lia.
Defined.

Lemma X2_locks_released_witness : locks_free Concurrent (ex_list Concurrent).
Proof.
  apply (X2_locks_released 0 Concurrent 2 (1 # 2) ex_gen 12 ex_ops ex_results).
  - lia.
  - unfold enough. cbn. lia.
  - apply ex_list_run.
Defined.

Lemma X3_one_node_per_key_witness :
  ∃ visited,
    for_each_of Concurrent 12 (ex_list Concurrent) = Ok visited (ex_list Concurrent) ∧
    allocated Concurrent (ex_list Concurrent) = (sentinels Concurrent + length visited)%nat.
Proof.
  apply (X3_one_node_per_key 0 Concurrent 2 (1 # 2) ex_gen 12 ex_ops ex_results).
  - lia.
  - unfold enough. cbn. lia.
  - apply ex_list_run.
Defined.

Lemma X4_destructor_frees_all_witness :
  ∃ s', destroy_of Coarse 12 (ex_list Coarse) = Ok tt s' ∧ allocated Coarse s' = 0%nat.
Proof.
  apply (X4_destructor_frees_all 0 Coarse 2 (1 # 2) ex_gen 12 ex_ops ex_results).
  - lia.
  - unfold enough. cbn. lia.
  - apply ex_list_run.
Defined.

Lemma X5_dump_levels_witness :
  ∃ visited (at_level : Z → list (Z * Z)),
    for_each_of Concurrent 12 (ex_list Concurrent) = Ok visited (ex_list Concurrent) ∧
    dump_of Concurrent 12 (ex_list Concurrent) =
      Ok (concat ((λ lv, dump_line_of Concurrent lv (at_level lv)) <$>
                  LockedSkipList.levels_down (dump_top Concurrent (ex_list Concurrent))))
         (ex_list Concurrent) ∧
    at_level 0 = visited ∧
    ∀ lv, at_level (lv + 1) `sublist_of` at_level lv.
Proof.
  apply (X5_dump_levels 0 Concurrent 2 (1 # 2) ex_gen 12 ex_ops ex_results).
  - lia.
  - unfold enough. cbn. lia.
  - apply ex_list_run.
Defined.

Lemma X6_draws_consumed_witness :
  ∃ lvl s0',
    get_rand_level_of Concurrent 12 (ex_list Concurrent) = Ok lvl s0' ∧
    0 ≤ lvl ≤ max_level_of Concurrent (ex_list Concurrent) ∧
    (∀ i, (i < Z.to_nat lvl)%nat →
       Qltb (gen_of Concurrent (ex_list Concurrent) i)
            (probability_of Concurrent (ex_list Concurrent)) = true) ∧
    (lvl < max_level_of Concurrent (ex_list Concurrent) →
       Qltb (gen_of Concurrent (ex_list Concurrent) (Z.to_nat lvl))
            (probability_of Concurrent (ex_list Concurrent)) = false) ∧
    (∀ i, gen_of Concurrent s0' i =
          gen_of Concurrent (ex_list Concurrent) (Z.to_nat lvl + 1 + i)%nat).
Proof.
  apply (X6_draws_consumed Concurrent (ex_list Concurrent) 12).
  - vm_compute. discriminate.
  - vm_compute. lia.
Defined.

Lemma X7_failed_remove_changes_nothing_witness :
  state_of (sl_remove (impl 0 Coarse) 12 7 (ex_list Coarse)) = ex_list Coarse.
Proof.
  apply (X7_failed_remove_changes_nothing 0 Coarse 2 (1 # 2) ex_gen 12 ex_ops ex_results 7).
  - lia.
  - unfold enough. cbn. lia.
  - apply ex_list_run.
  - vm_compute. reflexivity.
Defined.

Lemma X8_locked_failed_insert_witness :
  ∃ lvl, 0 ≤ lvl ≤ 2 ∧
    state_of (LockedSkipList.insert 12 10 101 (ex_list Concurrent)) =
    LockedSkipList.with_gen (ex_list Concurrent)
      (drop_draws (Z.to_nat lvl + 1) (LockedSkipList.gen_ (ex_list Concurrent))).
Proof.
  apply (X8_locked_failed_insert 0 2 (1 # 2) ex_gen 12 ex_ops ex_results 10 101).
  - lia.
  - unfold enough. cbn. lia.
  - apply (ex_list_run Concurrent).
  - vm_compute. reflexivity.
Defined.

Lemma X9_fat_failed_insert_witness :
  FatSkipList.gen_ (state_of (FatSkipList.insert 12 10 101 (ex_list Coarse))) =
    FatSkipList.gen_ (ex_list Coarse) ∧
  FatSkipList.cur_level_ (state_of (FatSkipList.insert 12 10 101 (ex_list Coarse))) =
    FatSkipList.cur_level_ (ex_list Coarse) ∧
  size (FatSkipList.heap (state_of (FatSkipList.insert 12 10 101 (ex_list Coarse)))) =
    size (FatSkipList.heap (ex_list Coarse)) ∧
  FatSkipList.mutex_ (state_of (FatSkipList.insert 12 10 101 (ex_list Coarse))) = false.
Proof.
  apply (X9_fat_failed_insert 0 2 (1 # 2) ex_gen 12 ex_ops ex_results 10 101).
  - lia.
  - unfold enough. cbn. lia.
  - apply (ex_list_run Coarse).
  - vm_compute. reflexivity.
Defined.

Lemma X10_cur_level_witness :
  0 ≤ FatSkipList.cur_level_ (ex_list Coarse) ≤ 2 ∧
  (∀ a n, FatSkipList.heap (ex_list Coarse) !! a = Some n →
          a ≠ FatSkipList.header_ (ex_list Coarse) →
          (1 ≤ length (FatSkipList.forward n))%nat ∧
          Z.of_nat (length (FatSkipList.forward n)) ≤ FatSkipList.cur_level_ (ex_list Coarse) + 1) ∧
  (FatSkipList.cur_level_ (ex_list Coarse) = 0 ∨
   ∃ hn q, FatSkipList.heap (ex_list Coarse) !! FatSkipList.header_ (ex_list Coarse) = Some hn ∧
           vget (FatSkipList.forward hn) (FatSkipList.cur_level_ (ex_list Coarse)) = Some q ∧
           q ≠ null).
Proof.
  apply (X10_cur_level 0 2 (1 # 2) ex_gen 12 ex_ops ex_results).
  - lia.
  - unfold enough. cbn. lia.
  - apply (ex_list_run Coarse).
Defined.

Lemma X11_find_contract_witness :
  ∃ found preds' succs' r,
    LockedSkipList.find 12 10 [null; null; null] [null; null; null] (ex_list Concurrent) =
      Ok (found, preds', succs') (ex_list Concurrent) ∧
    LockedSkipList.search 0 12 10 (ex_list Concurrent) =
      Ok (negb (found =? -1), r) (ex_list Concurrent) ∧
    (∀ lv, 0 ≤ lv ≤ 2 →
       ∃ p q pn qn,
         vget preds' lv = Some p ∧ vget succs' lv = Some q ∧
         LockedSkipList.heap (ex_list Concurrent) !! p = Some pn ∧
         LockedSkipList.heap (ex_list Concurrent) !! q = Some qn ∧
         vget (LockedSkipList.forward pn) lv = Some q ∧
         (p = LockedSkipList.header_ (ex_list Concurrent) ∨ LockedSkipList.key pn < 10) ∧
         p ≠ LockedSkipList.tail_ (ex_list Concurrent) ∧
         (q = LockedSkipList.tail_ (ex_list Concurrent) ∨ 10 ≤ LockedSkipList.key qn) ∧
         q ≠ LockedSkipList.header_ (ex_list Concurrent) ∧
         (found ≠ -1 → lv = found →
            LockedSkipList.key qn = 10 ∧ LockedSkipList.node_level qn = found ∧
            q ≠ LockedSkipList.tail_ (ex_list Concurrent))).
Proof.
  apply (X11_find_contract 0 2 (1 # 2) ex_gen 12 ex_ops ex_results 10).
  - lia.
  - unfold enough. cbn. lia.
  - apply (ex_list_run Concurrent).
  - reflexivity.
  - reflexivity.
Defined.

Lemma X12_find_node_contract_witness :
  ∃ node l visited,
    FatSkipList.find_node 12 7 (Some []) (ex_list Coarse) = Ok (node, Some l) (ex_list Coarse) ∧
    FatSkipList.find_node 12 7 None (ex_list Coarse) = Ok (node, None) (ex_list Coarse) ∧
    FatSkipList.for_each_unlocked 12 (ex_list Coarse) = Ok visited (ex_list Coarse) ∧
    length l = Z.to_nat (2 + 1) ∧
    (node = null ∧ Forall (λ p, p.1 < 7) visited ∨
     ∃ n, FatSkipList.heap (ex_list Coarse) !! node = Some n ∧ 7 ≤ FatSkipList.key n ∧
          (FatSkipList.key n = 7 ↔ 7 ∈ visited.*1)) ∧
    (∀ lv, 0 ≤ lv ≤ FatSkipList.cur_level_ (ex_list Coarse) →
       ∃ p pn q,
         vget l lv = Some p ∧ FatSkipList.heap (ex_list Coarse) !! p = Some pn ∧
         (p = FatSkipList.header_ (ex_list Coarse) ∨ FatSkipList.key pn < 7) ∧
         vget (FatSkipList.forward pn) lv = Some q ∧
         (q = null ∨ ∃ qn, FatSkipList.heap (ex_list Coarse) !! q = Some qn ∧
                           7 ≤ FatSkipList.key qn) ∧
         (lv = 0 → q = node)) ∧
    (∀ lv, FatSkipList.cur_level_ (ex_list Coarse) < lv ≤ 2 → vget l lv = Some null).
Proof.
  apply (X12_find_node_contract 0 2 (1 # 2) ex_gen 12 ex_ops ex_results 7).
  - lia.
  - unfold enough. cbn. lia.
  - apply (ex_list_run Coarse).
Defined.

Lemma X13_no_retry_witness :
  ∃ b1 s1 b2 s2,
    LockedSkipList.insert 12 7 70 (ex_list Concurrent) = Ok b1 s1 ∧
    (let* lvl := LockedSkipList.get_rand_level 12 in
     let* preds := LockedSkipList.new_vector in
     let* succs := LockedSkipList.new_vector in
     LockedSkipList.insert_loop 1 12 7 70 lvl preds succs) (ex_list Concurrent) = Ok b1 s1 ∧
    LockedSkipList.remove 12 7 (ex_list Concurrent) = Ok b2 s2 ∧
    (let* preds := LockedSkipList.new_vector in
     let* succs := LockedSkipList.new_vector in
     LockedSkipList.remove_loop 1 12 7 preds succs false (-1)) (ex_list Concurrent) = Ok b2 s2.
Proof.
  apply (X13_no_retry 0 2 (1 # 2) ex_gen 12 ex_ops ex_results 7 70).
  - lia.
  - unfold enough. cbn. lia.
  - apply (ex_list_run Concurrent).
Defined.

Lemma X14_insert_remove_round_trip_witness :
  ∃ s1 s2 visited,
    sl_insert (impl 0 Coarse) 12 7 70 (ex_list Coarse) = Ok true s1 ∧
    sl_remove (impl 0 Coarse) 12 7 s1 = Ok true s2 ∧
    for_each_of Coarse 12 (ex_list Coarse) = Ok visited (ex_list Coarse) ∧
    for_each_of Coarse 12 s2 = Ok visited s2 ∧
    allocated Coarse s2 = allocated Coarse (ex_list Coarse).
Proof.
  apply (X14_insert_remove_round_trip 0 Coarse 2 (1 # 2) ex_gen 12 ex_ops ex_results 7 70 0).
  - lia.
  - unfold enough. cbn. lia.
  - apply ex_list_run.
  - vm_compute. reflexivity.
Defined.

Lemma X15_tests_pass_witness :
  (∃ s, fatskiplist_test 40 ex_gen ex_gen [17; 3; 17; 19999; 0] = Ok (Some tests_passed) s ∧
        size (FatSkipList.heap s) = 0%nat) ∧
  (∃ s, locked_skiplist_test 40 ex_gen ex_gen [17; 3; 17; 19999; 0] = Ok (Some tests_passed) s ∧
        size (LockedSkipList.heap s) = 0%nat).
Proof.
  apply (X15_tests_pass 40 ex_gen ex_gen [17; 3; 17; 19999; 0]).
  - repeat constructor; lia.
  - cbn. lia.
Defined.

Lemma X16_nodes_linked_unmarked_witness :
  LockedSkipList.marked (LockedSkipList.mkNode 5 50 [3%nat; 3%nat] false true 1) = false ∧
  LockedSkipList.fully_linked (LockedSkipList.mkNode 5 50 [3%nat; 3%nat] false true 1) =
    negb (bool_decide (5%nat = LockedSkipList.header_ (ex_list Concurrent) ∨
                       5%nat = LockedSkipList.tail_ (ex_list Concurrent))) ∧
  Z.of_nat (length (LockedSkipList.forward
                      (LockedSkipList.mkNode 5 50 [3%nat; 3%nat] false true 1))) =
    LockedSkipList.node_level (LockedSkipList.mkNode 5 50 [3%nat; 3%nat] false true 1) + 1.
Proof.
  apply (X16_nodes_linked_unmarked 0 2 (1 # 2) ex_gen 12 ex_ops ex_results (ex_list Concurrent)
           5%nat (LockedSkipList.mkNode 5 50 [3%nat; 3%nat] false true 1)).
  - lia.
  - unfold enough. cbn. lia.
  - apply (ex_list_run Concurrent).
  - vm_compute. reflexivity.
Defined.
